(** * SGDAutomaticHover: a palette derived from one base colour by
      finite-difference gradient descent.

    Shallow embedding of [hover2.js] (the extended pipeline, with a learned
    hover policy), of its simple variant (a fixed hover policy) and of
    [hover.js] (the parser of its form, its colour utilities and its
    optimizer [computeHoverColor]), followed by the properties of the
    specification that concern them and by further properties of the
    colour model, the parsers and the optimizers.  The pipeline is embedded
    twice: on arrays as values, and on arrays as cells of a store that the
    functions share and write to; the second reading is shown to compute
    what the first does. *)

From Stdlib Require Import ZArith QArith Qround Qabs Bool List String Ascii.
From Stdlib Require Import DecimalString.
From Stdlib Require Import Lia Lqa Floats Uint63.
From ExtLib Require Import Structures.Monad Data.Monads.IdentityMonad.
From ExtLib Require Import Data.Monads.OptionMonad.
Import ListNotations.

(** ** ECMAScript numbers *)

(** The values of the Number type, with the special values of IEEE 754 kept
    and the finite values read as exact rationals: the rounding of binary64
    is abstracted (every finite result is the mathematical one), there is a
    single zero, and a finite operation never overflows.  The result of an
    arithmetic operation is stored in lowest terms, so that Leibniz equality
    of computed values is equality of numbers. *)
Module JSNumber.

Local Open Scope Q_scope.

Inductive num : Type :=
| NaN
| NegInf
| Fin (q : Q)
| PosInf.

Definition fin (q : Q) : num := Fin (Qred q).

Definition of_Z (z : Z) : num := Fin (inject_Z z).

Definition Qzero (q : Q) : bool := Qeq_bool q 0.
Definition Qneg (q : Q) : bool := negb (Qle_bool 0 q).

Definition is_nan (a : num) : bool :=
  match a with NaN => true | _ => false end.

Definition is_fin (a : num) : bool :=
  match a with Fin _ => true | _ => false end.

Definition neg (a : num) : num :=
  match a with
  | NaN => NaN
  | NegInf => PosInf
  | Fin x => fin (- x)
  | PosInf => NegInf
  end.

Definition add (a b : num) : num :=
  match a, b with
  | NaN, _ | _, NaN => NaN
  | Fin x, Fin y => fin (x + y)
  | PosInf, NegInf | NegInf, PosInf => NaN
  | PosInf, _ | _, PosInf => PosInf
  | NegInf, _ | _, NegInf => NegInf
  end.

Definition sub (a b : num) : num :=
  match a, b with
  | Fin x, Fin y => fin (x - y)
  | _, _ => add a (neg b)
  end.

Definition mul (a b : num) : num :=
  match a, b with
  | NaN, _ | _, NaN => NaN
  | Fin x, Fin y => fin (x * y)
  | Fin x, i | i, Fin x =>
      if Qzero x then NaN else if Qneg x then neg i else i
  | PosInf, PosInf | NegInf, NegInf => PosInf
  | PosInf, NegInf | NegInf, PosInf => NegInf
  end.

(** Division by zero does not raise in ECMAScript: it yields an infinity, or
    NaN for 0/0. *)
Definition div (a b : num) : num :=
  match a, b with
  | NaN, _ | _, NaN => NaN
  | Fin x, Fin y =>
      if Qzero y then
        if Qzero x then NaN else if Qneg x then NegInf else PosInf
      else fin (x / y)
  | Fin _, _ => Fin 0
  | i, Fin y => if Qneg y then neg i else i
  | _, _ => NaN
  end.

(** The relational operators; every comparison with NaN is false. *)
Definition lt (a b : num) : bool :=
  match a, b with
  | NaN, _ | _, NaN => false
  | Fin x, Fin y => negb (Qle_bool y x)
  | _, NegInf => false
  | NegInf, _ => true
  | PosInf, _ => false
  | _, PosInf => true
  end.

Definition le (a b : num) : bool :=
  match a, b with
  | NaN, _ | _, NaN => false
  | Fin x, Fin y => Qle_bool x y
  | NegInf, _ => true
  | _, PosInf => true
  | _, NegInf => false
  | PosInf, _ => false
  end.

Definition gt (a b : num) : bool := lt b a.

(** [===] on numbers. *)
Definition strict_eq (a b : num) : bool :=
  match a, b with
  | Fin x, Fin y => Qeq_bool x y
  | NegInf, NegInf | PosInf, PosInf => true
  | _, _ => false
  end.

Definition sne (a b : num) : bool := negb (strict_eq a b).

Definition Math_max (a b : num) : num :=
  if is_nan a || is_nan b then NaN else if lt a b then b else a.

Definition Math_min (a b : num) : num :=
  if is_nan a || is_nan b then NaN else if lt b a then b else a.

Definition Math_abs (a : num) : num :=
  match a with
  | NaN => NaN
  | Fin x => fin (Qabs x)
  | _ => PosInf
  end.

Definition Math_floor (a : num) : num :=
  match a with
  | Fin x => of_Z (Qfloor x)
  | _ => a
  end.

(** [Math.round] rounds to the nearest integer, a tie going up. *)
Definition Math_round (a : num) : num :=
  match a with
  | Fin x => of_Z (Qfloor (x + (1 # 2)))
  | _ => a
  end.

(** The integer part, towards zero. *)
Definition Qtrunc (x : Q) : Z :=
  if Qneg x then Qceiling x else Qfloor x.

(** [%]: the remainder has the sign of the dividend. *)
Definition rem (a b : num) : num :=
  match a, b with
  | Fin x, Fin y =>
      if Qzero y then NaN else fin (x - y * inject_Z (Qtrunc (x / y)))
  | Fin x, (NegInf | PosInf) => a
  | _, _ => NaN
  end.

(** An integral power, by repeated multiplication. *)
Fixpoint powi (a : num) (n : nat) : num :=
  match n with
  | O => Fin 1
  | S n' => mul a (powi a n')
  end.

(** The exponent as an integer, when it is one. *)
Definition as_integer (a : num) : option Z :=
  match a with
  | Fin x => if Qeq_bool x (inject_Z (Qfloor x)) then Some (Qfloor x) else None
  | _ => None
  end.

Declare Scope num_scope.
Delimit Scope num_scope with num.
Bind Scope num_scope with num.
Infix "+" := add : num_scope.
Infix "-" := sub : num_scope.
Infix "*" := mul : num_scope.
Infix "/" := div : num_scope.
Notation "- a" := (neg a) : num_scope.
Infix "<?" := lt : num_scope.
Infix "<=?" := le : num_scope.
Infix ">?" := gt : num_scope.
Infix "===" := strict_eq (at level 70, no associativity) : num_scope.
Infix "=/=" := sne (at level 70, no associativity) : num_scope.
Infix "%%" := rem (at level 40, left associativity) : num_scope.

End JSNumber.
Export JSNumber.
Coercion Fin : Q >-> num.

(** ** ECMAScript strings *)

(** Strings are sequences of 8-bit characters, the code points U+0000 to
    U+00FF; the white space of the language among them is TAB, LF, VT, FF,
    CR, SP and NBSP. *)
Module JSString.

Local Open Scope string_scope.
Local Open Scope Z_scope.

Definition is_ws (c : ascii) : bool :=
  let n := nat_of_ascii c in
  ((9 <=? n)%nat && (n <=? 13)%nat) || (n =? 32)%nat || (n =? 160)%nat.

Fixpoint trimStart (s : string) : string :=
  match s with
  | EmptyString => EmptyString
  | String c r => if is_ws c then trimStart r else s
  end.

Fixpoint trimEnd (s : string) : string :=
  match s with
  | EmptyString => EmptyString
  | String c r =>
      match trimEnd r with
      | EmptyString => if is_ws c then EmptyString else String c EmptyString
      | r' => String c r'
      end
  end.

Definition trim (s : string) : string := trimEnd (trimStart s).

(** [s.split(sep)] for a one-character separator: the empty string splits
    into one empty piece. *)
Fixpoint split (sep : ascii) (s : string) : list string :=
  match s with
  | EmptyString => [EmptyString]
  | String c r =>
      if Ascii.eqb c sep then EmptyString :: split sep r
      else match split sep r with
           | t :: ts => String c t :: ts
           | [] => [String c EmptyString]
           end
  end.

(** [Boolean] on a string: only the empty string is falsy. *)
Definition Boolean (s : string) : bool :=
  match s with EmptyString => false | String _ _ => true end.

Definition digit (c : ascii) : option Z :=
  let n := nat_of_ascii c in
  if (48 <=? n)%nat && (n <=? 57)%nat then Some (Z.of_nat (n - 48)) else None.

Definition hexdigit (c : ascii) : option Z :=
  let n := nat_of_ascii c in
  if (48 <=? n)%nat && (n <=? 57)%nat then Some (Z.of_nat (n - 48))
  else if (97 <=? n)%nat && (n <=? 102)%nat then Some (Z.of_nat (n - 87))
  else if (65 <=? n)%nat && (n <=? 70)%nat then Some (Z.of_nat (n - 55))
  else None.

Definition octdigit (c : ascii) : option Z :=
  let n := nat_of_ascii c in
  if (48 <=? n)%nat && (n <=? 55)%nat then Some (Z.of_nat (n - 48)) else None.

Definition bindigit (c : ascii) : option Z :=
  let n := nat_of_ascii c in
  if (48 <=? n)%nat && (n <=? 49)%nat then Some (Z.of_nat (n - 48)) else None.

(** The longest prefix of digits of [s]: its value (after [acc]), the number
    of digits read (after [n]) and what is left of [s]. *)
Fixpoint digits (dig : ascii -> option Z) (radix acc : Z) (n : nat)
    (s : string) : Z * nat * string :=
  match s with
  | EmptyString => (acc, n, s)
  | String c r =>
      match dig c with
      | Some d => digits dig radix (acc * radix + d) (S n) r
      | None => (acc, n, s)
      end
  end.

(** A literal made of digits of one radix only, after its prefix. *)
Definition NonDecimalIntegerLiteral (dig : ascii -> option Z) (radix : Z)
    (s : string) : num :=
  match digits dig radix 0 0 s with
  | (v, S _, EmptyString) => of_Z v
  | _ => NaN
  end.

(** [StrUnsignedDecimalLiteral]: [Infinity], or digits with an optional
    fraction and an optional exponent, at least one digit before the
    exponent. *)
Definition StrUnsignedDecimalLiteral (s : string) : num :=
  if String.eqb s "Infinity" then PosInf else
  let '(i, ni, r1) := digits digit 10 0 0 s in
  let '(f, nf, r2) :=
    match r1 with
    | String "." r => digits digit 10 0 0 r
    | _ => (0, O, r1)
    end in
  if (ni + nf =? 0)%nat then NaN else
  let mantissa := inject_Z (i * 10 ^ Z.of_nat nf + f) in
  match r2 with
  | EmptyString => fin (mantissa * Qpower 10 (- Z.of_nat nf))
  | String e r3 =>
      if Ascii.eqb e "e" || Ascii.eqb e "E" then
        let '(negative, r4) :=
          match r3 with
          | String "-" r => (true, r)
          | String "+" r => (false, r)
          | _ => (false, r3)
          end in
        match digits digit 10 0 0 r4 with
        | (x, S _, EmptyString) =>
            fin (mantissa
                 * Qpower 10 ((if negative then - x else x) - Z.of_nat nf))
        | _ => NaN
        end
      else NaN
  end.

(** [Number(s)] on a string (StringToNumber): white space is trimmed, the
    empty string is 0, and what is not a numeric literal is NaN.  A literal
    is read exactly. *)
Definition Number (s : string) : num :=
  match trim s with
  | EmptyString => Fin 0
  | String "0" (String ("x" | "X") r) => NonDecimalIntegerLiteral hexdigit 16 r
  | String "0" (String ("o" | "O") r) => NonDecimalIntegerLiteral octdigit 8 r
  | String "0" (String ("b" | "B") r) => NonDecimalIntegerLiteral bindigit 2 r
  | String "+" r => StrUnsignedDecimalLiteral r
  | String "-" r => neg (StrUnsignedDecimalLiteral r)
  | t => StrUnsignedDecimalLiteral t
  end.

(** [parseInt(s, 10)]: leading white space and a sign are skipped, then the
    longest prefix of decimal digits is read; none is NaN. *)
Definition parseInt10 (s : string) : num :=
  let t := trimStart s in
  let '(negative, r) :=
    match t with
    | String "-" r => (true, r)
    | String "+" r => (false, r)
    | _ => (false, t)
    end in
  match digits digit 10 0 0 r with
  | (v, S _, _) => if negative then neg (of_Z v) else of_Z v
  | _ => NaN
  end.

End JSString.

(** ** Arrays of numbers *)

(** [a[i]]: a read past the end is [undefined], which every arithmetic
    operation turns into NaN. *)
Definition idx (a : list num) (i : nat) : num := nth i a NaN.

(** [a[i] = v]: a write past the end extends the array, the holes reading as
    [undefined]. *)
Fixpoint arr_set (a : list num) (i : nat) (v : num) : list num :=
  match i, a with
  | O, [] => [v]
  | O, _ :: r => v :: r
  | S i', [] => NaN :: arr_set [] i' v
  | S i', x :: r => x :: arr_set r i' v
  end.

(** [a.slice()]: a copy.  Arrays are values here, so the copy is the array:
    every array the source writes to ([p2], [t2], [g], [theta]) was made, by
    [slice], [map] or a literal, in the function that writes to it, and no
    write reaches an array that another name holds. *)
Definition slice (a : list num) : list num := a.

(** [a.map((v, i) => f(v, i))]. *)
Fixpoint mapi_from (f : num -> nat -> num) (i : nat) (a : list num) : list num :=
  match a with
  | [] => []
  | v :: r => f v i :: mapi_from f (S i) r
  end.

Definition mapi (f : num -> nat -> num) (a : list num) : list num :=
  mapi_from f 0 a.

(** ** hover2.js: helpers and parser *)

Open Scope Q_scope.
Open Scope num_scope.

Definition clamp01 (x : num) : num := Math_max 0 (Math_min 1 x).
Definition clamp255 (x : num) : num := Math_round (Math_max 0 (Math_min 255 x)).

Definition parseRGB (text : string) : option (list num) :=
  let parts :=
    filter JSString.Boolean (map JSString.trim (JSString.split "," text)) in
  if negb (List.length parts =? 3)%nat then None else
  let nums := map JSString.Number parts in
  if existsb is_nan nums then None else
  Some (map clamp255 nums).

Definition rgb01 (c : list num) : list num :=
  let r := idx c 0 in let g := idx c 1 in let b := idx c 2 in
  [r / 255; g / 255; b / 255].

Definition rgb255 (c : list num) : list num :=
  let r := idx c 0 in let g := idx c 1 in let b := idx c 2 in
  [clamp255 r; clamp255 g; clamp255 b].

(** ** hover2.js: colour model, losses and optimizers *)

(** The results of the optimizers and of the pipeline, as the objects the
    source returns. *)
Record Gradient : Type := { baseLoss : num; g : list num }.

Record TextResult : Type :=
  { params : list num; color01 : list num; loss : num }.

Record ThetaResult : Type := { theta : list num; theta_loss : num }.

Record PaletteResult : Type :=
  { base01 : list num;
    baseText : TextResult;
    hover01 : list num;
    hoverText : TextResult;
    pageBg01 : list num;
    hoverOpt : ThetaResult }.

(** The option objects of the optimizers; an absent field takes the default
    of the parameter list. *)
Record TextOptions : Type :=
  { o_steps : option nat; o_lr : option num; o_initParams : option (list num) }.

Record ThetaOptions : Type :=
  { h_steps : option nat; h_lr : option num; h_initTheta : option (list num) }.

Definition default {A : Type} (o : option A) (d : A) : A :=
  match o with Some a => a | None => d end.

(** [rgbToHsv], written once over the monad in which its divisions run. *)
Section Divide.

Import MonadNotation.
Local Open Scope monad_scope.

Context {m : Type -> Type} {M : Monad m}.
Variable divide : num -> num -> m num.

Definition rgbToHsv_in (rgb : list num) : m (list num) :=
  let r := idx rgb 0 in let g := idx rgb 1 in let b := idx rgb 2 in
  let max := Math_max (Math_max r g) b in
  let min := Math_min (Math_min r g) b in
  let d := max - min in
  let h : num := 0 in
  s <- (if max === 0 then ret (Fin 0) else divide d max) ;;
  let v := max in
  h <- (if d =/= 0 then
          h <- (if max === r then q <- divide (g - b) d ;; ret (q %% 6)
                else if max === g then q <- divide (b - r) d ;; ret (q + 2)
                else if max === b then q <- divide (r - g) d ;; ret (q + 4)
                else ret h) ;;
          h <- divide h 6 ;;
          ret (if h <? 0 then h + 1 else h)
        else ret h) ;;
  ret [h; s; v].

End Divide.

(** The function as it runs: division is that of the language. *)
Definition rgbToHsv (rgb : list num) : list num :=
  unIdent (rgbToHsv_in (fun a b => mkIdent (a / b)) rgb).

(** The same code with every division checked: a zero divisor is a fault. *)
Definition checked_div (a b : num) : option num :=
  if b === 0 then None else Some (a / b).

Definition rgbToHsv_checked (rgb : list num) : option (list num) :=
  rgbToHsv_in checked_div rgb.

(** [hsvToRgb]; a sector that matches no case leaves the function without a
    [return], that is with [undefined]: the empty array stands for it, its
    channels reading as NaN.  (In the source a read of a channel of
    [undefined] raises; [lossForText_target_defined] below shows that the
    pipeline does not come to it on a background of finite channels.) *)
Definition hsvToRgb (hsv : list num) : list num :=
  let h := idx hsv 0 in let s := idx hsv 1 in let v := idx hsv 2 in
  let i := Math_floor (h * 6) in
  let f := h * 6 - i in
  let p := v * (1 - s) in
  let q := v * (1 - f * s) in
  let t := v * (1 - (1 - f) * s) in
  let k := i %% 6 in
  if k === 0 then [v; t; p]
  else if k === 1 then [q; v; p]
  else if k === 2 then [p; v; t]
  else if k === 3 then [p; q; v]
  else if k === 4 then [t; p; v]
  else if k === 5 then [v; p; q]
  else [].

Definition contrastRatio (L1 L2 : num) : num :=
  let lighter := Math_max L1 L2 in
  let darker := Math_min L1 L2 in
  (lighter + 0.05) / (darker + 0.05).

Section Pipeline.

(** [Math.pow] at an exponent that is not an integer, and [Math.exp]: the
    approximations of the host, whatever they are. *)
Variable pow_approx : num -> num -> num.
Variable Math_exp : num -> num.

(** [Math.pow] and [**]: exact at an integral exponent. *)
Definition Math_pow (b e : num) : num :=
  match as_integer e with
  | Some n =>
      if (0 <=? n)%Z then powi b (Z.to_nat n)
      else 1 / powi b (Z.to_nat (- n))
  | None => pow_approx b e
  end.

Definition srgbToLinear (c : num) : num :=
  if c <=? 0.04045 then c / 12.92 else Math_pow ((c + 0.055) / 1.055) 2.4.

Definition relLuminance (rgb01v : list num) : num :=
  let l := map srgbToLinear rgb01v in
  let r := idx l 0 in let g := idx l 1 in let b := idx l 2 in
  0.2126 * r + 0.7152 * g + 0.0722 * b.

Definition hoverFromBase (base01 theta : list num) : list num :=
  let t := clamp01 (idx theta 0) in
  let fr := clamp01 (idx theta 1) in
  let fg := clamp01 (idx theta 2) in
  let fb := clamp01 (idx theta 3) in
  let r := idx base01 0 in let g := idx base01 1 in let b := idx base01 2 in
  let target := [clamp01 (r * fr); clamp01 (g * fg); clamp01 (b * fb)] in
  [(1 - t) * r + t * idx target 0;
   (1 - t) * g + t * idx target 1;
   (1 - t) * b + t * idx target 2].

Definition sigmoid (x : num) : num := 1 / (1 + Math_exp (- x)).

Definition textColorFromParams (p : list num) : list num :=
  [sigmoid (idx p 0); sigmoid (idx p 1); sigmoid (idx p 2)].

Definition lossForText (bg01 text01 : list num) : num :=
  let Lbg := relLuminance bg01 in
  let Ltx := relLuminance text01 in
  let cr := contrastRatio Lbg Ltx in
  let targetContrast : num := 6 in
  let contrastLoss := Math_pow (Math_max 0 (targetContrast - cr)) 2 in
  let hsv := rgbToHsv bg01 in
  let h := idx hsv 0 in let s := idx hsv 1 in
  let targetH := (h + 0.5) %% 1 in
  let targetS := clamp01 (Math_max 0.55 s) in
  let targetV : num := if Lbg >? 0.5 then 0.15 else 0.95 in
  let targetRgb := hsvToRgb [targetH; targetS; targetV] in
  let styleWeight : num := 0.18 in
  let styleLoss :=
    Math_pow (idx text01 0 - idx targetRgb 0) 2 +
    Math_pow (idx text01 1 - idx targetRgb 1) 2 +
    Math_pow (idx text01 2 - idx targetRgb 2) 2 in
  let reg :=
    0.0015 * (Math_pow (idx text01 0) 2 + Math_pow (idx text01 1) 2
              + Math_pow (idx text01 2) 2) in
  contrastLoss + styleWeight * styleLoss + reg.

Definition gradNumerical (bg01 params : list num) : Gradient :=
  let eps : num := 1e-3 in
  let baseLoss := lossForText bg01 (textColorFromParams params) in
  let g :=
    fold_left
      (fun g i =>
         let p2 := slice params in
         let p2 := arr_set p2 i (idx p2 i + eps) in
         let l2 := lossForText bg01 (textColorFromParams p2) in
         arr_set g i ((l2 - baseLoss) / eps))
      (List.seq 0 3) [Fin 0; Fin 0; Fin 0] in
  {| baseLoss := baseLoss; g := g |}.

(** One turn of the loop of [optimizeText], on its variables [p] and [lr]. *)
Definition optimizeText_step (bg01 : list num) (st : list num * num)
    (s : nat) : list num * num :=
  let '(p, lr) := st in
  let g := g (gradNumerical bg01 p) in
  let p := mapi (fun v i => v - lr * idx g i) p in
  let lr := if (s =? 60)%nat then lr * 0.6 else lr in
  let lr := if (s =? 110)%nat then lr * 0.7 else lr in
  (p, lr).

(** The loop of [optimizeText], for [s] from 0 to [turns - 1]. *)
Definition optimizeText_loop (bg01 : list num) (turns : nat)
    (st : list num * num) : list num * num :=
  fold_left (optimizeText_step bg01) (List.seq 0 turns) st.

Definition optimizeText (bg01 : list num) (opts : TextOptions) : TextResult :=
  let steps := default (o_steps opts) 160%nat in
  let lr := default (o_lr opts) (Fin 0.35) in
  let initParams := default (o_initParams opts) [Fin 0; Fin 0; Fin 0] in
  let p := slice initParams in
  let '(p, _) := optimizeText_loop bg01 steps (p, lr) in
  {| params := p;
     color01 := textColorFromParams p;
     loss := lossForText bg01 (textColorFromParams p) |}.

Definition lossForHoverTheta (base01 theta : list num) : num :=
  let hover01 := hoverFromBase base01 theta in
  let diff :=
    Math_pow (idx hover01 0 - idx base01 0) 2 +
    Math_pow (idx hover01 1 - idx base01 1) 2 +
    Math_pow (idx hover01 2 - idx base01 2) 2 in
  let targetDiff : num := 0.06 in
  let diffLoss := Math_pow (diff - targetDiff) 2 in
  let Lb := relLuminance base01 in
  let Lh := relLuminance hover01 in
  let lumDiff := Math_abs (Lh - Lb) in
  let targetLum : num := 0.25 in
  let lumLoss := Math_pow (lumDiff - targetLum) 2 in
  let extremeLoss :=
    Math_pow (Math_max 0 (0.08 - Lh)) 2 +
    Math_pow (Math_max 0 (Lh - 0.92)) 2 in
  let reg :=
    0.002 * (Math_pow (idx theta 0 - 0.18) 2 +
             Math_pow (idx theta 1 - 0.82) 2 +
             Math_pow (idx theta 2 - 0.86) 2 +
             Math_pow (idx theta 3 - 0.92) 2) in
  diffLoss + 0.6 * lumLoss + 0.2 * extremeLoss + reg.

Definition gradThetaNumerical (base01 theta : list num) : Gradient :=
  let eps : num := 1e-3 in
  let baseLoss := lossForHoverTheta base01 theta in
  let g :=
    fold_left
      (fun g i =>
         let t2 := slice theta in
         let t2 := arr_set t2 i (idx t2 i + eps) in
         let l2 := lossForHoverTheta base01 t2 in
         arr_set g i ((l2 - baseLoss) / eps))
      (List.seq 0 4) [Fin 0; Fin 0; Fin 0; Fin 0] in
  {| baseLoss := baseLoss; g := g |}.

(** One turn of the loop of [optimizeHoverTheta], on [theta] and [lr]. *)
Definition optimizeHoverTheta_step (base01 : list num)
    (st : list num * num) (s : nat) : list num * num :=
  let '(theta, lr) := st in
  let g := g (gradThetaNumerical base01 theta) in
  let theta := mapi (fun v i => v - lr * idx g i) theta in
  let theta := arr_set theta 0 (Math_max 0.35 (clamp01 (idx theta 0))) in
  let theta := arr_set theta 1 (clamp01 (Math_max 0.35 (idx theta 1))) in
  let theta := arr_set theta 2 (clamp01 (Math_max 0.35 (idx theta 2))) in
  let theta := arr_set theta 3 (clamp01 (Math_max 0.35 (idx theta 3))) in
  let lr := if (s =? 60)%nat then lr * 0.6 else lr in
  let lr := if (s =? 110)%nat then lr * 0.7 else lr in
  (theta, lr).

(** The loop of [optimizeHoverTheta], for [s] from 0 to [turns - 1]. *)
Definition optimizeHoverTheta_loop (base01 : list num) (turns : nat)
    (st : list num * num) : list num * num :=
  fold_left (optimizeHoverTheta_step base01) (List.seq 0 turns) st.

Definition optimizeHoverTheta (base01 : list num) (opts : ThetaOptions)
    : ThetaResult :=
  let steps := default (h_steps opts) 900%nat in
  let lr := default (h_lr opts) (Fin 1.4) in
  let initTheta :=
    default (h_initTheta opts) [Fin 0.18; Fin 0.82; Fin 0.86; Fin 0.92] in
  let theta := slice initTheta in
  let '(theta, _) := optimizeHoverTheta_loop base01 steps (theta, lr) in
  {| theta := theta; theta_loss := lossForHoverTheta base01 theta |}.

Definition applyChain (baseRgb255 : list num) : PaletteResult :=
  let base01 := rgb01 baseRgb255 in
  let baseText :=
    optimizeText base01
      {| o_steps := None; o_lr := None;
         o_initParams := Some [Fin 0.5; Fin 0.5; Fin 0.5] |} in
  let hoverOpt :=
    optimizeHoverTheta base01
      {| h_steps := None; h_lr := None; h_initTheta := None |} in
  let hover01 := hoverFromBase base01 (theta hoverOpt) in
  let hoverText :=
    optimizeText hover01
      {| o_steps := None; o_lr := None;
         o_initParams := Some (params baseText) |} in
  let pageBg01 :=
    [clamp01 (idx base01 0 * 0.10);
     clamp01 (idx base01 1 * 0.10);
     clamp01 (idx base01 2 * 0.10)] in
  {| base01 := base01; baseText := baseText; hover01 := hover01;
     hoverText := hoverText; pageBg01 := pageBg01; hoverOpt := hoverOpt |}.

End Pipeline.

(** ** The simple variant: a fixed hover policy *)

Module Simple.

Record PaletteResult : Type :=
  { base01 : list num;
    baseText : TextResult;
    hover01 : list num;
    hoverText : TextResult;
    pageBg01 : list num }.

Definition hoverFromBase (base01 : list num) : list num :=
  let t : num := 0.18 in
  let r := idx base01 0 in let g := idx base01 1 in let b := idx base01 2 in
  let target := [clamp01 (r * 0.82); clamp01 (g * 0.86); clamp01 (b * 0.92)] in
  [(1 - t) * r + t * idx target 0;
   (1 - t) * g + t * idx target 1;
   (1 - t) * b + t * idx target 2].

Section Pipeline.

Variable pow_approx : num -> num -> num.
Variable Math_exp : num -> num.

Definition applyChain (baseRgb255 : list num) : PaletteResult :=
  let base01 := rgb01 baseRgb255 in
  let baseText :=
    optimizeText pow_approx Math_exp base01
      {| o_steps := None; o_lr := None;
         o_initParams := Some [Fin 0.5; Fin 0.5; Fin 0.5] |} in
  let hover01 := hoverFromBase base01 in
  let hoverText :=
    optimizeText pow_approx Math_exp hover01
      {| o_steps := None; o_lr := None;
         o_initParams := Some (params baseText) |} in
  let pageBg01 :=
    [clamp01 (idx base01 0 * 0.10);
     clamp01 (idx base01 1 * 0.10);
     clamp01 (idx base01 2 * 0.10)] in
  {| base01 := base01; baseText := baseText; hover01 := hover01;
     hoverText := hoverText; pageBg01 := pageBg01 |}.

End Pipeline.

End Simple.

(** ** The store: the arrays of hover2.js as the source shares and writes them *)

(** Above, an array is a value and [slice] is the identity.  Here an array
    is a cell of a heap, named by its index, as it is in the language: a
    literal, [slice] and [map] make a new cell, [a[i] = v] writes into the
    cell that [a] names, and a name passed to a function is the cell of the
    caller.  The world holds the heap and the count of the numbers read so
    far from the sources of chance of the host, [Math.random] among them.
    The objects that the functions return are never written to once they
    are made: they are records of numbers and of names of arrays. *)
Module Store.

Definition ref : Type := nat.

Record world : Type := { heap : list (list num); draws : nat }.

Definition M (A : Type) : Type := world -> A * world.

Definition ret {A : Type} (a : A) : M A := fun w => (a, w).

Definition bind {A B : Type} (c : M A) (k : A -> M B) : M B :=
  fun w => k (fst (c w)) (snd (c w)).

Declare Scope store_scope.
Delimit Scope store_scope with store.
Notation "x <- c ;; k" := (bind c (fun x => k))
  (at level 61, c at next level, right associativity) : store_scope.
Notation "c ;; k" := (bind c (fun _ => k))
  (at level 61, right associativity) : store_scope.
Local Open Scope store_scope.

(** The cell that a name names; a name of no cell reads as the empty
    array. *)
Definition cell (w : world) (a : ref) : list num := nth a (heap w) [].

(** A literal, or any array that is made: a new cell at the end of the
    heap. *)
Definition alloc (l : list num) : M ref :=
  fun w => (List.length (heap w),
            {| heap := (heap w ++ [l])%list; draws := draws w |}).

Definition read (a : ref) : M (list num) := fun w => (cell w a, w).

(** [a[i]]. *)
Definition get (a : ref) (i : nat) : M num := fun w => (idx (cell w a) i, w).

Fixpoint update (a : nat) (l : list num) (h : list (list num))
    : list (list num) :=
  match h, a with
  | [], _ => []
  | _ :: r, O => l :: r
  | x :: r, S a' => x :: update a' l r
  end.

(** [a[i] = v]: the cell is written in place, for every holder of the
    name. *)
Definition set (a : ref) (i : nat) (v : num) : M unit :=
  fun w => (tt, {| heap := update a (arr_set (cell w a) i v) (heap w);
                   draws := draws w |}).

(** [a.slice()]: a copy in a new cell. *)
Definition slice (a : ref) : M ref := l <- read a ;; alloc l.

(** [a.map((v, i) => f(v, i))]: the results in a new cell.  The callbacks
    of the source write to no array, so the elements are those that the
    array has when [map] is called. *)
Fixpoint map_from (f : num -> nat -> M num) (i : nat) (l : list num)
    : M (list num) :=
  match l with
  | [] => ret []
  | v :: r => x <- f v i ;; xs <- map_from f (S i) r ;; ret (x :: xs)
  end.

Definition map (f : num -> nat -> M num) (a : ref) : M ref :=
  l <- read a ;; l' <- map_from f 0 l ;; alloc l'.

(** [Math.random()]: the next number of the stream of the host.  No
    function below calls it. *)
Definition Math_random (stream : nat -> num) : M num :=
  fun w => (stream (draws w), {| heap := heap w; draws := S (draws w) |}).

(** [for (const i of l) body(i)], and a loop that assigns to the variables
    [s] of its function. *)
Fixpoint for_each {A : Type} (l : list A) (body : A -> M unit) : M unit :=
  match l with
  | [] => ret tt
  | a :: r => body a ;; for_each r body
  end.

Fixpoint fold {S A : Type} (body : S -> A -> M S) (l : list A) (s : S)
    : M S :=
  match l with
  | [] => ret s
  | a :: r => s' <- body s a ;; fold body r s'
  end.

(** The objects of the results, with the names of their arrays. *)
Record Gradient : Type := { baseLoss : num; g : ref }.

Record TextResult : Type := { params : ref; color01 : ref; loss : num }.

Record ThetaResult : Type := { theta : ref; theta_loss : num }.

Record PaletteResult : Type :=
  { base01 : ref;
    baseText : TextResult;
    hover01 : ref;
    hoverText : TextResult;
    pageBg01 : ref;
    hoverOpt : ThetaResult }.

Record TextOptions : Type :=
  { o_steps : option nat; o_lr : option num; o_initParams : option ref }.

Record ThetaOptions : Type :=
  { h_steps : option nat; h_lr : option num; h_initTheta : option ref }.

(** The two conversions read three numbers and make the array of three
    numbers that the functions on values compute from them. *)
Local Abbreviation rgbToHsv_value := rgbToHsv (only parsing).
Local Abbreviation hsvToRgb_value := hsvToRgb (only parsing).

Definition rgb01 (c : ref) : M ref :=
  r <- get c 0 ;; g <- get c 1 ;; b <- get c 2 ;;
  alloc [r / 255; g / 255; b / 255].

Definition rgbToHsv (rgb : ref) : M ref :=
  r <- get rgb 0 ;; g <- get rgb 1 ;; b <- get rgb 2 ;;
  alloc (rgbToHsv_value [r; g; b]).

Definition hsvToRgb (hsv : ref) : M ref :=
  h <- get hsv 0 ;; s <- get hsv 1 ;; v <- get hsv 2 ;;
  alloc (hsvToRgb_value [h; s; v]).

Section Pipeline.

Variable pow_approx : num -> num -> num.
Variable Math_exp : num -> num.

Definition relLuminance (rgb01v : ref) : M num :=
  l <- map (fun c _ => ret (srgbToLinear pow_approx c)) rgb01v ;;
  r <- get l 0 ;; g <- get l 1 ;; b <- get l 2 ;;
  ret (0.2126 * r + 0.7152 * g + 0.0722 * b).

Definition hoverFromBase (base01 theta : ref) : M ref :=
  t0 <- get theta 0 ;; let t := clamp01 t0 in
  t1 <- get theta 1 ;; let fr := clamp01 t1 in
  t2 <- get theta 2 ;; let fg := clamp01 t2 in
  t3 <- get theta 3 ;; let fb := clamp01 t3 in
  r <- get base01 0 ;; g <- get base01 1 ;; b <- get base01 2 ;;
  target <- alloc [clamp01 (r * fr); clamp01 (g * fg); clamp01 (b * fb)] ;;
  x0 <- get target 0 ;; x1 <- get target 1 ;; x2 <- get target 2 ;;
  alloc [(1 - t) * r + t * x0; (1 - t) * g + t * x1; (1 - t) * b + t * x2].

Definition textColorFromParams (p : ref) : M ref :=
  p0 <- get p 0 ;; p1 <- get p 1 ;; p2 <- get p 2 ;;
  alloc [sigmoid Math_exp p0; sigmoid Math_exp p1; sigmoid Math_exp p2].

Definition lossForText (bg01 text01 : ref) : M num :=
  Lbg <- relLuminance bg01 ;;
  Ltx <- relLuminance text01 ;;
  let cr := contrastRatio Lbg Ltx in
  let targetContrast : num := 6 in
  let contrastLoss :=
    Math_pow pow_approx (Math_max 0 (targetContrast - cr)) 2 in
  hsv <- rgbToHsv bg01 ;;
  h <- get hsv 0 ;; s <- get hsv 1 ;;
  let targetH := (h + 0.5) %% 1 in
  let targetS := clamp01 (Math_max 0.55 s) in
  let targetV : num := if Lbg >? 0.5 then 0.15 else 0.95 in
  target <- alloc [targetH; targetS; targetV] ;;
  targetRgb <- hsvToRgb target ;;
  let styleWeight : num := 0.18 in
  a0 <- get text01 0 ;; b0 <- get targetRgb 0 ;;
  a1 <- get text01 1 ;; b1 <- get targetRgb 1 ;;
  a2 <- get text01 2 ;; b2 <- get targetRgb 2 ;;
  let styleLoss :=
    Math_pow pow_approx (a0 - b0) 2 + Math_pow pow_approx (a1 - b1) 2
    + Math_pow pow_approx (a2 - b2) 2 in
  c0 <- get text01 0 ;; c1 <- get text01 1 ;; c2 <- get text01 2 ;;
  let reg :=
    0.0015 * (Math_pow pow_approx c0 2 + Math_pow pow_approx c1 2
              + Math_pow pow_approx c2 2) in
  ret (contrastLoss + styleWeight * styleLoss + reg).

Definition gradNumerical (bg01 params : ref) : M Gradient :=
  let eps : num := 1e-3 in
  text <- textColorFromParams params ;;
  baseLoss <- lossForText bg01 text ;;
  g <- alloc [Fin 0; Fin 0; Fin 0] ;;
  for_each (List.seq 0 3)
    (fun i =>
       p2 <- slice params ;;
       x <- get p2 i ;; set p2 i (x + eps) ;;
       text2 <- textColorFromParams p2 ;;
       l2 <- lossForText bg01 text2 ;;
       set g i ((l2 - baseLoss) / eps)) ;;
  ret {| baseLoss := baseLoss; g := g |}.

(** One turn of the loop of [optimizeText], on its variables [p] and [lr]. *)
Definition optimizeText_step (bg01 : ref) (st : ref * num) (s : nat)
    : M (ref * num) :=
  let '(p, lr) := st in
  gr <- gradNumerical bg01 p ;;
  p <- map (fun v i => gi <- get (g gr) i ;; ret (v - lr * gi)) p ;;
  let lr := if (s =? 60)%nat then lr * 0.6 else lr in
  let lr := if (s =? 110)%nat then lr * 0.7 else lr in
  ret (p, lr).

Definition optimizeText (bg01 : ref) (opts : TextOptions) : M TextResult :=
  let steps := default (o_steps opts) 160%nat in
  let lr := default (o_lr opts) (Fin 0.35) in
  initParams <- match o_initParams opts with
                | Some a => ret a
                | None => alloc [Fin 0; Fin 0; Fin 0]
                end ;;
  p <- slice initParams ;;
  st <- fold (optimizeText_step bg01) (List.seq 0 steps) (p, lr) ;;
  let p := fst st in
  color <- textColorFromParams p ;;
  text <- textColorFromParams p ;;
  l <- lossForText bg01 text ;;
  ret {| params := p; color01 := color; loss := l |}.

Definition lossForHoverTheta (base01 theta : ref) : M num :=
  hover01 <- hoverFromBase base01 theta ;;
  h0 <- get hover01 0 ;; b0 <- get base01 0 ;;
  h1 <- get hover01 1 ;; b1 <- get base01 1 ;;
  h2 <- get hover01 2 ;; b2 <- get base01 2 ;;
  let diff :=
    Math_pow pow_approx (h0 - b0) 2 + Math_pow pow_approx (h1 - b1) 2
    + Math_pow pow_approx (h2 - b2) 2 in
  let targetDiff : num := 0.06 in
  let diffLoss := Math_pow pow_approx (diff - targetDiff) 2 in
  Lb <- relLuminance base01 ;;
  Lh <- relLuminance hover01 ;;
  let lumDiff := Math_abs (Lh - Lb) in
  let targetLum : num := 0.25 in
  let lumLoss := Math_pow pow_approx (lumDiff - targetLum) 2 in
  let extremeLoss :=
    Math_pow pow_approx (Math_max 0 (0.08 - Lh)) 2
    + Math_pow pow_approx (Math_max 0 (Lh - 0.92)) 2 in
  t0 <- get theta 0 ;; t1 <- get theta 1 ;;
  t2 <- get theta 2 ;; t3 <- get theta 3 ;;
  let reg :=
    0.002 * (Math_pow pow_approx (t0 - 0.18) 2
             + Math_pow pow_approx (t1 - 0.82) 2
             + Math_pow pow_approx (t2 - 0.86) 2
             + Math_pow pow_approx (t3 - 0.92) 2) in
  ret (diffLoss + 0.6 * lumLoss + 0.2 * extremeLoss + reg).

Definition gradThetaNumerical (base01 theta : ref) : M Gradient :=
  let eps : num := 1e-3 in
  baseLoss <- lossForHoverTheta base01 theta ;;
  g <- alloc [Fin 0; Fin 0; Fin 0; Fin 0] ;;
  for_each (List.seq 0 4)
    (fun i =>
       t2 <- slice theta ;;
       x <- get t2 i ;; set t2 i (x + eps) ;;
       l2 <- lossForHoverTheta base01 t2 ;;
       set g i ((l2 - baseLoss) / eps)) ;;
  ret {| baseLoss := baseLoss; g := g |}.

(** One turn of the loop of [optimizeHoverTheta], on [theta] and [lr]. *)
Definition optimizeHoverTheta_step (base01 : ref) (st : ref * num) (s : nat)
    : M (ref * num) :=
  let '(theta, lr) := st in
  gr <- gradThetaNumerical base01 theta ;;
  theta <- map (fun v i => gi <- get (g gr) i ;; ret (v - lr * gi)) theta ;;
  x0 <- get theta 0 ;; set theta 0 (Math_max 0.35 (clamp01 x0)) ;;
  x1 <- get theta 1 ;; set theta 1 (clamp01 (Math_max 0.35 x1)) ;;
  x2 <- get theta 2 ;; set theta 2 (clamp01 (Math_max 0.35 x2)) ;;
  x3 <- get theta 3 ;; set theta 3 (clamp01 (Math_max 0.35 x3)) ;;
  let lr := if (s =? 60)%nat then lr * 0.6 else lr in
  let lr := if (s =? 110)%nat then lr * 0.7 else lr in
  ret (theta, lr).

Definition optimizeHoverTheta (base01 : ref) (opts : ThetaOptions)
    : M ThetaResult :=
  let steps := default (h_steps opts) 900%nat in
  let lr := default (h_lr opts) (Fin 1.4) in
  initTheta <- match h_initTheta opts with
               | Some a => ret a
               | None => alloc [Fin 0.18; Fin 0.82; Fin 0.86; Fin 0.92]
               end ;;
  theta <- slice initTheta ;;
  st <- fold (optimizeHoverTheta_step base01) (List.seq 0 steps) (theta, lr) ;;
  let theta := fst st in
  l <- lossForHoverTheta base01 theta ;;
  ret {| theta := theta; theta_loss := l |}.

Definition applyChain (baseRgb255 : ref) : M PaletteResult :=
  base01 <- rgb01 baseRgb255 ;;
  init <- alloc [Fin 0.5; Fin 0.5; Fin 0.5] ;;
  baseText <-
    optimizeText base01
      {| o_steps := None; o_lr := None; o_initParams := Some init |} ;;
  hoverOpt <-
    optimizeHoverTheta base01
      {| h_steps := None; h_lr := None; h_initTheta := None |} ;;
  hover01 <- hoverFromBase base01 (theta hoverOpt) ;;
  hoverText <-
    optimizeText hover01
      {| o_steps := None; o_lr := None;
         o_initParams := Some (params baseText) |} ;;
  b0 <- get base01 0 ;; b1 <- get base01 1 ;; b2 <- get base01 2 ;;
  pageBg01 <-
    alloc [clamp01 (b0 * 0.10); clamp01 (b1 * 0.10); clamp01 (b2 * 0.10)] ;;
  ret {| base01 := base01; baseText := baseText; hover01 := hover01;
         hoverText := hoverText; pageBg01 := pageBg01;
         hoverOpt := hoverOpt |}.

End Pipeline.

(** The simple variant. *)
Module Simple.

Record PaletteResult : Type :=
  { base01 : ref;
    baseText : TextResult;
    hover01 : ref;
    hoverText : TextResult;
    pageBg01 : ref }.

Definition hoverFromBase (base01 : ref) : M ref :=
  let t : num := 0.18 in
  r <- get base01 0 ;; g <- get base01 1 ;; b <- get base01 2 ;;
  target <- alloc [clamp01 (r * 0.82); clamp01 (g * 0.86);
                   clamp01 (b * 0.92)] ;;
  x0 <- get target 0 ;; x1 <- get target 1 ;; x2 <- get target 2 ;;
  alloc [(1 - t) * r + t * x0; (1 - t) * g + t * x1; (1 - t) * b + t * x2].

Section Pipeline.

Variable pow_approx : num -> num -> num.
Variable Math_exp : num -> num.

Definition applyChain (baseRgb255 : ref) : M PaletteResult :=
  base01 <- rgb01 baseRgb255 ;;
  init <- alloc [Fin 0.5; Fin 0.5; Fin 0.5] ;;
  baseText <-
    optimizeText pow_approx Math_exp base01
      {| o_steps := None; o_lr := None; o_initParams := Some init |} ;;
  hover01 <- hoverFromBase base01 ;;
  hoverText <-
    optimizeText pow_approx Math_exp hover01
      {| o_steps := None; o_lr := None;
         o_initParams := Some (params baseText) |} ;;
  b0 <- get base01 0 ;; b1 <- get base01 1 ;; b2 <- get base01 2 ;;
  pageBg01 <-
    alloc [clamp01 (b0 * 0.10); clamp01 (b1 * 0.10); clamp01 (b2 * 0.10)] ;;
  ret {| base01 := base01; baseText := baseText; hover01 := hover01;
         hoverText := hoverText; pageBg01 := pageBg01 |}.

End Pipeline.

End Simple.

(** What the statements say of a world: an array holds given numbers; a
    world extends another, every cell of which it keeps as it is, with no
    number drawn in between. *)
Definition holds (w : world) (a : ref) (l : list num) : Prop :=
  nth_error (heap w) a = Some l.

Definition grows (w w' : world) : Prop :=
  (exists n, heap w' = (heap w ++ n)%list) /\ draws w' = draws w.

(** A computation run from a world ends in a result and a world of which a
    property holds. *)
Definition wp {A : Type} (c : M A) (w : world) (Q : A -> world -> Prop)
    : Prop :=
  Q (fst (c w)) (snd (c w)).

(** It makes an array of given numbers, in a cell that the world it was
    run from does not have, and leaves that world as it was. *)
Definition makes (c : M ref) (w : world) (l : list num) : Prop :=
  wp c w (fun a w' =>
            grows w w' /\ holds w' a l /\ (List.length (heap w) <= a)%nat).

(** It computes a given number and leaves the world as it was. *)
Definition computes (c : M num) (w : world) (v : num) : Prop :=
  wp c w (fun x w' => grows w w' /\ x = v).

End Store.

(** The results as they read in a world: every name replaced by the numbers
    of its cell. *)
Definition text_in (w : Store.world) (t : Store.TextResult) : TextResult :=
  {| params := Store.cell w (Store.params t);
     color01 := Store.cell w (Store.color01 t);
     loss := Store.loss t |}.

(** The options as they read in a world. *)
Definition text_options_in (w : Store.world) (o : Store.TextOptions)
    : TextOptions :=
  {| o_steps := Store.o_steps o; o_lr := Store.o_lr o;
     o_initParams := option_map (Store.cell w) (Store.o_initParams o) |}.

Definition theta_options_in (w : Store.world) (o : Store.ThetaOptions)
    : ThetaOptions :=
  {| h_steps := Store.h_steps o; h_lr := Store.h_lr o;
     h_initTheta := option_map (Store.cell w) (Store.h_initTheta o) |}.

(** A name that an option may hold names a cell of the world. *)
Definition named (w : Store.world) (o : option Store.ref) : Prop :=
  match o with
  | Some a => (a < List.length (Store.heap w))%nat
  | None => True
  end.

(** A result of [optimizeText] in a world [w'] reached from [w]: its arrays
    are cells that [w] did not have, and they hold the numbers of a result
    on values. *)
Definition text_made (w w' : Store.world) (t : Store.TextResult)
    (v : TextResult) : Prop :=
  Store.holds w' (Store.params t) (params v)
  /\ Store.holds w' (Store.color01 t) (color01 v)
  /\ Store.loss t = loss v
  /\ (List.length (Store.heap w) <= Store.params t)%nat
  /\ (List.length (Store.heap w) <= Store.color01 t)%nat.

Definition theta_made (w w' : Store.world) (t : Store.ThetaResult)
    (v : ThetaResult) : Prop :=
  Store.holds w' (Store.theta t) (theta v)
  /\ Store.theta_loss t = theta_loss v
  /\ (List.length (Store.heap w) <= Store.theta t)%nat.

(** The same for a palette; in it the seed of the hover text, the
    parameters of the base text, and the parameters of the hover text are
    two cells. *)
Definition palette_made (w w' : Store.world) (r : Store.PaletteResult)
    (v : PaletteResult) : Prop :=
  Store.holds w' (Store.base01 r) (base01 v)
  /\ text_made w w' (Store.baseText r) (baseText v)
  /\ Store.holds w' (Store.hover01 r) (hover01 v)
  /\ text_made w w' (Store.hoverText r) (hoverText v)
  /\ Store.holds w' (Store.pageBg01 r) (pageBg01 v)
  /\ theta_made w w' (Store.hoverOpt r) (hoverOpt v)
  /\ Store.params (Store.baseText r) <> Store.params (Store.hoverText r).

Definition simple_palette_made (w w' : Store.world)
    (r : Store.Simple.PaletteResult) (v : Simple.PaletteResult) : Prop :=
  Store.holds w' (Store.Simple.base01 r) (Simple.base01 v)
  /\ text_made w w' (Store.Simple.baseText r) (Simple.baseText v)
  /\ Store.holds w' (Store.Simple.hover01 r) (Simple.hover01 v)
  /\ text_made w w' (Store.Simple.hoverText r) (Simple.hoverText v)
  /\ Store.holds w' (Store.Simple.pageBg01 r) (Simple.pageBg01 v)
  /\ Store.params (Store.Simple.baseText r)
     <> Store.params (Store.Simple.hoverText r).

Definition theta_in (w : Store.world) (t : Store.ThetaResult) : ThetaResult :=
  {| theta := Store.cell w (Store.theta t);
     theta_loss := Store.theta_loss t |}.

Definition palette_in (w : Store.world) (r : Store.PaletteResult)
    : PaletteResult :=
  {| base01 := Store.cell w (Store.base01 r);
     baseText := text_in w (Store.baseText r);
     hover01 := Store.cell w (Store.hover01 r);
     hoverText := text_in w (Store.hoverText r);
     pageBg01 := Store.cell w (Store.pageBg01 r);
     hoverOpt := theta_in w (Store.hoverOpt r) |}.

Definition simple_palette_in (w : Store.world)
    (r : Store.Simple.PaletteResult) : Simple.PaletteResult :=
  {| Simple.base01 := Store.cell w (Store.Simple.base01 r);
     Simple.baseText := text_in w (Store.Simple.baseText r);
     Simple.hover01 := Store.cell w (Store.Simple.hover01 r);
     Simple.hoverText := text_in w (Store.Simple.hoverText r);
     Simple.pageBg01 := Store.cell w (Store.Simple.pageBg01 r) |}.

(** ** ECMAScript: bit operations, truthiness, radix 16 *)

(** [ToInt32]: NaN and the infinities are 0; a finite number is truncated
    and taken modulo 2^32 into -2^31..2^31-1. *)
Definition ToInt32 (a : num) : Z :=
  match a with
  | Fin x =>
      let n := (Qtrunc x mod 2 ^ 32)%Z in
      if (2 ^ 31 <=? n)%Z then (n - 2 ^ 32)%Z else n
  | _ => 0%Z
  end.

(** [a >> b], the shift that keeps the sign, by the low five bits of [b],
    and [a & b]. *)
Definition shr (a b : num) : num :=
  of_Z (Z.shiftr (ToInt32 a) (Z.land (ToInt32 b) 31)).

Definition band (a b : num) : num := of_Z (Z.land (ToInt32 a) (ToInt32 b)).

(** [ToBoolean] on a number: 0 and NaN are falsy. *)
Definition ToBoolean (a : num) : bool :=
  match a with
  | NaN => false
  | Fin x => negb (Qzero x)
  | _ => true
  end.

(** [t[k]] for a number [k]: the element when [k] is an integer that is an
    index of [t], [undefined] otherwise. *)
Definition at_index {A : Type} (t : list A) (k : num) (undefined : A) : A :=
  match as_integer k with
  | Some z => if (0 <=? z)%Z then nth (Z.to_nat z) t undefined else undefined
  | None => undefined
  end.

(** [s.replace(c, "")] for a one-character pattern: its first occurrence
    goes. *)
Fixpoint remove_first (c : ascii) (s : string) : string :=
  match s with
  | EmptyString => EmptyString
  | String a r => if Ascii.eqb a c then r else String a (remove_first c r)
  end.

(** [s.split("")]: the characters, each a string. *)
Fixpoint chars (s : string) : list string :=
  match s with
  | EmptyString => []
  | String a r => String a EmptyString :: chars r
  end.

(** [parseInt(s, 16)]: leading white space and a sign are skipped, then a
    prefix [0x] or [0X], then the longest prefix of digits of radix 16 is
    read; none is NaN. *)
Definition parseInt16 (s : string) : num :=
  let t := JSString.trimStart s in
  let '(negative, r) :=
    match t with
    | String "-" r => (true, r)
    | String "+" r => (false, r)
    | _ => (false, t)
    end in
  let r :=
    match r with
    | String "0" (String ("x" | "X") r') => r'
    | _ => r
    end in
  match JSString.digits JSString.hexdigit 16 0 0 r with
  | (v, S _, _) => if negative then neg (of_Z v) else of_Z v
  | _ => NaN
  end.

(** ** ECMAScript: numbers in template literals; hover2.js: CSS colours *)

Section Css.

Local Open Scope string_scope.

(** [Number::toString] of a finite number that is not an integer, or is
    one of 10^21 or more in magnitude: the digits that the host prints,
    whatever they are. *)
Variable toString_approx : Q -> string.

(** [Number::toString]: an integer below 10^21 in magnitude is its decimal
    digits. *)
Definition ToString (a : num) : string :=
  match a with
  | NaN => "NaN"
  | PosInf => "Infinity"
  | NegInf => "-Infinity"
  | Fin q =>
      match as_integer a with
      | Some z =>
          if (Z.abs z <? 10 ^ 21)%Z then NilZero.string_of_int (Z.to_int z)
          else toString_approx q
      | None => toString_approx q
      end
  end.

(** A substitution of a template literal: an element of the array, or
    [undefined] past its end. *)
Definition substitution (o : option num) : string :=
  match o with
  | Some a => ToString a
  | None => "undefined"
  end.

Definition rgbToCss (c : list num) : string :=
  let r := nth_error c 0 in let g := nth_error c 1 in let b := nth_error c 2 in
  "rgb(" ++ substitution r ++ ", " ++ substitution g ++ ", "
  ++ substitution b ++ ")".

End Css.

(** ** hover.js: the parser of the form, the colour utilities, the optimizer *)

Module HoverJs.

Definition isNaN (v : num) : bool := is_nan v.

Definition parseRgbInput (value : string) : option (list num) :=
  let parts :=
    map (fun v => JSString.parseInt10 (JSString.trim v))
        (JSString.split "," value) in
  if negb (List.length parts =? 3)%nat
     || existsb (fun v => isNaN v || (v <? 0) || (v >? 255)) parts
  then None
  else Some (map (fun v => v / 255) parts).


(** *** The colour utilities *)

Definition clamp01 (x : num) : num := Math_min 1 (Math_max 0 x).
Definition wrap01 (x : num) : num := (x %% 1 + 1) %% 1.

Definition hexToRgb01 (hex : string) : list num :=
  let s := remove_first "#" hex in
  let full :=
    if (String.length s =? 3)%nat
    then String.concat "" (map (fun c => (c ++ c)%string) (chars s))
    else s in
  let n := parseInt16 full in
  [band (shr n 16) 255 / 255; band (shr n 8) 255 / 255; band n 255 / 255].

Definition rgbToHsv (rgb : list num) : list num :=
  let r := idx rgb 0 in let g := idx rgb 1 in let b := idx rgb 2 in
  let max := Math_max (Math_max r g) b in
  let min := Math_min (Math_min r g) b in
  let d := max - min in
  let h : num := 0 in
  let h :=
    if ToBoolean d then
      let h := if max === r then (g - b) / d %% 6
               else if max === g then (b - r) / d + 2
               else (r - g) / d + 4 in
      h / 6
    else h in
  [wrap01 h; if max === 0 then Fin 0 else d / max; max].

(** [hsvToRgb]; an index that is not one of the table gives [undefined],
    for which the empty array stands. *)
Definition hsvToRgb (hsv : list num) : list num :=
  let h := idx hsv 0 in let s := idx hsv 1 in let v := idx hsv 2 in
  let i := Math_floor (h * 6) in
  let f := h * 6 - i in
  let p := v * (1 - s) in
  let q := v * (1 - f * s) in
  let t := v * (1 - (1 - f) * s) in
  at_index
    [[v; t; p]; [q; v; p]; [p; v; t];
     [p; q; v]; [t; p; v]; [v; p; q]]
    (i %% 6) [].

Section Optimizer.

(** [**] at an exponent that is not an integer, [Math.exp] and
    [Math.log1p]: the approximations of the host. *)
Variable pow_approx : num -> num -> num.
Variable Math_exp : num -> num.
Variable Math_log1p : num -> num.

Definition srgbToLinear (c : num) : num :=
  if c <=? 0.04045 then c / 12.92
  else Math_pow pow_approx ((c + 0.055) / 1.055) 2.4.

Definition luminance (rgb : list num) : num :=
  let l := map srgbToLinear rgb in
  let r := idx l 0 in let g := idx l 1 in let b := idx l 2 in
  0.2126 * r + 0.7152 * g + 0.0722 * b.

Definition softplus (x : num) : num := Math_log1p (Math_exp x).

(** The function [loss] of [computeHoverColor], which closes over [hsv0]
    and [Ybg]. *)
Definition loss (hsv0 : list num) (Ybg : num) (dh ds dv : num) : num :=
  let h := wrap01 (idx hsv0 0 + dh) in
  let s := clamp01 (idx hsv0 1 + ds) in
  let v := clamp01 (idx hsv0 2 + dv) in
  let rgb := hsvToRgb [h; s; v] in
  let Y := luminance rgb in
  let legible := softplus (0.35 - Math_abs (Y - Ybg)) in
  let dhWrap :=
    Math_min (Math_abs (h - idx hsv0 0)) (1 - Math_abs (h - idx hsv0 0)) in
  let stay :=
    140 * Math_pow pow_approx dhWrap 2 +
    7 * Math_pow pow_approx (s - idx hsv0 1) 2 +
    2 * Math_pow pow_approx (v - idx hsv0 2) 2 in
  legible + 0.35 * stay.

(** The gradient of a turn: for each axis [k], the copies [dp] and [dm] of
    [d] moved by [eps] up and down. *)
Definition grad (hsv0 : list num) (Ybg : num) (d : list num) (eps : num)
    : list num :=
  mapi (fun _ k =>
          let dp := slice d in
          let dp := arr_set dp k (idx dp k + eps) in
          let dm := slice d in
          let dm := arr_set dm k (idx dm k - eps) in
          (loss hsv0 Ybg (idx dp 0) (idx dp 1) (idx dp 2)
           - loss hsv0 Ybg (idx dm 0) (idx dm 1) (idx dm 2)) / (2 * eps))
       [Fin 0; Fin 0; Fin 0].

(** One turn of the loop of [computeHoverColor], on [d] and [lr]. *)
Definition computeHoverColor_step (hsv0 : list num) (Ybg : num)
    (st : list num * num) (i : nat) : list num * num :=
  let '(d, lr) := st in
  let eps : num := 1e-3 in
  let grad := grad hsv0 Ybg d eps in
  let d := mapi (fun v i => v - lr * idx grad i) d in
  let lr := lr * 0.985 in
  (d, lr).

(** The loop, for [i] from 0 to [turns - 1]. *)
Definition computeHoverColor_loop (hsv0 : list num) (Ybg : num) (turns : nat)
    (st : list num * num) : list num * num :=
  fold_left (computeHoverColor_step hsv0 Ybg) (List.seq 0 turns) st.

Definition computeHoverColor (rgb0 rgbBg : list num) : list num :=
  let hsv0 := rgbToHsv rgb0 in
  let d := [Fin 0; Fin 0; Fin 0] in
  let Ybg := luminance rgbBg in
  let lr : num := 0.14 in
  let '(d, _) := computeHoverColor_loop hsv0 Ybg 90 (d, lr) in
  hsvToRgb [wrap01 (idx hsv0 0 + idx d 0);
            clamp01 (idx hsv0 1 + idx d 1);
            clamp01 (idx hsv0 2 + idx d 2)].

End Optimizer.

(** *** CSS colours *)

Section Css.

Local Open Scope string_scope.

Variable toString_approx : Q -> string.

Definition cssRgb01 (rgb : list num) : string :=
  "rgb(" ++ ToString toString_approx (Math_round (idx rgb 0 * 255)) ++ " "
  ++ ToString toString_approx (Math_round (idx rgb 1 * 255)) ++ " "
  ++ ToString toString_approx (Math_round (idx rgb 2 * 255)) ++ ")".

Definition rgb01ToCss (rgb : list num) : string :=
  let r := idx rgb 0 in let g := idx rgb 1 in let b := idx rgb 2 in
  "rgb(" ++ ToString toString_approx (Math_round (r * 255)) ++ " "
  ++ ToString toString_approx (Math_round (g * 255)) ++ " "
  ++ ToString toString_approx (Math_round (b * 255)) ++ ")".

End Css.

End HoverJs.

(** ** The byte round trip in binary64 *)

(** [clamp255], [rgb01] and [rgb255] once more, on the binary64 numbers of
    the kernel, where every operation rounds as the host does. *)
Module Binary64.

Local Open Scope float_scope.

Definition is_nan (x : float) : bool := negb (x =? x)%float.

Definition is_negzero (x : float) : bool := (x =? 0)%float && (1 / x <? 0)%float.

(** [Math.max] and [Math.min]: NaN wins, and +0 is above -0. *)
Definition Math_max (a b : float) : float :=
  if is_nan a || is_nan b then nan
  else if (a <? b)%float then b
  else if (b <? a)%float then a
  else if is_negzero a then b else a.

Definition Math_min (a b : float) : float :=
  if is_nan a || is_nan b then nan
  else if (a <? b)%float then a
  else if (b <? a)%float then b
  else if is_negzero a then a else b.

Definition two52 : float := 4503599627370496.

(** [Math.round]: from 2^52 on every number is an integer; below, adding and
    subtracting 2^52 gives the nearest integer, from which the floor and the
    (exact) fractional part follow.  A tie goes up, and what rounds to zero
    from below is -0. *)
Definition Math_round (x : float) : float :=
  if is_nan x then x
  else if (two52 <=? abs x)%float then x
  else
    let a := abs x in
    let n := (a + two52) - two52 in
    let fl := if (a <? n)%float then n - 1 else n in
    let frac := a - fl in
    if (x <? 0)%float then - (if (0.5 <? frac)%float then fl + 1 else fl)
    else if is_negzero x then x
    else if (0.5 <=? frac)%float then fl + 1 else fl.

Definition clamp01 (x : float) : float := Math_max 0 (Math_min 1 x).

Definition clamp255 (x : float) : float :=
  Math_round (Math_max 0 (Math_min 255 x)).

(** The literal [0.35]: the binary64 number nearest to it. *)
Definition lit_0_35 : float := 0x1.6666666666666p-2.

(** Within [0.35] and 1. *)
Definition in_box (x : float) : bool :=
  (lit_0_35 <=? x)%float && (x <=? 1)%float.

Definition idx (a : list float) (i : nat) : float := nth i a nan.

Definition rgb01 (c : list float) : list float :=
  let r := idx c 0 in let g := idx c 1 in let b := idx c 2 in
  [r / 255; g / 255; b / 255].

Definition rgb255 (c : list float) : list float :=
  let r := idx c 0 in let g := idx c 1 in let b := idx c 2 in
  [clamp255 r; clamp255 g; clamp255 b].

(** The number of an integer of a byte's range. *)
Definition of_Z (z : Z) : float := of_uint63 (Uint63.of_Z z).

(** The literals of the fixed hover policy, and [hoverFromBase] on the
    binary64 numbers. *)
Definition lit_0_18 : float := 0x1.70a3d70a3d70ap-3.
Definition lit_0_82 : float := 0x1.a3d70a3d70a3dp-1.
Definition lit_0_86 : float := 0x1.b851eb851eb85p-1.
Definition lit_0_92 : float := 0x1.d70a3d70a3d71p-1.

Definition hoverFromBase (base01 theta : list float) : list float :=
  let t := clamp01 (idx theta 0) in
  let fr := clamp01 (idx theta 1) in
  let fg := clamp01 (idx theta 2) in
  let fb := clamp01 (idx theta 3) in
  let r := idx base01 0 in let g := idx base01 1 in let b := idx base01 2 in
  let target := [clamp01 (r * fr); clamp01 (g * fg); clamp01 (b * fb)] in
  [(1 - t) * r + t * idx target 0;
   (1 - t) * g + t * idx target 1;
   (1 - t) * b + t * idx target 2].

Definition Simple_hoverFromBase (base01 : list float) : list float :=
  let t := lit_0_18 in
  let r := idx base01 0 in let g := idx base01 1 in let b := idx base01 2 in
  let target :=
    [clamp01 (r * lit_0_82); clamp01 (g * lit_0_86); clamp01 (b * lit_0_92)] in
  [(1 - t) * r + t * idx target 0;
   (1 - t) * g + t * idx target 1;
   (1 - t) * b + t * idx target 2].

(** A policy with its three factors at 1, the upper bound of the box, and
    the mix 0.45: the byte displayed for each hover channel of a byte is
    the byte. *)
Definition lit_0_45 : float := 0x1.ccccccccccccdp-2.

Definition displayed_at_cap (n : nat) : bool :=
  let z := of_Z (Z.of_nat n) in
  let b := z / 255 in
  let h := hoverFromBase [b; b; b] [lit_0_45; 1; 1; 1] in
  forallb (fun x => (clamp255 (x * 255) =? z)%float) h
  && (List.length h =? 3)%nat.

(** A byte scaled to the unit range darkens under the fixed policy, in each
    of the three channels, and the byte that is displayed for it is not
    above the byte. *)
Definition darkens (n : nat) : bool :=
  let z := of_Z (Z.of_nat n) in
  let b := z / 255 in
  let h := Simple_hoverFromBase [b; b; b] in
  forallb
    (fun x =>
       (x <=? b)%float
       && (implb (0 <? n)%nat (x <? b)%float)
       && (clamp255 (x * 255) <=? z)%float)
    h
  && (List.length h =? 3)%nat.

End Binary64.

(** ** Finite differences, as the specification words them *)

(** The forward difference [(f(x + eps e_i) - f(x)) / eps] of [f] along
    axis [i]. *)
Definition forward_difference (f : list num -> num) (x : list num)
    (eps : num) (i : nat) : num :=
  (f (arr_set x i (idx x i + eps)) - f x) / eps.

(** The central difference [(f(x + eps e_i) - f(x - eps e_i)) / (2 eps)]. *)
Definition central_difference (f : list num -> num) (x : list num)
    (eps : num) (i : nat) : num :=
  (f (arr_set x i (idx x i + eps)) - f (arr_set x i (idx x i - eps)))
  / (2 * eps).

(** ** The predicates of the statements *)

(** A number in a closed interval: finite, between the bounds. *)
Definition within (lo hi : Q) (a : num) : bool := (lo <=? a) && (a <=? hi).

(** Below 0 or above 1. *)
Definition outside01 (a : num) : bool := (a <? 0) || (a >? 1).

(** One channel of [hoverFromBase]: the mix of a base channel with its
    darkened target, both policy entries clamped first. *)
Definition mix_channel (r t f : num) : num :=
  (1 - clamp01 t) * r + clamp01 t * clamp01 (r * clamp01 f).

(** A policy of four entries, each within 0.35..1. *)
Definition boxed (theta : list num) : bool :=
  (List.length theta =? 4)%nat && forallb (within 0.35 1) theta.

(** A list whose first [n] entries are finite. *)
Definition finite_upto (n : nat) (a : list num) : Prop :=
  forall i, (i < n)%nat -> is_fin (idx a i) = true.

(** The state of the loop between two turns: four finite entries and a
    finite learning rate. *)
Definition loop_state_ok (st : list num * num) : Prop :=
  List.length (fst st) = 4%nat /\ finite_upto 4 (fst st)
  /\ is_fin (snd st) = true.

(** A token: a string with no comma in it. *)
Fixpoint comma_free (s : string) : bool :=
  match s with
  | EmptyString => true
  | String c r => negb (Ascii.eqb c ",") && comma_free r
  end.

(** The tokens [parseRGB] counts: trimmed, the empty ones dropped. *)
Definition tokens (text : string) : list string :=
  filter JSString.Boolean (map JSString.trim (JSString.split "," text)).

(** A numeric literal: [Number] does not make it NaN. *)
Definition numeric (s : string) : bool := negb (is_nan (JSString.Number s)).

(** A colour of the unit cube: three channels within 0..1. *)
Definition unit_cube (c : list num) : Prop :=
  forall i, (i < 3)%nat -> within 0 1 (idx c i) = true.

(** Finite and not negative. *)
Definition nonneg (a : num) : bool := is_fin a && (0 <=? a).

(** What the properties of the losses ask of [Math.pow] at an exponent that
    is not an integer: of a positive base it is a finite number that is not
    negative, and at most 1 when the base is at most 1 and the exponent is
    not negative. *)
Definition pow_host (pow_approx : num -> num -> num) : Prop :=
  forall x y : Q, (0 < x)%Q ->
    nonneg (pow_approx (Fin x) (Fin y)) = true
    /\ ((x <= 1)%Q -> (0 <= y)%Q -> (pow_approx (Fin x) (Fin y) <=? 1) = true).

(** What they ask of [Math.exp]: of a finite number it is not negative; it
    may overflow to infinity. *)
Definition exp_host (Math_exp : num -> num) : Prop :=
  forall x : Q, (0 <=? Math_exp (Fin x)) = true.

(** The state of the loop of [optimizeText] between two turns: three finite
    parameters and a finite learning rate. *)
Definition text_state_ok (st : list num * num) : Prop :=
  List.length (fst st) = 3%nat /\ finite_upto 3 (fst st)
  /\ is_fin (snd st) = true.

(** The learning rate of a turn: that of the turn before, times 0.6 after
    the turn 60 and times 0.7 after the turn 110. *)
Definition schedule (lr : num) (k : nat) : num :=
  if (k <=? 60)%nat then lr
  else if (k <=? 110)%nat then lr * 0.6 else lr * 0.6 * 0.7.

(** What the properties of [computeHoverColor] ask of [Math.exp] and
    [Math.log1p]: [softplus] of a finite number that is at most 0.35 is a
    finite number. *)
Definition softplus_host (Math_exp Math_log1p : num -> num) : Prop :=
  forall x : Q, (x <= 0.35)%Q ->
    is_fin (Math_log1p (Math_exp (Fin x))) = true.

(** The state of the loop of [computeHoverColor] between two turns: three
    finite offsets and a finite learning rate. *)
Definition hover_state_ok (st : list num * num) : Prop :=
  List.length (fst st) = 3%nat /\ finite_upto 3 (fst st)
  /\ is_fin (snd st) = true.

(** A string of decimal digits only, and a plain decimal integer: such a
    string that is not empty. *)
Fixpoint all_digits (s : string) : bool :=
  match s with
  | EmptyString => true
  | String c r =>
      match JSString.digit c with
      | Some _ => all_digits r
      | None => false
      end
  end.

Definition decimal (s : string) : bool := JSString.Boolean s && all_digits s.

(** The integer that a string of digits denotes. *)
Definition decimal_value (s : string) : Z :=
  fst (fst (JSString.digits JSString.digit 10 0 0 s)).

(** The decimal digits of an integer, and a colour of CSS made of three
    integers with a separator between them. *)
Definition dec (z : Z) : string := NilZero.string_of_int (Z.to_int z).

Definition css_rgb (sep : string) (r g b : Z) : string :=
  ("rgb(" ++ String.concat sep [dec r; dec g; dec b] ++ ")")%string.

(** What holds of the digits of a byte: they are a plain decimal integer
    without a comma, they denote the byte, and a space before them is
    trimmed away. *)
Definition byte_digits_ok (n : nat) : bool :=
  let z := Z.of_nat n in
  comma_free (dec z) && decimal (dec z) && (decimal_value (dec z) =? z)%Z
  && String.eqb (JSString.trim (String " " (dec z))) (dec z).

(** A colour of CSS made of three bytes. *)
Definition is_css_rgb (sep s : string) : Prop :=
  exists r g b : Z,
    (0 <= r <= 255)%Z /\ (0 <= g <= 255)%Z /\ (0 <= b <= 255)%Z
    /\ s = css_rgb sep r g b.

(** ** Hosts for the instances *)

(** A host for the instances: [Math.pow] at a fractional exponent and
    [Math.exp] answer one half whatever they are asked. *)
Definition pow_half (b e : num) : num := Fin (1 # 2).
Definition exp_half (x : num) : num := Fin (1 # 2).

(** The power function written otherwise, returning the same values. *)
Definition pow_half' (b e : num) : num :=
  match b with NaN => Fin (1 # 2) | _ => Fin (1 # 2) end.

(** [Math.log1p] answers one half too, and a number that is not an integer
    is printed as a question mark. *)
Definition log1p_half (x : num) : num := Fin (1 # 2).
Definition toString_mark (q : Q) : string := "?"%string.

(** A host whose [Math.exp] is a step: one half below -1/2, and 1 from
    there on; such an exponential is not negative, and the descent of the
    text colour moves under it.  And the same host written otherwise. *)
Definition exp_step (x : num) : num :=
  match x with
  | NaN => NaN
  | NegInf => Fin 0
  | Fin q => if Qle_bool (- (1 # 2)) q then Fin 1 else Fin (1 # 2)
  | PosInf => PosInf
  end.

Definition exp_step' (x : num) : num :=
  match x with
  | Fin q => if Qle_bool (- (1 # 2)) q then Fin 1 else Fin (1 # 2)
  | _ => if is_nan x then NaN else if x <? 0 then Fin 0 else PosInf
  end.

(** A world for the instances: the array of the form in its one cell, and
    seven numbers drawn so far. *)
Definition form_world : Store.world :=
  {| Store.heap := [[of_Z 34; of_Z 139; of_Z 230]]; Store.draws := 7 |}.

(** * Properties *)

(** ** The embedding on small inputs *)

Example Number_literals :
  map JSString.Number
    ["10"; " 20 "; "a"; ""; "1e3"; "-.5"; "5."; "."; "0x1F"; "-Infinity";
     "12abc"; "1 2"]%string
  = [Fin 10; Fin 20; NaN; Fin 0; Fin 1000; Fin (-1 # 2); Fin 5; NaN; Fin 31;
     NegInf; NaN; NaN].
Proof. reflexivity. Qed.

Example parseInt10_prefixes :
  map JSString.parseInt10 ["10"; "a"; ""; "1e3"; "  -5.7px"; "+3"]%string
  = [Fin 10; NaN; NaN; Fin 1; Fin (-5); Fin 3].
Proof. reflexivity. Qed.

Example split_keeps_empty_pieces :
  JSString.split "," "10,,20,30," = ["10"; ""; "20"; "30"; ""]%string.
Proof. reflexivity. Qed.

Example Math_round_ties :
  map Math_round [Fin 2.5; Fin 3.49; Fin (-2.5); Fin (-0.4); PosInf; NaN]
  = [Fin 3; Fin 3; Fin (-2); Fin 0; PosInf; NaN].
Proof. reflexivity. Qed.

Example rem_sign_of_dividend :
  (Fin (-7 # 2) %% 1 = Fin (-1 # 2)) /\ (Fin (7 # 2) %% 1 = Fin (1 # 2)).
Proof. split; reflexivity. Qed.

Example division_by_zero :
  (Fin 1 / Fin 0 = PosInf) /\ (Fin (-1) / Fin 0 = NegInf)
  /\ (Fin 0 / Fin 0 = NaN).
Proof. repeat split. Qed.

Example checked_division_faults :
  checked_div (Fin 1) (Fin 0) = None /\ checked_div (Fin 1) (Fin 2) = Some (Fin (1 # 2)).
Proof. split; reflexivity. Qed.

Example rgbToHsv_of_a_blue :
  rgbToHsv [Fin 0.2; Fin 0.5; Fin 1] = [Fin (29 # 48); Fin (4 # 5); Fin 1].
Proof. reflexivity. Qed.

Example hsvToRgb_of_a_blue :
  hsvToRgb [Fin (29 # 48); Fin (4 # 5); Fin 1]
  = [Fin (1 # 5); Fin (1 # 2); Fin 1].
Proof. reflexivity. Qed.

Example contrastRatio_of_equal_luminances :
  contrastRatio (Fin 0.3) (Fin 0.3) = Fin 1.
Proof. reflexivity. Qed.

Example hoverFromBase_default_policy :
  hoverFromBase [Fin 0.5; Fin 0.5; Fin 1] [Fin 0.18; Fin 0.82; Fin 0.86; Fin 0.92]
  = [Fin (2419 # 5000); Fin (2437 # 5000); Fin (616 # 625)].
Proof. reflexivity. Qed.

Example hoverFromBase_no_mix :
  hoverFromBase [Fin 0.2; Fin 0.5; Fin 1] [Fin 0; Fin 0.3; Fin 0.4; Fin 0.5]
  = [Fin (1 # 5); Fin (1 # 2); Fin 1].
Proof. reflexivity. Qed.

Example lossForHoverTheta_on_black (pow_approx : num -> num -> num) :
  lossForHoverTheta pow_approx [Fin 0; Fin 0; Fin 0]
    [Fin 0.18; Fin 0.82; Fin 0.86; Fin 0.92]
  = Fin (2119 # 50000).
Proof. reflexivity. Qed.

Example optimizeHoverTheta_first_turn (pow_approx : num -> num -> num) :
  optimizeHoverTheta_step pow_approx [Fin 0; Fin 0; Fin 0]
    ([Fin 0.18; Fin 0.82; Fin 0.86; Fin 0.92], Fin 1.4) 0
  = ([Fin 0.35; Fin (2049993 # 2500000); Fin (2149993 # 2500000);
      Fin (2299993 # 2500000)], Fin 1.4).
Proof. vm_compute. reflexivity. Qed.

Example binary64_round :
  map Binary64.Math_round [2.5; -2.5; 0.5; 254.5; 9007199254740992]%float
  = [3; -2; 1; 255; 9007199254740992]%float.
Proof. reflexivity. Qed.

(** ** Arithmetic of finite numbers *)

Lemma Qle_bool_spec (x y : Q) : BoolSpec (x <= y)%Q (y < x)%Q (Qle_bool x y).
Proof.
  destruct (Qle_bool x y) eqn:E; constructor.
  - now apply Qle_bool_iff.
  - apply Qnot_le_lt. intro H. apply Qle_bool_iff in H. congruence.
Qed.

Lemma Qeq_bool_spec (x y : Q) : BoolSpec (x == y)%Q (~ x == y)%Q (Qeq_bool x y).
Proof.
  destruct (Qeq_bool x y) eqn:E; constructor.
  - now apply Qeq_bool_iff.
  - intro H. apply Qeq_bool_iff in H. congruence.
Qed.

Lemma Qred_zero (q : Q) : (q == 0)%Q -> Qred q = 0%Q.
Proof. intro H. now apply (Qred_complete q 0). Qed.

Lemma add_NaN_r (a : num) : a + NaN = NaN.
Proof. now destruct a. Qed.

Lemma mul_NaN_r (a : num) : a * NaN = NaN.
Proof. now destruct a. Qed.

Lemma within_Fin (lo hi : Q) (a : num) :
  within lo hi a = true <-> exists q, a = Fin q /\ (lo <= q <= hi)%Q.
Proof.
  unfold within. split.
  - intro H. apply andb_prop in H. destruct H as [H1 H2].
    destruct a as [| |q|]; try discriminate.
    exists q. split; [reflexivity|].
    cbn in H1, H2. apply Qle_bool_iff in H1, H2. now split.
  - intros (q & -> & H1 & H2). cbn.
    apply andb_true_intro. split; now apply Qle_bool_iff.
Qed.

Lemma Math_min_Fin (x y : Q) :
  Math_min (Fin x) (Fin y) = if Qle_bool x y then Fin x else Fin y.
Proof. unfold Math_min. cbn. now destruct (Qle_bool x y). Qed.

Lemma Math_max_Fin (x y : Q) :
  Math_max (Fin x) (Fin y) = if Qle_bool y x then Fin x else Fin y.
Proof. unfold Math_max. cbn. now destruct (Qle_bool y x). Qed.

Lemma clamp01_Fin (x : Q) :
  exists q, clamp01 (Fin x) = Fin q /\ (0 <= q <= 1)%Q.
Proof.
  unfold clamp01. rewrite Math_min_Fin.
  destruct (Qle_bool_spec 1 x); rewrite Math_max_Fin.
  - exists 1%Q. split; [reflexivity | lra].
  - destruct (Qle_bool_spec x 0).
    + exists 0%Q. split; [reflexivity | lra].
    + exists x. split; [reflexivity | lra].
Qed.

(** [clamp01] repairs every number but NaN, the infinities included. *)
Lemma clamp01_within (a : num) :
  is_nan a = false -> within 0 1 (clamp01 a) = true.
Proof.
  intro H. apply within_Fin.
  destruct a as [| |x|]; try discriminate.
  - exists 0%Q. split; [reflexivity | lra].
  - apply clamp01_Fin.
  - exists 1%Q. split; [reflexivity | lra].
Qed.

(** ** The hover derivation stays in the unit range *)

Lemma mix_Q (t r g : Q) :
  (0 <= t <= 1 -> 0 <= r <= 1 -> 0 <= g <= 1 ->
   0 <= (1 - t) * r + t * g <= 1)%Q.
Proof. intros. nra. Qed.

Lemma hoverFromBase_channels (base01 theta : list num) :
  hoverFromBase base01 theta =
  [mix_channel (idx base01 0) (idx theta 0) (idx theta 1);
   mix_channel (idx base01 1) (idx theta 0) (idx theta 2);
   mix_channel (idx base01 2) (idx theta 0) (idx theta 3)].
Proof. reflexivity. Qed.

Lemma mix_channel_within (r t f : num) :
  within 0 1 r = true -> is_nan t = false -> is_nan f = false ->
  within 0 1 (mix_channel r t f) = true.
Proof.
  intros Hr Ht Hf. unfold mix_channel.
  apply within_Fin in Hr. destruct Hr as (r' & -> & Hr).
  destruct (proj1 (within_Fin _ _ _) (clamp01_within t Ht)) as (t' & -> & Ht').
  destruct (proj1 (within_Fin _ _ _) (clamp01_within f Hf)) as (f' & -> & Hf').
  cbn [mul]. unfold fin.
  destruct (clamp01_Fin (Qred (r' * f'))) as (g' & -> & Hg').
  cbn [sub mul add]. unfold fin. apply within_Fin.
  eexists. split; [reflexivity|].
  rewrite !Qred_correct. now apply mix_Q.
Qed.

Lemma mix_channel_nan (r t f : num) :
  is_nan t || is_nan f = true -> mix_channel r t f = NaN.
Proof.
  unfold mix_channel. intro H. apply orb_prop in H. destruct H as [H|H].
  - destruct t; try discriminate. cbn. now destruct r.
  - destruct f; try discriminate.
    assert (E : clamp01 (r * clamp01 NaN) = NaN) by (cbn; now destruct r).
    rewrite E, mul_NaN_r. apply add_NaN_r.
Qed.

Lemma within_not_outside (a : num) : within 0 1 a = true -> outside01 a = false.
Proof.
  intro H. apply within_Fin in H. destruct H as (q & -> & H).
  unfold outside01, gt. cbn.
  destruct (Qle_bool_spec 0 q); [|lra].
  destruct (Qle_bool_spec q 1); [reflexivity|lra].
Qed.

Lemma mix_channel_not_outside (r t f : num) :
  within 0 1 r = true -> outside01 (mix_channel r t f) = false.
Proof.
  intro Hr. destruct (is_nan t || is_nan f) eqn:E.
  - now rewrite mix_channel_nan.
  - apply orb_false_elim in E. destruct E.
    now apply within_not_outside, mix_channel_within.
Qed.

(** C3, as the claim states it, refuted: no policy vector whatever, in range
    or out of it, takes a base colour of the unit cube to a hover colour
    with a channel below 0 or above 1, and none without a NaN entry to a
    hover colour with a channel that is not within 0..1. *)
Lemma hoverFromBase_never_out_of_range :
  ~ (exists theta base01 : list num,
        (forall i, (i < 3)%nat -> within 0 1 (idx base01 i) = true) /\
        exists i, (i < 3)%nat /\
          (outside01 (idx (hoverFromBase base01 theta) i) = true
           \/ ((forall j, (j < 4)%nat -> is_nan (idx theta j) = false)
               /\ within 0 1 (idx (hoverFromBase base01 theta) i) = false))).
Proof.
  intros (theta & base01 & Hb & i & Hi & Hout).
  rewrite hoverFromBase_channels in Hout.
  assert (H0 := Hb 0%nat ltac:(lia)).
  assert (H1 := Hb 1%nat ltac:(lia)).
  assert (H2 := Hb 2%nat ltac:(lia)).
  destruct Hout as [Hout|[Ht Hout]].
  - destruct i as [|[|[|i]]]; [| | |lia]; cbn [idx nth] in Hout;
      rewrite mix_channel_not_outside in Hout by assumption; discriminate.
  - assert (T0 := Ht 0%nat ltac:(lia)). assert (T1 := Ht 1%nat ltac:(lia)).
    assert (T2 := Ht 2%nat ltac:(lia)). assert (T3 := Ht 3%nat ltac:(lia)).
    destruct i as [|[|[|i]]]; [| | |lia]; cbn [idx nth] in Hout;
      rewrite mix_channel_within in Hout by assumption; discriminate.
Qed.

(** C3 (amended): [hoverFromBase] clamps each of the four policy entries
    into the unit range before it uses them, so for every policy vector with
    no NaN entry (an entry outside the unit range, or infinite, included) and
    every base colour of the unit cube, each channel of the hover colour lies
    in the unit range. *)
Theorem hoverFromBase_in_unit_range (base01 theta : list num) :
  (forall i, (i < 3)%nat -> within 0 1 (idx base01 i) = true) ->
  (forall i, (i < 4)%nat -> is_nan (idx theta i) = false) ->
  forall i, (i < 3)%nat ->
    within 0 1 (idx (hoverFromBase base01 theta) i) = true.
Proof.
  intros Hb Ht i Hi. rewrite hoverFromBase_channels.
  destruct i as [|[|[|i]]]; [| | |lia]; cbn [idx nth];
    apply mix_channel_within; first [apply Hb | apply Ht]; lia.
Qed.

(** ** The byte round trip *)

Lemma Qfloor_half (q : Q) (z : Z) :
  (q == inject_Z z)%Q -> Qfloor (q + (1 # 2)) = z.
Proof.
  intro E.
  assert (L := Qfloor_le (q + (1 # 2))).
  assert (U := Qlt_floor (q + (1 # 2))).
  set (f := Qfloor (q + (1 # 2))) in *.
  rewrite inject_Z_plus in U. change (inject_Z 1) with 1%Q in U.
  assert (L' : (inject_Z f < inject_Z (z + 1))%Q)
    by (rewrite inject_Z_plus; change (inject_Z 1) with 1%Q; lra).
  assert (U' : (inject_Z z < inject_Z (f + 1))%Q)
    by (rewrite inject_Z_plus; change (inject_Z 1) with 1%Q; lra).
  rewrite <- Zlt_Qlt in L', U'. lia.
Qed.

Lemma clamp255_scaled_byte (z : Z) :
  (0 <= z <= 255)%Z -> clamp255 (of_Z z / 255 * 255) = of_Z z.
Proof.
  intro Hz. unfold clamp255, of_Z. cbn [div].
  change (Qzero 255) with false. cbv iota. unfold fin at 1. cbn [mul].
  unfold fin.
  set (q := Qred (Qred (inject_Z z / 255) * 255)).
  assert (E : (q == inject_Z z)%Q)
    by (unfold q; rewrite !Qred_correct; field).
  assert (Hq : (0 <= q <= 255)%Q).
  { rewrite E. change 0%Q with (inject_Z 0). change 255%Q with (inject_Z 255).
    rewrite <- !Zle_Qle. lia. }
  rewrite Math_min_Fin.
  destruct (Qle_bool_spec 255 q) as [H|H]; rewrite Math_max_Fin.
  - assert (z = 255%Z) as ->.
    { assert (Q : (inject_Z 255 <= inject_Z z)%Q)
        by (rewrite <- E; exact H).
      rewrite <- Zle_Qle in Q. lia. }
    reflexivity.
  - destruct (Qle_bool_spec q 0) as [H0|H0].
    + assert (z = 0%Z) as ->.
      { assert (Q : (inject_Z z <= inject_Z 0)%Q)
          by (rewrite <- E; exact H0).
        rewrite <- Zle_Qle in Q. lia. }
      reflexivity.
    + cbn [Math_round]. unfold of_Z. now rewrite (Qfloor_half q z E).
Qed.

Lemma binary64_scaled_byte_nat (n : nat) :
  (n < 256)%nat ->
  Binary64.clamp255 (Binary64.of_Z (Z.of_nat n) / 255 * 255)%float
  = Binary64.of_Z (Z.of_nat n).
Proof.
  intro Hn.
  do 256 (destruct n as [|n]; [vm_compute; reflexivity|]).
  lia.
Qed.

Lemma binary64_scaled_byte (z : Z) :
  (0 <= z <= 255)%Z ->
  Binary64.clamp255 (Binary64.of_Z z / 255 * 255)%float = Binary64.of_Z z.
Proof.
  intro Hz. rewrite <- (Z2Nat.id z) by lia.
  apply binary64_scaled_byte_nat. lia.
Qed.

(** C7: for every colour of integer channels within 0..255, scaling to the
    unit range with [rgb01], back by 255 and through [rgb255] returns the
    colour exactly; in the exact reading of the arithmetic, and also in
    binary64, where the division and the product round. *)
Theorem byte_round_trip (r g b : Z) :
  (0 <= r <= 255)%Z -> (0 <= g <= 255)%Z -> (0 <= b <= 255)%Z ->
  rgb255 (map (fun v => v * 255) (rgb01 [of_Z r; of_Z g; of_Z b]))
  = [of_Z r; of_Z g; of_Z b]
  /\ Binary64.rgb255
       (map (fun v => (v * 255)%float)
            (Binary64.rgb01 [Binary64.of_Z r; Binary64.of_Z g; Binary64.of_Z b]))
     = [Binary64.of_Z r; Binary64.of_Z g; Binary64.of_Z b].
Proof.
  intros Hr Hg Hb. split.
  - unfold rgb255, rgb01. cbn [map idx nth].
    now rewrite !clamp255_scaled_byte.
  - unfold Binary64.rgb255, Binary64.rgb01. cbn [map Binary64.idx nth].
    now rewrite !binary64_scaled_byte.
Qed.

(** ** Division in [rgbToHsv] *)

(** The function of the language, with its monad unfolded. *)
Lemma rgbToHsv_eq (rgb : list num) :
  rgbToHsv rgb =
  let r := idx rgb 0 in let g := idx rgb 1 in let b := idx rgb 2 in
  let max := Math_max (Math_max r g) b in
  let min := Math_min (Math_min r g) b in
  let d := max - min in
  let s := if max === 0 then Fin 0 else d / max in
  let h :=
    if d =/= 0 then
      let h := if max === r then (g - b) / d %% 6
               else if max === g then (b - r) / d + 2
               else if max === b then (r - g) / d + 4
               else 0 in
      let h := h / 6 in
      if h <? 0 then h + 1 else h
    else 0 in
  [h; s; max].
Proof.
  unfold rgbToHsv, rgbToHsv_in. cbv zeta.
  generalize (idx rgb 0) (idx rgb 1) (idx rgb 2). intros r g b.
  generalize (Math_max (Math_max r g) b) (Math_min (Math_min r g) b).
  intros mx mn.
  destruct (mx === 0); destruct (mx - mn =/= 0); try reflexivity;
    destruct (mx === r); try reflexivity;
    destruct (mx === g); try reflexivity;
    destruct (mx === b); reflexivity.
Qed.

Lemma rgbToHsv_checked_total (rgb : list num) :
  rgbToHsv_checked rgb = Some (rgbToHsv rgb).
Proof.
  unfold rgbToHsv_checked, rgbToHsv, rgbToHsv_in.
  generalize (idx rgb 0) (idx rgb 1) (idx rgb 2). intros r g b.
  generalize (Math_max (Math_max r g) b) (Math_min (Math_min r g) b).
  intros mx mn.
  unfold checked_div at 5. change (Fin 6 === Fin 0) with false.
  unfold checked_div, sne.
  destruct (mx === 0); destruct (mx - mn === 0); try reflexivity;
    destruct (mx === r); try reflexivity;
    destruct (mx === g); try reflexivity;
    destruct (mx === b); reflexivity.
Qed.

Lemma Math_max_Fin_ex (x y : Q) : exists q, Math_max (Fin x) (Fin y) = Fin q.
Proof. rewrite Math_max_Fin. destruct (Qle_bool y x); eauto. Qed.

Lemma Math_min_Fin_ex (x y : Q) : exists q, Math_min (Fin x) (Fin y) = Fin q.
Proof. rewrite Math_min_Fin. destruct (Qle_bool x y); eauto. Qed.

Lemma rgbToHsv_gray (rgb : list num) :
  (forall i, (i < 3)%nat -> within 0 1 (idx rgb i) = true) ->
  (Math_max (Math_max (idx rgb 0) (idx rgb 1)) (idx rgb 2)
   === Math_min (Math_min (idx rgb 0) (idx rgb 1)) (idx rgb 2)) = true ->
  idx (rgbToHsv rgb) 0 = Fin 0 /\ idx (rgbToHsv rgb) 1 = Fin 0.
Proof.
  intros H. rewrite rgbToHsv_eq. cbv zeta.
  destruct (proj1 (within_Fin _ _ _) (H 0%nat ltac:(lia))) as (r & -> & _).
  destruct (proj1 (within_Fin _ _ _) (H 1%nat ltac:(lia))) as (g & -> & _).
  destruct (proj1 (within_Fin _ _ _) (H 2%nat ltac:(lia))) as (b & -> & _).
  destruct (Math_max_Fin_ex r g) as (m1 & ->).
  destruct (Math_max_Fin_ex m1 b) as (mx & ->).
  destruct (Math_min_Fin_ex r g) as (n1 & ->).
  destruct (Math_min_Fin_ex n1 b) as (mn & ->).
  cbn [strict_eq]. intro E. apply Qeq_bool_iff in E.
  cbn [sub]. unfold fin. rewrite (Qred_zero (mx - mn)) by lra.
  change (Fin 0 =/= Fin 0) with false. cbn [idx nth]. split; [reflexivity|].
  cbn [strict_eq]. destruct (Qeq_bool_spec mx 0) as [Z|Z]; [reflexivity|].
  cbn [div]. unfold Qzero. destruct (Qeq_bool_spec mx 0); [contradiction|].
  unfold fin. rewrite (Qred_zero (0 / mx)); [reflexivity|].
  now field.
Qed.

(** C8: every division of [rgbToHsv] has a divisor other than zero, on every
    input: run with its divisions checked, the function never faults and
    returns what it returns unchecked; and a gray of the unit cube (largest
    channel equal to the smallest, black included) has hue 0 and
    saturation 0. *)
Theorem rgbToHsv_divides_safely (rgb : list num) :
  rgbToHsv_checked rgb = Some (rgbToHsv rgb)
  /\ ((forall i, (i < 3)%nat -> within 0 1 (idx rgb i) = true) ->
      (Math_max (Math_max (idx rgb 0) (idx rgb 1)) (idx rgb 2)
       === Math_min (Math_min (idx rgb 0) (idx rgb 1)) (idx rgb 2)) = true ->
      idx (rgbToHsv rgb) 0 = Fin 0 /\ idx (rgbToHsv rgb) 1 = Fin 0).
Proof.
  split; [apply rgbToHsv_checked_total | apply rgbToHsv_gray].
Qed.

(** ** The numerical gradients *)

Section Gradients.

Variable pow_approx : num -> num -> num.
Variable Math_exp : num -> num.

Lemma gradNumerical_forward (bg01 params : list num) :
  g (gradNumerical pow_approx Math_exp bg01 params)
  = map (forward_difference
           (fun p => lossForText pow_approx bg01 (textColorFromParams Math_exp p))
           params 1e-3)
        (List.seq 0 3).
Proof.
  unfold gradNumerical, forward_difference, slice.
  cbn [g fold_left List.seq map arr_set]. reflexivity.
Qed.

Lemma gradThetaNumerical_forward (base01 theta : list num) :
  g (gradThetaNumerical pow_approx base01 theta)
  = map (forward_difference (lossForHoverTheta pow_approx base01) theta 1e-3)
        (List.seq 0 4).
Proof.
  unfold gradThetaNumerical, forward_difference, slice.
  cbn [g fold_left List.seq map arr_set]. reflexivity.
Qed.

Lemma gradNumerical_eq (bg01 params : list num) :
  gradNumerical pow_approx Math_exp bg01 params
  = {| baseLoss :=
         lossForText pow_approx bg01 (textColorFromParams Math_exp params);
       g := map (forward_difference
                   (fun p => lossForText pow_approx bg01
                               (textColorFromParams Math_exp p))
                   params 1e-3)
                (List.seq 0 3) |}.
Proof. rewrite <- gradNumerical_forward. reflexivity. Qed.

Lemma gradThetaNumerical_eq (base01 theta : list num) :
  gradThetaNumerical pow_approx base01 theta
  = {| baseLoss := lossForHoverTheta pow_approx base01 theta;
       g := map (forward_difference (lossForHoverTheta pow_approx base01)
                   theta 1e-3)
                (List.seq 0 4) |}.
Proof. rewrite <- gradThetaNumerical_forward. reflexivity. Qed.

(** C1 (amended): both estimators perturb one axis at a time by the fixed
    step 1e-3 and take the forward difference: component [i] of
    [gradNumerical] is the forward difference of [lossForText] (through
    [textColorFromParams]) along axis [i] of the 3 text parameters, and
    component [i] of [gradThetaNumerical] is the forward difference of
    [lossForHoverTheta] along axis [i] of the 4 policy parameters; each
    also returns the loss at the unperturbed point. *)
Theorem gradients_are_forward_differences (bg01 params base01 theta : list num) :
  gradNumerical pow_approx Math_exp bg01 params
  = {| baseLoss :=
         lossForText pow_approx bg01 (textColorFromParams Math_exp params);
       g := map (forward_difference
                   (fun p => lossForText pow_approx bg01
                               (textColorFromParams Math_exp p))
                   params 1e-3)
                (List.seq 0 3) |}
  /\ gradThetaNumerical pow_approx base01 theta
     = {| baseLoss := lossForHoverTheta pow_approx base01 theta;
          g := map (forward_difference (lossForHoverTheta pow_approx base01)
                      theta 1e-3)
                   (List.seq 0 4) |}.
Proof.
  split; [apply gradNumerical_eq | apply gradThetaNumerical_eq].
Qed.

End Gradients.

(** C1, as the claim states it, refuted: whatever [Math.pow] computes,
    [gradThetaNumerical] is not the central difference of
    [lossForHoverTheta]; on black with the default policy its first
    component is 2e-6 and the central difference is 0. *)
Lemma gradThetaNumerical_not_central :
  ~ (exists pow_approx : num -> num -> num,
        forall base01 theta : list num,
          g (gradThetaNumerical pow_approx base01 theta)
          = map (central_difference (lossForHoverTheta pow_approx base01)
                   theta 1e-3)
                (List.seq 0 4)).
Proof.
  intros (pow_approx & H).
  specialize (H [Fin 0; Fin 0; Fin 0] [Fin 0.18; Fin 0.82; Fin 0.86; Fin 0.92]).
  vm_compute in H. discriminate H.
Qed.

(** ** The box of the hover policy *)

Lemma is_fin_ex (a : num) : is_fin a = true -> exists q, a = Fin q.
Proof. destruct a; try discriminate. eauto. Qed.

Lemma is_fin_not_nan (a : num) : is_fin a = true -> is_nan a = false.
Proof. now destruct a. Qed.

Lemma within_is_fin (lo hi : Q) (a : num) :
  within lo hi a = true -> is_fin a = true.
Proof. intro H. apply within_Fin in H. now destruct H as (q & -> & _). Qed.

Lemma is_fin_add (a b : num) :
  is_fin a = true -> is_fin b = true -> is_fin (a + b) = true.
Proof. now destruct a, b. Qed.

Lemma is_fin_sub (a b : num) :
  is_fin a = true -> is_fin b = true -> is_fin (a - b) = true.
Proof. now destruct a, b. Qed.

Lemma is_fin_mul (a b : num) :
  is_fin a = true -> is_fin b = true -> is_fin (a * b) = true.
Proof. now destruct a, b. Qed.

Lemma is_fin_div (a : num) (y : Q) :
  is_fin a = true -> Qzero y = false -> is_fin (a / Fin y) = true.
Proof. intros Ha Hy. destruct a; try discriminate. cbn. now rewrite Hy. Qed.

Lemma is_fin_max (a b : num) :
  is_fin a = true -> is_fin b = true -> is_fin (Math_max a b) = true.
Proof.
  destruct a, b; try discriminate. intros _ _.
  rewrite Math_max_Fin. now destruct (Qle_bool _ _).
Qed.

Lemma is_fin_min (a b : num) :
  is_fin a = true -> is_fin b = true -> is_fin (Math_min a b) = true.
Proof.
  destruct a, b; try discriminate. intros _ _.
  rewrite Math_min_Fin. now destruct (Qle_bool _ _).
Qed.

Lemma is_fin_abs (a : num) : is_fin a = true -> is_fin (Math_abs a) = true.
Proof. now destruct a. Qed.

Lemma is_fin_clamp01 (a : num) : is_fin a = true -> is_fin (clamp01 a) = true.
Proof.
  intro H. apply (@within_is_fin 0 1).
  now apply clamp01_within, is_fin_not_nan.
Qed.

Lemma idx_arr_set (a : list num) (i : nat) (v : num) (j : nat) :
  idx (arr_set a i v) j = if (i =? j)%nat then v else idx a j.
Proof.
  unfold idx. revert a j.
  induction i as [|i IH]; intros [|x a] [|j]; cbn; try reflexivity.
  - now destruct j.
  - rewrite IH. now destruct j; destruct (i =? _)%nat.
  - apply IH.
Qed.

Lemma length_arr_set (a : list num) (i : nat) (v : num) :
  (i < List.length a)%nat -> List.length (arr_set a i v) = List.length a.
Proof.
  revert a. induction i as [|i IH]; intros [|x a] H; cbn in *; try lia.
  rewrite IH; lia.
Qed.

Create HintDb finite.

#[local] Hint Resolve is_fin_add is_fin_sub is_fin_mul is_fin_max is_fin_min
  is_fin_abs is_fin_clamp01 : finite.

Lemma finite_upto_perturb (n : nat) (a : list num) (i : nat) (d : num) :
  finite_upto n a -> is_fin d = true ->
  finite_upto n (arr_set a i (idx a i + d)).
Proof.
  intros Ha Hd j Hj. rewrite idx_arr_set.
  destruct (Nat.eqb_spec i j) as [->|_]; auto with finite.
Qed.

Section Box.

Variable pow_approx : num -> num -> num.

(** [Math.pow] of a positive finite base is a finite number. *)
Hypothesis pow_finite :
  forall x y : Q, (0 < x)%Q -> is_fin (pow_approx (Fin x) (Fin y)) = true.

Lemma Math_pow_2 (a : num) : Math_pow pow_approx a 2 = a * (a * 1).
Proof. reflexivity. Qed.

Lemma is_fin_pow_2 (a : num) :
  is_fin a = true -> is_fin (Math_pow pow_approx a 2) = true.
Proof. intro H. rewrite Math_pow_2. auto with finite. Qed.

Lemma is_fin_srgbToLinear (c : num) :
  is_fin c = true -> is_fin (srgbToLinear pow_approx c) = true.
Proof.
  intro H. apply is_fin_ex in H. destruct H as (x & ->).
  unfold srgbToLinear. cbn [le].
  destruct (Qle_bool_spec x 0.04045) as [L|L].
  - now apply is_fin_div.
  - change (Math_pow pow_approx ((Fin x + 0.055) / 1.055) 2.4)
      with (pow_approx ((Fin x + 0.055) / 1.055) 2.4).
    cbn [add div]. unfold fin. change (Qzero 1.055) with false. cbv iota.
    unfold fin. apply pow_finite. rewrite !Qred_correct.
    apply Qlt_shift_div_l; lra.
Qed.

Lemma is_fin_relLuminance (c : list num) :
  finite_upto 3 c -> is_fin (relLuminance pow_approx c) = true.
Proof.
  intro H.
  assert (H0 := H 0%nat ltac:(lia)).
  assert (H1 := H 1%nat ltac:(lia)).
  assert (H2 := H 2%nat ltac:(lia)).
  destruct c as [|x [|y [|z c]]]; try discriminate.
  unfold relLuminance. cbn [map idx nth] in *.
  auto 10 using is_fin_srgbToLinear with finite.
Qed.

Lemma finite_upto_hoverFromBase (base01 theta : list num) :
  finite_upto 3 base01 -> finite_upto 4 theta ->
  finite_upto 3 (hoverFromBase base01 theta).
Proof.
  intros Hb Ht.
  assert (B0 := Hb 0%nat ltac:(lia)).
  assert (B1 := Hb 1%nat ltac:(lia)).
  assert (B2 := Hb 2%nat ltac:(lia)).
  assert (T0 := Ht 0%nat ltac:(lia)).
  assert (T1 := Ht 1%nat ltac:(lia)).
  assert (T2 := Ht 2%nat ltac:(lia)).
  assert (T3 := Ht 3%nat ltac:(lia)).
  rewrite hoverFromBase_channels. unfold mix_channel.
  intros [|[|[|i]]] Hi; [| | |lia]; cbn [idx nth]; auto 10 with finite.
Qed.

Lemma is_fin_lossForHoverTheta (base01 theta : list num) :
  finite_upto 3 base01 -> finite_upto 4 theta ->
  is_fin (lossForHoverTheta pow_approx base01 theta) = true.
Proof.
  intros Hb Ht.
  assert (Hh := finite_upto_hoverFromBase base01 theta Hb Ht).
  assert (Lh := is_fin_relLuminance _ Hh).
  assert (Lb := is_fin_relLuminance _ Hb).
  assert (B0 := Hb 0%nat ltac:(lia)).
  assert (B1 := Hb 1%nat ltac:(lia)).
  assert (B2 := Hb 2%nat ltac:(lia)).
  assert (T0 := Ht 0%nat ltac:(lia)).
  assert (T1 := Ht 1%nat ltac:(lia)).
  assert (T2 := Ht 2%nat ltac:(lia)).
  assert (T3 := Ht 3%nat ltac:(lia)).
  assert (H0 := Hh 0%nat ltac:(lia)).
  assert (H1 := Hh 1%nat ltac:(lia)).
  assert (H2 := Hh 2%nat ltac:(lia)).
  unfold lossForHoverTheta.
  generalize dependent (hoverFromBase base01 theta). intros hover01 Hh Lh H0 H1 H2.
  generalize dependent (relLuminance pow_approx hover01).
  generalize dependent (relLuminance pow_approx base01).
  intros Lb' HLb Lh' HLh. cbv zeta.
  repeat first [ apply is_fin_add | apply is_fin_mul | apply is_fin_pow_2
               | apply is_fin_sub | apply is_fin_max | apply is_fin_abs
               | assumption | reflexivity ].
Qed.

Lemma is_fin_forward_difference (base01 theta : list num) (i : nat) :
  finite_upto 3 base01 -> finite_upto 4 theta ->
  is_fin (forward_difference (lossForHoverTheta pow_approx base01) theta 1e-3 i)
  = true.
Proof.
  intros Hb Ht. unfold forward_difference.
  apply is_fin_div; [|reflexivity].
  apply is_fin_sub; apply is_fin_lossForHoverTheta; auto.
  now apply finite_upto_perturb.
Qed.

(** The constraint of the loop: each of its two forms takes every number
    but NaN into the box. *)
Lemma floor_of_clamp (x : num) :
  is_nan x = false -> within 0.35 1 (Math_max 0.35 (clamp01 x)) = true.
Proof.
  intro H. apply clamp01_within in H. apply within_Fin in H.
  destruct H as (q & -> & Hq). rewrite Math_max_Fin. apply within_Fin.
  destruct (Qle_bool_spec q 0.35); eexists; (split; [reflexivity|lra]).
Qed.

Lemma clamp_of_floor (x : num) :
  is_nan x = false -> within 0.35 1 (clamp01 (Math_max 0.35 x)) = true.
Proof.
  intro H. apply within_Fin.
  destruct x as [| |q|]; try discriminate.
  - exists 0.35%Q. split; [reflexivity|lra].
  - rewrite Math_max_Fin. unfold clamp01.
    destruct (Qle_bool_spec q 0.35); rewrite Math_min_Fin.
    + exists 0.35%Q. split; [reflexivity|lra].
    + destruct (Qle_bool_spec 1 q); rewrite Math_max_Fin.
      * exists 1%Q. split; [reflexivity|lra].
      * destruct (Qle_bool_spec q 0); [lra|].
        exists q. split; [reflexivity|lra].
  - exists 1%Q. split; [reflexivity|lra].
Qed.

(** What a turn of the loop does to a policy of four entries. *)
Lemma optimizeHoverTheta_step_4 (base01 : list num) (a b c d lr : num) (s : nat) :
  let gr i :=
    forward_difference (lossForHoverTheta pow_approx base01) [a; b; c; d]
      1e-3 i in
  fst (optimizeHoverTheta_step pow_approx base01 ([a; b; c; d], lr) s)
  = [Math_max 0.35 (clamp01 (a - lr * gr 0%nat));
     clamp01 (Math_max 0.35 (b - lr * gr 1%nat));
     clamp01 (Math_max 0.35 (c - lr * gr 2%nat));
     clamp01 (Math_max 0.35 (d - lr * gr 3%nat))].
Proof.
  intro gr. unfold optimizeHoverTheta_step.
  rewrite gradThetaNumerical_forward.
  cbn [map List.seq mapi mapi_from idx nth arr_set].
  now destruct (s =? 60)%nat, (s =? 110)%nat.
Qed.

Lemma optimizeHoverTheta_step_lr (base01 theta : list num) (lr : num) (s : nat) :
  is_fin lr = true ->
  is_fin (snd (optimizeHoverTheta_step pow_approx base01 (theta, lr) s)) = true.
Proof.
  intro H. unfold optimizeHoverTheta_step.
  destruct (s =? 60)%nat, (s =? 110)%nat; cbn [snd]; auto with finite.
Qed.

Lemma boxed_finite (theta : list num) :
  boxed theta = true -> List.length theta = 4%nat /\ finite_upto 4 theta.
Proof.
  unfold boxed. intro H. apply andb_prop in H. destruct H as [L F].
  apply Nat.eqb_eq in L. split; [exact L|].
  intros i Hi. rewrite forallb_forall in F.
  apply (@within_is_fin 0.35 1). apply F. apply nth_In. lia.
Qed.

Lemma optimizeHoverTheta_step_boxed (base01 : list num)
    (st : list num * num) (s : nat) :
  finite_upto 3 base01 -> loop_state_ok st ->
  boxed (fst (optimizeHoverTheta_step pow_approx base01 st s)) = true
  /\ loop_state_ok (optimizeHoverTheta_step pow_approx base01 st s).
Proof.
  intros Hb (L & F & R). destruct st as [theta lr]. cbn [fst snd] in *.
  assert (B : boxed (fst (optimizeHoverTheta_step pow_approx base01 (theta, lr) s))
              = true).
  { destruct theta as [|a [|b [|c [|d [|e theta]]]]]; try discriminate.
    rewrite optimizeHoverTheta_step_4. cbv zeta.
    assert (Fa := F 0%nat ltac:(lia)). assert (Fb := F 1%nat ltac:(lia)).
    assert (Fc := F 2%nat ltac:(lia)). assert (Fd := F 3%nat ltac:(lia)).
    cbn [idx nth] in Fa, Fb, Fc, Fd.
    assert (U : forall x v, is_fin x = true ->
              is_nan (x - lr
                      * forward_difference
                          (lossForHoverTheta pow_approx base01) [a; b; c; d]
                          1e-3 v) = false).
    { intros x v Hx. apply is_fin_not_nan.
      apply is_fin_sub; [exact Hx|].
      apply is_fin_mul; [exact R|]. now apply is_fin_forward_difference. }
    unfold boxed. cbn [List.length forallb Nat.eqb andb].
    rewrite (floor_of_clamp _ (U a 0%nat Fa)).
    rewrite (clamp_of_floor _ (U b 1%nat Fb)).
    rewrite (clamp_of_floor _ (U c 2%nat Fc)).
    rewrite (clamp_of_floor _ (U d 3%nat Fd)).
    reflexivity. }
  split; [exact B|].
  destruct (boxed_finite _ B) as [L' F'].
  repeat split; try assumption.
  now apply optimizeHoverTheta_step_lr.
Qed.

Lemma optimizeHoverTheta_loop_S (base01 : list num) (k : nat)
    (st : list num * num) :
  optimizeHoverTheta_loop pow_approx base01 (S k) st
  = optimizeHoverTheta_step pow_approx base01
      (optimizeHoverTheta_loop pow_approx base01 k st) k.
Proof.
  unfold optimizeHoverTheta_loop.
  now rewrite seq_S, fold_left_app.
Qed.

Lemma optimizeHoverTheta_loop_ok (base01 : list num) (k : nat)
    (st : list num * num) :
  finite_upto 3 base01 -> loop_state_ok st ->
  loop_state_ok (optimizeHoverTheta_loop pow_approx base01 k st).
Proof.
  intros Hb Hst. induction k as [|k IH]; [exact Hst|].
  rewrite optimizeHoverTheta_loop_S.
  now apply optimizeHoverTheta_step_boxed.
Qed.

Lemma optimizeHoverTheta_loop_boxed (base01 : list num) (k : nat)
    (st : list num * num) :
  finite_upto 3 base01 -> loop_state_ok st -> (1 <= k)%nat ->
  boxed (fst (optimizeHoverTheta_loop pow_approx base01 k st)) = true.
Proof.
  intros Hb Hst Hk. destruct k as [|k]; [lia|].
  rewrite optimizeHoverTheta_loop_S.
  now apply optimizeHoverTheta_step_boxed, optimizeHoverTheta_loop_ok.
Qed.

(** The state after [k] turns is a state the longer run goes through. *)
Lemma optimizeHoverTheta_loop_through (base01 : list num) (k n : nat)
    (st : list num * num) :
  (k <= n)%nat ->
  optimizeHoverTheta_loop pow_approx base01 n st
  = fold_left (optimizeHoverTheta_step pow_approx base01)
      (List.seq k (n - k))
      (optimizeHoverTheta_loop pow_approx base01 k st).
Proof.
  intro H. unfold optimizeHoverTheta_loop. rewrite <- fold_left_app.
  replace n with (k + (n - k))%nat at 1 by lia.
  now rewrite seq_app.
Qed.

Lemma default_state_ok :
  loop_state_ok ([Fin 0.18; Fin 0.82; Fin 0.86; Fin 0.92], Fin 1.4).
Proof.
  repeat split. intros [|[|[|[|i]]]] Hi; cbn; try reflexivity. lia.
Qed.

Lemma optimizeHoverTheta_default_boxed (base01 : list num) :
  finite_upto 3 base01 ->
  boxed (theta (optimizeHoverTheta pow_approx base01
                  {| h_steps := None; h_lr := None; h_initTheta := None |}))
  = true.
Proof.
  intro Hb. unfold optimizeHoverTheta.
  cbn [default h_steps h_lr h_initTheta slice].
  assert (B := optimizeHoverTheta_loop_boxed base01 900 _ Hb default_state_ok
                 ltac:(lia)).
  destruct (optimizeHoverTheta_loop _ _ _ _) as [th lr]. exact B.
Qed.

End Box.

(** ** The target colour of the text loss is defined *)

Lemma max3_Fin (r g b : Q) :
  exists m, Math_max (Math_max (Fin r) (Fin g)) (Fin b) = Fin m
            /\ (r <= m /\ g <= m /\ b <= m)%Q.
Proof.
  rewrite Math_max_Fin. destruct (Qle_bool_spec g r);
    rewrite Math_max_Fin;
    match goal with |- context [Qle_bool ?x ?y] =>
      destruct (Qle_bool_spec x y) end;
    eexists; (split; [reflexivity|lra]).
Qed.

Lemma min3_Fin (r g b : Q) :
  exists n, Math_min (Math_min (Fin r) (Fin g)) (Fin b) = Fin n
            /\ (n <= r /\ n <= g /\ n <= b)%Q.
Proof.
  rewrite Math_min_Fin. destruct (Qle_bool_spec r g);
    rewrite Math_min_Fin;
    match goal with |- context [Qle_bool ?x ?y] =>
      destruct (Qle_bool_spec x y) end;
    eexists; (split; [reflexivity|lra]).
Qed.

Lemma Qfloor_unique (x : Q) (z : Z) :
  (inject_Z z <= x < inject_Z z + 1)%Q -> Qfloor x = z.
Proof.
  intros [L U]. assert (A := Qfloor_le x). assert (B := Qlt_floor x).
  rewrite inject_Z_plus in B. change (inject_Z 1) with 1%Q in B.
  assert (A' : (inject_Z (Qfloor x) < inject_Z (z + 1))%Q)
    by (rewrite inject_Z_plus; change (inject_Z 1) with 1%Q; lra).
  assert (B' : (inject_Z z < inject_Z (Qfloor x + 1))%Q)
    by (rewrite inject_Z_plus; change (inject_Z 1) with 1%Q; lra).
  rewrite <- Zlt_Qlt in A', B'. lia.
Qed.

Lemma Qtrunc_small (x : Q) : (-1 < x < 1)%Q -> Qtrunc x = 0%Z.
Proof.
  intros [L U]. unfold Qtrunc, Qneg.
  destruct (Qle_bool_spec 0 x) as [P|N]; cbn [negb].
  - apply Qfloor_unique. change (inject_Z 0) with 0%Q. lra.
  - unfold Qceiling. rewrite (Qfloor_unique (- x) 0); [reflexivity|].
    change (inject_Z 0) with 0%Q. lra.
Qed.

(** The remainder by 6 of what is within -1..1 is the number itself. *)
Lemma rem_6_small (x : Q) :
  (-1 <= x <= 1)%Q -> exists q, Fin x %% 6 = Fin q /\ (q == x)%Q.
Proof.
  intro H. cbn [rem]. change (Qzero 6) with false. cbv iota.
  rewrite Qtrunc_small.
  - eexists. split; [reflexivity|]. rewrite Qred_correct.
    change (inject_Z 0) with 0%Q. lra.
  - split.
    + apply Qlt_le_trans with (-1 / 6)%Q; [reflexivity|].
      apply Qmult_le_compat_r; [lra | discriminate].
    + apply Qle_lt_trans with (1 / 6)%Q; [|reflexivity].
      apply Qmult_le_compat_r; [lra | discriminate].
Qed.

(** The end of the hue computation: a sixth of what is within -1..5, plus
    one when negative, is within 0..1, 1 excluded. *)
Lemma hue_wrap (y : Q) :
  (-1 <= y <= 5)%Q ->
  exists h, (if Fin y / 6 <? 0 then Fin y / 6 + 1 else Fin y / 6) = Fin h
            /\ (0 <= h < 1)%Q.
Proof.
  intro H. cbn [div]. change (Qzero 6) with false. cbv iota.
  unfold fin. cbn [lt].
  assert (E : (Qred (y / 6) == y / 6)%Q) by apply Qred_correct.
  assert (B : (-1 / 6 <= y / 6 <= 5 / 6)%Q).
  { split; apply Qmult_le_compat_r; try lra; discriminate. }
  destruct (Qle_bool_spec 0 (Qred (y / 6))); cbn [negb].
  - eexists. split; [reflexivity|]. split; [assumption|].
    apply Qle_lt_trans with (5 / 6)%Q; [lra | reflexivity].
  - cbn [add]. unfold fin. eexists. split; [reflexivity|].
    rewrite Qred_correct.
    assert (-1 / 6 == - (1 # 6))%Q by reflexivity. lra.
Qed.

Lemma quotient_bound (a d : Q) :
  (0 < d)%Q -> (- d <= a <= d)%Q -> (-1 <= a / d <= 1)%Q.
Proof.
  intros Hd [L U]. split.
  - apply Qle_shift_div_l; [exact Hd | lra].
  - apply Qle_shift_div_r; [exact Hd | lra].
Qed.

(** The hue of a colour of finite channels is within 0..1, 1 excluded. *)
Lemma rgbToHsv_hue (rgb : list num) :
  finite_upto 3 rgb ->
  exists h, idx (rgbToHsv rgb) 0 = Fin h /\ (0 <= h < 1)%Q.
Proof.
  intro F. rewrite rgbToHsv_eq. cbv zeta.
  destruct (is_fin_ex _ (F 0%nat ltac:(lia))) as (r & ->).
  destruct (is_fin_ex _ (F 1%nat ltac:(lia))) as (g & ->).
  destruct (is_fin_ex _ (F 2%nat ltac:(lia))) as (b & ->).
  cbn [idx nth].
  destruct (max3_Fin r g b) as (m & -> & Mr & Mg & Mb).
  destruct (min3_Fin r g b) as (n & -> & Nr & Ng & Nb).
  cbn [sub]. unfold fin. unfold sne. cbn [strict_eq].
  destruct (Qeq_bool_spec (Qred (m - n)) 0) as [Z|NZ]; cbn [negb].
  - exists 0%Q. split; [reflexivity | lra].
  - assert (D : (0 < Qred (m - n))%Q).
    { rewrite Qred_correct in *. 
      destruct (Qlt_le_dec 0 (m - n)); [assumption|].
      exfalso. apply NZ. lra. }
    assert (Q1 := quotient_bound (Qred (g - b)) (Qred (m - n)) D).
    assert (Q2 := quotient_bound (Qred (b - r)) (Qred (m - n)) D).
    assert (Q3 := quotient_bound (Qred (r - g)) (Qred (m - n)) D).
    rewrite !Qred_correct in Q1, Q2, Q3.
    specialize (Q1 ltac:(lra)). specialize (Q2 ltac:(lra)).
    specialize (Q3 ltac:(lra)).
    assert (NZ' : Qzero (Qred (m - n)) = false).
    { unfold Qzero. destruct (Qeq_bool_spec (Qred (m - n)) 0);
        [contradiction | reflexivity]. }
    cbn [div]. rewrite !NZ'. unfold fin.
    set (q1 := Qred (Qred (g - b) / Qred (m - n))).
    set (q2 := Qred (Qred (b - r) / Qred (m - n))).
    set (q3 := Qred (Qred (r - g) / Qred (m - n))).
    assert (E1 : (-1 <= q1 <= 1)%Q)
      by (unfold q1; rewrite !Qred_correct; exact Q1).
    assert (E2 : (-1 <= q2 <= 1)%Q)
      by (unfold q2; rewrite !Qred_correct; exact Q2).
    assert (E3 : (-1 <= q3 <= 1)%Q)
      by (unfold q3; rewrite !Qred_correct; exact Q3).
    destruct (Qeq_bool m r).
    + destruct (rem_6_small q1 E1) as (y & -> & Ey).
      apply hue_wrap. lra.
    + destruct (Qeq_bool m g).
      * cbn [add]. unfold fin. apply hue_wrap. rewrite Qred_correct. lra.
      * destruct (Qeq_bool m b).
        -- cbn [add]. unfold fin. apply hue_wrap. rewrite Qred_correct. lra.
        -- apply hue_wrap. lra.
Qed.


(** The fractional part of what is not negative. *)
Lemma rem_1_frac (x : Q) :
  (0 <= x)%Q -> exists q, Fin x %% 1 = Fin q /\ (0 <= q < 1)%Q.
Proof.
  intro H. cbn [rem]. change (Qzero 1) with false. cbv iota.
  assert (E : (x / 1 == x)%Q) by (field).
  unfold Qtrunc, Qneg. destruct (Qle_bool_spec 0 (x / 1)); [|lra].
  cbn [negb]. eexists. split; [reflexivity|]. rewrite Qred_correct.
  assert (A := Qfloor_le (x / 1)). assert (B := Qlt_floor (x / 1)).
  rewrite inject_Z_plus in B. change (inject_Z 1) with 1%Q in B. lra.
Qed.

(** A hue within 0..1, 1 excluded, falls in one of the six sectors. *)
Lemma hsvToRgb_defined (h : Q) (s v : num) :
  (0 <= h < 1)%Q -> List.length (hsvToRgb [Fin h; s; v]) = 3%nat.
Proof.
  intro H. unfold hsvToRgb. cbv zeta. cbn [idx nth].
  assert (Z : exists z, (0 <= z <= 5)%Z /\ Math_floor (Fin h * 6) = of_Z z).
  { exists (Qfloor (Qred (h * 6))). split; [|reflexivity].
    assert (E := Qred_correct (h * 6)).
    assert (F0 : (Qfloor 0 <= Qfloor (Qred (h * 6)))%Z)
      by (apply Qfloor_resp_le; lra).
    assert (A := Qfloor_le (Qred (h * 6))).
    assert (A' : (inject_Z (Qfloor (Qred (h * 6))) < inject_Z 6)%Q)
      by (change (inject_Z 6) with 6%Q; lra).
    rewrite <- Zlt_Qlt in A'. change (Qfloor 0) with 0%Z in F0. lia. }
  destruct Z as (z & Hz & ->).
  assert (C : (z = 0 \/ z = 1 \/ z = 2 \/ z = 3 \/ z = 4 \/ z = 5)%Z) by lia.
  repeat (destruct C as [C|C]; [rewrite C; reflexivity|]).
  rewrite C. reflexivity.
Qed.

(** So the target colour that [lossForText] reads has its three channels:
    for a background of finite channels the read of [undefined], a
    [TypeError] in the source, does not happen. *)
Lemma lossForText_target_defined (bg01 : list num) (s v : num) :
  finite_upto 3 bg01 ->
  List.length (hsvToRgb [(idx (rgbToHsv bg01) 0 + 0.5) %% 1; s; v]) = 3%nat.
Proof.
  intro F. destruct (rgbToHsv_hue bg01 F) as (h & -> & Hh).
  cbn [add]. unfold fin.
  destruct (rem_1_frac (Qred (h + 0.5))) as (q & -> & Hq).
  - rewrite Qred_correct. lra.
  - now apply hsvToRgb_defined.
Qed.

(** ** The parsers *)

Lemma split_comma_free (s : string) :
  comma_free s = true -> JSString.split "," s = [s].
Proof.
  induction s as [|c r IH]; [reflexivity|].
  cbn. intro H. apply andb_prop in H. destruct H as [Hc Hr].
  apply negb_true_iff in Hc. rewrite Hc, (IH Hr). reflexivity.
Qed.

Lemma split_app_comma (s t : string) :
  comma_free s = true ->
  JSString.split "," (s ++ String "," t)%string = s :: JSString.split "," t.
Proof.
  induction s as [|c r IH]; [reflexivity|].
  cbn. intro H. apply andb_prop in H. destruct H as [Hc Hr].
  apply negb_true_iff in Hc. rewrite Hc, (IH Hr). reflexivity.
Qed.

(** Splitting at the commas undoes joining tokens with commas. *)
Lemma split_concat (toks : list string) :
  toks <> [] -> forallb comma_free toks = true ->
  JSString.split "," (String.concat "," toks) = toks.
Proof.
  induction toks as [|a toks IH]; [congruence|].
  intros _ H. cbn in H. apply andb_prop in H. destruct H as [Ha Ht].
  destruct toks as [|b toks]; [now apply split_comma_free|].
  change (String.concat "," (a :: b :: toks))
    with (a ++ String "," (String.concat "," (b :: toks)))%string.
  rewrite split_app_comma by exact Ha.
  rewrite IH; [reflexivity | congruence | exact Ht].
Qed.

Lemma split_not_nil (s : string) : JSString.split "," s <> [].
Proof.
  destruct s as [|c r]; [discriminate|]. cbn.
  destruct (Ascii.eqb c ","); [discriminate|].
  destruct (JSString.split "," r); discriminate.
Qed.

Lemma split_pieces_comma_free (s : string) :
  forallb comma_free (JSString.split "," s) = true.
Proof.
  induction s as [|c r IH]; [reflexivity|]. cbn.
  destruct (Ascii.eqb c ",") eqn:E; [exact IH|].
  destruct (JSString.split "," r) as [|t ts]; cbn in *; rewrite E; [reflexivity|].
  exact IH.
Qed.

(** Joining the pieces with commas gives the string back: every string is
    the join of its pieces, and of no other comma-free strings. *)
Lemma concat_split (s : string) :
  String.concat "," (JSString.split "," s) = s.
Proof.
  induction s as [|c r IH]; [reflexivity|]. cbn [JSString.split].
  assert (N := split_not_nil r).
  destruct (Ascii.eqb_spec c ",") as [->|_].
  - destruct (JSString.split "," r) as [|t ts]; [contradiction|].
    change (String.concat "," ("" :: t :: ts)%string)
      with (String "," (String.concat "," (t :: ts))).
    now rewrite IH.
  - destruct (JSString.split "," r) as [|t ts]; [contradiction|].
    rewrite <- IH. now destruct ts.
Qed.

Lemma trimEnd_idem (s : string) :
  JSString.trimEnd (JSString.trimEnd s) = JSString.trimEnd s.
Proof.
  induction s as [|c r IH]; [reflexivity|].
  cbn. destruct (JSString.trimEnd r) as [|d r'] eqn:E.
  - destruct (JSString.is_ws c) eqn:W; [reflexivity|]. cbn. now rewrite W.
  - cbn [JSString.trimEnd]. cbn [JSString.trimEnd] in IH.
    now rewrite IH.
Qed.

Lemma trimStart_head (s : string) :
  match JSString.trimStart s with
  | EmptyString => True
  | String c _ => JSString.is_ws c = false
  end.
Proof.
  induction s as [|c r IH]; [exact I|].
  cbn. destruct (JSString.is_ws c) eqn:W; [exact IH | exact W].
Qed.

Lemma trimStart_trimEnd (s : string) :
  match s with
  | EmptyString => True
  | String c _ => JSString.is_ws c = false
  end ->
  JSString.trimStart (JSString.trimEnd s) = JSString.trimEnd s.
Proof.
  destruct s as [|c r]; [reflexivity|]. intro W. cbn.
  destruct (JSString.trimEnd r); rewrite ?W; cbn; now rewrite W.
Qed.

Lemma trim_idem (s : string) : JSString.trim (JSString.trim s) = JSString.trim s.
Proof.
  unfold JSString.trim.
  rewrite (trimStart_trimEnd _ (trimStart_head s)). apply trimEnd_idem.
Qed.

Lemma Number_trim (s : string) :
  JSString.Number (JSString.trim s) = JSString.Number s.
Proof. unfold JSString.Number. now rewrite trim_idem. Qed.

(** [clamp255] takes every number but NaN to an integer of 0..255. *)
Lemma clamp255_byte (x : num) :
  is_nan x = false -> exists z : Z, (0 <= z <= 255)%Z /\ clamp255 x = of_Z z.
Proof.
  intro H. destruct x as [| |q|]; try discriminate.
  - exists 0%Z. split; [lia | reflexivity].
  - unfold clamp255.
    assert (E : exists q', Math_max 0 (Math_min 255 (Fin q)) = Fin q'
                           /\ (0 <= q' <= 255)%Q).
    { rewrite Math_min_Fin.
      destruct (Qle_bool_spec 255 q); rewrite Math_max_Fin.
      - exists 255%Q. split; [reflexivity | lra].
      - destruct (Qle_bool_spec q 0).
        + exists 0%Q. split; [reflexivity | lra].
        + exists q. split; [reflexivity | lra]. }
    destruct E as (q' & -> & L & U). cbn [Math_round].
    exists (Qfloor (q' + (1 # 2))). split; [|reflexivity].
    assert (F0 : (Qfloor 0 <= Qfloor (q' + (1 # 2)))%Z)
      by (apply Qfloor_resp_le; lra).
    assert (F1 : (Qfloor (q' + (1 # 2)) <= Qfloor (255 + (1 # 2)))%Z)
      by (apply Qfloor_resp_le; lra).
    change (Qfloor 0) with 0%Z in F0.
    change (Qfloor (255 + (1 # 2))) with 255%Z in F1. lia.
  - exists 255%Z. split; [lia | reflexivity].
Qed.

Lemma parseRGB_eq (text : string) :
  parseRGB text =
  if (List.length (tokens text) =? 3)%nat && forallb numeric (tokens text)
  then Some (map (fun t => clamp255 (JSString.Number t)) (tokens text))
  else None.
Proof.
  unfold parseRGB. fold (tokens text).
  destruct (List.length (tokens text) =? 3)%nat; [|reflexivity].
  cbn [negb andb]. rewrite map_map.
  replace (existsb is_nan (map JSString.Number (tokens text)))
    with (negb (forallb numeric (tokens text))).
  - now destruct (forallb numeric (tokens text)).
  - induction (tokens text) as [|t l IH]; [reflexivity|].
    cbn. rewrite negb_andb, IH. unfold numeric. now rewrite negb_involutive.
Qed.

(** Three numeric tokens, among empty ones or not, parse to their clamped
    values. *)
Lemma parseRGB_tokens (toks : list string) (a b c : string) :
  forallb comma_free toks = true ->
  filter JSString.Boolean (map JSString.trim toks) = [a; b; c] ->
  numeric a = true -> numeric b = true -> numeric c = true ->
  parseRGB (String.concat "," toks)
  = Some [clamp255 (JSString.Number a); clamp255 (JSString.Number b);
          clamp255 (JSString.Number c)].
Proof.
  intros Hf Ht Ha Hb Hc.
  assert (Hn : toks <> []) by (intros ->; discriminate).
  rewrite parseRGB_eq. unfold tokens. rewrite split_concat by assumption.
  rewrite Ht. cbn. now rewrite Ha, Hb, Hc.
Qed.

Lemma within_byte_test (v : num) :
  (HoverJs.isNaN v || (v <? 0) || (v >? 255)) = negb (within 0 255 v).
Proof.
  destruct v as [| |q|]; try reflexivity.
  unfold within, gt, HoverJs.isNaN. cbn.
  now destruct (Qle_bool 0 q), (Qle_bool q 255).
Qed.

Lemma parseRgbInput_eq (value : string) :
  HoverJs.parseRgbInput value =
  let parts :=
    map (fun v => JSString.parseInt10 (JSString.trim v))
        (JSString.split "," value) in
  if (List.length parts =? 3)%nat && forallb (within 0 255) parts
  then Some (map (fun v => v / 255) parts)
  else None.
Proof.
  unfold HoverJs.parseRgbInput. cbv zeta.
  generalize (map (fun v => JSString.parseInt10 (JSString.trim v))
                  (JSString.split "," value)).
  intro parts.
  replace (existsb (fun v => HoverJs.isNaN v || (v <? 0) || (v >? 255)) parts)
    with (negb (forallb (within 0 255) parts)).
  - now destruct (List.length parts =? 3)%nat, (forallb (within 0 255) parts).
  - induction parts as [|v parts IH]; [reflexivity|].
    cbn [forallb existsb]. now rewrite negb_andb, IH, within_byte_test.
Qed.

(** C2, as the claim states it, refuted on the parser of hover.js: three
    numeric tokens, the first above 255, are reported invalid. *)
Lemma parseRgbInput_rejects_out_of_range :
  HoverJs.parseRgbInput "300,0,0" = None.
Proof. reflexivity. Qed.

(** C2 (amended): for every input of three comma-separated tokens, none
    blank and each a numeric literal, [parseRGB] succeeds with the three
    values clamped (and rounded) into the integers 0..255: a value out of
    range is clamped and never makes the parse invalid.  The parser of
    hover.js, [parseRgbInput], does otherwise by an explicit guard: it
    succeeds exactly when its three integers lie within 0..255, and then
    returns them divided by 255, unclamped. *)
Theorem parseRGB_clamps_numeric_tokens (a b c : string) :
  comma_free a = true -> comma_free b = true -> comma_free c = true ->
  JSString.Boolean (JSString.trim a) = true ->
  JSString.Boolean (JSString.trim b) = true ->
  JSString.Boolean (JSString.trim c) = true ->
  numeric a = true -> numeric b = true -> numeric c = true ->
  parseRGB (String.concat "," [a; b; c])
  = Some [clamp255 (JSString.Number a); clamp255 (JSString.Number b);
          clamp255 (JSString.Number c)]
  /\ (exists r g b' : Z,
        (0 <= r <= 255)%Z /\ (0 <= g <= 255)%Z /\ (0 <= b' <= 255)%Z /\
        parseRGB (String.concat "," [a; b; c]) = Some [of_Z r; of_Z g; of_Z b'])
  /\ HoverJs.parseRgbInput (String.concat "," [a; b; c])
     = (let parts := [JSString.parseInt10 (JSString.trim a);
                      JSString.parseInt10 (JSString.trim b);
                      JSString.parseInt10 (JSString.trim c)] in
        if forallb (within 0 255) parts
        then Some (map (fun v => v / 255) parts)
        else None).
Proof.
  intros Fa Fb Fc Ba Bb Bc Na Nb Nc.
  assert (F : forallb comma_free [a; b; c] = true)
    by (cbn; now rewrite Fa, Fb, Fc).
  assert (P : parseRGB (String.concat "," [a; b; c])
              = Some [clamp255 (JSString.Number a);
                      clamp255 (JSString.Number b);
                      clamp255 (JSString.Number c)]).
  { rewrite (parseRGB_tokens [a; b; c] (JSString.trim a) (JSString.trim b)
               (JSString.trim c) F).
    - now rewrite !Number_trim.
    - cbn. now rewrite Ba, Bb, Bc.
    - unfold numeric. now rewrite Number_trim.
    - unfold numeric. now rewrite Number_trim.
    - unfold numeric. now rewrite Number_trim. }
  split; [exact P|]. split.
  - unfold numeric in Na, Nb, Nc. apply negb_true_iff in Na, Nb, Nc.
    destruct (clamp255_byte _ Na) as (r & Hr & Er).
    destruct (clamp255_byte _ Nb) as (g & Hg & Eg).
    destruct (clamp255_byte _ Nc) as (b' & Hb & Eb).
    exists r, g, b'. repeat (split; [assumption|]).
    now rewrite P, Er, Eg, Eb.
  - rewrite parseRgbInput_eq.
    rewrite split_concat by (assumption || discriminate). reflexivity.
Qed.

Lemma parseRGB_None_iff (toks : list string) :
  forallb comma_free toks = true ->
  parseRGB (String.concat "," toks) = None <->
  ~ (exists a b c,
        filter JSString.Boolean (map JSString.trim toks) = [a; b; c]
        /\ numeric a = true /\ numeric b = true /\ numeric c = true).
Proof.
  intro F. rewrite parseRGB_eq.
  assert (T : tokens (String.concat "," toks)
              = filter JSString.Boolean (map JSString.trim toks)).
  { unfold tokens. destruct toks as [|t ts]; [reflexivity|].
    rewrite split_concat; [reflexivity | discriminate | exact F]. }
  rewrite T. clear T.
  destruct (filter JSString.Boolean (map JSString.trim toks))
    as [|a [|b [|c [|d l]]]];
    try (split; [intros _ (x & y & z & E & _); discriminate E | reflexivity]).
  cbn [List.length Nat.eqb forallb andb].
  destruct (numeric a) eqn:Na; destruct (numeric b) eqn:Nb;
    destruct (numeric c) eqn:Nc; cbn [andb];
    try (split; [intros _ (x & y & z & E & Hx & Hy & Hz);
                 injection E as <- <- <-; congruence
                | reflexivity]).
  split; [discriminate|]. intro H. exfalso. apply H.
  exists a, b, c. repeat split; assumption.
Qed.

Lemma parseRGB_total (text : string) :
  parseRGB text = None \/
  exists r g b : Z,
    (0 <= r <= 255)%Z /\ (0 <= g <= 255)%Z /\ (0 <= b <= 255)%Z /\
    parseRGB text = Some [of_Z r; of_Z g; of_Z b].
Proof.
  rewrite parseRGB_eq.
  destruct (Nat.eqb_spec (List.length (tokens text)) 3) as [L|L];
    [|now left].
  destruct (forallb numeric (tokens text)) eqn:N; [|now left].
  right. cbn [andb].
  destruct (tokens text) as [|a [|b [|c [|d l]]]]; try discriminate.
  cbn in N. apply andb_prop in N. destruct N as [Na N].
  apply andb_prop in N. destruct N as [Nb N].
  apply andb_prop in N. destruct N as [Nc _].
  unfold numeric in Na, Nb, Nc. apply negb_true_iff in Na, Nb, Nc.
  destruct (clamp255_byte _ Na) as (r & Hr & Er).
  destruct (clamp255_byte _ Nb) as (g & Hg & Eg).
  destruct (clamp255_byte _ Nc) as (b' & Hb & Eb).
  exists r, g, b'. repeat (split; [assumption|]).
  cbn [map]. now rewrite Er, Eg, Eb.
Qed.

(** C4: every input is the join, by commas, of comma-free pieces, and
    [parseRGB] returns the invalid result exactly when these pieces, once
    trimmed and the empty ones dropped, are not three numeric literals; it
    always returns, the invalid result or three integers of 0..255.  The
    strings ["1,2"], ["a,b,c"], the empty string and ["1,2,3,4"] are
    invalid, and ["10, 20, 30"] parses to 10, 20, 30. *)
Theorem parseRGB_invalid_iff :
  (forall text : string,
      exists toks, forallb comma_free toks = true
                   /\ text = String.concat "," toks)
  /\ (forall toks : list string,
        forallb comma_free toks = true ->
        parseRGB (String.concat "," toks) = None <->
        ~ (exists a b c,
              filter JSString.Boolean (map JSString.trim toks) = [a; b; c]
              /\ numeric a = true /\ numeric b = true /\ numeric c = true))
  /\ (forall text : string,
        parseRGB text = None \/
        exists r g b : Z,
          (0 <= r <= 255)%Z /\ (0 <= g <= 255)%Z /\ (0 <= b <= 255)%Z /\
          parseRGB text = Some [of_Z r; of_Z g; of_Z b])
  /\ parseRGB "1,2" = None
  /\ parseRGB "a,b,c" = None
  /\ parseRGB "" = None
  /\ parseRGB "1,2,3,4" = None
  /\ parseRGB "10, 20, 30" = Some [of_Z 10; of_Z 20; of_Z 30].
Proof.
  split; [|split; [|split; [|repeat split; reflexivity]]].
  - intro text. exists (JSString.split "," text). split.
    + apply split_pieces_comma_free.
    + symmetry. apply concat_split.
  - exact parseRGB_None_iff.
  - exact parseRGB_total.
Qed.

(** C10: empty tokens are dropped before the tokens are counted: for every
    input made of comma-free pieces joined by commas, whose pieces, once
    trimmed and the empty ones dropped, are three numeric literals,
    [parseRGB] succeeds with the three values clamped into 0..255; among
    them ["10,,20,30"] and ["10,20,30,"]. *)
Theorem parseRGB_discards_empty_tokens (toks : list string) (a b c : string) :
  forallb comma_free toks = true ->
  filter JSString.Boolean (map JSString.trim toks) = [a; b; c] ->
  numeric a = true -> numeric b = true -> numeric c = true ->
  parseRGB (String.concat "," toks)
  = Some [clamp255 (JSString.Number a); clamp255 (JSString.Number b);
          clamp255 (JSString.Number c)]
  /\ exists r g b' : Z,
       (0 <= r <= 255)%Z /\ (0 <= g <= 255)%Z /\ (0 <= b' <= 255)%Z /\
       parseRGB (String.concat "," toks) = Some [of_Z r; of_Z g; of_Z b'].
Proof.
  intros F T Na Nb Nc.
  assert (P := parseRGB_tokens toks a b c F T Na Nb Nc).
  split; [exact P|].
  unfold numeric in Na, Nb, Nc. apply negb_true_iff in Na, Nb, Nc.
  destruct (clamp255_byte _ Na) as (r & Hr & Er).
  destruct (clamp255_byte _ Nb) as (g & Hg & Eg).
  destruct (clamp255_byte _ Nc) as (b' & Hb & Eb).
  exists r, g, b'. repeat (split; [assumption|]).
  now rewrite P, Er, Eg, Eb.
Qed.

(** ** The constraint of the policy in binary64 *)

Lemma SFltb_SFleb (a b : spec_float) : SFltb a b = true -> SFleb a b = true.
Proof. unfold SFltb, SFleb. now destruct (SFcompare a b) as [[| |]|]. Qed.

Lemma SFcompare_antisym (a b : spec_float) :
  SFcompare b a = option_map CompOpp (SFcompare a b).
Proof.
  destruct a as [sa|sa| |sa ma ea], b as [sb|sb| |sb mb eb];
    try reflexivity; try (destruct sa; reflexivity);
    try (destruct sb; reflexivity);
    try (destruct sa, sb; reflexivity).
  cbn. destruct sa, sb; try reflexivity;
    rewrite (Z.compare_antisym ea eb);
    destruct (ea ?= eb)%Z; try reflexivity; cbn;
    rewrite (Pos.compare_cont_antisym ma mb Eq); cbn;
    now destruct (Pos.compare_cont Eq ma mb).
Qed.

(** Two numbers, neither NaN nor below the other, are below or equal to
    each other. *)
Lemma SF_total (a b : spec_float) :
  a <> S754_nan -> b <> S754_nan ->
  SFltb a b = false -> SFltb b a = false ->
  SFleb a b = true /\ SFleb b a = true.
Proof.
  intros Ha Hb. unfold SFltb, SFleb. rewrite (SFcompare_antisym a b).
  destruct (SFcompare a b) as [[| |]|] eqn:E; cbn; try discriminate; auto.
  destruct a, b; try discriminate; congruence.
Qed.

Lemma is_nan_Prim2SF (x : float) :
  Binary64.is_nan x = false -> Prim2SF x <> S754_nan.
Proof.
  unfold Binary64.is_nan. rewrite FloatAxioms.eqb_spec. intros H E. rewrite E in H.
  discriminate.
Qed.

Lemma float_ltb_leb (a b : float) :
  (a <? b)%float = true -> (a <=? b)%float = true.
Proof. rewrite FloatAxioms.ltb_spec, FloatAxioms.leb_spec. apply SFltb_SFleb. Qed.

Lemma float_total (a b : float) :
  Binary64.is_nan a = false -> Binary64.is_nan b = false ->
  (a <? b)%float = false -> (b <? a)%float = false ->
  (a <=? b)%float = true /\ (b <=? a)%float = true.
Proof.
  intros Ha Hb. rewrite !FloatAxioms.ltb_spec, !FloatAxioms.leb_spec.
  apply SF_total; now apply is_nan_Prim2SF.
Qed.

(** What is above a positive number is above zero. *)
Lemma float_above_pos (c x : float) :
  (0 <? c)%float = true -> (c <? x)%float = true -> (0 <? x)%float = true.
Proof.
  rewrite !FloatAxioms.ltb_spec. change (Prim2SF 0) with (S754_zero false).
  unfold SFltb.
  destruct (Prim2SF c) as [sc|sc| |sc mc ec], (Prim2SF x) as [sx|sx| |sx mx ex];
    cbn; try discriminate; try (destruct sc; discriminate);
    try (destruct sx; discriminate); try (destruct sc, sx; discriminate);
    try (destruct sc, sx; cbn; congruence).
Qed.

Lemma binary64_min_1 (x : float) :
  Binary64.is_nan x = false ->
  Binary64.Math_min 1 x = 1%float
  \/ (Binary64.Math_min 1 x = x /\ (x <=? 1)%float = true).
Proof.
  intro H. unfold Binary64.Math_min.
  change (Binary64.is_nan 1) with false. rewrite H. cbn [orb].
  destruct (1 <? x)%float eqn:A; [now left|].
  destruct (x <? 1)%float eqn:B.
  - right. split; [reflexivity|]. now apply float_ltb_leb.
  - right. change (Binary64.is_negzero 1) with false. cbv iota.
    split; [reflexivity|]. now apply (float_total x 1 H eq_refl B A).
Qed.

Lemma binary64_max_0 (x : float) :
  Binary64.is_nan x = false ->
  (Binary64.Math_max 0 x = 0%float /\ (0 <? x)%float = false)
  \/ (Binary64.Math_max 0 x = x /\ (0 <? x)%float = true).
Proof.
  intro H. unfold Binary64.Math_max.
  change (Binary64.is_nan 0) with false. rewrite H. cbn [orb].
  destruct (0 <? x)%float eqn:A; [now right|]. left.
  destruct (x <? 0)%float; [now split|].
  change (Binary64.is_negzero 0) with false. now split.
Qed.

Lemma binary64_max_0_35 (x : float) :
  Binary64.is_nan x = false ->
  Binary64.Math_max Binary64.lit_0_35 x = Binary64.lit_0_35
  \/ (Binary64.Math_max Binary64.lit_0_35 x = x
      /\ (Binary64.lit_0_35 <? x)%float = true).
Proof.
  intro H. unfold Binary64.Math_max.
  change (Binary64.is_nan Binary64.lit_0_35) with false. rewrite H. cbn [orb].
  destruct (Binary64.lit_0_35 <? x)%float eqn:A; [now right|]. left.
  destruct (x <? Binary64.lit_0_35)%float; [reflexivity|].
  change (Binary64.is_negzero Binary64.lit_0_35) with false. reflexivity.
Qed.

(** The constraint on the mix fraction, [Math.max(0.35, clamp01(x))]. *)
Lemma binary64_floor_of_clamp (x : float) :
  Binary64.is_nan x = false ->
  Binary64.in_box (Binary64.Math_max Binary64.lit_0_35 (Binary64.clamp01 x))
  = true.
Proof.
  intro H. unfold Binary64.clamp01.
  destruct (binary64_min_1 x H) as [E|[E L]]; rewrite E; [reflexivity|].
  destruct (binary64_max_0 x H) as [[E0 _]|[E0 P]]; rewrite E0; [reflexivity|].
  destruct (binary64_max_0_35 x H) as [E1|[E1 Q]]; rewrite E1; [reflexivity|].
  unfold Binary64.in_box. now rewrite (float_ltb_leb _ _ Q), L.
Qed.

(** The constraint on the three factors, [clamp01(Math.max(0.35, x))]. *)
Lemma binary64_clamp_of_floor (x : float) :
  Binary64.is_nan x = false ->
  Binary64.in_box (Binary64.clamp01 (Binary64.Math_max Binary64.lit_0_35 x))
  = true.
Proof.
  intro H.
  destruct (binary64_max_0_35 x H) as [E1|[E1 Q]]; rewrite E1; [reflexivity|].
  unfold Binary64.clamp01.
  destruct (binary64_min_1 x H) as [E|[E L]]; rewrite E; [reflexivity|].
  destruct (binary64_max_0 x H) as [[E0 N]|[E0 P]]; rewrite E0.
  - rewrite (float_above_pos Binary64.lit_0_35 x eq_refl Q) in N. discriminate.
  - unfold Binary64.in_box. now rewrite (float_ltb_leb _ _ Q), L.
Qed.

(** ** The box, from the form to the policy *)

Lemma rgb01_finite (r g b : Z) :
  finite_upto 3 (rgb01 [of_Z r; of_Z g; of_Z b]).
Proof.
  intros [|[|[|i]]] Hi; [reflexivity | reflexivity | reflexivity | lia].
Qed.

Section PolicyBox.

Variable pow_approx : num -> num -> num.

(** [Math.pow] of a positive finite base is a finite number. *)
Hypothesis pow_finite :
  forall x y : Q, (0 < x)%Q -> is_fin (pow_approx (Fin x) (Fin y)) = true.

(** C5: under the default options (900 turns, learning rate 1.4, the prior
    as initial policy), after each turn of the loop of [optimizeHoverTheta]
    (each state the run of 900 turns goes through) the policy has four
    entries, all within 0.35..1, and so has the policy returned, in
    particular the one [applyChain] finds for a colour that [parseRGB]
    accepted; a turn of the loop of [optimizeText] replaces each parameter
    [v] by [v - lr * g] and constrains nothing.  The base colour is one of
    finite channels, and [Math.pow] of a positive finite base is finite.
    In binary64 too the two forms of the constraint take every number but
    NaN into the box. *)
Theorem hover_policy_stays_in_box (base01 : list num) :
  finite_upto 3 base01 ->
  (forall k, (1 <= k <= 900)%nat ->
     let start := ([Fin 0.18; Fin 0.82; Fin 0.86; Fin 0.92], Fin 1.4) in
     boxed (fst (optimizeHoverTheta_loop pow_approx base01 k start)) = true
     /\ optimizeHoverTheta_loop pow_approx base01 900 start
        = fold_left (optimizeHoverTheta_step pow_approx base01)
            (List.seq k (900 - k))
            (optimizeHoverTheta_loop pow_approx base01 k start))
  /\ boxed (theta (optimizeHoverTheta pow_approx base01
                     {| h_steps := None; h_lr := None; h_initTheta := None |}))
     = true
  /\ (forall (Math_exp : num -> num) (text : string) (rgb : list num),
        parseRGB text = Some rgb ->
        boxed (theta (hoverOpt (applyChain pow_approx Math_exp rgb))) = true)
  /\ (forall (Math_exp : num -> num) (bg01 p : list num) (lr : num) (s : nat),
        fst (optimizeText_step pow_approx Math_exp bg01 (p, lr) s)
        = mapi (fun v i =>
                  v - lr * idx (g (gradNumerical pow_approx Math_exp bg01 p)) i)
               p)
  /\ (forall x : float,
        Binary64.is_nan x = false ->
        Binary64.in_box
          (Binary64.Math_max Binary64.lit_0_35 (Binary64.clamp01 x)) = true
        /\ Binary64.in_box
             (Binary64.clamp01 (Binary64.Math_max Binary64.lit_0_35 x)) = true).
Proof.
  intro Hb. split; [|split; [|split; [|split]]];
    [| | | |intros x Hx; split;
            [now apply binary64_floor_of_clamp
            |now apply binary64_clamp_of_floor]].
  - intros k Hk. cbv zeta. split.
    + apply (optimizeHoverTheta_loop_boxed pow_approx pow_finite);
        [exact Hb|apply default_state_ok|lia].
    + apply optimizeHoverTheta_loop_through. lia.
  - apply (optimizeHoverTheta_default_boxed pow_approx pow_finite), Hb.
  - intros Math_exp text rgb P.
    destruct (parseRGB_total text) as [N|(r & g & b & _ & _ & _ & E)];
      [congruence|].
    rewrite E in P. injection P as <-.
    cbn [applyChain hoverOpt].
    apply (optimizeHoverTheta_default_boxed pow_approx pow_finite).
    apply rgb01_finite.
  - intros. unfold optimizeText_step.
    now destruct (s =? 60)%nat, (s =? 110)%nat.
Qed.

End PolicyBox.

(** ** The chain *)

Section Chain.

Variable pow_approx : num -> num -> num.
Variable Math_exp : num -> num.

Lemma optimizeText_params (bg01 seed : list num) :
  params (optimizeText pow_approx Math_exp bg01
            {| o_steps := None; o_lr := None; o_initParams := Some seed |})
  = fst (optimizeText_loop pow_approx Math_exp bg01 160 (seed, Fin 0.35)).
Proof.
  unfold optimizeText. cbn [default o_steps o_lr o_initParams slice].
  destruct (optimizeText_loop _ _ _ _ _). reflexivity.
Qed.

End Chain.

(** ** What the chain takes from the host *)

Lemma fold_left_ext {A B : Type} (f f' : A -> B -> A) (l : list B) (a : A) :
  (forall x y, f x y = f' x y) -> fold_left f l a = fold_left f' l a.
Proof.
  intro H. revert a. induction l as [|b l IH]; intro a; [reflexivity|].
  cbn. now rewrite H, IH.
Qed.

Section Determinism.

(** Two hosts whose [Math.pow] and [Math.exp] return the same values. *)
Variables pow_approx pow_approx' : num -> num -> num.
Variables Math_exp Math_exp' : num -> num.
Hypothesis same_pow : forall b e, pow_approx b e = pow_approx' b e.
Hypothesis same_exp : forall x, Math_exp x = Math_exp' x.

Lemma Math_pow_ext (b e : num) :
  Math_pow pow_approx b e = Math_pow pow_approx' b e.
Proof. unfold Math_pow. destruct (as_integer e); [reflexivity|apply same_pow]. Qed.

Lemma srgbToLinear_ext (c : num) :
  srgbToLinear pow_approx c = srgbToLinear pow_approx' c.
Proof.
  unfold srgbToLinear. destruct (c <=? 0.04045); [reflexivity|apply Math_pow_ext].
Qed.

Lemma relLuminance_ext (c : list num) :
  relLuminance pow_approx c = relLuminance pow_approx' c.
Proof.
  unfold relLuminance. rewrite (map_ext _ _ srgbToLinear_ext); reflexivity.
Qed.

Lemma textColorFromParams_ext (p : list num) :
  textColorFromParams Math_exp p = textColorFromParams Math_exp' p.
Proof. unfold textColorFromParams, sigmoid. rewrite !same_exp; reflexivity. Qed.

Lemma lossForText_ext (bg01 text01 : list num) :
  lossForText pow_approx bg01 text01 = lossForText pow_approx' bg01 text01.
Proof.
  unfold lossForText. cbv zeta.
  rewrite !relLuminance_ext, !Math_pow_ext; reflexivity.
Qed.

Lemma lossForHoverTheta_ext (base01 theta : list num) :
  lossForHoverTheta pow_approx base01 theta
  = lossForHoverTheta pow_approx' base01 theta.
Proof.
  unfold lossForHoverTheta. cbv zeta.
  rewrite !relLuminance_ext, !Math_pow_ext; reflexivity.
Qed.

Lemma gradNumerical_ext (bg01 p : list num) :
  gradNumerical pow_approx Math_exp bg01 p
  = gradNumerical pow_approx' Math_exp' bg01 p.
Proof.
  rewrite !gradNumerical_eq. unfold forward_difference. cbn [map List.seq].
  rewrite !lossForText_ext, !textColorFromParams_ext. reflexivity.
Qed.

Lemma gradThetaNumerical_ext (base01 theta : list num) :
  gradThetaNumerical pow_approx base01 theta
  = gradThetaNumerical pow_approx' base01 theta.
Proof.
  rewrite !gradThetaNumerical_eq. unfold forward_difference.
  cbn [map List.seq]. rewrite !lossForHoverTheta_ext. reflexivity.
Qed.

Lemma optimizeText_ext (bg01 : list num) (opts : TextOptions) :
  optimizeText pow_approx Math_exp bg01 opts
  = optimizeText pow_approx' Math_exp' bg01 opts.
Proof.
  unfold optimizeText, optimizeText_loop. cbv zeta.
  rewrite (fold_left_ext (optimizeText_step pow_approx Math_exp bg01)
             (optimizeText_step pow_approx' Math_exp' bg01)).
  - destruct (fold_left _ _ _) as [p lr].
    rewrite lossForText_ext, textColorFromParams_ext; reflexivity.
  - intros [p lr] s. unfold optimizeText_step. rewrite gradNumerical_ext; reflexivity.
Qed.

Lemma optimizeHoverTheta_ext (base01 : list num) (opts : ThetaOptions) :
  optimizeHoverTheta pow_approx base01 opts
  = optimizeHoverTheta pow_approx' base01 opts.
Proof.
  unfold optimizeHoverTheta, optimizeHoverTheta_loop. cbv zeta.
  rewrite (fold_left_ext (optimizeHoverTheta_step pow_approx base01)
             (optimizeHoverTheta_step pow_approx' base01)).
  - destruct (fold_left _ _ _) as [th lr]. rewrite lossForHoverTheta_ext; reflexivity.
  - intros [th lr] s. unfold optimizeHoverTheta_step.
    rewrite gradThetaNumerical_ext; reflexivity.
Qed.

(** The result of [applyChain], in both variants, takes from the host the
    values of [Math.pow] and [Math.exp] and nothing else: under two hosts
    that agree on these values it is the same, field by field. *)
Lemma applyChain_host_values (baseRgb255 : list num) :
  applyChain pow_approx Math_exp baseRgb255
  = applyChain pow_approx' Math_exp' baseRgb255
  /\ Simple.applyChain pow_approx Math_exp baseRgb255
     = Simple.applyChain pow_approx' Math_exp' baseRgb255.
Proof.
  unfold applyChain, Simple.applyChain. cbv zeta.
  rewrite !optimizeHoverTheta_ext, !optimizeText_ext. split; reflexivity.
Qed.

End Determinism.

(** ** The store: the functions on arrays compute what those on values do *)

Lemma holds_cell (w : Store.world) (a : Store.ref) (l : list num) :
  Store.holds w a l -> Store.cell w a = l.
Proof. unfold Store.holds, Store.cell. intro H. now apply nth_error_nth. Qed.

Lemma holds_lt (w : Store.world) (a : Store.ref) (l : list num) :
  Store.holds w a l -> (a < List.length (Store.heap w))%nat.
Proof.
  unfold Store.holds. intro H. apply nth_error_Some. congruence.
Qed.

Lemma grows_refl (w : Store.world) : Store.grows w w.
Proof. split; [exists []; now rewrite app_nil_r | reflexivity]. Qed.

Lemma grows_trans (w1 w2 w3 : Store.world) :
  Store.grows w1 w2 -> Store.grows w2 w3 -> Store.grows w1 w3.
Proof.
  intros ((n & E) & D) ((n' & E') & D'). split.
  - exists (n ++ n')%list. now rewrite E', E, app_assoc.
  - congruence.
Qed.

Lemma grows_length (w w' : Store.world) :
  Store.grows w w' ->
  (List.length (Store.heap w) <= List.length (Store.heap w'))%nat.
Proof. intros ((n & E) & _). rewrite E, length_app. lia. Qed.

Lemma holds_grows (w w' : Store.world) (a : Store.ref) (l : list num) :
  Store.grows w w' -> Store.holds w a l -> Store.holds w' a l.
Proof.
  intros ((n & E) & _) H. unfold Store.holds in *. rewrite E.
  rewrite nth_error_app1; [exact H | apply nth_error_Some; congruence].
Qed.

Lemma update_length (a : nat) (l : list num) (h : list (list num)) :
  List.length (Store.update a l h) = List.length h.
Proof.
  revert a. induction h as [|x h IH]; intros [|a]; cbn; try reflexivity.
  now rewrite IH.
Qed.

Lemma update_same (a : nat) (l : list num) (h : list (list num)) :
  (a < List.length h)%nat -> nth_error (Store.update a l h) a = Some l.
Proof.
  revert a. induction h as [|x h IH]; intros [|a] H; cbn in *; try lia.
  - reflexivity.
  - apply IH. lia.
Qed.

Lemma update_other (a x : nat) (l : list num) (h : list (list num)) :
  x <> a -> nth_error (Store.update a l h) x = nth_error h x.
Proof.
  revert a x. induction h as [|y h IH]; intros [|a] [|x] H; cbn;
    try reflexivity; try lia.
  apply IH. lia.
Qed.

Lemma update_app (a : nat) (l : list num) (h n : list (list num)) :
  (List.length h <= a)%nat ->
  Store.update a l (h ++ n) = (h ++ Store.update (a - List.length h) l n)%list.
Proof.
  revert a. induction h as [|y h IH]; intros a H; cbn in *.
  - now rewrite Nat.sub_0_r.
  - destruct a as [|a]; [lia|]. cbn. f_equal. apply IH. lia.
Qed.

(** A write through a name is read through every holder of the name, and
    not through a copy that [slice] made before; a number drawn is counted,
    and the world after it is not one that only grew. *)
Example write_is_shared :
  fst (Store.bind (Store.alloc [Fin 1; Fin 2; Fin 3]) (fun a =>
       Store.bind (Store.slice a) (fun b =>
       Store.bind (Store.set a 0 (Fin 9)) (fun _ =>
       Store.bind (Store.get a 0) (fun x =>
       Store.bind (Store.get b 0) (fun y =>
       Store.ret (x, y))))))
         form_world)
  = (Fin 9, Fin 1).
Proof. reflexivity. Qed.

Lemma Math_random_draws (stream : nat -> num) (w : Store.world) :
  fst (Store.Math_random stream w) = stream (Store.draws w)
  /\ Store.draws (snd (Store.Math_random stream w)) = S (Store.draws w)
  /\ ~ Store.grows w (snd (Store.Math_random stream w)).
Proof.
  split; [reflexivity|]. split; [reflexivity|].
  intros [_ D]. cbn in D. lia.
Qed.

(** The rules of the computations. *)
Lemma wp_ret (A : Type) (a : A) (w : Store.world)
    (Q : A -> Store.world -> Prop) :
  Q a w -> Store.wp (Store.ret a) w Q.
Proof. exact (fun H => H). Qed.

Lemma wp_bind (A B : Type) (c : Store.M A) (k : A -> Store.M B)
    (w : Store.world) (P : A -> Store.world -> Prop)
    (Q : B -> Store.world -> Prop) :
  Store.wp c w P ->
  (forall a w', P a w' -> Store.wp (k a) w' Q) ->
  Store.wp (Store.bind c k) w Q.
Proof. unfold Store.wp, Store.bind. intros H K. now apply K. Qed.

Lemma wp_conseq (A : Type) (c : Store.M A) (w : Store.world)
    (P Q : A -> Store.world -> Prop) :
  Store.wp c w P -> (forall a w', P a w' -> Q a w') -> Store.wp c w Q.
Proof. unfold Store.wp. intros H K. now apply K. Qed.

Lemma wp_get (a : Store.ref) (i : nat) (l : list num) (w : Store.world) :
  Store.holds w a l ->
  Store.wp (Store.get a i) w (fun x w' => x = idx l i /\ w' = w).
Proof.
  intro H. unfold Store.wp, Store.get. cbn [fst snd].
  now rewrite (holds_cell _ _ _ H).
Qed.

Lemma wp_read (a : Store.ref) (l : list num) (w : Store.world) :
  Store.holds w a l ->
  Store.wp (Store.read a) w (fun x w' => x = l /\ w' = w).
Proof.
  intro H. unfold Store.wp, Store.read. cbn [fst snd].
  now rewrite (holds_cell _ _ _ H).
Qed.

Lemma alloc_makes (l : list num) (w : Store.world) :
  Store.makes (Store.alloc l) w l.
Proof.
  unfold Store.makes, Store.wp, Store.alloc. cbn [fst snd]. split; [|split].
  - split; [now exists [l] | reflexivity].
  - unfold Store.holds. cbn [Store.heap].
    rewrite nth_error_app2 by lia. now rewrite Nat.sub_diag.
  - lia.
Qed.

Lemma wp_set (a : Store.ref) (i : nat) (v : num) (l : list num)
    (w : Store.world) :
  Store.holds w a l ->
  Store.wp (Store.set a i v) w
    (fun _ w' =>
       Store.holds w' a (arr_set l i v)
       /\ (forall x lx, Store.holds w x lx -> x <> a -> Store.holds w' x lx)
       /\ List.length (Store.heap w') = List.length (Store.heap w)
       /\ (forall w0, Store.grows w0 w ->
             (List.length (Store.heap w0) <= a)%nat -> Store.grows w0 w')).
Proof.
  intro H. unfold Store.wp, Store.set. cbn [fst snd].
  rewrite (holds_cell _ _ _ H). unfold Store.holds. cbn [Store.heap].
  split; [|split; [|split]].
  - apply update_same. now apply holds_lt in H.
  - intros x lx Hx N. now rewrite update_other.
  - apply update_length.
  - intros w0 ((n & E) & D) L. split; [|exact D]. cbn [Store.heap].
    rewrite E, update_app by exact L. eexists. reflexivity.
Qed.

(** The steps of a proof about a computation: what is known of the arrays
    follows the world as it changes. *)
Ltac transport G :=
  lazymatch type of G with
  | Store.grows ?w ?w' =>
      pose proof (grows_length _ _ G);
      repeat match goal with
             | H : Store.holds w _ _ |- _ =>
                 pose proof (holds_lt _ _ _ H);
                 apply (holds_grows _ _ _ _ G) in H
             end;
      repeat match goal with
             | G0 : Store.grows _ w |- _ =>
                 apply (fun g => grows_trans _ _ _ g G) in G0
             end
  end.

Ltac transport_set K K0 :=
  lazymatch type of K with
  | forall x lx, Store.holds ?w x lx -> _ =>
      repeat match goal with
             | H : Store.holds w _ _ |- _ =>
                 first [ apply K in H; [|lia] | clear H ]
             end;
      repeat match goal with
             | G0 : Store.grows _ w |- _ =>
                 first [ apply K0 in G0; [|lia] | clear G0 ]
             end
  end.

Ltac wp_next :=
  lazymatch goal with
  | |- Store.wp (Store.bind _ _) _ _ => eapply wp_bind
  | |- _ => eapply wp_conseq
  end.

Ltac wp_get :=
  wp_next; [eapply wp_get; eassumption | intros ? ? [-> ->]; cbv beta].

Ltac wp_read :=
  wp_next; [eapply wp_read; eassumption | intros ? ? [-> ->]; cbv beta].

(** A call of a function that makes an array. *)
Ltac wp_makes spec r :=
  let w' := fresh "w" in
  let G := fresh "G" in
  let H := fresh "H" in
  let F := fresh "F" in
  wp_next;
  [eapply spec; eassumption
  | intros r w' (G & H & F); cbv beta; pose proof (holds_lt _ _ _ H);
    transport G; clear G].

Ltac wp_alloc r := wp_makes alloc_makes r.

Ltac wp_set :=
  let u := fresh "u" in
  let w' := fresh "w" in
  let H := fresh "H" in
  let K := fresh "K" in
  let L := fresh "L" in
  let K0 := fresh "K" in
  wp_next;
  [eapply wp_set; eassumption
  | intros u w' (H & K & L & K0); cbv beta; pose proof (holds_lt _ _ _ H);
    transport_set K K0; clear K K0].

(** A call of a function that computes a number. *)
Ltac wp_computes spec :=
  let w' := fresh "w" in
  let G := fresh "G" in
  wp_next;
  [eapply spec; eassumption
  | intros ? w' (G & ->); cbv beta; transport G; clear G].

Ltac wp_done :=
  try apply wp_ret;
  split; [eassumption | first [reflexivity | split; [eassumption | lia]]].

Ltac start :=
  lazymatch goal with
  | |- Store.makes _ ?w _ => unfold Store.makes; pose proof (grows_refl w)
  | |- Store.computes _ ?w _ =>
      unfold Store.computes; pose proof (grows_refl w)
  end.

Lemma holds_named (w : Store.world) (a : Store.ref) :
  (a < List.length (Store.heap w))%nat -> Store.holds w a (Store.cell w a).
Proof. intro H. unfold Store.holds, Store.cell. now apply nth_error_nth'. Qed.

Lemma rgb01_makes (c : Store.ref) (l : list num) (w : Store.world) :
  Store.holds w c l -> Store.makes (Store.rgb01 c) w (rgb01 l).
Proof.
  intro H. start. unfold Store.rgb01.
  wp_get. wp_get. wp_get. wp_alloc r. wp_done.
Qed.

Lemma rgbToHsv_makes (c : Store.ref) (l : list num) (w : Store.world) :
  Store.holds w c l -> Store.makes (Store.rgbToHsv c) w (rgbToHsv l).
Proof.
  intro H. start. unfold Store.rgbToHsv.
  wp_get. wp_get. wp_get. wp_alloc r. wp_done.
Qed.

Lemma hsvToRgb_makes (c : Store.ref) (l : list num) (w : Store.world) :
  Store.holds w c l -> Store.makes (Store.hsvToRgb c) w (hsvToRgb l).
Proof.
  intro H. start. unfold Store.hsvToRgb.
  wp_get. wp_get. wp_get. wp_alloc r. wp_done.
Qed.

Lemma slice_makes (c : Store.ref) (l : list num) (w : Store.world) :
  Store.holds w c l -> Store.makes (Store.slice c) w l.
Proof.
  intro H. start. unfold Store.slice. wp_read. wp_alloc r. wp_done.
Qed.

(** [map] with a callback that computes on numbers, and with one that reads
    an array. *)
Lemma map_from_ret (f : num -> nat -> num) (l : list num) (i : nat)
    (w : Store.world) :
  Store.wp (Store.map_from (fun v i => Store.ret (f v i)) i l) w
    (fun x w' => x = mapi_from f i l /\ w' = w).
Proof.
  unfold Store.wp, Store.ret. revert i.
  induction l as [|v l IH]; intro i; [now split|].
  destruct (IH (S i)) as [E1 E2].
  cbn [Store.map_from mapi_from]. unfold Store.bind, Store.ret.
  cbn [fst snd]. now rewrite E1, E2.
Qed.

Lemma map_from_get (f : num -> num -> num) (a : Store.ref)
    (la l : list num) (i : nat) (w : Store.world) :
  Store.holds w a la ->
  Store.wp
    (Store.map_from
       (fun v i => Store.bind (Store.get a i) (fun x => Store.ret (f v x)))
       i l) w
    (fun x w' => x = mapi_from (fun v i => f v (idx la i)) i l /\ w' = w).
Proof.
  intro H. unfold Store.wp, Store.bind, Store.ret, Store.get.
  cbn [fst snd]. revert i.
  induction l as [|v l IH]; intro i; [now split|].
  destruct (IH (S i)) as [E1 E2].
  cbn [Store.map_from mapi_from]. unfold Store.bind, Store.ret.
  cbn [fst snd]. rewrite E1, E2. now rewrite (holds_cell _ _ _ H).
Qed.

Lemma mapi_from_map (f : num -> num) (l : list num) (i : nat) :
  mapi_from (fun v _ => f v) i l = List.map f l.
Proof.
  revert i. induction l as [|v l IH]; intro i; [reflexivity|].
  cbn [mapi_from List.map]. now rewrite IH.
Qed.

Lemma map_ret_makes (f : num -> num) (a : Store.ref) (l : list num)
    (w : Store.world) :
  Store.holds w a l ->
  Store.makes (Store.map (fun v _ => Store.ret (f v)) a) w (List.map f l).
Proof.
  intro H. start. unfold Store.map. wp_read.
  wp_next; [apply (map_from_ret (fun v _ => f v)) | intros ? ? [-> ->]].
  cbv beta. rewrite mapi_from_map. wp_alloc r. wp_done.
Qed.

Lemma map_get_makes (f : num -> num -> num) (a b : Store.ref)
    (l lb : list num) (w : Store.world) :
  Store.holds w a l -> Store.holds w b lb ->
  Store.makes
    (Store.map
       (fun v i => Store.bind (Store.get b i) (fun x => Store.ret (f v x))) a)
    w (mapi (fun v i => f v (idx lb i)) l).
Proof.
  intros H Hb. start. unfold Store.map. wp_read.
  wp_next; [apply (map_from_get f b lb); eassumption | intros ? ? [-> ->]].
  cbv beta. wp_alloc r. wp_done.
Qed.

Section StorePipeline.

Variable pow_approx : num -> num -> num.
Variable Math_exp : num -> num.

Lemma relLuminance_computes (c : Store.ref) (l : list num) (w : Store.world) :
  Store.holds w c l ->
  Store.computes (Store.relLuminance pow_approx c) w (relLuminance pow_approx l).
Proof.
  intro H. start. unfold Store.relLuminance.
  wp_makes map_ret_makes r. wp_get. wp_get. wp_get. wp_done.
Qed.

Lemma hoverFromBase_makes (b t : Store.ref) (bl tl : list num)
    (w : Store.world) :
  Store.holds w b bl -> Store.holds w t tl ->
  Store.makes (Store.hoverFromBase b t) w (hoverFromBase bl tl).
Proof.
  intros Hb Ht. start. unfold Store.hoverFromBase.
  do 7 wp_get. wp_alloc target. do 3 wp_get. wp_alloc r. wp_done.
Qed.

Lemma textColorFromParams_makes (p : Store.ref) (pl : list num)
    (w : Store.world) :
  Store.holds w p pl ->
  Store.makes (Store.textColorFromParams Math_exp p) w
    (textColorFromParams Math_exp pl).
Proof.
  intro H. start. unfold Store.textColorFromParams.
  do 3 wp_get. wp_alloc r. wp_done.
Qed.

Lemma lossForText_computes (bg text : Store.ref) (bgl tl : list num)
    (w : Store.world) :
  Store.holds w bg bgl -> Store.holds w text tl ->
  Store.computes (Store.lossForText pow_approx bg text) w
    (lossForText pow_approx bgl tl).
Proof.
  intros Hb Ht. start. unfold Store.lossForText.
  wp_computes relLuminance_computes. wp_computes relLuminance_computes.
  wp_makes rgbToHsv_makes hsv. do 2 wp_get. wp_alloc target.
  wp_makes hsvToRgb_makes rgb. do 9 wp_get.
  unfold lossForText. cbv zeta. wp_done.
Qed.

Lemma gradNumerical_turn (bg p gr : Store.ref) (bgl pl gl : list num)
    (base eps : num) (i : nat) (w0 w : Store.world) :
  Store.grows w0 w ->
  Store.holds w bg bgl -> Store.holds w p pl -> Store.holds w gr gl ->
  (bg < List.length (Store.heap w0))%nat ->
  (p < List.length (Store.heap w0))%nat ->
  (List.length (Store.heap w0) <= gr)%nat ->
  Store.wp
    (Store.bind (Store.slice p) (fun p2 =>
     Store.bind (Store.get p2 i) (fun x =>
     Store.bind (Store.set p2 i (x + eps)) (fun _ =>
     Store.bind (Store.textColorFromParams Math_exp p2) (fun text2 =>
     Store.bind (Store.lossForText pow_approx bg text2) (fun l2 =>
     Store.set gr i ((l2 - base) / eps)))))))
    w
    (fun _ w' =>
       Store.grows w0 w' /\ Store.holds w' bg bgl /\ Store.holds w' p pl
       /\ Store.holds w' gr
            (arr_set gl i
               ((lossForText pow_approx bgl
                   (textColorFromParams Math_exp
                      (arr_set pl i (idx pl i + eps))) - base) / eps))).
Proof.
  intros G0 Hbg Hp Hg Lbg Lp Lg.
  wp_makes slice_makes p2. wp_get. wp_set.
  wp_makes textColorFromParams_makes text2.
  wp_computes lossForText_computes. wp_set.
  repeat (split; [eassumption|]). eassumption.
Qed.

Lemma gradNumerical_loop (bg p gr : Store.ref) (bgl pl : list num)
    (base eps : num) (w0 : Store.world) (turns : list nat) :
  (bg < List.length (Store.heap w0))%nat ->
  (p < List.length (Store.heap w0))%nat ->
  (List.length (Store.heap w0) <= gr)%nat ->
  forall (gl : list num) (w : Store.world),
  Store.grows w0 w ->
  Store.holds w bg bgl -> Store.holds w p pl -> Store.holds w gr gl ->
  Store.wp
    (Store.for_each turns (fun i =>
     Store.bind (Store.slice p) (fun p2 =>
     Store.bind (Store.get p2 i) (fun x =>
     Store.bind (Store.set p2 i (x + eps)) (fun _ =>
     Store.bind (Store.textColorFromParams Math_exp p2) (fun text2 =>
     Store.bind (Store.lossForText pow_approx bg text2) (fun l2 =>
     Store.set gr i ((l2 - base) / eps))))))))
    w
    (fun _ w' =>
       Store.grows w0 w' /\ Store.holds w' bg bgl /\ Store.holds w' p pl
       /\ Store.holds w' gr
            (fold_left
               (fun g i =>
                  arr_set g i
                    ((lossForText pow_approx bgl
                        (textColorFromParams Math_exp
                           (arr_set pl i (idx pl i + eps))) - base) / eps))
               turns gl)).
Proof.
  intros Lbg Lp Lg. induction turns as [|i turns IH]; intros gl w G0 Hbg Hp Hg;
    cbn [Store.for_each fold_left].
  - apply wp_ret. repeat (split; [assumption|]). assumption.
  - eapply wp_bind.
    + eapply (gradNumerical_turn bg p gr); eassumption.
    + intros _ w' (G & Hbg' & Hp' & Hg'). cbv beta. now apply IH.
Qed.

Lemma gradNumerical_spec (bg p : Store.ref) (bgl pl : list num)
    (w : Store.world) :
  Store.holds w bg bgl -> Store.holds w p pl ->
  Store.wp (Store.gradNumerical pow_approx Math_exp bg p) w
    (fun gr w' =>
       Store.grows w w'
       /\ Store.holds w' (Store.g gr)
            (g (gradNumerical pow_approx Math_exp bgl pl))
       /\ (List.length (Store.heap w) <= Store.g gr)%nat).
Proof.
  intros Hbg Hp. pose proof (grows_refl w) as G0.
  unfold Store.gradNumerical. cbv zeta.
  wp_makes textColorFromParams_makes text.
  wp_computes lossForText_computes. wp_alloc gr.
  wp_next.
  - eapply (gradNumerical_loop bg p gr bgl pl _ _ w); try eassumption; lia.
  - intros _ w' (G & _ & _ & Hg). cbv beta. apply wp_ret.
    cbn [Store.g]. split; [exact G|]. split; [exact Hg | lia].
Qed.

Lemma optimizeText_step_spec (bg p : Store.ref) (bgl pl : list num)
    (lr : num) (s : nat) (w : Store.world) :
  Store.holds w bg bgl -> Store.holds w p pl ->
  Store.wp (Store.optimizeText_step pow_approx Math_exp bg (p, lr) s) w
    (fun st w' =>
       Store.grows w w'
       /\ Store.holds w' (fst st)
            (fst (optimizeText_step pow_approx Math_exp bgl (pl, lr) s))
       /\ snd st = snd (optimizeText_step pow_approx Math_exp bgl (pl, lr) s)
       /\ (List.length (Store.heap w) <= fst st)%nat).
Proof.
  intros Hbg Hp. pose proof (grows_refl w) as G0.
  unfold Store.optimizeText_step. cbv beta iota.
  wp_next; [eapply gradNumerical_spec; eassumption|].
  intros gr w1 (G & Hg & F). cbv beta. transport G. clear G.
  wp_makes map_get_makes p'. apply wp_ret. cbn [fst snd].
  split; [assumption|]. split; [assumption|]. split; [reflexivity | lia].
Qed.

Lemma optimizeText_fold_spec (bg : Store.ref) (bgl : list num)
    (turns : list nat) :
  forall (p : Store.ref) (pl : list num) (lr : num) (w : Store.world),
  Store.holds w bg bgl -> Store.holds w p pl ->
  Store.wp
    (Store.fold (Store.optimizeText_step pow_approx Math_exp bg) turns (p, lr))
    w
    (fun st w' =>
       Store.grows w w'
       /\ Store.holds w' (fst st)
            (fst (fold_left (optimizeText_step pow_approx Math_exp bgl) turns
                    (pl, lr)))
       /\ snd st
          = snd (fold_left (optimizeText_step pow_approx Math_exp bgl) turns
                   (pl, lr))
       /\ (fst st = p \/ (List.length (Store.heap w) <= fst st)%nat)).
Proof.
  induction turns as [|s turns IH]; intros p pl lr w Hbg Hp;
    cbn [Store.fold fold_left].
  - apply wp_ret. cbn [fst snd]. split; [apply grows_refl|].
    split; [assumption|]. split; [reflexivity | now left].
  - eapply wp_bind; [eapply optimizeText_step_spec; eassumption|].
    intros [p' lr'] w1 (G & Hp' & E & F). cbn [fst snd] in Hp', E, F.
    cbv beta.
    destruct (optimizeText_step pow_approx Math_exp bgl (pl, lr) s)
      as [pl' lr''] eqn:Es.
    cbn [fst snd] in Hp', E. subst lr''.
    eapply wp_conseq;
      [apply (IH p' pl' lr' w1); [exact (holds_grows _ _ _ _ G Hbg) | exact Hp']|].
    intros st w2 (G' & H' & E' & F'). cbv beta.
    split; [exact (grows_trans _ _ _ G G')|]. split; [exact H'|].
    split; [exact E'|]. right. pose proof (grows_length _ _ G).
    destruct F' as [->|F']; lia.
Qed.

Lemma optimizeText_spec (bg : Store.ref) (bgl : list num)
    (opts : Store.TextOptions) (w : Store.world) :
  Store.holds w bg bgl -> named w (Store.o_initParams opts) ->
  Store.wp (Store.optimizeText pow_approx Math_exp bg opts) w
    (fun r w' =>
       Store.grows w w'
       /\ text_made w w' r
            (optimizeText pow_approx Math_exp bgl (text_options_in w opts))).
Proof.
  intros Hbg N. pose proof (grows_refl w) as G0.
  unfold Store.optimizeText, optimizeText, text_options_in, slice.
  cbv zeta. cbn [o_steps o_lr o_initParams].
  set (steps := default (Store.o_steps opts) 160%nat).
  set (lr := default (Store.o_lr opts) (Fin 0.35)).
  assert (I : Store.wp
                match Store.o_initParams opts with
                | Some a => Store.ret a
                | None => Store.alloc [Fin 0; Fin 0; Fin 0]
                end w
                (fun a w' =>
                   Store.grows w w'
                   /\ Store.holds w' a
                        (default (option_map (Store.cell w)
                                    (Store.o_initParams opts))
                           [Fin 0; Fin 0; Fin 0]))).
  { destruct (Store.o_initParams opts) as [a|]; cbn [option_map default].
    - apply wp_ret. split; [apply grows_refl | now apply holds_named].
    - eapply wp_conseq; [apply alloc_makes|]. now intros a w' (G & H & _). }
  wp_next; [exact I|]. clear I.
  intros init w1 (G & Hi). cbv beta. transport G. clear G.
  wp_makes slice_makes p.
  wp_next; [eapply optimizeText_fold_spec; eassumption|].
  intros [p' lr'] w3 (G & Hp & _ & Fp). cbn [fst snd] in Hp, Fp. cbv beta.
  cbn [fst]. transport G. clear G.
  change (fold_left (optimizeText_step pow_approx Math_exp bgl)
            (List.seq 0 steps))
    with (optimizeText_loop pow_approx Math_exp bgl steps) in Hp.
  destruct (optimizeText_loop pow_approx Math_exp bgl steps
              (default (option_map (Store.cell w) (Store.o_initParams opts))
                 [Fin 0; Fin 0; Fin 0], lr)) as [pl lrl].
  cbn [fst] in Hp.
  wp_makes textColorFromParams_makes color.
  wp_makes textColorFromParams_makes text.
  wp_computes lossForText_computes.
  apply wp_ret. split; [assumption|].
  unfold text_made. cbn [Store.params Store.color01 Store.loss params color01 loss].
  split; [assumption|]. split; [assumption|]. split; [reflexivity|].
  split; [destruct Fp as [->|Fp]; lia | lia].
Qed.

Lemma lossForHoverTheta_computes (b t : Store.ref) (bl tl : list num)
    (w : Store.world) :
  Store.holds w b bl -> Store.holds w t tl ->
  Store.computes (Store.lossForHoverTheta pow_approx b t) w
    (lossForHoverTheta pow_approx bl tl).
Proof.
  intros Hb Ht. start. unfold Store.lossForHoverTheta.
  wp_makes hoverFromBase_makes hover. do 6 wp_get.
  wp_computes relLuminance_computes. wp_computes relLuminance_computes.
  do 4 wp_get. unfold lossForHoverTheta. cbv zeta. wp_done.
Qed.

Lemma gradThetaNumerical_turn (b t gr : Store.ref) (bl tl gl : list num)
    (base eps : num) (i : nat) (w0 w : Store.world) :
  Store.grows w0 w ->
  Store.holds w b bl -> Store.holds w t tl -> Store.holds w gr gl ->
  (b < List.length (Store.heap w0))%nat ->
  (t < List.length (Store.heap w0))%nat ->
  (List.length (Store.heap w0) <= gr)%nat ->
  Store.wp
    (Store.bind (Store.slice t) (fun t2 =>
     Store.bind (Store.get t2 i) (fun x =>
     Store.bind (Store.set t2 i (x + eps)) (fun _ =>
     Store.bind (Store.lossForHoverTheta pow_approx b t2) (fun l2 =>
     Store.set gr i ((l2 - base) / eps))))))
    w
    (fun _ w' =>
       Store.grows w0 w' /\ Store.holds w' b bl /\ Store.holds w' t tl
       /\ Store.holds w' gr
            (arr_set gl i
               ((lossForHoverTheta pow_approx bl
                   (arr_set tl i (idx tl i + eps)) - base) / eps))).
Proof.
  intros G0 Hb Ht Hg Lb Lt Lg.
  wp_makes slice_makes t2. wp_get. wp_set.
  wp_computes lossForHoverTheta_computes. wp_set.
  repeat (split; [eassumption|]). eassumption.
Qed.

Lemma gradThetaNumerical_loop (b t gr : Store.ref) (bl tl : list num)
    (base eps : num) (w0 : Store.world) (turns : list nat) :
  (b < List.length (Store.heap w0))%nat ->
  (t < List.length (Store.heap w0))%nat ->
  (List.length (Store.heap w0) <= gr)%nat ->
  forall (gl : list num) (w : Store.world),
  Store.grows w0 w ->
  Store.holds w b bl -> Store.holds w t tl -> Store.holds w gr gl ->
  Store.wp
    (Store.for_each turns (fun i =>
     Store.bind (Store.slice t) (fun t2 =>
     Store.bind (Store.get t2 i) (fun x =>
     Store.bind (Store.set t2 i (x + eps)) (fun _ =>
     Store.bind (Store.lossForHoverTheta pow_approx b t2) (fun l2 =>
     Store.set gr i ((l2 - base) / eps)))))))
    w
    (fun _ w' =>
       Store.grows w0 w' /\ Store.holds w' b bl /\ Store.holds w' t tl
       /\ Store.holds w' gr
            (fold_left
               (fun g i =>
                  arr_set g i
                    ((lossForHoverTheta pow_approx bl
                        (arr_set tl i (idx tl i + eps)) - base) / eps))
               turns gl)).
Proof.
  intros Lb Lt Lg. induction turns as [|i turns IH]; intros gl w G0 Hb Ht Hg;
    cbn [Store.for_each fold_left].
  - apply wp_ret. repeat (split; [assumption|]). assumption.
  - eapply wp_bind.
    + eapply (gradThetaNumerical_turn b t gr); eassumption.
    + intros _ w' (G & Hb' & Ht' & Hg'). cbv beta. now apply IH.
Qed.

Lemma gradThetaNumerical_spec (b t : Store.ref) (bl tl : list num)
    (w : Store.world) :
  Store.holds w b bl -> Store.holds w t tl ->
  Store.wp (Store.gradThetaNumerical pow_approx b t) w
    (fun gr w' =>
       Store.grows w w'
       /\ Store.holds w' (Store.g gr) (g (gradThetaNumerical pow_approx bl tl))
       /\ (List.length (Store.heap w) <= Store.g gr)%nat).
Proof.
  intros Hb Ht. pose proof (grows_refl w) as G0.
  unfold Store.gradThetaNumerical. cbv zeta.
  wp_computes lossForHoverTheta_computes. wp_alloc gr.
  wp_next.
  - eapply (gradThetaNumerical_loop b t gr bl tl _ _ w); try eassumption; lia.
  - intros _ w' (G & _ & _ & Hg). cbv beta. apply wp_ret.
    cbn [Store.g]. split; [exact G|]. split; [exact Hg | lia].
Qed.

Lemma optimizeHoverTheta_step_spec (b t : Store.ref) (bl tl : list num)
    (lr : num) (s : nat) (w : Store.world) :
  Store.holds w b bl -> Store.holds w t tl ->
  Store.wp (Store.optimizeHoverTheta_step pow_approx b (t, lr) s) w
    (fun st w' =>
       Store.grows w w'
       /\ Store.holds w' (fst st)
            (fst (optimizeHoverTheta_step pow_approx bl (tl, lr) s))
       /\ snd st = snd (optimizeHoverTheta_step pow_approx bl (tl, lr) s)
       /\ (List.length (Store.heap w) <= fst st)%nat).
Proof.
  intros Hb Ht. pose proof (grows_refl w) as G0.
  unfold Store.optimizeHoverTheta_step. cbv beta iota.
  wp_next; [eapply gradThetaNumerical_spec; eassumption|].
  intros gr w1 (G & Hg & F). cbv beta. transport G. clear G.
  wp_makes map_get_makes t'.
  wp_get. wp_set. wp_get. wp_set. wp_get. wp_set. wp_get. wp_set.
  apply wp_ret. cbn [fst snd].
  split; [assumption|]. split; [assumption|]. split; [reflexivity | lia].
Qed.

Lemma optimizeHoverTheta_fold_spec (b : Store.ref) (bl : list num)
    (turns : list nat) :
  forall (t : Store.ref) (tl : list num) (lr : num) (w : Store.world),
  Store.holds w b bl -> Store.holds w t tl ->
  Store.wp
    (Store.fold (Store.optimizeHoverTheta_step pow_approx b) turns (t, lr)) w
    (fun st w' =>
       Store.grows w w'
       /\ Store.holds w' (fst st)
            (fst (fold_left (optimizeHoverTheta_step pow_approx bl) turns
                    (tl, lr)))
       /\ snd st
          = snd (fold_left (optimizeHoverTheta_step pow_approx bl) turns
                   (tl, lr))
       /\ (fst st = t \/ (List.length (Store.heap w) <= fst st)%nat)).
Proof.
  induction turns as [|s turns IH]; intros t tl lr w Hb Ht;
    cbn [Store.fold fold_left].
  - apply wp_ret. cbn [fst snd]. split; [apply grows_refl|].
    split; [assumption|]. split; [reflexivity | now left].
  - eapply wp_bind; [eapply optimizeHoverTheta_step_spec; eassumption|].
    intros [t' lr'] w1 (G & Ht' & E & F). cbn [fst snd] in Ht', E, F.
    cbv beta.
    destruct (optimizeHoverTheta_step pow_approx bl (tl, lr) s)
      as [tl' lr''] eqn:Es.
    cbn [fst snd] in Ht', E. subst lr''.
    eapply wp_conseq;
      [apply (IH t' tl' lr' w1); [exact (holds_grows _ _ _ _ G Hb) | exact Ht']|].
    intros st w2 (G' & H' & E' & F'). cbv beta.
    split; [exact (grows_trans _ _ _ G G')|]. split; [exact H'|].
    split; [exact E'|]. right. pose proof (grows_length _ _ G).
    destruct F' as [->|F']; lia.
Qed.

Lemma optimizeHoverTheta_spec (b : Store.ref) (bl : list num)
    (opts : Store.ThetaOptions) (w : Store.world) :
  Store.holds w b bl -> named w (Store.h_initTheta opts) ->
  Store.wp (Store.optimizeHoverTheta pow_approx b opts) w
    (fun r w' =>
       Store.grows w w'
       /\ theta_made w w' r
            (optimizeHoverTheta pow_approx bl (theta_options_in w opts))).
Proof.
  intros Hb N. pose proof (grows_refl w) as G0.
  unfold Store.optimizeHoverTheta, optimizeHoverTheta, theta_options_in, slice.
  cbv zeta. cbn [h_steps h_lr h_initTheta].
  set (steps := default (Store.h_steps opts) 900%nat).
  set (lr := default (Store.h_lr opts) (Fin 1.4)).
  assert (I : Store.wp
                match Store.h_initTheta opts with
                | Some a => Store.ret a
                | None => Store.alloc [Fin 0.18; Fin 0.82; Fin 0.86; Fin 0.92]
                end w
                (fun a w' =>
                   Store.grows w w'
                   /\ Store.holds w' a
                        (default (option_map (Store.cell w)
                                    (Store.h_initTheta opts))
                           [Fin 0.18; Fin 0.82; Fin 0.86; Fin 0.92]))).
  { destruct (Store.h_initTheta opts) as [a|]; cbn [option_map default].
    - apply wp_ret. split; [apply grows_refl | now apply holds_named].
    - eapply wp_conseq; [apply alloc_makes|]. now intros a w' (G & H & _). }
  wp_next; [exact I|]. clear I.
  intros init w1 (G & Hi). cbv beta. transport G. clear G.
  wp_makes slice_makes t.
  wp_next; [eapply optimizeHoverTheta_fold_spec; eassumption|].
  intros [t' lr'] w3 (G & Ht & _ & Ft). cbn [fst snd] in Ht, Ft. cbv beta.
  cbn [fst]. transport G. clear G.
  change (fold_left (optimizeHoverTheta_step pow_approx bl)
            (List.seq 0 steps))
    with (optimizeHoverTheta_loop pow_approx bl steps) in Ht.
  destruct (optimizeHoverTheta_loop pow_approx bl steps
              (default (option_map (Store.cell w) (Store.h_initTheta opts))
                 [Fin 0.18; Fin 0.82; Fin 0.86; Fin 0.92], lr)) as [tl lrl].
  cbn [fst] in Ht.
  wp_computes lossForHoverTheta_computes.
  apply wp_ret. split; [assumption|].
  unfold theta_made. cbn [Store.theta Store.theta_loss theta theta_loss].
  split; [assumption|]. split; [reflexivity|].
  destruct Ft as [->|Ft]; lia.
Qed.

Lemma applyChain_spec (c : Store.ref) (l : list num) (w : Store.world) :
  Store.holds w c l ->
  Store.wp (Store.applyChain pow_approx Math_exp c) w
    (fun r w' =>
       Store.grows w w'
       /\ palette_made w w' r (applyChain pow_approx Math_exp l)).
Proof.
  intros Hc. pose proof (grows_refl w) as G0. unfold Store.applyChain.
  wp_makes rgb01_makes b. wp_alloc init.
  wp_next;
    [eapply (optimizeText_spec b (rgb01 l)); [eassumption | assumption]|].
  intros bt w3 (G & Hbp & Hbc & Ebl & Fbp & Fbc). cbv beta.
  unfold text_options_in in Hbp, Hbc, Ebl.
  cbn [Store.o_steps Store.o_lr Store.o_initParams option_map] in Hbp, Hbc, Ebl.
  match goal with
  | H : Store.holds _ init _ |- _ =>
      rewrite (holds_cell _ _ _ H) in Hbp, Hbc, Ebl
  end.
  pose proof (holds_lt _ _ _ Hbp). pose proof (holds_lt _ _ _ Hbc).
  transport G. clear G.
  wp_next;
    [eapply (optimizeHoverTheta_spec b (rgb01 l)); [eassumption | exact I]|].
  intros ho w4 (G & Hht & Ehl & Fht). cbv beta.
  unfold theta_options_in in Hht, Ehl.
  cbn [Store.h_steps Store.h_lr Store.h_initTheta option_map] in Hht, Ehl.
  pose proof (holds_lt _ _ _ Hht).
  transport G. clear G.
  wp_makes hoverFromBase_makes hover.
  wp_next;
    [eapply (optimizeText_spec hover); [eassumption | cbn [named Store.o_initParams]; lia]|].
  intros ht w6 (G & Hhp & Hhc & Ehtl & Fhp & Fhc). cbv beta.
  unfold text_options_in in Hhp, Hhc, Ehtl.
  cbn [Store.o_steps Store.o_lr Store.o_initParams option_map] in Hhp, Hhc, Ehtl.
  rewrite (holds_cell _ _ _ Hbp) in Hhp, Hhc, Ehtl.
  pose proof (holds_lt _ _ _ Hhp). pose proof (holds_lt _ _ _ Hhc).
  transport G. clear G.
  do 3 wp_get. wp_alloc page.
  apply wp_ret. split; [assumption|].
  unfold palette_made, text_made, theta_made, applyChain. cbv zeta.
  cbn [Store.base01 Store.baseText Store.hover01 Store.hoverText
       Store.pageBg01 Store.hoverOpt base01 baseText hover01 hoverText
       pageBg01 hoverOpt].
  split; [assumption|].
  split; [split; [assumption|]; split; [assumption|];
          split; [assumption|]; split; lia|].
  split; [assumption|].
  split; [split; [assumption|]; split; [assumption|];
          split; [assumption|]; split; lia|].
  split; [assumption|].
  split; [split; [assumption|]; split; [assumption | lia]|].
  lia.
Qed.

Lemma Simple_hoverFromBase_makes (b : Store.ref) (bl : list num)
    (w : Store.world) :
  Store.holds w b bl ->
  Store.makes (Store.Simple.hoverFromBase b) w (Simple.hoverFromBase bl).
Proof.
  intros Hb. start. unfold Store.Simple.hoverFromBase. cbv zeta.
  do 3 wp_get. wp_alloc target. do 3 wp_get. wp_alloc r. wp_done.
Qed.

Lemma Simple_applyChain_spec (c : Store.ref) (l : list num)
    (w : Store.world) :
  Store.holds w c l ->
  Store.wp (Store.Simple.applyChain pow_approx Math_exp c) w
    (fun r w' =>
       Store.grows w w'
       /\ simple_palette_made w w' r
            (Simple.applyChain pow_approx Math_exp l)).
Proof.
  intros Hc. pose proof (grows_refl w) as G0. unfold Store.Simple.applyChain.
  wp_makes rgb01_makes b. wp_alloc init.
  wp_next;
    [eapply (optimizeText_spec b (rgb01 l)); [eassumption | assumption]|].
  intros bt w3 (G & Hbp & Hbc & Ebl & Fbp & Fbc). cbv beta.
  unfold text_options_in in Hbp, Hbc, Ebl.
  cbn [Store.o_steps Store.o_lr Store.o_initParams option_map] in Hbp, Hbc, Ebl.
  match goal with
  | H : Store.holds _ init _ |- _ =>
      rewrite (holds_cell _ _ _ H) in Hbp, Hbc, Ebl
  end.
  pose proof (holds_lt _ _ _ Hbp). pose proof (holds_lt _ _ _ Hbc).
  transport G. clear G.
  wp_makes Simple_hoverFromBase_makes hover.
  wp_next;
    [eapply (optimizeText_spec hover); [eassumption | cbn [named Store.o_initParams]; lia]|].
  intros ht w6 (G & Hhp & Hhc & Ehtl & Fhp & Fhc). cbv beta.
  unfold text_options_in in Hhp, Hhc, Ehtl.
  cbn [Store.o_steps Store.o_lr Store.o_initParams option_map] in Hhp, Hhc, Ehtl.
  rewrite (holds_cell _ _ _ Hbp) in Hhp, Hhc, Ehtl.
  pose proof (holds_lt _ _ _ Hhp). pose proof (holds_lt _ _ _ Hhc).
  transport G. clear G.
  do 3 wp_get. wp_alloc page.
  apply wp_ret. split; [assumption|].
  unfold simple_palette_made, text_made, Simple.applyChain. cbv zeta.
  cbn [Store.Simple.base01 Store.Simple.baseText Store.Simple.hover01
       Store.Simple.hoverText Store.Simple.pageBg01 Simple.base01
       Simple.baseText Simple.hover01 Simple.hoverText Simple.pageBg01].
  split; [assumption|].
  split; [split; [assumption|]; split; [assumption|];
          split; [assumption|]; split; lia|].
  split; [assumption|].
  split; [split; [assumption|]; split; [assumption|];
          split; [assumption|]; split; lia|].
  split; [assumption | lia].
Qed.

End StorePipeline.

(** What is made reads as it was made, in the world it was made in and in
    every world that extends it. *)
Lemma text_made_in (w0 w w' : Store.world) (t : Store.TextResult)
    (v : TextResult) :
  text_made w0 w t v -> Store.grows w w' -> text_in w' t = v.
Proof.
  intros (Hp & Hc & El & _) G. unfold text_in.
  rewrite (holds_cell _ _ _ (holds_grows _ _ _ _ G Hp)).
  rewrite (holds_cell _ _ _ (holds_grows _ _ _ _ G Hc)).
  rewrite El. now destruct v.
Qed.

Lemma theta_made_in (w0 w w' : Store.world) (t : Store.ThetaResult)
    (v : ThetaResult) :
  theta_made w0 w t v -> Store.grows w w' -> theta_in w' t = v.
Proof.
  intros (Ht & El & _) G. unfold theta_in.
  rewrite (holds_cell _ _ _ (holds_grows _ _ _ _ G Ht)).
  rewrite El. now destruct v.
Qed.

Lemma palette_made_in (w0 w w' : Store.world) (r : Store.PaletteResult)
    (v : PaletteResult) :
  palette_made w0 w r v -> Store.grows w w' -> palette_in w' r = v.
Proof.
  intros (Hb & Tb & Hh & Th & Hp & To & _) G. unfold palette_in.
  rewrite (holds_cell _ _ _ (holds_grows _ _ _ _ G Hb)).
  rewrite (holds_cell _ _ _ (holds_grows _ _ _ _ G Hh)).
  rewrite (holds_cell _ _ _ (holds_grows _ _ _ _ G Hp)).
  rewrite (text_made_in _ _ _ _ _ Tb G), (text_made_in _ _ _ _ _ Th G).
  rewrite (theta_made_in _ _ _ _ _ To G). now destruct v.
Qed.

Lemma simple_palette_made_in (w0 w w' : Store.world)
    (r : Store.Simple.PaletteResult) (v : Simple.PaletteResult) :
  simple_palette_made w0 w r v -> Store.grows w w' ->
  simple_palette_in w' r = v.
Proof.
  intros (Hb & Tb & Hh & Th & Hp & _) G. unfold simple_palette_in.
  rewrite (holds_cell _ _ _ (holds_grows _ _ _ _ G Hb)).
  rewrite (holds_cell _ _ _ (holds_grows _ _ _ _ G Hh)).
  rewrite (holds_cell _ _ _ (holds_grows _ _ _ _ G Hp)).
  rewrite (text_made_in _ _ _ _ _ Tb G), (text_made_in _ _ _ _ _ Th G).
  now destruct v.
Qed.

(** ** The chain in the store: the seed of the hover text, and two runs *)

Section ChainInStore.

Variables pow_approx pow_approx' : num -> num -> num.
Variables Math_exp Math_exp' : num -> num.

Lemma baseText_params (baseRgb255 : list num) :
  baseText (applyChain pow_approx Math_exp baseRgb255)
  = optimizeText pow_approx Math_exp (rgb01 baseRgb255)
      {| o_steps := None; o_lr := None;
         o_initParams := Some [Fin 0.5; Fin 0.5; Fin 0.5] |}
  /\ Simple.baseText (Simple.applyChain pow_approx Math_exp baseRgb255)
     = optimizeText pow_approx Math_exp (rgb01 baseRgb255)
         {| o_steps := None; o_lr := None;
            o_initParams := Some [Fin 0.5; Fin 0.5; Fin 0.5] |}.
Proof.
  unfold applyChain, Simple.applyChain. cbv zeta.
  cbn [baseText Simple.baseText]. split; reflexivity.
Qed.

Lemma hoverText_params (baseRgb255 : list num) :
  hoverText (applyChain pow_approx Math_exp baseRgb255)
  = optimizeText pow_approx Math_exp
      (hover01 (applyChain pow_approx Math_exp baseRgb255))
      {| o_steps := None; o_lr := None;
         o_initParams :=
           Some (params (baseText (applyChain pow_approx Math_exp
                                     baseRgb255))) |}
  /\ Simple.hoverText (Simple.applyChain pow_approx Math_exp baseRgb255)
     = optimizeText pow_approx Math_exp
         (Simple.hover01 (Simple.applyChain pow_approx Math_exp baseRgb255))
         {| o_steps := None; o_lr := None;
            o_initParams :=
              Some (params (Simple.baseText
                              (Simple.applyChain pow_approx Math_exp
                                 baseRgb255))) |}.
Proof.
  unfold applyChain, Simple.applyChain. cbv zeta.
  cbn [baseText hoverText hover01 Simple.baseText Simple.hoverText
       Simple.hover01].
  split; reflexivity.
Qed.

(** C6: in both variants of [applyChain] the base text is the result of
    [optimizeText] on the base colour from the parameters 0.5, 0.5, 0.5,
    and the hover text is the result of [optimizeText] on the hover
    background, with the default number of turns and learning rate, from
    the parameters that the loop of the base-text run ended with: the loop
    of the hover-text run starts from the last state of the loop of the
    base-text run.  The hover background is computed from the base colour
    alone, and of the base-text result only the [params] field reaches
    the hover-text run.  In the store, where the hover-text run is handed
    the array of the base-text result itself, that array still holds the
    parameters of the base text when the chain returns, and the
    parameters of the hover text are another array. *)
Theorem hover_text_is_warm_started (baseRgb255 : list num) :
  let base := rgb01 baseRgb255 in
  let r := applyChain pow_approx Math_exp baseRgb255 in
  let r' := Simple.applyChain pow_approx Math_exp baseRgb255 in
  let seeded bg seed :=
    optimizeText pow_approx Math_exp bg
      {| o_steps := None; o_lr := None; o_initParams := Some seed |} in
  let last bg seed :=
    fst (optimizeText_loop pow_approx Math_exp bg 160 (seed, Fin 0.35)) in
  let seed := last base [Fin 0.5; Fin 0.5; Fin 0.5] in
  (baseText r = seeded base [Fin 0.5; Fin 0.5; Fin 0.5]
   /\ params (baseText r) = seed
   /\ hover01 r
      = hoverFromBase base
          (theta (optimizeHoverTheta pow_approx base
                    {| h_steps := None; h_lr := None; h_initTheta := None |}))
   /\ hoverText r = seeded (hover01 r) seed
   /\ params (hoverText r) = last (hover01 r) seed
   /\ forall bt : TextResult,
        params bt = params (baseText r) ->
        hoverText r = seeded (hover01 r) (params bt))
  /\ (Simple.baseText r' = seeded base [Fin 0.5; Fin 0.5; Fin 0.5]
      /\ params (Simple.baseText r') = seed
      /\ Simple.hover01 r' = Simple.hoverFromBase base
      /\ Simple.hoverText r' = seeded (Simple.hover01 r') seed
      /\ params (Simple.hoverText r') = last (Simple.hover01 r') seed
      /\ forall bt : TextResult,
           params bt = params (Simple.baseText r') ->
           Simple.hoverText r' = seeded (Simple.hover01 r') (params bt))
  /\ forall (w : Store.world) (c : Store.ref),
       Store.holds w c baseRgb255 ->
       let run := Store.applyChain pow_approx Math_exp c w in
       let run' := Store.Simple.applyChain pow_approx Math_exp c w in
       (Store.cell (snd run) (Store.params (Store.baseText (fst run))) = seed
        /\ Store.cell (snd run) (Store.params (Store.hoverText (fst run)))
           = last (hover01 r) seed
        /\ Store.params (Store.baseText (fst run))
           <> Store.params (Store.hoverText (fst run)))
       /\ (Store.cell (snd run')
             (Store.params (Store.Simple.baseText (fst run'))) = seed
           /\ Store.cell (snd run')
                (Store.params (Store.Simple.hoverText (fst run')))
              = last (Simple.hover01 r') seed
           /\ Store.params (Store.Simple.baseText (fst run'))
              <> Store.params (Store.Simple.hoverText (fst run'))).
Proof.
  cbv zeta.
  destruct (baseText_params baseRgb255) as [B B'].
  destruct (hoverText_params baseRgb255) as [T T'].
  assert (S : params (baseText (applyChain pow_approx Math_exp baseRgb255))
              = fst (optimizeText_loop pow_approx Math_exp (rgb01 baseRgb255)
                       160 ([Fin 0.5; Fin 0.5; Fin 0.5], Fin 0.35)))
    by (rewrite B; apply optimizeText_params).
  assert (S' : params (Simple.baseText
                         (Simple.applyChain pow_approx Math_exp baseRgb255))
               = fst (optimizeText_loop pow_approx Math_exp
                        (rgb01 baseRgb255) 160
                        ([Fin 0.5; Fin 0.5; Fin 0.5], Fin 0.35)))
    by (rewrite B'; apply optimizeText_params).
  assert (P : params (hoverText (applyChain pow_approx Math_exp baseRgb255))
              = fst (optimizeText_loop pow_approx Math_exp
                       (hover01 (applyChain pow_approx Math_exp baseRgb255))
                       160
                       (fst (optimizeText_loop pow_approx Math_exp
                               (rgb01 baseRgb255) 160
                               ([Fin 0.5; Fin 0.5; Fin 0.5], Fin 0.35)),
                        Fin 0.35)))
    by (rewrite T, S; apply optimizeText_params).
  assert (P' : params (Simple.hoverText
                         (Simple.applyChain pow_approx Math_exp baseRgb255))
               = fst (optimizeText_loop pow_approx Math_exp
                        (Simple.hover01
                           (Simple.applyChain pow_approx Math_exp baseRgb255))
                        160
                        (fst (optimizeText_loop pow_approx Math_exp
                                (rgb01 baseRgb255) 160
                                ([Fin 0.5; Fin 0.5; Fin 0.5], Fin 0.35)),
                         Fin 0.35)))
    by (rewrite T', S'; apply optimizeText_params).
  split; [|split].
  - split; [exact B|]. split; [exact S|].
    split; [unfold applyChain; cbv zeta; cbn [hover01]; reflexivity|].
    split; [rewrite <- S; exact T|]. split; [exact P|].
    intros bt E. rewrite E. exact T.
  - split; [exact B'|]. split; [exact S'|].
    split; [unfold Simple.applyChain; cbv zeta; cbn [Simple.hover01];
            reflexivity|].
    split; [rewrite <- S'; exact T'|]. split; [exact P'|].
    intros bt E. rewrite E. exact T'.
  - intros w c H. split.
    + destruct (applyChain_spec pow_approx Math_exp c baseRgb255 w H)
        as (_ & _ & (Hb & _) & _ & (Hh & _) & _ & _ & D).
      apply holds_cell in Hb, Hh. rewrite Hb, Hh.
      split; [exact S|]. split; [exact P | exact D].
    + destruct (Simple_applyChain_spec pow_approx Math_exp c baseRgb255 w H)
        as (_ & _ & (Hb & _) & _ & (Hh & _) & _ & D).
      apply holds_cell in Hb, Hh. rewrite Hb, Hh.
      split; [exact S'|]. split; [exact P' | exact D].
Qed.

Hypothesis same_pow : forall b e, pow_approx b e = pow_approx' b e.
Hypothesis same_exp : forall x, Math_exp x = Math_exp' x.

(** C9: [applyChain] run twice, in both variants.  The first run starts
    in any world in which the array of the form holds the base colour; the
    second starts in the world that the first left, on an array that
    holds the same colour, and under a host whose [Math.pow] and
    [Math.exp] return the same values.  Both results read, field by
    field, as the result of the function on values, which depends on the
    colour and on these values only: so they are identical, whatever the
    worlds hold.  The first result still reads the same after the second
    run, the arrays of the form still hold the colour, no cell that was
    there before a run is written by it, and no number is drawn from the
    sources of chance of the host. *)
Theorem applyChain_deterministic (w : Store.world) (c c' : Store.ref)
    (rgb : list num) :
  Store.holds w c rgb -> Store.holds w c' rgb ->
  let first := Store.applyChain pow_approx Math_exp c w in
  let second := Store.applyChain pow_approx' Math_exp' c' (snd first) in
  let first' := Store.Simple.applyChain pow_approx Math_exp c w in
  let second' :=
    Store.Simple.applyChain pow_approx' Math_exp' c' (snd first') in
  (palette_in (snd first) (fst first) = applyChain pow_approx Math_exp rgb
   /\ palette_in (snd second) (fst second)
      = applyChain pow_approx Math_exp rgb
   /\ palette_in (snd second) (fst first)
      = applyChain pow_approx Math_exp rgb
   /\ Store.holds (snd second) c rgb /\ Store.holds (snd second) c' rgb
   /\ Store.grows w (snd first) /\ Store.grows (snd first) (snd second)
   /\ Store.draws (snd second) = Store.draws w)
  /\ (simple_palette_in (snd first') (fst first')
      = Simple.applyChain pow_approx Math_exp rgb
      /\ simple_palette_in (snd second') (fst second')
         = Simple.applyChain pow_approx Math_exp rgb
      /\ simple_palette_in (snd second') (fst first')
         = Simple.applyChain pow_approx Math_exp rgb
      /\ Store.holds (snd second') c rgb /\ Store.holds (snd second') c' rgb
      /\ Store.grows w (snd first') /\ Store.grows (snd first') (snd second')
      /\ Store.draws (snd second') = Store.draws w).
Proof.
  intros H H'. cbv zeta.
  destruct (applyChain_host_values pow_approx pow_approx' Math_exp Math_exp'
              same_pow same_exp rgb) as [E E'].
  split.
  - destruct (applyChain_spec pow_approx Math_exp c rgb w H) as (G1 & M1).
    destruct (applyChain_spec pow_approx' Math_exp' c' rgb _
                (holds_grows _ _ _ _ G1 H')) as (G2 & M2).
    rewrite <- E in M2.
    split; [exact (palette_made_in _ _ _ _ _ M1 (grows_refl _))|].
    split; [exact (palette_made_in _ _ _ _ _ M2 (grows_refl _))|].
    split; [exact (palette_made_in _ _ _ _ _ M1 G2)|].
    pose proof (grows_trans _ _ _ G1 G2) as G.
    split; [exact (holds_grows _ _ _ _ G H)|].
    split; [exact (holds_grows _ _ _ _ G H')|].
    split; [exact G1|]. split; [exact G2 | exact (proj2 G)].
  - destruct (Simple_applyChain_spec pow_approx Math_exp c rgb w H)
      as (G1 & M1).
    destruct (Simple_applyChain_spec pow_approx' Math_exp' c' rgb _
                (holds_grows _ _ _ _ G1 H')) as (G2 & M2).
    rewrite <- E' in M2.
    split; [exact (simple_palette_made_in _ _ _ _ _ M1 (grows_refl _))|].
    split; [exact (simple_palette_made_in _ _ _ _ _ M2 (grows_refl _))|].
    split; [exact (simple_palette_made_in _ _ _ _ _ M1 G2)|].
    pose proof (grows_trans _ _ _ G1 G2) as G.
    split; [exact (holds_grows _ _ _ _ G H)|].
    split; [exact (holds_grows _ _ _ _ G H')|].
    split; [exact G1|]. split; [exact G2 | exact (proj2 G)].
Qed.

End ChainInStore.

(** ** Contrast *)

Lemma fin_eq (x y : Q) : (x == y)%Q -> fin x = fin y.
Proof. intro E. unfold fin. f_equal. now apply Qred_complete. Qed.

Lemma contrastRatio_sym (L1 L2 : num) :
  contrastRatio L1 L2 = contrastRatio L2 L1.
Proof.
  destruct L1 as [| |x|], L2 as [| |y|]; try reflexivity.
  unfold contrastRatio. cbv zeta.
  rewrite !Math_max_Fin, !Math_min_Fin.
  destruct (Qle_bool_spec x y), (Qle_bool_spec y x); try reflexivity.
  - assert (E : (x == y)%Q) by lra.
    cbn [add]. now rewrite (fin_eq (x + 0.05) (y + 0.05)) by (rewrite E; reflexivity).
  - exfalso. lra.
Qed.

Lemma contrastRatio_Fin (x y : Q) :
  (0 <= x)%Q -> (0 <= y)%Q -> (y <= x)%Q ->
  exists q, contrastRatio (Fin x) (Fin y) = Fin q
            /\ (q * (y + 0.05) == x + 0.05)%Q.
Proof.
  intros Hx Hy L. unfold contrastRatio. cbv zeta.
  rewrite Math_max_Fin, Math_min_Fin.
  assert (NZ : forall z, (0 <= z)%Q -> Qzero (Qred (z + 0.05)) = false).
  { intros z Hz. unfold Qzero.
    destruct (Qeq_bool_spec (Qred (z + 0.05)) 0) as [E|E]; [|reflexivity].
    rewrite Qred_correct in E. exfalso. lra. }
  destruct (Qle_bool_spec y x) as [_|C]; [|exfalso; lra].
  destruct (Qle_bool_spec x y) as [C|C].
  - cbn [add]. unfold fin. cbn [div]. rewrite NZ by assumption.
    eexists. split; [reflexivity|]. unfold fin. rewrite !Qred_correct.
    assert (E : (x == y)%Q) by lra. rewrite E. field. lra.
  - cbn [add]. unfold fin. cbn [div]. rewrite NZ by assumption.
    eexists. split; [reflexivity|]. rewrite !Qred_correct. field. lra.
Qed.

Lemma contrastRatio_range (L1 L2 : num) :
  within 0 1 L1 = true -> within 0 1 L2 = true ->
  within 1 21 (contrastRatio L1 L2) = true
  /\ (contrastRatio L1 L2 === 1) = (L1 === L2).
Proof.
  intros H1 H2.
  apply within_Fin in H1. destruct H1 as (x & -> & Hx).
  apply within_Fin in H2. destruct H2 as (y & -> & Hy).
  assert (K : forall a b : Q, (0 <= a <= 1)%Q -> (0 <= b <= 1)%Q -> (b <= a)%Q ->
            within 1 21 (contrastRatio (Fin a) (Fin b)) = true
            /\ (contrastRatio (Fin a) (Fin b) === 1) = Qeq_bool a b).
  { intros a b Ha Hb L.
    destruct (contrastRatio_Fin a b) as (q & -> & E); try lra.
    split.
    - apply within_Fin. exists q. split; [reflexivity|]. nra.
    - cbn [strict_eq].
      destruct (Qeq_bool_spec q 1), (Qeq_bool_spec a b); try reflexivity;
        exfalso; nra. }
  destruct (Qlt_le_dec x y) as [L|L].
  - rewrite contrastRatio_sym. destruct (K y x) as [A B]; try lra.
    split; [exact A|]. rewrite B. cbn [strict_eq].
    destruct (Qeq_bool_spec y x), (Qeq_bool_spec x y); try reflexivity;
      exfalso; lra.
  - apply K; lra.
Qed.
(** ** The hover derivation darkens *)

(** [clamp01] by cases. *)
Lemma clamp01_val (x : Q) :
  exists q, clamp01 (Fin x) = Fin q
            /\ ((x <= 0 -> q == 0) /\ (0 <= x <= 1 -> q == x)
                /\ (1 <= x -> q == 1))%Q.
Proof.
  unfold clamp01. rewrite Math_min_Fin.
  destruct (Qle_bool_spec 1 x); rewrite Math_max_Fin.
  - exists 1%Q. split; [reflexivity | lra].
  - destruct (Qle_bool_spec x 0).
    + exists 0%Q. split; [reflexivity | lra].
    + exists x. split; [reflexivity | lra].
Qed.

(** One channel, as a rational: [r (1 - t (1 - f))]. *)
Lemma mix_channel_val (r : Q) (t f : num) :
  (0 <= r <= 1)%Q -> is_nan t = false -> is_nan f = false ->
  exists t' f' g' q,
    clamp01 t = Fin t' /\ clamp01 f = Fin f'
    /\ clamp01 (Fin r * clamp01 f) = Fin g'
    /\ mix_channel (Fin r) t f = Fin q
    /\ (0 <= t' <= 1 /\ 0 <= f' <= 1 /\ g' == r * f'
        /\ q == (1 - t') * r + t' * g')%Q.
Proof.
  intros Hr Ht Hf. unfold mix_channel.
  destruct (proj1 (within_Fin _ _ _) (clamp01_within t Ht)) as (t' & -> & Ht').
  destruct (proj1 (within_Fin _ _ _) (clamp01_within f Hf)) as (f' & -> & Hf').
  cbn [mul]. unfold fin.
  destruct (clamp01_val (Qred (r * f'))) as (g' & -> & _ & Hg' & _).
  rewrite Qred_correct in Hg'.
  cbn [sub mul add]. unfold fin.
  exists t', f', g'. eexists.
  repeat (split; [reflexivity|]).
  rewrite !Qred_correct.
  repeat split; try lra. apply Hg'. nra.
Qed.

Lemma hoverFromBase_target (base01 theta : list num) (i : nat) :
  (i < 3)%nat ->
  idx [clamp01 (idx base01 0 * clamp01 (idx theta 1));
       clamp01 (idx base01 1 * clamp01 (idx theta 2));
       clamp01 (idx base01 2 * clamp01 (idx theta 3))] i
  = clamp01 (idx base01 i * clamp01 (idx theta (S i))).
Proof. destruct i as [|[|[|i]]]; intro; try reflexivity. lia. Qed.

Lemma hoverFromBase_idx (base01 theta : list num) (i : nat) :
  (i < 3)%nat ->
  idx (hoverFromBase base01 theta) i
  = mix_channel (idx base01 i) (idx theta 0) (idx theta (S i)).
Proof.
  rewrite hoverFromBase_channels.
  destruct i as [|[|[|i]]]; intro; try reflexivity. lia.
Qed.

Lemma hoverFromBase_between (base01 theta : list num) (i : nat) :
  unit_cube base01 ->
  (forall j, (j < 4)%nat -> is_nan (idx theta j) = false) ->
  (i < 3)%nat ->
  (clamp01 (idx base01 i * clamp01 (idx theta (S i)))
     <=? idx (hoverFromBase base01 theta) i) = true
  /\ (idx (hoverFromBase base01 theta) i <=? idx base01 i) = true.
Proof.
  intros B T Hi. rewrite hoverFromBase_idx by assumption.
  destruct (proj1 (within_Fin _ _ _) (B i Hi)) as (r & -> & Hr).
  destruct (mix_channel_val r (idx theta 0) (idx theta (S i)) Hr)
    as (t' & f' & g' & q & _ & E2 & E3 & -> & Ht & Hf & Hg & Hq).
  - apply T. lia.
  - apply T. lia.
  - rewrite E3. cbn [le].
    assert (P : (0 <= r * (1 - f'))%Q) by nra.
    split; apply Qle_bool_iff; nra.
Qed.

(** X7: a mix fraction at or below 0 gives the base colour back, and one
    at or above 1 gives the darkened target; the base is a colour of the
    unit cube and no entry of the policy is NaN. *)
Theorem hover_mix_extremes (base01 theta : list num) (i : nat) :
  unit_cube base01 ->
  (forall j, (j < 4)%nat -> is_nan (idx theta j) = false) ->
  (i < 3)%nat ->
  ((idx theta 0 <=? 0) = true ->
   (idx (hoverFromBase base01 theta) i === idx base01 i) = true)
  /\ ((1 <=? idx theta 0) = true ->
      (idx (hoverFromBase base01 theta) i
       === clamp01 (idx base01 i * clamp01 (idx theta (S i)))) = true).
Proof.
  intros B T Hi. rewrite hoverFromBase_idx by assumption.
  destruct (proj1 (within_Fin _ _ _) (B i Hi)) as (r & -> & Hr).
  destruct (mix_channel_val r (idx theta 0) (idx theta (S i)) Hr)
    as (t' & f' & g' & q & E1 & E2 & E3 & -> & Ht & Hf & Hg & Hq).
  - apply T. lia.
  - apply T. lia.
  - rewrite E3. cbn [strict_eq]. split; intro H.
    + destruct (idx theta 0) as [| |t|]; try discriminate.
      * injection E1 as <-. apply Qeq_bool_iff. lra.
      * destruct (clamp01_val t) as (t2 & Et & Z & _).
        rewrite E1 in Et. injection Et as <-.
        cbn [le] in H. apply Qle_bool_iff in H.
        apply Qeq_bool_iff. specialize (Z H). nra.
    + destruct (idx theta 0) as [| |t|]; try discriminate.
      * destruct (clamp01_val t) as (t2 & Et & _ & _ & Z).
        rewrite E1 in Et. injection Et as <-.
        cbn [le] in H. apply Qle_bool_iff in H.
        apply Qeq_bool_iff. specialize (Z H). nra.
      * injection E1 as <-. apply Qeq_bool_iff. lra.
Qed.

(** The fixed policy of the simple variant is the prior of the learned
    one. *)
Lemma hoverFromBase_at_prior (base01 : list num) :
  hoverFromBase base01 [Fin 0.18; Fin 0.82; Fin 0.86; Fin 0.92]
  = Simple.hoverFromBase base01.
Proof. reflexivity. Qed.

Lemma Simple_channel (r f c : Q) :
  (0 <= r <= 1)%Q -> (0 <= f <= 1)%Q -> (c == 0.82 + 0.18 * f)%Q ->
  (1 - 0.18) * Fin r + 0.18 * clamp01 (Fin r * Fin f) = Fin c * Fin r.
Proof.
  intros Hr Hf Hc. cbn [mul]. unfold fin.
  destruct (clamp01_val (Qred (r * f))) as (g' & -> & _ & Hg' & _).
  rewrite Qred_correct in Hg'.
  repeat (progress (cbn [sub mul add]; unfold fin)).
  f_equal. apply Qred_complete.
  rewrite !Qred_correct, Hg', Hc by nra. ring.
Qed.

Lemma Simple_hoverFromBase_scales (base01 : list num) :
  unit_cube base01 ->
  Simple.hoverFromBase base01
  = [0.9676 * idx base01 0; 0.9748 * idx base01 1; 0.9856 * idx base01 2].
Proof.
  intro B. unfold Simple.hoverFromBase. cbv zeta. cbn [idx nth].
  change (nth 0 base01 NaN) with (idx base01 0).
  change (nth 1 base01 NaN) with (idx base01 1).
  change (nth 2 base01 NaN) with (idx base01 2).
  destruct (proj1 (within_Fin _ _ _) (B 0%nat ltac:(lia))) as (r & -> & Hr).
  destruct (proj1 (within_Fin _ _ _) (B 1%nat ltac:(lia))) as (g & -> & Hg).
  destruct (proj1 (within_Fin _ _ _) (B 2%nat ltac:(lia))) as (b & -> & Hb).
  rewrite (Simple_channel r 0.82 0.9676), (Simple_channel g 0.86 0.9748),
    (Simple_channel b 0.92 0.9856); try reflexivity; try assumption; lra.
Qed.
(** ** HSV and back *)

Lemma max3_val (r g b : Q) :
  exists m, Math_max (Math_max (Fin r) (Fin g)) (Fin b) = Fin m
            /\ (r <= m /\ g <= m /\ b <= m)%Q
            /\ (m == r \/ m == g \/ m == b)%Q.
Proof.
  rewrite Math_max_Fin. destruct (Qle_bool_spec g r);
    rewrite Math_max_Fin;
    match goal with |- context [Qle_bool ?x ?y] =>
      destruct (Qle_bool_spec x y) end;
    eexists; (split; [reflexivity|]); (split; [lra|]);
    auto using Qeq_refl.
Qed.

Lemma min3_val (r g b : Q) :
  exists n, Math_min (Math_min (Fin r) (Fin g)) (Fin b) = Fin n
            /\ (n <= r /\ n <= g /\ n <= b)%Q
            /\ (n == r \/ n == g \/ n == b)%Q.
Proof.
  rewrite Math_min_Fin. destruct (Qle_bool_spec r g);
    rewrite Math_min_Fin;
    match goal with |- context [Qle_bool ?x ?y] =>
      destruct (Qle_bool_spec x y) end;
    eexists; (split; [reflexivity|]); (split; [lra|]);
    auto using Qeq_refl.
Qed.

Lemma Qzero_false (q : Q) : ~ (q == 0)%Q -> Qzero q = false.
Proof.
  intro H. unfold Qzero. now destruct (Qeq_bool_spec q 0).
Qed.

(** The saturation: [d / max], or 0 for black. *)
Lemma saturation_val (m n : Q) :
  (0 <= n <= m)%Q ->
  exists s, (if Fin m === 0 then Fin 0 else (Fin m - Fin n) / Fin m) = Fin s
            /\ (s * m == m - n /\ 0 <= s <= 1)%Q.
Proof.
  intro H. cbn [strict_eq sub]. unfold fin.
  destruct (Qeq_bool_spec m 0) as [Z|NZ].
  - exists 0%Q. split; [reflexivity | lra].
  - cbn [div]. rewrite (Qzero_false m NZ). unfold fin.
    eexists. split; [reflexivity|]. rewrite !Qred_correct.
    assert (E : ((m - n) / m * m == m - n)%Q) by (field; exact NZ).
    split; [exact E|].
    split; [apply Qle_shift_div_l | apply Qle_shift_div_r]; lra.
Qed.

(** The end of the hue computation, with the value it gives. *)
Lemma hue_wrap_val (y : Q) :
  (-1 <= y <= 5)%Q ->
  exists h, (if Fin y / 6 <? 0 then Fin y / 6 + 1 else Fin y / 6) = Fin h
            /\ ((0 <= y -> h * 6 == y) /\ (y < 0 -> h * 6 == y + 6))%Q.
Proof.
  intro H. cbn [div]. change (Qzero 6) with false. cbv iota.
  unfold fin. cbn [lt].
  assert (E : (Qred (y / 6) * 6 == y)%Q) by (rewrite Qred_correct; field).
  destruct (Qle_bool_spec 0 (Qred (y / 6))); cbn [negb].
  - eexists. split; [reflexivity|]. split; intro; lra.
  - cbn [add]. unfold fin. eexists. split; [reflexivity|].
    rewrite Qred_correct. split; intro; lra.
Qed.

(** The hue of a colour that is not a gray: the sector of the greatest
    channel, and the place in it. *)
Lemma hue_val (r g b m n : Q) :
  (r <= m /\ g <= m /\ b <= m)%Q -> (n <= r /\ n <= g /\ n <= b)%Q ->
  (m == r \/ m == g \/ m == b)%Q -> (n < m)%Q ->
  exists h x,
    (let d := Fin m - Fin n in
     let h := if Fin m === Fin r then (Fin g - Fin b) / d %% 6
              else if Fin m === Fin g then (Fin b - Fin r) / d + 2
              else if Fin m === Fin b then (Fin r - Fin g) / d + 4
              else 0 in
     let h := h / 6 in
     if h <? 0 then h + 1 else h) = Fin h
    /\ (-1 <= x <= 1)%Q
    /\ ((m == r -> x * (m - n) == g - b
                   /\ (0 <= x -> h * 6 == x) /\ (x < 0 -> h * 6 == x + 6))
        /\ (~ m == r -> m == g -> x * (m - n) == b - r /\ h * 6 == x + 2)
        /\ (~ m == r -> ~ m == g -> x * (m - n) == r - g /\ h * 6 == x + 4))%Q.
Proof.
  intros M N In L. cbv zeta. cbn [sub strict_eq]. unfold fin.
  assert (D : (0 < Qred (m - n))%Q) by (rewrite Qred_correct; lra).
  assert (NZ : Qzero (Qred (m - n)) = false).
  { apply Qzero_false. intro E. rewrite E in D. lra. }
  assert (Q1 := quotient_bound (Qred (g - b)) (Qred (m - n)) D).
  assert (Q2 := quotient_bound (Qred (b - r)) (Qred (m - n)) D).
  assert (Q3 := quotient_bound (Qred (r - g)) (Qred (m - n)) D).
  assert (V : forall a, (Qred (Qred a / Qred (m - n)) * (m - n) == a)%Q).
  { intro a. rewrite !Qred_correct. field. lra. }
  rewrite !Qred_correct in Q1, Q2, Q3.
  specialize (Q1 ltac:(lra)). specialize (Q2 ltac:(lra)).
  specialize (Q3 ltac:(lra)).
  cbn [div]. rewrite !NZ. unfold fin.
  set (q1 := Qred (Qred (g - b) / Qred (m - n))).
  set (q2 := Qred (Qred (b - r) / Qred (m - n))).
  set (q3 := Qred (Qred (r - g) / Qred (m - n))).
  assert (E1 : (-1 <= q1 <= 1)%Q)
    by (unfold q1; rewrite !Qred_correct; exact Q1).
  assert (E2 : (-1 <= q2 <= 1)%Q)
    by (unfold q2; rewrite !Qred_correct; exact Q2).
  assert (E3 : (-1 <= q3 <= 1)%Q)
    by (unfold q3; rewrite !Qred_correct; exact Q3).
  assert (V1 := V (g - b)%Q). assert (V2 := V (b - r)%Q).
  assert (V3 := V (r - g)%Q). fold q1 in V1. fold q2 in V2. fold q3 in V3.
  destruct (Qeq_bool_spec m r) as [Er|Er].
  - destruct (rem_6_small q1 E1) as (y & -> & Ey).
    destruct (hue_wrap_val y) as (h & -> & H1 & H2); [lra|].
    exists h, q1. split; [reflexivity|]. split; [exact E1|].
    split; [|split]; intros; try contradiction.
    split; [exact V1|]. rewrite <- Ey. split; intro; [apply H1 | apply H2]; lra.
  - destruct (Qeq_bool_spec m g) as [Eg|Eg].
    + cbn [add]. unfold fin.
      destruct (hue_wrap_val (Qred (q2 + 2))) as (h & -> & H1 & _);
        [rewrite Qred_correct; lra|].
      exists h, q2. split; [reflexivity|]. split; [exact E2|].
      split; [|split]; intros; try contradiction.
      split; [exact V2|]. rewrite H1; rewrite Qred_correct; lra.
    + destruct (Qeq_bool_spec m b) as [Eb|Eb].
      * cbn [add]. unfold fin.
        destruct (hue_wrap_val (Qred (q3 + 4))) as (h & -> & H1 & _);
          [rewrite Qred_correct; lra|].
        exists h, q3. split; [reflexivity|]. split; [exact E3|].
        split; [|split]; intros; try contradiction.
        split; [exact V3|]. rewrite H1; rewrite Qred_correct; lra.
      * exfalso. destruct In as [I|[I|I]]; contradiction.
Qed.

(** A colour of channels that are not negative, in HSV. *)
Lemma rgbToHsv_val (r g b : Q) :
  (0 <= r)%Q -> (0 <= g)%Q -> (0 <= b)%Q ->
  exists h s m n x,
    rgbToHsv [Fin r; Fin g; Fin b] = [Fin h; Fin s; Fin m]
    /\ (r <= m /\ g <= m /\ b <= m)%Q /\ (n <= r /\ n <= g /\ n <= b)%Q
    /\ (m == r \/ m == g \/ m == b)%Q /\ (n == r \/ n == g \/ n == b)%Q
    /\ (s * m == m - n /\ 0 <= s <= 1)%Q
    /\ (m == n -> h == 0)%Q
    /\ (n < m ->
        -1 <= x <= 1
        /\ (m == r -> x * (m - n) == g - b
                      /\ (0 <= x -> h * 6 == x) /\ (x < 0 -> h * 6 == x + 6))
        /\ (~ m == r -> m == g -> x * (m - n) == b - r /\ h * 6 == x + 2)
        /\ (~ m == r -> ~ m == g -> x * (m - n) == r - g /\ h * 6 == x + 4))%Q.
Proof.
  intros Hr Hg Hb. rewrite rgbToHsv_eq. cbv zeta. cbn [idx nth].
  destruct (max3_val r g b) as (m & -> & M & Im).
  destruct (min3_val r g b) as (n & -> & N & In).
  destruct (saturation_val m n) as (s & -> & Hs); [lra|].
  destruct (Qlt_le_dec n m) as [L|L].
  - destruct (hue_val r g b m n M N Im L) as (h & x & E & Hx & Hh).
    cbv zeta in E.
    assert (T : (Fin m - Fin n =/= 0) = true).
    { cbn [sub]. unfold fin, sne. cbn [strict_eq].
      destruct (Qeq_bool_spec (Qred (m - n)) 0) as [Z|Z]; [|reflexivity].
      rewrite Qred_correct in Z. exfalso. lra. }
    rewrite T, E.
    exists h, s, m, n, x. split; [reflexivity|].
    repeat (split; [assumption|]). split; [intro; exfalso; lra|].
    intros _. split; assumption.
  - assert (T : (Fin m - Fin n =/= 0) = false).
    { cbn [sub]. unfold fin, sne. cbn [strict_eq].
      destruct (Qeq_bool_spec (Qred (m - n)) 0) as [Z|Z]; [reflexivity|].
      rewrite Qred_correct in Z. exfalso. apply Z. lra. }
    rewrite T.
    exists 0%Q, s, m, n, 0%Q. split; [reflexivity|].
    repeat (split; [assumption|]). split; [intro; reflexivity|].
    intro. exfalso. lra.
Qed.

(** The HSV triple of a colour of the unit cube is in range: hue within
    0..1 with 1 excluded, saturation and value within 0..1. *)
Lemma rgbToHsv_range (rgb : list num) :
  unit_cube rgb ->
  exists h s v,
    rgbToHsv rgb = [Fin h; Fin s; Fin v]
    /\ (0 <= h < 1)%Q /\ (0 <= s <= 1)%Q /\ (0 <= v <= 1)%Q
    /\ Fin v = Math_max (Math_max (idx rgb 0) (idx rgb 1)) (idx rgb 2).
Proof.
  intro B.
  assert (F : finite_upto 3 rgb).
  { intros i Hi. apply (within_is_fin 0 1). now apply B. }
  destruct (rgbToHsv_hue rgb F) as (h0 & E0 & Hh).
  assert (R : rgbToHsv rgb = rgbToHsv [idx rgb 0; idx rgb 1; idx rgb 2])
    by (rewrite !rgbToHsv_eq; reflexivity).
  assert (V : idx (rgbToHsv rgb) 2
              = Math_max (Math_max (idx rgb 0) (idx rgb 1)) (idx rgb 2))
    by (rewrite rgbToHsv_eq; reflexivity).
  rewrite R in *.
  destruct (proj1 (within_Fin _ _ _) (B 0%nat ltac:(lia))) as (r & Er & Hr).
  destruct (proj1 (within_Fin _ _ _) (B 1%nat ltac:(lia))) as (g & Eg & Hg).
  destruct (proj1 (within_Fin _ _ _) (B 2%nat ltac:(lia))) as (b & Eb & Hb).
  rewrite Er, Eg, Eb in *.
  destruct (rgbToHsv_val r g b) as (h & s & m & n & x & E & M & N & Im & In & Hs & _);
    try lra.
  rewrite E in *. cbn [idx nth] in E0, V. injection E0 as ->.
  exists h0, s, m. split; [reflexivity|]. split; [exact Hh|].
  split; [lra|]. split; [|exact V].
  destruct Im as [I|[I|I]]; lra.
Qed.
(** The six cases of [hsvToRgb], as a table read at the sector. *)
Lemma sector_select (k : Z) (l0 l1 l2 l3 l4 l5 : list num) :
  (0 <= k <= 5)%Z ->
  (let j := of_Z k %% 6 in
   if j === 0 then l0 else if j === 1 then l1 else if j === 2 then l2
   else if j === 3 then l3 else if j === 4 then l4
   else if j === 5 then l5 else [])
  = nth (Z.to_nat k) [l0; l1; l2; l3; l4; l5] [].
Proof.
  intro H.
  assert (C : (k = 0 \/ k = 1 \/ k = 2 \/ k = 3 \/ k = 4 \/ k = 5)%Z) by lia.
  repeat (destruct C as [C|C]; [rewrite C; reflexivity|]).
  rewrite C. reflexivity.
Qed.

(** [hsvToRgb] in the sector [k] of the hue, its saturation given by the
    chroma [d = s v]. *)
Lemma hsvToRgb_sector (h s v d : Q) (k : Z) :
  (0 <= k <= 5)%Z -> (inject_Z k <= h * 6 < inject_Z k + 1)%Q ->
  (s * v == d)%Q ->
  exists p q t,
    hsvToRgb [Fin h; Fin s; Fin v]
    = nth (Z.to_nat k)
        [[Fin v; Fin t; Fin p]; [Fin q; Fin v; Fin p]; [Fin p; Fin v; Fin t];
         [Fin p; Fin q; Fin v]; [Fin t; Fin p; Fin v]; [Fin v; Fin p; Fin q]]
        []
    /\ (p == v - d /\ q == v - (h * 6 - inject_Z k) * d
        /\ t == v - (1 - (h * 6 - inject_Z k)) * d)%Q.
Proof.
  intros Hk Hh Hd. unfold hsvToRgb. cbv zeta. cbn [idx nth].
  assert (Fl : Math_floor (Fin h * 6) = of_Z k).
  { cbn [mul Math_floor]. unfold fin. cbn [Math_floor]. f_equal.
    apply Qfloor_unique. rewrite Qred_correct. exact Hh. }
  rewrite Fl.
  set (p := Fin v * (1 - Fin s)).
  set (q := Fin v * (1 - (Fin h * 6 - of_Z k) * Fin s)).
  set (t := Fin v * (1 - (1 - (Fin h * 6 - of_Z k)) * Fin s)).
  assert (Ep : exists p', p = Fin p' /\ (p' == v - d)%Q).
  { unfold p. repeat (progress (cbn [sub mul add]; unfold fin)).
    eexists. split; [reflexivity|]. rewrite !Qred_correct, <- Hd. ring. }
  assert (Eq : exists q', q = Fin q' /\ (q' == v - (h * 6 - inject_Z k) * d)%Q).
  { unfold q, of_Z. repeat (progress (cbn [sub mul add]; unfold fin)).
    eexists. split; [reflexivity|]. rewrite !Qred_correct, <- Hd. ring. }
  assert (Et : exists t', t = Fin t'
                          /\ (t' == v - (1 - (h * 6 - inject_Z k)) * d)%Q).
  { unfold t, of_Z. repeat (progress (cbn [sub mul add]; unfold fin)).
    eexists. split; [reflexivity|]. rewrite !Qred_correct, <- Hd. ring. }
  destruct Ep as (p' & -> & Hp), Eq as (q' & -> & Hq), Et as (t' & -> & Ht).
  exists p', q', t'. split; [|now repeat split].
  exact (sector_select k _ _ _ _ _ _ Hk).
Qed.

(** The sector of a hue within 0..1, 1 excluded. *)
Lemma hue_sector (h : Q) :
  (0 <= h < 1)%Q ->
  exists k, (0 <= k <= 5)%Z /\ (inject_Z k <= h * 6 < inject_Z k + 1)%Q.
Proof.
  intro H. exists (Qfloor (h * 6)).
  assert (A := Qfloor_le (h * 6)). assert (B := Qlt_floor (h * 6)).
  rewrite inject_Z_plus in B. change (inject_Z 1) with 1%Q in B.
  split; [|lra].
  assert (F0 : (Qfloor 0 <= Qfloor (h * 6))%Z) by (apply Qfloor_resp_le; lra).
  assert (A' : (inject_Z (Qfloor (h * 6)) < inject_Z 6)%Q)
    by (change (inject_Z 6) with 6%Q; lra).
  rewrite <- Zlt_Qlt in A'. change (Qfloor 0) with 0%Z in F0. lia.
Qed.

(** A colour in HSV, its hue within 0..1 with 1 excluded and its
    saturation and value within 0..1, is a colour of the unit cube, no
    channel above the value. *)
Lemma hsvToRgb_range (h s v : Q) (i : nat) :
  (0 <= h < 1)%Q -> (0 <= s <= 1)%Q -> (0 <= v <= 1)%Q -> (i < 3)%nat ->
  List.length (hsvToRgb [Fin h; Fin s; Fin v]) = 3%nat
  /\ within 0 1 (idx (hsvToRgb [Fin h; Fin s; Fin v]) i) = true
  /\ (idx (hsvToRgb [Fin h; Fin s; Fin v]) i <=? Fin v) = true.
Proof.
  intros Hh Hs Hv Hi.
  destruct (hue_sector h Hh) as (k & Hk & Hk').
  destruct (hsvToRgb_sector h s v (s * v) k Hk Hk' (Qeq_refl _))
    as (p & q & t & -> & Hp & Hq & Ht).
  assert (D : (0 <= s * v <= v)%Q) by nra.
  assert (F : (0 <= h * 6 - inject_Z k <= 1)%Q) by lra.
  assert (Bp : (0 <= p <= v)%Q) by lra.
  assert (Bq : (0 <= q <= v)%Q) by nra.
  assert (Bt : (0 <= t <= v)%Q) by nra.
  assert (W : forall c, (0 <= c <= v)%Q ->
                within 0 1 (Fin c) = true /\ (Fin c <=? Fin v) = true).
  { intros c Hc. split.
    - apply within_Fin. exists c. split; [reflexivity | lra].
    - cbn [le]. apply Qle_bool_iff. lra. }
  assert (Bv : (0 <= v <= v)%Q) by lra.
  assert (C : (k = 0 \/ k = 1 \/ k = 2 \/ k = 3 \/ k = 4 \/ k = 5)%Z) by lia.
  destruct C as [C|[C|[C|[C|[C|C]]]]]; rewrite C; cbn [Z.to_nat Pos.to_nat
    Pos.iter_op Nat.add nth]; (split; [reflexivity|]);
    destruct i as [|[|[|i]]]; try lia; cbn [idx nth]; now apply W.
Qed.

(** From RGB to HSV and back, when no operation rounds: every channel of a
    colour of the unit cube comes back as the number it was. *)
Lemma hsvToRgb_rgbToHsv (rgb : list num) (i : nat) :
  unit_cube rgb -> (i < 3)%nat ->
  List.length (hsvToRgb (rgbToHsv rgb)) = 3%nat
  /\ (idx (hsvToRgb (rgbToHsv rgb)) i === idx rgb i) = true.
Proof.
  intros B Hi.
  assert (R : rgbToHsv rgb = rgbToHsv [idx rgb 0; idx rgb 1; idx rgb 2])
    by (rewrite !rgbToHsv_eq; reflexivity).
  rewrite R.
  destruct (proj1 (within_Fin _ _ _) (B 0%nat ltac:(lia))) as (r & Er & Hr).
  destruct (proj1 (within_Fin _ _ _) (B 1%nat ltac:(lia))) as (g & Eg & Hg).
  destruct (proj1 (within_Fin _ _ _) (B 2%nat ltac:(lia))) as (b & Eb & Hb).
  assert (Ei : idx rgb i = idx [Fin r; Fin g; Fin b] i).
  { destruct i as [|[|[|i]]]; try lia; cbn [idx nth]; assumption. }
  rewrite Ei, Er, Eg, Eb. clear Ei Er Eg Eb B R rgb.
  destruct (rgbToHsv_val r g b)
    as (h & s & m & n & x & -> & M & N & Im & In & (Hs & Hs') & Gray & Hue);
    try lra.
  assert (Fin3 : forall a b c a' b' c' : Q,
             (a == a')%Q -> (b == b')%Q -> (c == c')%Q ->
             List.length [Fin a; Fin b; Fin c] = 3%nat
             /\ (idx [Fin a; Fin b; Fin c] i === idx [Fin a'; Fin b'; Fin c'] i)
                = true).
  { intros a1 b1 c1 a2 b2 c2 E1 E2 E3. split; [reflexivity|].
    destruct i as [|[|[|i]]]; try lia; cbn [idx nth strict_eq];
      now apply Qeq_bool_iff. }
  assert (Sec : forall k : Z, (0 <= k <= 5)%Z ->
             (inject_Z k <= h * 6 < inject_Z k + 1)%Q ->
             exists p q t,
               hsvToRgb [Fin h; Fin s; Fin m]
               = nth (Z.to_nat k)
                   [[Fin m; Fin t; Fin p]; [Fin q; Fin m; Fin p];
                    [Fin p; Fin m; Fin t]; [Fin p; Fin q; Fin m];
                    [Fin t; Fin p; Fin m]; [Fin m; Fin p; Fin q]] []
               /\ (p == n /\ q == m - (h * 6 - inject_Z k) * (m - n)
                   /\ t == n + (h * 6 - inject_Z k) * (m - n))%Q).
  { intros k Hk Hk'.
    destruct (hsvToRgb_sector h s m (m - n) k Hk Hk' Hs)
      as (p & q & t & E & Hp & Hq & Ht).
    exists p, q, t. split; [exact E|]. repeat split; lra. }
  destruct (Qlt_le_dec n m) as [L|L].
  - destruct (Hue L) as (Hx & H1 & H2 & H3). clear Hue Gray.
    destruct (Qeq_dec m r) as [Cr|Cr].
    + destruct (H1 Cr) as (X & P & Ng). clear H1 H2 H3.
      destruct (Qlt_le_dec x 0) as [S|S].
      * specialize (Ng S).
        destruct (Sec 5%Z ltac:(lia)) as (p & q & t & -> & Hp & Hq & Ht).
        { change (inject_Z 5) with 5%Q. lra. }
        change (inject_Z 5) with 5%Q in *.
        cbn [Z.to_nat Pos.to_nat Pos.iter_op Nat.add nth].
        assert (n == g)%Q by (destruct In as [I|[I|I]]; nra).
        apply Fin3; nra.
      * specialize (P S).
        destruct (Qlt_le_dec x 1) as [S1|S1].
        -- destruct (Sec 0%Z ltac:(lia)) as (p & q & t & -> & Hp & Hq & Ht).
           { change (inject_Z 0) with 0%Q. lra. }
           change (inject_Z 0) with 0%Q in *.
           cbn [Z.to_nat nth].
           assert (n == b)%Q by (destruct In as [I|[I|I]]; nra).
           apply Fin3; nra.
        -- destruct (Sec 1%Z ltac:(lia)) as (p & q & t & -> & Hp & Hq & Ht).
           { change (inject_Z 1) with 1%Q. lra. }
           change (inject_Z 1) with 1%Q in *.
           cbn [Z.to_nat Pos.to_nat Pos.iter_op Nat.add nth].
           assert (x == 1)%Q by lra.
           assert (n == b /\ m == g)%Q by nra.
           apply Fin3; nra.
    + destruct (Qeq_dec m g) as [Cg|Cg].
      * destruct (H2 Cr Cg) as (X & P). clear H1 H2 H3.
        destruct (Qlt_le_dec x 0) as [S|S].
        -- destruct (Sec 1%Z ltac:(lia)) as (p & q & t & -> & Hp & Hq & Ht).
           { change (inject_Z 1) with 1%Q. lra. }
           change (inject_Z 1) with 1%Q in *.
           cbn [Z.to_nat Pos.to_nat Pos.iter_op Nat.add nth].
           assert (n == b)%Q by (destruct In as [I|[I|I]]; nra).
           apply Fin3; nra.
        -- destruct (Qlt_le_dec x 1) as [S1|S1].
           ++ destruct (Sec 2%Z ltac:(lia)) as (p & q & t & -> & Hp & Hq & Ht).
              { change (inject_Z 2) with 2%Q. lra. }
              change (inject_Z 2) with 2%Q in *.
              cbn [Z.to_nat Pos.to_nat Pos.iter_op Nat.add nth].
              assert (n == r)%Q by (destruct In as [I|[I|I]]; nra).
              apply Fin3; nra.
           ++ destruct (Sec 3%Z ltac:(lia)) as (p & q & t & -> & Hp & Hq & Ht).
              { change (inject_Z 3) with 3%Q. lra. }
              change (inject_Z 3) with 3%Q in *.
              cbn [Z.to_nat Pos.to_nat Pos.iter_op Nat.add nth].
              assert (x == 1)%Q by lra.
              assert (n == r /\ m == b)%Q by nra.
              apply Fin3; nra.
      * destruct (H3 Cr Cg) as (X & P). clear H1 H2 H3.
        assert (Cb : (m == b)%Q) by (destruct Im as [I|[I|I]]; tauto).
        destruct (Qlt_le_dec x 0) as [S|S].
        -- destruct (Sec 3%Z ltac:(lia)) as (p & q & t & -> & Hp & Hq & Ht).
           { change (inject_Z 3) with 3%Q. lra. }
           change (inject_Z 3) with 3%Q in *.
           cbn [Z.to_nat Pos.to_nat Pos.iter_op Nat.add nth].
           assert (n == r)%Q by (destruct In as [I|[I|I]]; nra).
           apply Fin3; nra.
        -- destruct (Qlt_le_dec x 1) as [S1|S1].
           ++ destruct (Sec 4%Z ltac:(lia)) as (p & q & t & -> & Hp & Hq & Ht).
              { change (inject_Z 4) with 4%Q. lra. }
              change (inject_Z 4) with 4%Q in *.
              cbn [Z.to_nat Pos.to_nat Pos.iter_op Nat.add nth].
              assert (n == g)%Q by (destruct In as [I|[I|I]]; nra).
              apply Fin3; nra.
           ++ exfalso. assert (x == 1)%Q by lra. apply Cr. nra.
  - assert (E : (m == n)%Q) by lra. specialize (Gray E).
    destruct (Sec 0%Z ltac:(lia)) as (p & q & t & -> & Hp & Hq & Ht).
    { change (inject_Z 0) with 0%Q. lra. }
    cbn [Z.to_nat nth].
    assert (Z0 : (m - n == 0)%Q) by lra. rewrite Z0 in Ht.
    apply Fin3; lra.
Qed.
(** ** Luminance, text colours and the text loss *)

Lemma nonneg_Fin (a : num) :
  nonneg a = true <-> exists q, a = Fin q /\ (0 <= q)%Q.
Proof.
  unfold nonneg. split.
  - intro H. apply andb_prop in H. destruct H as [H1 H2].
    destruct a as [| |q|]; try discriminate.
    exists q. split; [reflexivity|]. now apply Qle_bool_iff.
  - intros (q & -> & H). cbn. now apply Qle_bool_iff.
Qed.

Lemma nonneg_is_fin (a : num) : nonneg a = true -> is_fin a = true.
Proof. unfold nonneg. intro H. now apply andb_prop in H. Qed.

Lemma nonneg_add (a b : num) :
  nonneg a = true -> nonneg b = true -> nonneg (a + b) = true.
Proof.
  intros Ha Hb. apply nonneg_Fin in Ha, Hb.
  destruct Ha as (x & -> & Hx), Hb as (y & -> & Hy).
  apply nonneg_Fin. eexists. split; [reflexivity|].
  rewrite Qred_correct. lra.
Qed.

Lemma nonneg_mul (a b : num) :
  nonneg a = true -> nonneg b = true -> nonneg (a * b) = true.
Proof.
  intros Ha Hb. apply nonneg_Fin in Ha, Hb.
  destruct Ha as (x & -> & Hx), Hb as (y & -> & Hy).
  apply nonneg_Fin. eexists. split; [reflexivity|].
  rewrite Qred_correct. nra.
Qed.

(** A square is not negative. *)
Lemma nonneg_sq (pow_approx : num -> num -> num) (a : num) :
  is_fin a = true -> nonneg (Math_pow pow_approx a 2) = true.
Proof.
  intro H. destruct (is_fin_ex a H) as (x & ->). rewrite Math_pow_2.
  apply nonneg_Fin. cbn [mul]. unfold fin. cbn [mul]. unfold fin.
  eexists. split; [reflexivity|]. rewrite !Qred_correct. nra.
Qed.

Lemma within_nonneg (lo hi : Q) (a : num) :
  (0 <= lo)%Q -> within lo hi a = true -> nonneg a = true.
Proof.
  intros L H. apply within_Fin in H. destruct H as (q & -> & Hq).
  apply nonneg_Fin. exists q. split; [reflexivity | lra].
Qed.

Section Losses.

Variable pow_approx : num -> num -> num.
Variable Math_exp : num -> num.

Hypothesis pow_ok : pow_host pow_approx.
Hypothesis exp_ok : exp_host Math_exp.

Lemma pow_host_finite (x y : Q) :
  (0 < x)%Q -> is_fin (pow_approx (Fin x) (Fin y)) = true.
Proof. intro H. apply nonneg_is_fin. now apply pow_ok. Qed.

(** The transfer function maps 0..1 into 0..1. *)
Lemma srgbToLinear_within (c : num) :
  within 0 1 c = true -> within 0 1 (srgbToLinear pow_approx c) = true.
Proof.
  intro H. apply within_Fin in H. destruct H as (x & -> & Hx).
  unfold srgbToLinear. cbn [le].
  destruct (Qle_bool_spec x 0.04045) as [L|L].
  - cbn [div]. change (Qzero 12.92) with false. cbv iota.
    apply within_Fin. eexists. split; [reflexivity|]. rewrite Qred_correct.
    split; [apply Qle_shift_div_l | apply Qle_shift_div_r]; lra.
  - cbn [add div]. unfold fin. cbn [div]. change (Qzero 1.055) with false.
    cbv iota. unfold fin.
    change (Math_pow pow_approx ?b 2.4) with (pow_approx b 2.4).
    set (y := Qred (Qred (x + 0.055) / 1.055)).
    assert (Hy : (0 < y <= 1)%Q).
    { unfold y. rewrite !Qred_correct.
      split; [apply Qlt_shift_div_l | apply Qle_shift_div_r]; lra. }
    destruct (pow_ok y 2.4 (proj1 Hy)) as [P1 P2].
    specialize (P2 (proj2 Hy) ltac:(lra)).
    apply nonneg_Fin in P1. destruct P1 as (q & E & Hq). rewrite E in *.
    cbn [le] in P2. apply Qle_bool_iff in P2.
    apply within_Fin. exists q. split; [reflexivity | lra].
Qed.

(** The relative luminance of a colour of the unit cube is within 0..1. *)
Lemma relLuminance_within (c : list num) :
  unit_cube c -> within 0 1 (relLuminance pow_approx c) = true.
Proof.
  intro B. unfold relLuminance. cbv zeta.
  assert (E : forall i, (i < 3)%nat ->
            within 0 1 (idx (map (srgbToLinear pow_approx) c) i) = true).
  { intros i Hi. specialize (B i Hi). unfold idx in *.
    destruct (Nat.lt_ge_cases i (List.length c)) as [L|L].
    - rewrite (nth_indep _ NaN (srgbToLinear pow_approx NaN))
        by (rewrite length_map; exact L).
      rewrite map_nth. now apply srgbToLinear_within.
    - rewrite nth_overflow in B by exact L. discriminate. }
  destruct (proj1 (within_Fin _ _ _) (E 0%nat ltac:(lia))) as (r & -> & Hr).
  destruct (proj1 (within_Fin _ _ _) (E 1%nat ltac:(lia))) as (g & -> & Hg).
  destruct (proj1 (within_Fin _ _ _) (E 2%nat ltac:(lia))) as (b & -> & Hb).
  repeat (progress (cbn [mul add]; unfold fin)).
  apply within_Fin. eexists. split; [reflexivity|].
  rewrite !Qred_correct. lra.
Qed.

(** The logistic function of a finite number is within 0..1. *)
Lemma sigmoid_within (x : num) :
  is_fin x = true -> within 0 1 (sigmoid Math_exp x) = true.
Proof.
  intro H. destruct (is_fin_ex x H) as (q & ->). unfold sigmoid.
  cbn [neg]. unfold fin. assert (E := exp_ok (Qred (- q))).
  destruct (Math_exp (Fin (Qred (- q)))) as [| |e|]; try discriminate.
  - cbn [le] in E. apply Qle_bool_iff in E.
    cbn [add]. unfold fin. cbn [div].
    rewrite Qzero_false by (rewrite Qred_correct; lra).
    apply within_Fin. eexists. split; [reflexivity|].
    rewrite !Qred_correct.
    split; [apply Qle_shift_div_l | apply Qle_shift_div_r]; lra.
  - reflexivity.
Qed.

Lemma textColorFromParams_unit_cube (p : list num) :
  finite_upto 3 p -> unit_cube (textColorFromParams Math_exp p).
Proof.
  intros F [|[|[|i]]] Hi; try lia; cbn [textColorFromParams idx nth];
    apply sigmoid_within; apply F; lia.
Qed.

(** The target colour of the text loss is a colour of the unit cube. *)
Lemma lossForText_target (bg01 : list num) (L : num) :
  unit_cube bg01 ->
  unit_cube
    (hsvToRgb [(idx (rgbToHsv bg01) 0 + 0.5) %% 1;
               clamp01 (Math_max 0.55 (idx (rgbToHsv bg01) 1));
               if L >? 0.5 then Fin 0.15 else Fin 0.95]).
Proof.
  intros B i Hi.
  destruct (rgbToHsv_range bg01 B) as (h & s & v & -> & Hh & Hs & Hv & _).
  cbn [idx nth add]. unfold fin.
  destruct (rem_1_frac (Qred (h + 0.5))) as (th & -> & Hth);
    [rewrite Qred_correct; lra|].
  assert (S : within 0 1 (clamp01 (Math_max 0.55 (Fin s))) = true).
  { apply clamp01_within. rewrite Math_max_Fin.
    now destruct (Qle_bool s 0.55). }
  apply within_Fin in S. destruct S as (ts & -> & Hts).
  destruct (L >? 0.5);
    apply hsvToRgb_range; try assumption; lra.
Qed.

Lemma sub_within (a b : num) :
  within 0 1 a = true -> within 0 1 b = true -> is_fin (a - b) = true.
Proof.
  intros Ha Hb. apply is_fin_sub; eapply within_is_fin; eassumption.
Qed.

(** The text loss of two colours of the unit cube is a finite number that
    is not negative. *)
Lemma lossForText_nonneg (bg01 text01 : list num) :
  unit_cube bg01 -> unit_cube text01 ->
  nonneg (lossForText pow_approx bg01 text01) = true.
Proof.
  intros B T. unfold lossForText. cbv zeta.
  assert (Lb := relLuminance_within bg01 B).
  assert (Lt := relLuminance_within text01 T).
  destruct (contrastRatio_range _ _ Lb Lt) as [C _].
  assert (Tg := lossForText_target bg01 (relLuminance pow_approx bg01) B).
  set (target := hsvToRgb _) in *.
  assert (W : forall i, (i < 3)%nat -> is_fin (idx text01 i - idx target i) = true).
  { intros i Hi. apply sub_within; [apply T | apply Tg]; exact Hi. }
  assert (F : forall i, (i < 3)%nat -> is_fin (idx text01 i) = true).
  { intros i Hi. apply (within_is_fin 0 1). now apply T. }
  repeat apply nonneg_add.
  - apply nonneg_sq. apply is_fin_max; [reflexivity|].
    apply is_fin_sub; [reflexivity|]. exact (within_is_fin _ _ _ C).
  - apply nonneg_mul; [reflexivity|].
    repeat apply nonneg_add; apply nonneg_sq; apply W; lia.
  - apply nonneg_mul; [reflexivity|].
    repeat apply nonneg_add; apply nonneg_sq; apply F; lia.
Qed.

End Losses.
(** ** The optimizers on a colour of the unit cube *)

Lemma unit_cube_finite (c : list num) : unit_cube c -> finite_upto 3 c.
Proof. intros B i Hi. apply (within_is_fin 0 1). now apply B. Qed.

Lemma optimizeText_loop_S (pow_approx : num -> num -> num)
    (Math_exp : num -> num) (bg01 : list num) (k : nat) (st : list num * num) :
  optimizeText_loop pow_approx Math_exp bg01 (S k) st
  = optimizeText_step pow_approx Math_exp bg01
      (optimizeText_loop pow_approx Math_exp bg01 k st) k.
Proof.
  unfold optimizeText_loop.
  now rewrite seq_S, fold_left_app.
Qed.

Lemma schedule_S (lr : num) (k : nat) :
  (let lr' := schedule lr k in
   let lr' := if (k =? 60)%nat then lr' * 0.6 else lr' in
   if (k =? 110)%nat then lr' * 0.7 else lr')
  = schedule lr (S k).
Proof.
  unfold schedule. cbv zeta.
  destruct (Nat.eqb_spec k 60) as [->|N60]; [reflexivity|].
  destruct (Nat.eqb_spec k 110) as [->|N110]; [reflexivity|].
  destruct (Nat.leb_spec k 60), (Nat.leb_spec (S k) 60); try lia;
    try reflexivity.
  destruct (Nat.leb_spec k 110), (Nat.leb_spec (S k) 110); try lia;
    reflexivity.
Qed.

(** X12: the learning rate of the two optimizers of [hover2.js] after [k]
    turns: the initial one up to 60 turns, 0.6 of it up to 110, and 0.7 of
    that from then on; the decay of a turn acts from the next turn on. *)
Theorem learning_rate_decay (pow_approx : num -> num -> num)
    (Math_exp : num -> num) (bg01 p theta : list num) (lr : num) (k : nat) :
  snd (optimizeText_loop pow_approx Math_exp bg01 k (p, lr)) = schedule lr k
  /\ snd (optimizeHoverTheta_loop pow_approx bg01 k (theta, lr))
     = schedule lr k.
Proof.
  split.
  - induction k as [|k IH]; [reflexivity|].
    rewrite optimizeText_loop_S, <- schedule_S, <- IH.
    destruct (optimizeText_loop pow_approx Math_exp bg01 k (p, lr)) as [p' lr'].
    unfold optimizeText_step. cbn [snd].
    now destruct (k =? 60)%nat, (k =? 110)%nat.
  - induction k as [|k IH]; [reflexivity|].
    rewrite optimizeHoverTheta_loop_S, <- schedule_S, <- IH.
    destruct (optimizeHoverTheta_loop pow_approx bg01 k (theta, lr))
      as [t' lr'].
    unfold optimizeHoverTheta_step. cbn [snd].
    now destruct (k =? 60)%nat, (k =? 110)%nat.
Qed.

Section Optimizers.

Variable pow_approx : num -> num -> num.
Variable Math_exp : num -> num.

Hypothesis pow_ok : pow_host pow_approx.
Hypothesis exp_ok : exp_host Math_exp.

Lemma lossForHoverTheta_nonneg (base01 theta : list num) :
  finite_upto 3 base01 -> finite_upto 4 theta ->
  nonneg (lossForHoverTheta pow_approx base01 theta) = true.
Proof.
  intros Hb Ht.
  assert (PF := pow_host_finite pow_approx pow_ok).
  assert (Hh := finite_upto_hoverFromBase base01 theta Hb Ht).
  assert (Lh := is_fin_relLuminance pow_approx PF _ Hh).
  assert (Lb := is_fin_relLuminance pow_approx PF _ Hb).
  assert (B0 := Hb 0%nat ltac:(lia)).
  assert (B1 := Hb 1%nat ltac:(lia)).
  assert (B2 := Hb 2%nat ltac:(lia)).
  assert (T0 := Ht 0%nat ltac:(lia)).
  assert (T1 := Ht 1%nat ltac:(lia)).
  assert (T2 := Ht 2%nat ltac:(lia)).
  assert (T3 := Ht 3%nat ltac:(lia)).
  assert (H0 := Hh 0%nat ltac:(lia)).
  assert (H1 := Hh 1%nat ltac:(lia)).
  assert (H2 := Hh 2%nat ltac:(lia)).
  unfold lossForHoverTheta.
  generalize dependent (hoverFromBase base01 theta). intros hover01 Hh Lh H0 H1 H2.
  generalize dependent (relLuminance pow_approx hover01).
  generalize dependent (relLuminance pow_approx base01).
  intros Lb' HLb Lh' HLh. cbv zeta.
  repeat first [ apply nonneg_add | apply nonneg_sq
               | apply nonneg_mul; [reflexivity|] ];
  repeat first [ apply is_fin_add | apply is_fin_mul | apply is_fin_pow_2
               | apply is_fin_sub | apply is_fin_max | apply is_fin_abs
               | assumption | reflexivity ].
Qed.

Lemma is_fin_text_difference (bg01 p : list num) (i : nat) :
  unit_cube bg01 -> finite_upto 3 p ->
  is_fin (forward_difference
            (fun p => lossForText pow_approx bg01 (textColorFromParams Math_exp p))
            p 1e-3 i) = true.
Proof.
  intros Hb Hp. unfold forward_difference.
  apply is_fin_div; [|reflexivity].
  apply is_fin_sub; apply nonneg_is_fin; apply lossForText_nonneg;
    try assumption; apply textColorFromParams_unit_cube; try assumption.
  now apply finite_upto_perturb.
Qed.

Lemma optimizeText_step_3 (bg01 : list num) (a b c lr : num) (s : nat) :
  let gr i :=
    forward_difference
      (fun p => lossForText pow_approx bg01 (textColorFromParams Math_exp p))
      [a; b; c] 1e-3 i in
  fst (optimizeText_step pow_approx Math_exp bg01 ([a; b; c], lr) s)
  = [a - lr * gr 0%nat; b - lr * gr 1%nat; c - lr * gr 2%nat].
Proof.
  intro gr. unfold optimizeText_step.
  rewrite gradNumerical_forward.
  cbn [map List.seq mapi mapi_from idx nth].
  now destruct (s =? 60)%nat, (s =? 110)%nat.
Qed.

Lemma optimizeText_step_ok (bg01 : list num) (st : list num * num) (s : nat) :
  unit_cube bg01 -> text_state_ok st ->
  text_state_ok (optimizeText_step pow_approx Math_exp bg01 st s).
Proof.
  intros Hb (L & F & R). destruct st as [p lr]. cbn [fst snd] in *.
  destruct p as [|a [|b [|c [|d p]]]]; try discriminate.
  assert (E := optimizeText_step_3 bg01 a b c lr s). cbv zeta in E.
  assert (Fa := F 0%nat ltac:(lia)). assert (Fb := F 1%nat ltac:(lia)).
  assert (Fc := F 2%nat ltac:(lia)). cbn [idx nth] in Fa, Fb, Fc.
  assert (U : forall x v, is_fin x = true ->
            is_fin (x - lr
                    * forward_difference
                        (fun p => lossForText pow_approx bg01
                                    (textColorFromParams Math_exp p))
                        [a; b; c] 1e-3 v) = true).
  { intros x v Hx. apply is_fin_sub; [exact Hx|].
    apply is_fin_mul; [exact R|]. now apply is_fin_text_difference. }
  unfold text_state_ok. rewrite E. split; [reflexivity|]. split.
  - intros [|[|[|i]]] Hi; try lia; cbn [idx nth]; now apply U.
  - unfold optimizeText_step.
    destruct (s =? 60)%nat, (s =? 110)%nat; cbn [snd]; auto with finite.
Qed.

Lemma optimizeText_loop_ok (bg01 : list num) (k : nat) (st : list num * num) :
  unit_cube bg01 -> text_state_ok st ->
  text_state_ok (optimizeText_loop pow_approx Math_exp bg01 k st).
Proof.
  intros Hb Hst. induction k as [|k IH]; [exact Hst|].
  rewrite optimizeText_loop_S. now apply optimizeText_step_ok.
Qed.

(** [optimizeText] on a background of the unit cube, from three finite
    parameters and a finite learning rate, whatever the number of turns:
    three finite parameters, a text colour of the unit cube, and a loss that
    is finite and not negative. *)
Lemma optimizeText_well_defined (bg01 : list num) (opts : TextOptions) :
  unit_cube bg01 ->
  text_state_ok (default (o_initParams opts) [Fin 0; Fin 0; Fin 0],
                 default (o_lr opts) (Fin 0.35)) ->
  let r := optimizeText pow_approx Math_exp bg01 opts in
  List.length (params r) = 3%nat /\ finite_upto 3 (params r)
  /\ unit_cube (color01 r) /\ nonneg (loss r) = true.
Proof.
  intros Hb Hst. unfold optimizeText. cbv zeta. unfold slice.
  assert (K := optimizeText_loop_ok bg01 (default (o_steps opts) 160%nat) _
                 Hb Hst).
  destruct (optimizeText_loop _ _ _ _ _) as [p lr].
  destruct K as (L & F & _). cbn [fst] in L, F.
  cbn [params color01 loss].
  split; [exact L|]. split; [exact F|].
  assert (C := textColorFromParams_unit_cube Math_exp exp_ok p F).
  split; [exact C|].
  now apply lossForText_nonneg.
Qed.

End Optimizers.
(** ** The chain on an accepted input *)

Lemma rgb01_unit_cube (r g b : Z) :
  (0 <= r <= 255)%Z -> (0 <= g <= 255)%Z -> (0 <= b <= 255)%Z ->
  unit_cube (rgb01 [of_Z r; of_Z g; of_Z b]).
Proof.
  intros Hr Hg Hb.
  assert (K : forall z, (0 <= z <= 255)%Z -> within 0 1 (of_Z z / 255) = true).
  { intros z Hz. unfold of_Z. cbn [div]. change (Qzero 255) with false.
    cbv iota. apply within_Fin. eexists. split; [reflexivity|].
    rewrite Qred_correct.
    assert (A : (inject_Z 0 <= inject_Z z <= inject_Z 255)%Q)
      by (rewrite <- !Zle_Qle; lia).
    change (inject_Z 0) with 0%Q in A. change (inject_Z 255) with 255%Q in A.
    split; [apply Qle_shift_div_l | apply Qle_shift_div_r]; lra. }
  intros [|[|[|i]]] Hi; try lia; cbn [rgb01 idx nth]; now apply K.
Qed.

Lemma hoverFromBase_unit_cube (base01 theta : list num) :
  unit_cube base01 -> finite_upto 4 theta ->
  unit_cube (hoverFromBase base01 theta).
Proof.
  intros B T i Hi. rewrite hoverFromBase_idx by exact Hi.
  apply mix_channel_within; [now apply B| |];
    apply is_fin_not_nan, T; lia.
Qed.

Lemma clamp01_tenth (a : num) :
  within 0 1 a = true ->
  clamp01 (a * 0.10) = a * 0.10 /\ within 0 0.1 (a * 0.10) = true.
Proof.
  intro H. apply within_Fin in H. destruct H as (x & -> & Hx).
  cbn [mul]. unfold fin.
  assert (E := Qred_correct (x * 0.10)).
  split.
  - unfold clamp01. rewrite Math_min_Fin.
    destruct (Qle_bool_spec 1 (Qred (x * 0.10))) as [C|C]; [exfalso; lra|].
    rewrite Math_max_Fin.
    destruct (Qle_bool_spec (Qred (x * 0.10)) 0) as [Z|Z]; [|reflexivity].
    f_equal. symmetry. apply Qred_zero. lra.
  - apply within_Fin. eexists. split; [reflexivity | lra].
Qed.

Lemma within_weaken (lo hi lo' hi' : Q) (a : num) :
  (lo' <= lo)%Q -> (hi <= hi')%Q ->
  within lo hi a = true -> within lo' hi' a = true.
Proof.
  intros L U H. apply within_Fin in H. destruct H as (q & -> & Hq).
  apply within_Fin. exists q. split; [reflexivity | lra].
Qed.

Lemma theta_loss_eq (pow_approx : num -> num -> num) (base01 : list num)
    (opts : ThetaOptions) :
  theta_loss (optimizeHoverTheta pow_approx base01 opts)
  = lossForHoverTheta pow_approx base01
      (theta (optimizeHoverTheta pow_approx base01 opts)).
Proof.
  unfold optimizeHoverTheta. cbv zeta.
  destruct (optimizeHoverTheta_loop _ _ _ _). reflexivity.
Qed.

Lemma half_state_ok : text_state_ok ([Fin 0.5; Fin 0.5; Fin 0.5], Fin 0.35).
Proof.
  repeat split.
  intros [|[|[|i]]] Hi; [reflexivity | reflexivity | reflexivity | lia].
Qed.

Section ChainTotal.

Variable pow_approx : num -> num -> num.
Variable Math_exp : num -> num.

Hypothesis pow_ok : pow_host pow_approx.
Hypothesis exp_ok : exp_host Math_exp.

(** The two text runs of a chain: the second starts from the parameters of
    the first. *)
Lemma text_runs (base hover : list num) :
  unit_cube base -> unit_cube hover ->
  let baseText :=
    optimizeText pow_approx Math_exp base
      {| o_steps := None; o_lr := None;
         o_initParams := Some [Fin 0.5; Fin 0.5; Fin 0.5] |} in
  let hoverText :=
    optimizeText pow_approx Math_exp hover
      {| o_steps := None; o_lr := None;
         o_initParams := Some (params baseText) |} in
  unit_cube (color01 baseText) /\ nonneg (loss baseText) = true
  /\ unit_cube (color01 hoverText) /\ nonneg (loss hoverText) = true.
Proof.
  intros Hb Hh bt ht.
  destruct (optimizeText_well_defined pow_approx Math_exp pow_ok exp_ok base
              {| o_steps := None; o_lr := None;
                 o_initParams := Some [Fin 0.5; Fin 0.5; Fin 0.5] |}
              Hb half_state_ok) as (L & F & C & N).
  fold bt in L, F, C, N.
  destruct (optimizeText_well_defined pow_approx Math_exp pow_ok exp_ok hover
              {| o_steps := None; o_lr := None;
                 o_initParams := Some (params bt) |} Hh)
    as (_ & _ & C' & N').
  { split; [exact L|]. split; [exact F|]. reflexivity. }
  fold ht in C', N'. tauto.
Qed.

(** On a colour that [parseRGB] accepted every number of the palette is
    finite: the base, the hover background and the two text colours are
    colours of the unit cube, the hover background is nowhere lighter than
    the base, the page background is a tenth of the base, the policy is
    within its box, and the three losses are finite and not negative. *)
Lemma applyChain_well_defined (text : string) (rgb : list num) :
  parseRGB text = Some rgb ->
  let r := applyChain pow_approx Math_exp rgb in
  unit_cube (base01 r) /\ unit_cube (hover01 r)
  /\ (forall i, (i < 3)%nat -> (idx (hover01 r) i <=? idx (base01 r) i) = true)
  /\ pageBg01 r = [idx (base01 r) 0 * 0.10; idx (base01 r) 1 * 0.10;
                   idx (base01 r) 2 * 0.10]
  /\ boxed (theta (hoverOpt r)) = true
  /\ nonneg (theta_loss (hoverOpt r)) = true
  /\ unit_cube (color01 (baseText r)) /\ nonneg (loss (baseText r)) = true
  /\ unit_cube (color01 (hoverText r)) /\ nonneg (loss (hoverText r)) = true.
Proof.
  intro P.
  destruct (parseRGB_total text) as [N|(r & g & b & Hr & Hg & Hb & E)];
    [congruence|].
  rewrite E in P. injection P as <-.
  assert (B := rgb01_unit_cube r g b Hr Hg Hb).
  assert (PF := pow_host_finite pow_approx pow_ok).
  unfold applyChain. cbv zeta.
  cbn [base01 hover01 pageBg01 hoverOpt baseText hoverText].
  set (base := rgb01 [of_Z r; of_Z g; of_Z b]) in *.
  assert (Bx := optimizeHoverTheta_default_boxed pow_approx PF base
                  (unit_cube_finite base B)).
  set (opt := optimizeHoverTheta pow_approx base _) in *.
  destruct (boxed_finite _ Bx) as [_ Ft].
  assert (H := hoverFromBase_unit_cube base (theta opt) B Ft).
  split; [exact B|]. split; [exact H|]. split.
  { intros i Hi. apply hoverFromBase_between; try assumption.
    intros j Hj. now apply is_fin_not_nan, Ft. }
  split.
  { rewrite (proj1 (clamp01_tenth _ (B 0%nat ltac:(lia)))).
    rewrite (proj1 (clamp01_tenth _ (B 1%nat ltac:(lia)))).
    rewrite (proj1 (clamp01_tenth _ (B 2%nat ltac:(lia)))).
    reflexivity. }
  split; [exact Bx|]. split.
  { unfold opt. rewrite theta_loss_eq. fold opt.
    apply lossForHoverTheta_nonneg;
      [exact pow_ok | exact (unit_cube_finite base B) | exact Ft]. }
  exact (text_runs base (hoverFromBase base (theta opt)) B H).
Qed.

(** The same for the simple variant, where the hover background is the
    base scaled by 0.9676, 0.9748 and 0.9856. *)
Lemma Simple_applyChain_well_defined (text : string) (rgb : list num) :
  parseRGB text = Some rgb ->
  let r := Simple.applyChain pow_approx Math_exp rgb in
  unit_cube (Simple.base01 r) /\ unit_cube (Simple.hover01 r)
  /\ Simple.hover01 r
     = [0.9676 * idx (Simple.base01 r) 0; 0.9748 * idx (Simple.base01 r) 1;
        0.9856 * idx (Simple.base01 r) 2]
  /\ Simple.pageBg01 r
     = [idx (Simple.base01 r) 0 * 0.10; idx (Simple.base01 r) 1 * 0.10;
        idx (Simple.base01 r) 2 * 0.10]
  /\ unit_cube (color01 (Simple.baseText r))
  /\ nonneg (loss (Simple.baseText r)) = true
  /\ unit_cube (color01 (Simple.hoverText r))
  /\ nonneg (loss (Simple.hoverText r)) = true.
Proof.
  intro P.
  destruct (parseRGB_total text) as [N|(r & g & b & Hr & Hg & Hb & E)];
    [congruence|].
  rewrite E in P. injection P as <-.
  assert (B := rgb01_unit_cube r g b Hr Hg Hb).
  unfold Simple.applyChain. cbv zeta.
  cbn [Simple.base01 Simple.hover01 Simple.pageBg01 Simple.baseText
       Simple.hoverText].
  set (base := rgb01 [of_Z r; of_Z g; of_Z b]) in *.
  assert (H : unit_cube (Simple.hoverFromBase base)).
  { rewrite <- hoverFromBase_at_prior. apply hoverFromBase_unit_cube;
      [exact B|].
    intros [|[|[|[|i]]]] Hi;
      [reflexivity | reflexivity | reflexivity | reflexivity | lia]. }
  split; [exact B|]. split; [exact H|]. split.
  { now apply Simple_hoverFromBase_scales. }
  split.
  { rewrite (proj1 (clamp01_tenth _ (B 0%nat ltac:(lia)))).
    rewrite (proj1 (clamp01_tenth _ (B 1%nat ltac:(lia)))).
    rewrite (proj1 (clamp01_tenth _ (B 2%nat ltac:(lia)))).
    reflexivity. }
  exact (text_runs base (Simple.hoverFromBase base) B H).
Qed.

End ChainTotal.

(** ** hover.js on small inputs *)

Example parseInt16_prefixes :
  parseInt16 "0x1f" = of_Z 31 /\ parseInt16 "-ff" = of_Z (-255)
  /\ parseInt16 "" = NaN /\ parseInt16 " 12z" = of_Z 18
  /\ parseInt16 "0x" = NaN /\ parseInt16 "+0XA" = of_Z 10.
Proof. repeat split; reflexivity. Qed.

Example bit_operations :
  ToInt32 (of_Z (2 ^ 32 + 5)) = 5%Z
  /\ ToInt32 (of_Z (2 ^ 31)) = (- 2 ^ 31)%Z
  /\ ToInt32 (Fin (-1.5)) = (-1)%Z /\ ToInt32 NaN = 0%Z
  /\ shr (of_Z (-1)) 16 = of_Z (-1)
  /\ band (shr (of_Z (-1)) 16) 255 = of_Z 255
  /\ shr 256 36 = of_Z 16.
Proof. repeat split; reflexivity. Qed.

Example ToString_of_numbers :
  ToString toString_mark (of_Z (-17)) = "-17"%string
  /\ ToString toString_mark (Fin 0.5) = "?"%string
  /\ ToString toString_mark (of_Z (10 ^ 21)) = "?"%string
  /\ ToString toString_mark (of_Z (10 ^ 21 - 1))
     = "999999999999999999999"%string
  /\ ToString toString_mark NegInf = "-Infinity"%string.
Proof. repeat split; reflexivity. Qed.

Example hover_js_hsv_of_a_blue :
  HoverJs.rgbToHsv [Fin 0.2; Fin 0.5; Fin 1]
  = [Fin (29 # 48); Fin (4 # 5); Fin 1]
  /\ HoverJs.hsvToRgb [Fin 0.6; Fin 0.8; Fin 1]
     = [Fin (1 # 5); Fin (13 # 25); Fin 1]
  /\ HoverJs.hsvToRgb [Fin 1; Fin 0.8; Fin 1]
     = [Fin 1; Fin (1 # 5); Fin (1 # 5)]
  /\ HoverJs.hsvToRgb [Fin (-0.1); Fin 0.8; Fin 1] = [].
Proof. repeat split; reflexivity. Qed.

(** The first turn of [computeHoverColor] on a saturated blue, with the
    hosts of the instances: only the value, clamped at 1, has a slope. *)
Example computeHoverColor_first_turn :
  HoverJs.computeHoverColor_step pow_half exp_half log1p_half
    [Fin 0.6; Fin 0.8; Fin 1] (Fin 0.5) ([Fin 0; Fin 0; Fin 0], Fin 0.14) 0
  = ([Fin 0; Fin 0; Fin 0.000049], Fin 0.1379).
Proof. vm_compute. reflexivity. Qed.

Example wrap01_of_small_numbers :
  HoverJs.wrap01 (Fin (-0.25)) = Fin (3 # 4)
  /\ HoverJs.wrap01 (Fin 2.5) = Fin (1 # 2)
  /\ HoverJs.wrap01 (Fin (-3)) = Fin 0 /\ HoverJs.wrap01 PosInf = NaN.
Proof. repeat split; reflexivity. Qed.

Example hexToRgb01_of_a_blue :
  HoverJs.hexToRgb01 "#228be6" = rgb01 [of_Z 34; of_Z 139; of_Z 230]
  /\ HoverJs.hexToRgb01 "#fff" = [Fin 1; Fin 1; Fin 1]
  /\ HoverJs.hexToRgb01 "zz" = [Fin 0; Fin 0; Fin 0].
Proof. repeat split; reflexivity. Qed.

Example css_of_a_blue :
  rgbToCss toString_mark [of_Z 34; of_Z 139; of_Z 230] = "rgb(34, 139, 230)"%string
  /\ rgbToCss toString_mark [NaN; Fin 0.5] = "rgb(NaN, ?, undefined)"%string
  /\ HoverJs.cssRgb01 toString_mark [Fin 0.2; Fin 0.5; Fin 1]
     = "rgb(51 128 255)"%string.
Proof. repeat split; reflexivity. Qed.

(** ** hover.js: the colour utilities *)

(** The two ways of clamping agree on every number. *)
Lemma HoverJs_clamp01_eq (x : num) : HoverJs.clamp01 x = clamp01 x.
Proof.
  unfold HoverJs.clamp01, clamp01.
  destruct x as [| |x|]; try reflexivity.
  repeat (rewrite ?Math_max_Fin, ?Math_min_Fin;
          match goal with
          | |- context [Qle_bool ?a ?b] => destruct (Qle_bool_spec a b)
          end);
    try reflexivity; exfalso; lra.
Qed.

Lemma Qtrunc_floor (x : Q) : (0 <= x)%Q -> Qtrunc x = Qfloor x.
Proof.
  intro H. unfold Qtrunc, Qneg.
  now destruct (Qle_bool_spec 0 x); [|exfalso; lra].
Qed.

(** The remainder by 1. *)
Lemma rem_1_fin (x : Q) : Fin x %% 1 = fin (x - inject_Z (Qtrunc x)).
Proof.
  cbn [rem]. change (Qzero 1) with false. cbv iota.
  assert (E : (x / 1 == x)%Q) by field.
  assert (T : Qtrunc (x / 1) = Qtrunc x).
  { unfold Qtrunc, Qneg, Qceiling. rewrite !E.
    destruct (Qle_bool_spec 0 (x / 1)), (Qle_bool_spec 0 x);
      try (exfalso; lra); reflexivity. }
  rewrite T. apply fin_eq. ring.
Qed.

Lemma inject_Z_minus (a b : Z) :
  (inject_Z (a - b) == inject_Z a - inject_Z b)%Q.
Proof.
  unfold Z.sub. rewrite inject_Z_plus, inject_Z_opp. reflexivity.
Qed.

Lemma Qtrunc_bounds (x : Q) :
  ((0 <= x -> inject_Z (Qtrunc x) <= x < inject_Z (Qtrunc x) + 1)
   /\ (x < 0 -> inject_Z (Qtrunc x) - 1 < x <= inject_Z (Qtrunc x)))%Q.
Proof.
  unfold Qtrunc, Qneg. split; intro H.
  - destruct (Qle_bool_spec 0 x); [|exfalso; lra]. cbn [negb].
    assert (A := Qfloor_le x). assert (B := Qlt_floor x).
    rewrite inject_Z_plus in B. change (inject_Z 1) with 1%Q in B. lra.
  - destruct (Qle_bool_spec 0 x); [exfalso; lra|]. cbn [negb].
    assert (A := Qle_ceiling x). assert (B := Qceiling_lt x).
    rewrite inject_Z_minus in B. change (inject_Z 1) with 1%Q in B. lra.
Qed.

(** [wrap01] is the fractional part: what is left above the floor. *)
Lemma wrap01_fin (x : Q) :
  HoverJs.wrap01 (Fin x) = fin (x - inject_Z (Qfloor x)).
Proof.
  unfold HoverJs.wrap01. rewrite rem_1_fin. unfold fin at 1.
  cbn [add]. unfold fin at 1. rewrite rem_1_fin. apply fin_eq.
  set (y := Qred (x - inject_Z (Qtrunc x))).
  assert (Ey : (y == x - inject_Z (Qtrunc x))%Q) by apply Qred_correct.
  set (w := Qred (y + 1)).
  assert (Ew : (w == y + 1)%Q) by apply Qred_correct.
  assert (Fl := Qfloor_le x). assert (Fu := Qlt_floor x).
  rewrite inject_Z_plus in Fu. change (inject_Z 1) with 1%Q in Fu.
  destruct (Qtrunc_bounds x) as [P N].
  assert (Y : (y == x - inject_Z (Qfloor x) /\ 0 <= y
               \/ y + 1 == x - inject_Z (Qfloor x) /\ y < 0)%Q).
  { destruct (Qlt_le_dec x 0) as [L|L].
    - specialize (N L).
      destruct (Qeq_dec x (inject_Z (Qtrunc x))) as [I|I].
      + left. rewrite Ey.
        assert (H : Qfloor x = Qtrunc x) by (apply Qfloor_unique; lra).
        rewrite H. lra.
      + right. rewrite Ey.
        assert (H : Qfloor x = (Qtrunc x - 1)%Z).
        { apply Qfloor_unique. rewrite inject_Z_minus.
          change (inject_Z 1) with 1%Q. lra. }
        rewrite H, inject_Z_minus. change (inject_Z 1) with 1%Q. lra.
    - left. specialize (P L). rewrite Ey, <- Qtrunc_floor by exact L. lra. }
  assert (T : (0 <= w)%Q) by (destruct Y; lra).
  rewrite Qtrunc_floor by exact T.
  destruct Y as [[Y Sg]|[Y Sg]].
  - assert (Fz : Qfloor w = 1%Z).
    { apply Qfloor_unique. change (inject_Z 1) with 1%Q. lra. }
    rewrite Fz. change (inject_Z 1) with 1%Q. lra.
  - assert (Fz : Qfloor w = 0%Z).
    { apply Qfloor_unique. change (inject_Z 0) with 0%Q. lra. }
    rewrite Fz. change (inject_Z 0) with 0%Q. lra.
Qed.

Lemma wrap01_val (x : Q) :
  exists q, HoverJs.wrap01 (Fin x) = Fin q
            /\ (q == x - inject_Z (Qfloor x))%Q /\ (0 <= q < 1)%Q.
Proof.
  rewrite wrap01_fin. eexists. split; [reflexivity|].
  rewrite Qred_correct. split; [reflexivity|].
  assert (Fl := Qfloor_le x). assert (Fu := Qlt_floor x).
  rewrite inject_Z_plus in Fu. change (inject_Z 1) with 1%Q in Fu. lra.
Qed.

(** The table of [hsvToRgb] read at [k] is the chain of cases of the
    extended pipeline. *)
Lemma at_index_cases (k : num) (l0 l1 l2 l3 l4 l5 : list num) :
  at_index [l0; l1; l2; l3; l4; l5] k []
  = if k === 0 then l0 else if k === 1 then l1 else if k === 2 then l2
    else if k === 3 then l3 else if k === 4 then l4
    else if k === 5 then l5 else [].
Proof.
  unfold at_index, as_integer.
  destruct k as [| |q|]; try reflexivity.
  cbn [strict_eq].
  destruct (Qeq_bool_spec q (inject_Z (Qfloor q))) as [I|I].
  - generalize dependent (Qfloor q). intros z I.
    assert (K : forall c : Z, Qeq_bool q (inject_Z c) = (z =? c)%Z).
    { intro c. destruct (Qeq_bool_spec q (inject_Z c)) as [E|E];
        destruct (Z.eqb_spec z c) as [E'|E']; try reflexivity; exfalso.
      - apply E'. apply inject_Z_injective. rewrite <- I. exact E.
      - apply E. rewrite I, E'. reflexivity. }
    change 0%Q with (inject_Z 0). change 1%Q with (inject_Z 1).
    change 2%Q with (inject_Z 2). change 3%Q with (inject_Z 3).
    change 4%Q with (inject_Z 4). change 5%Q with (inject_Z 5).
    rewrite !K.
    destruct (Z.leb_spec 0 z) as [P|N].
    + destruct (Z.eqb_spec z 0) as [->|N0]; [reflexivity|].
      destruct (Z.eqb_spec z 1) as [->|N1]; [reflexivity|].
      destruct (Z.eqb_spec z 2) as [->|N2]; [reflexivity|].
      destruct (Z.eqb_spec z 3) as [->|N3]; [reflexivity|].
      destruct (Z.eqb_spec z 4) as [->|N4]; [reflexivity|].
      destruct (Z.eqb_spec z 5) as [->|N5]; [reflexivity|].
      apply nth_overflow. cbn [List.length]. lia.
    + destruct (Z.eqb_spec z 0); [lia|]. destruct (Z.eqb_spec z 1); [lia|].
      destruct (Z.eqb_spec z 2); [lia|]. destruct (Z.eqb_spec z 3); [lia|].
      destruct (Z.eqb_spec z 4); [lia|]. destruct (Z.eqb_spec z 5); [lia|].
      reflexivity.
  - assert (K : forall c : Z, Qeq_bool q (inject_Z c) = false).
    { intro c. destruct (Qeq_bool_spec q (inject_Z c)) as [E|E];
        [|reflexivity].
      exfalso. apply I. rewrite E. now rewrite Qfloor_Z. }
    change 0%Q with (inject_Z 0). change 1%Q with (inject_Z 1).
    change 2%Q with (inject_Z 2). change 3%Q with (inject_Z 3).
    change 4%Q with (inject_Z 4). change 5%Q with (inject_Z 5).
    now rewrite !K.
Qed.

Lemma HoverJs_hsvToRgb_eq (hsv : list num) : HoverJs.hsvToRgb hsv = hsvToRgb hsv.
Proof.
  unfold HoverJs.hsvToRgb, hsvToRgb. cbv zeta. apply at_index_cases.
Qed.

(** The end of the hue computation in the two files: [wrap01] of a sixth
    of what is within -1..5 is the sixth, plus one when negative. *)
Lemma hue_wrap_agree (y : Q) :
  (-1 <= y <= 5)%Q ->
  HoverJs.wrap01 (Fin y / 6)
  = if Fin y / 6 <? 0 then Fin y / 6 + 1 else Fin y / 6.
Proof.
  intro H. cbn [div]. change (Qzero 6) with false. cbv iota.
  unfold fin at 1 2 3 4. cbn [lt]. rewrite wrap01_fin.
  set (z := Qred (y / 6)).
  assert (Ez : (z == y / 6)%Q) by apply Qred_correct.
  assert (B : (-1 / 6 <= y / 6 <= 5 / 6)%Q).
  { split; apply Qmult_le_compat_r; try lra; discriminate. }
  assert (B1 : (-1 / 6 == - (1 # 6))%Q) by reflexivity.
  assert (B2 : (5 / 6 == 5 # 6)%Q) by reflexivity.
  destruct (Qle_bool_spec 0 z) as [P|N]; cbn [negb].
  - assert (F : Qfloor z = 0%Z).
    { apply Qfloor_unique. change (inject_Z 0) with 0%Q. lra. }
    rewrite F. unfold fin, z. f_equal. apply Qred_complete.
    rewrite Qred_correct. change (inject_Z 0) with 0%Q. ring.
  - assert (F : Qfloor z = (-1)%Z).
    { apply Qfloor_unique. change (inject_Z (-1)) with (-1)%Q. lra. }
    rewrite F. cbn [add]. apply fin_eq.
    change (inject_Z (-1)) with (-1)%Q. ring.
Qed.

(** On a colour of finite channels the two [rgbToHsv] return the same
    triple. *)
Lemma HoverJs_rgbToHsv_eq (rgb : list num) :
  finite_upto 3 rgb -> HoverJs.rgbToHsv rgb = rgbToHsv rgb.
Proof.
  intro F. rewrite rgbToHsv_eq. unfold HoverJs.rgbToHsv. cbv zeta.
  destruct (is_fin_ex _ (F 0%nat ltac:(lia))) as (r & ->).
  destruct (is_fin_ex _ (F 1%nat ltac:(lia))) as (g & ->).
  destruct (is_fin_ex _ (F 2%nat ltac:(lia))) as (b & ->).
  destruct (max3_val r g b) as (m & -> & (Mr & Mg & Mb) & Im).
  destruct (min3_val r g b) as (n & -> & (Nr & Ng & Nb) & In).
  f_equal.
  cbn [sub]. unfold fin. unfold sne. cbn [strict_eq ToBoolean].
  change (Qzero (Qred (m - n))) with (Qeq_bool (Qred (m - n)) 0).
  destruct (Qeq_bool_spec (Qred (m - n)) 0) as [Z|NZ]; cbn [negb];
    [reflexivity|].
  assert (D : (0 < Qred (m - n))%Q).
  { rewrite Qred_correct in *.
    destruct (Qlt_le_dec 0 (m - n)); [assumption|].
    exfalso. apply NZ. lra. }
  assert (Q1 := quotient_bound (Qred (g - b)) (Qred (m - n)) D).
  assert (Q2 := quotient_bound (Qred (b - r)) (Qred (m - n)) D).
  assert (Q3 := quotient_bound (Qred (r - g)) (Qred (m - n)) D).
  rewrite !Qred_correct in Q1, Q2, Q3.
  specialize (Q1 ltac:(lra)). specialize (Q2 ltac:(lra)).
  specialize (Q3 ltac:(lra)).
  cbn [div]. rewrite !(Qzero_false _ NZ). unfold fin.
  set (q1 := Qred (Qred (g - b) / Qred (m - n))).
  set (q2 := Qred (Qred (b - r) / Qred (m - n))).
  set (q3 := Qred (Qred (r - g) / Qred (m - n))).
  assert (E1 : (-1 <= q1 <= 1)%Q)
    by (unfold q1; rewrite !Qred_correct; exact Q1).
  assert (E2 : (-1 <= q2 <= 1)%Q)
    by (unfold q2; rewrite !Qred_correct; exact Q2).
  assert (E3 : (-1 <= q3 <= 1)%Q)
    by (unfold q3; rewrite !Qred_correct; exact Q3).
  destruct (Qeq_bool_spec m r) as [Er|Er].
  - destruct (rem_6_small q1 E1) as (y & -> & Ey).
    apply hue_wrap_agree. lra.
  - destruct (Qeq_bool_spec m g) as [Eg|Eg].
    + cbn [add]. unfold fin. apply hue_wrap_agree.
      rewrite Qred_correct. lra.
    + destruct (Qeq_bool_spec m b) as [Eb|Eb].
      * cbn [add]. unfold fin. apply hue_wrap_agree.
        rewrite Qred_correct. lra.
      * exfalso. destruct Im as [I|[I|I]]; contradiction.
Qed.
(** ** hover.js: colours in hexadecimal *)

Lemma hexdigit_plain (c : ascii) (d : Z) :
  JSString.hexdigit c = Some d ->
  JSString.is_ws c = false /\ c <> "-"%char /\ c <> "+"%char
  /\ c <> "x"%char /\ c <> "X"%char /\ c <> "#"%char /\ (0 <= d <= 15)%Z.
Proof.
  destruct c as [[] [] [] [] [] [] [] []]; cbn; intro H;
    try discriminate H; injection H as <-;
    repeat split; try discriminate; lia.
Qed.

Lemma no_sign (c : ascii) (r : string) :
  c <> "-"%char -> c <> "+"%char ->
  match String c r with
  | String "-" r' => (true, r')
  | String "+" r' => (false, r')
  | _ => (false, String c r)
  end = (false, String c r).
Proof.
  intros M P.
  destruct c as [[] [] [] [] [] [] [] []]; try reflexivity; congruence.
Qed.

Lemma no_prefix (c1 c2 : ascii) (r : string) :
  c2 <> "x"%char -> c2 <> "X"%char ->
  match String c1 (String c2 r) with
  | String "0" (String ("x" | "X") r') => r'
  | _ => String c1 (String c2 r)
  end = String c1 (String c2 r).
Proof.
  intros L U.
  destruct c1 as [[] [] [] [] [] [] [] []]; try reflexivity;
    destruct c2 as [[] [] [] [] [] [] [] []]; try reflexivity; congruence.
Qed.

(** [parseInt] at radix 16 on six digits. *)
Lemma parseInt16_six (c1 c2 c3 c4 c5 c6 : ascii) (d1 d2 d3 d4 d5 d6 : Z) :
  JSString.hexdigit c1 = Some d1 -> JSString.hexdigit c2 = Some d2 ->
  JSString.hexdigit c3 = Some d3 -> JSString.hexdigit c4 = Some d4 ->
  JSString.hexdigit c5 = Some d5 -> JSString.hexdigit c6 = Some d6 ->
  parseInt16
    (String c1 (String c2 (String c3 (String c4 (String c5 (String c6 ""))))))
  = of_Z (((((d1 * 16 + d2) * 16 + d3) * 16 + d4) * 16 + d5) * 16 + d6).
Proof.
  intros H1 H2 H3 H4 H5 H6.
  destruct (hexdigit_plain c1 d1 H1) as (W & M & P & _).
  destruct (hexdigit_plain c2 d2 H2) as (_ & _ & _ & L & U & _).
  unfold parseInt16. cbn [JSString.trimStart]. rewrite W.
  rewrite (no_sign c1 _ M P), (no_prefix c1 c2 _ L U).
  cbn [JSString.digits]. rewrite H1, H2, H3, H4, H5, H6.
  reflexivity.
Qed.

Lemma ToInt32_small (v : Z) :
  (0 <= v < 2 ^ 31)%Z -> ToInt32 (of_Z v) = v.
Proof.
  intro H. unfold ToInt32, of_Z.
  rewrite Qtrunc_floor by (change 0%Q with (inject_Z 0); rewrite <- Zle_Qle; lia).
  rewrite Qfloor_Z, Z.mod_small by lia.
  destruct (Z.leb_spec (2 ^ 31) v); [lia | reflexivity].
Qed.

(** The byte of [v] that starts at the bit [k]. *)
Lemma byte_at (v k : Z) :
  (0 <= v < 2 ^ 31)%Z -> (0 <= k < 32)%Z ->
  band (shr (of_Z v) (of_Z k)) 255 = of_Z ((v / 2 ^ k) mod 256).
Proof.
  intros Hv Hk. unfold band, shr.
  rewrite (ToInt32_small v Hv), (ToInt32_small k) by lia.
  assert (K : Z.land k 31 = k).
  { change 31%Z with (Z.ones 5). rewrite Z.land_ones by lia.
    apply Z.mod_small. change (2 ^ 5)%Z with 32%Z. lia. }
  rewrite K, Z.shiftr_div_pow2 by lia.
  assert (B : (0 <= v / 2 ^ k < 2 ^ 31)%Z).
  { split; [apply Z.div_pos; lia|].
    apply Z.div_lt_upper_bound; [lia|]. nia. }
  rewrite (ToInt32_small _ B).
  change (ToInt32 255) with (Z.ones 8). rewrite Z.land_ones by lia.
  reflexivity.
Qed.

Lemma byte_low (v : Z) :
  (0 <= v < 2 ^ 31)%Z -> band (of_Z v) 255 = of_Z (v mod 256).
Proof.
  intro Hv. unfold band. rewrite (ToInt32_small v Hv).
  change (ToInt32 255) with (Z.ones 8). rewrite Z.land_ones by lia.
  reflexivity.
Qed.

Lemma hex_bytes (d1 d2 d3 d4 d5 d6 : Z) :
  (0 <= d1 <= 15)%Z -> (0 <= d2 <= 15)%Z -> (0 <= d3 <= 15)%Z ->
  (0 <= d4 <= 15)%Z -> (0 <= d5 <= 15)%Z -> (0 <= d6 <= 15)%Z ->
  let v := (((((d1 * 16 + d2) * 16 + d3) * 16 + d4) * 16 + d5) * 16 + d6)%Z in
  (0 <= v < 2 ^ 31)%Z
  /\ ((v / 2 ^ 16) mod 256 = 16 * d1 + d2)%Z
  /\ ((v / 2 ^ 8) mod 256 = 16 * d3 + d4)%Z
  /\ (v mod 256 = 16 * d5 + d6)%Z.
Proof.
  intros. subst v. change (2 ^ 16)%Z with 65536%Z.
  change (2 ^ 8)%Z with 256%Z. change (2 ^ 31)%Z with 2147483648%Z.
  repeat split; try lia; Z.div_mod_to_equations; lia.
Qed.

Lemma hexToRgb01_six (c1 c2 c3 c4 c5 c6 : ascii) (d1 d2 d3 d4 d5 d6 : Z) :
  JSString.hexdigit c1 = Some d1 -> JSString.hexdigit c2 = Some d2 ->
  JSString.hexdigit c3 = Some d3 -> JSString.hexdigit c4 = Some d4 ->
  JSString.hexdigit c5 = Some d5 -> JSString.hexdigit c6 = Some d6 ->
  HoverJs.hexToRgb01
    (String "#"
       (String c1 (String c2 (String c3 (String c4 (String c5 (String c6 "")))))))
  = rgb01 [of_Z (16 * d1 + d2); of_Z (16 * d3 + d4); of_Z (16 * d5 + d6)].
Proof.
  intros H1 H2 H3 H4 H5 H6.
  unfold HoverJs.hexToRgb01. cbn [remove_first Ascii.eqb Bool.eqb].
  cbn [String.length Nat.eqb]. cbv zeta.
  rewrite (parseInt16_six _ _ _ _ _ _ _ _ _ _ _ _ H1 H2 H3 H4 H5 H6).
  destruct (hexdigit_plain c1 d1 H1) as (_ & _ & _ & _ & _ & _ & B1).
  destruct (hexdigit_plain c2 d2 H2) as (_ & _ & _ & _ & _ & _ & B2).
  destruct (hexdigit_plain c3 d3 H3) as (_ & _ & _ & _ & _ & _ & B3).
  destruct (hexdigit_plain c4 d4 H4) as (_ & _ & _ & _ & _ & _ & B4).
  destruct (hexdigit_plain c5 d5 H5) as (_ & _ & _ & _ & _ & _ & B5).
  destruct (hexdigit_plain c6 d6 H6) as (_ & _ & _ & _ & _ & _ & B6).
  destruct (hex_bytes d1 d2 d3 d4 d5 d6 B1 B2 B3 B4 B5 B6) as (V & E1 & E2 & E3).
  change (Fin 16) with (of_Z 16). change (Fin 8) with (of_Z 8).
  rewrite !byte_at, byte_low by (assumption || lia).
  rewrite E1, E2, E3. reflexivity.
Qed.

(** The short form: each digit stands for the byte of the digit twice. *)
Lemma hexToRgb01_three (c1 c2 c3 : ascii) (d1 d2 d3 : Z) :
  JSString.hexdigit c1 = Some d1 -> JSString.hexdigit c2 = Some d2 ->
  JSString.hexdigit c3 = Some d3 ->
  HoverJs.hexToRgb01 (String "#" (String c1 (String c2 (String c3 ""))))
  = rgb01 [of_Z (17 * d1); of_Z (17 * d2); of_Z (17 * d3)].
Proof.
  intros H1 H2 H3.
  transitivity
    (HoverJs.hexToRgb01
       (String "#"
          (String c1 (String c1 (String c2 (String c2
             (String c3 (String c3 "")))))))).
  - unfold HoverJs.hexToRgb01. cbn [remove_first Ascii.eqb Bool.eqb].
    reflexivity.
  - rewrite (hexToRgb01_six c1 c1 c2 c2 c3 c3 d1 d1 d2 d2 d3 d3)
      by assumption.
    now replace (16 * d1 + d1)%Z with (17 * d1)%Z by lia;
      replace (16 * d2 + d2)%Z with (17 * d2)%Z by lia;
      replace (16 * d3 + d3)%Z with (17 * d3)%Z by lia.
Qed.
(** ** hover.js: the optimizer *)

Section HoverOptimizer.

Variable pow_approx : num -> num -> num.
Variable Math_exp : num -> num.
Variable Math_log1p : num -> num.

(** The gradient of [computeHoverColor] is the central difference of its
    loss, axis by axis. *)
Lemma grad_central (hsv0 : list num) (Ybg : num) (d : list num) (eps : num) :
  HoverJs.grad pow_approx Math_exp Math_log1p hsv0 Ybg d eps
  = map (central_difference
           (fun d => HoverJs.loss pow_approx Math_exp Math_log1p hsv0 Ybg
                       (idx d 0) (idx d 1) (idx d 2))
           d eps)
        (List.seq 0 3).
Proof. reflexivity. Qed.

Lemma computeHoverColor_loop_S (hsv0 : list num) (Ybg : num) (k : nat)
    (st : list num * num) :
  HoverJs.computeHoverColor_loop pow_approx Math_exp Math_log1p hsv0 Ybg (S k) st
  = HoverJs.computeHoverColor_step pow_approx Math_exp Math_log1p hsv0 Ybg
      (HoverJs.computeHoverColor_loop pow_approx Math_exp Math_log1p hsv0 Ybg
         k st) k.
Proof.
  unfold HoverJs.computeHoverColor_loop.
  now rewrite seq_S, fold_left_app.
Qed.

(** The learning rate decays by the factor 0.985 at every turn. *)
Lemma computeHoverColor_loop_lr (hsv0 : list num) (Ybg : num) (k : nat)
    (d : list num) (lr : num) :
  snd (HoverJs.computeHoverColor_loop pow_approx Math_exp Math_log1p hsv0 Ybg
         k (d, lr))
  = fold_left (fun lr _ => lr * 0.985) (List.seq 0 k) lr.
Proof.
  induction k as [|k IH]; [reflexivity|].
  rewrite computeHoverColor_loop_S, seq_S, fold_left_app, <- IH.
  destruct (HoverJs.computeHoverColor_loop _ _ _ _ _ _ _) as [d' lr'].
  reflexivity.
Qed.

Hypothesis pow_ok : pow_host pow_approx.
Hypothesis softplus_ok : softplus_host Math_exp Math_log1p.

Lemma luminance_within (c : list num) :
  unit_cube c -> within 0 1 (HoverJs.luminance pow_approx c) = true.
Proof. exact (relLuminance_within pow_approx pow_ok c). Qed.

(** The colour that the loss and the result read: the HSV triple moved by
    the offsets, the hue wrapped and the other two clamped. *)
Lemma moved_colour (h0 s0 v0 : Q) (dh ds dv : num) :
  is_fin dh = true -> is_fin ds = true -> is_fin dv = true ->
  exists h s v,
    HoverJs.wrap01 (Fin h0 + dh) = Fin h
    /\ HoverJs.clamp01 (Fin s0 + ds) = Fin s
    /\ HoverJs.clamp01 (Fin v0 + dv) = Fin v
    /\ (0 <= h < 1)%Q /\ (0 <= s <= 1)%Q /\ (0 <= v <= 1)%Q
    /\ unit_cube (HoverJs.hsvToRgb [Fin h; Fin s; Fin v]).
Proof.
  intros Hh Hs Hv.
  destruct (is_fin_ex _ Hh) as (a & ->). destruct (is_fin_ex _ Hs) as (b & ->).
  destruct (is_fin_ex _ Hv) as (c & ->).
  cbn [add]. unfold fin. rewrite !HoverJs_clamp01_eq.
  destruct (wrap01_val (Qred (h0 + a))) as (h & -> & _ & Bh).
  destruct (clamp01_Fin (Qred (s0 + b))) as (s & -> & Bs).
  destruct (clamp01_Fin (Qred (v0 + c))) as (v & -> & Bv).
  exists h, s, v. repeat (split; [reflexivity || assumption|]).
  rewrite HoverJs_hsvToRgb_eq. intros i Hi.
  now apply hsvToRgb_range.
Qed.

Lemma is_fin_loss (h0 s0 v0 : Q) (Ybg dh ds dv : num) :
  is_fin Ybg = true ->
  is_fin dh = true -> is_fin ds = true -> is_fin dv = true ->
  is_fin (HoverJs.loss pow_approx Math_exp Math_log1p
            [Fin h0; Fin s0; Fin v0] Ybg dh ds dv) = true.
Proof.
  intros HY Hh Hs Hv. unfold HoverJs.loss. cbv zeta. cbn [idx nth].
  destruct (moved_colour h0 s0 v0 dh ds dv Hh Hs Hv)
    as (h & s & v & -> & -> & -> & Bh & Bs & Bv & C).
  assert (L := luminance_within _ C).
  apply within_Fin in L. destruct L as (y & -> & By).
  destruct (is_fin_ex _ HY) as (yb & ->).
  apply is_fin_add.
  - unfold HoverJs.softplus. cbn [sub Math_abs]. unfold fin.
    cbn [Math_abs sub]. unfold fin. apply softplus_ok.
    rewrite Qred_correct.
    assert (A := Qabs_nonneg (Qred (y - yb))).
    assert (E := Qred_correct (Qabs (Qred (y - yb)))). lra.
  - apply is_fin_mul; [reflexivity|].
    repeat first [ apply is_fin_add | apply is_fin_mul | apply is_fin_pow_2
                 | apply is_fin_sub | apply is_fin_min | apply is_fin_abs
                 | reflexivity ].
Qed.

Lemma is_fin_central (h0 s0 v0 : Q) (Ybg : num) (d : list num) (k : nat) :
  is_fin Ybg = true -> finite_upto 3 d ->
  is_fin (central_difference
            (fun d => HoverJs.loss pow_approx Math_exp Math_log1p
                        [Fin h0; Fin s0; Fin v0] Ybg
                        (idx d 0) (idx d 1) (idx d 2))
            d 1e-3 k) = true.
Proof.
  intros HY Hd. unfold central_difference.
  change (2 * Fin 1e-3) with (Fin (1 # 500)).
  apply is_fin_div; [|reflexivity].
  assert (P : finite_upto 3 (arr_set d k (idx d k + 1e-3)))
    by now apply finite_upto_perturb.
  assert (M : finite_upto 3 (arr_set d k (idx d k - 1e-3))).
  { intros j Hj. rewrite idx_arr_set.
    destruct (k =? j)%nat eqn:E; [|now apply Hd].
    apply Nat.eqb_eq in E. subst j. apply is_fin_sub; [now apply Hd|reflexivity]. }
  apply is_fin_sub; apply is_fin_loss; try assumption;
    first [apply P | apply M]; lia.
Qed.

Lemma computeHoverColor_step_3 (hsv0 : list num) (Ybg a b c lr : num) (i : nat) :
  let gr k :=
    central_difference
      (fun d => HoverJs.loss pow_approx Math_exp Math_log1p hsv0 Ybg
                  (idx d 0) (idx d 1) (idx d 2))
      [a; b; c] 1e-3 k in
  HoverJs.computeHoverColor_step pow_approx Math_exp Math_log1p hsv0 Ybg
    ([a; b; c], lr) i
  = ([a - lr * gr 0%nat; b - lr * gr 1%nat; c - lr * gr 2%nat], lr * 0.985).
Proof. reflexivity. Qed.

Lemma computeHoverColor_step_ok (h0 s0 v0 : Q) (Ybg : num)
    (st : list num * num) (i : nat) :
  is_fin Ybg = true -> hover_state_ok st ->
  hover_state_ok
    (HoverJs.computeHoverColor_step pow_approx Math_exp Math_log1p
       [Fin h0; Fin s0; Fin v0] Ybg st i).
Proof.
  intros HY (L & F & R). destruct st as [d lr]. cbn [fst snd] in *.
  destruct d as [|a [|b [|c [|e d]]]]; try discriminate.
  rewrite computeHoverColor_step_3. cbv zeta.
  assert (Fa := F 0%nat ltac:(lia)). assert (Fb := F 1%nat ltac:(lia)).
  assert (Fc := F 2%nat ltac:(lia)). cbn [idx nth] in Fa, Fb, Fc.
  assert (U : forall x k, is_fin x = true ->
            is_fin (x - lr
                    * central_difference
                        (fun d => HoverJs.loss pow_approx Math_exp Math_log1p
                                    [Fin h0; Fin s0; Fin v0] Ybg
                                    (idx d 0) (idx d 1) (idx d 2))
                        [a; b; c] 1e-3 k) = true).
  { intros x k Hx. apply is_fin_sub; [exact Hx|].
    apply is_fin_mul; [exact R|]. now apply is_fin_central. }
  split; [reflexivity|]. split.
  - intros [|[|[|j]]] Hj; try lia; cbn [fst idx nth]; now apply U.
  - cbn [snd]. now apply is_fin_mul.
Qed.

Lemma computeHoverColor_loop_ok (h0 s0 v0 : Q) (Ybg : num) (k : nat)
    (st : list num * num) :
  is_fin Ybg = true -> hover_state_ok st ->
  hover_state_ok
    (HoverJs.computeHoverColor_loop pow_approx Math_exp Math_log1p
       [Fin h0; Fin s0; Fin v0] Ybg k st).
Proof.
  intros HY Hst. induction k as [|k IH]; [exact Hst|].
  rewrite computeHoverColor_loop_S. now apply computeHoverColor_step_ok.
Qed.

(** The hover colour of two colours of the unit cube is a colour of the
    unit cube. *)
Lemma computeHoverColor_unit_cube (rgb0 rgbBg : list num) :
  unit_cube rgb0 -> unit_cube rgbBg ->
  List.length
    (HoverJs.computeHoverColor pow_approx Math_exp Math_log1p rgb0 rgbBg)
  = 3%nat
  /\ unit_cube
       (HoverJs.computeHoverColor pow_approx Math_exp Math_log1p rgb0 rgbBg).
Proof.
  intros H0 Hb. unfold HoverJs.computeHoverColor. cbv zeta.
  rewrite (HoverJs_rgbToHsv_eq rgb0 (unit_cube_finite rgb0 H0)).
  destruct (rgbToHsv_range rgb0 H0) as (h0 & s0 & v0 & -> & _).
  assert (Y := within_is_fin _ _ _ (luminance_within rgbBg Hb)).
  assert (K := computeHoverColor_loop_ok h0 s0 v0
                 (HoverJs.luminance pow_approx rgbBg) 90
                 ([Fin 0; Fin 0; Fin 0], Fin 0.14) Y).
  destruct (HoverJs.computeHoverColor_loop _ _ _ _ _ _ _) as [d lr].
  destruct K as (L & F & _).
  { split; [reflexivity|]. split; [|reflexivity].
    intros [|[|[|j]]] Hj; [reflexivity | reflexivity | reflexivity | lia]. }
  cbn [fst] in L, F. cbn [idx nth].
  change (nth 0 d NaN) with (idx d 0). change (nth 1 d NaN) with (idx d 1).
  change (nth 2 d NaN) with (idx d 2).
  destruct (moved_colour h0 s0 v0 (idx d 0) (idx d 1) (idx d 2))
    as (h & s & v & -> & -> & -> & Bh & Bs & Bv & C); try (apply F; lia).
  split; [|exact C].
  rewrite HoverJs_hsvToRgb_eq. now apply hsvToRgb_defined.
Qed.

End HoverOptimizer.
(** ** The two parsers on plain integers *)

Lemma Qred_inject_Z (z : Z) : Qred (inject_Z z) = inject_Z z.
Proof.
  unfold Qred, inject_Z.
  generalize (Z.ggcd_gcd z 1), (Z.ggcd_correct_divisors z 1).
  destruct (Z.ggcd z 1) as (g & a & b). cbn [fst snd].
  rewrite Z.gcd_1_r. intros -> (E1 & E2).
  rewrite Z.mul_1_l in E1, E2. now subst.
Qed.

Lemma fin_inject_Z (q : Q) (z : Z) : (q == inject_Z z)%Q -> fin q = of_Z z.
Proof.
  intro E. unfold fin, of_Z. rewrite (Qred_complete _ _ E).
  now rewrite Qred_inject_Z.
Qed.

Lemma neg_of_Z (z : Z) : neg (of_Z z) = of_Z (- z).
Proof. unfold of_Z. cbn [neg]. apply fin_inject_Z. reflexivity. Qed.

(** [parseInt] gives NaN or an integer. *)
Lemma parseInt10_integer (s : string) :
  JSString.parseInt10 s = NaN \/ exists z, JSString.parseInt10 s = of_Z z.
Proof.
  unfold JSString.parseInt10. cbv zeta.
  match goal with
  | |- context [let '(_, _) := ?m in _] => destruct m as [negative r]
  end.
  destruct (JSString.digits JSString.digit 10 0 0 r) as [[v n] rest].
  destruct n as [|n]; [now left|]. right.
  destruct negative; [|now exists v].
  exists (- v)%Z. apply neg_of_Z.
Qed.

Lemma within_of_Z (lo hi z : Z) :
  within (inject_Z lo) (inject_Z hi) (of_Z z) = true <-> (lo <= z <= hi)%Z.
Proof.
  unfold within, of_Z. cbn [le]. rewrite andb_true_iff, !Qle_bool_iff.
  now rewrite <- !Zle_Qle.
Qed.

(** What the parser of the form accepts is [rgb01] of three bytes. *)
Lemma parseRgbInput_bytes (value : string) (c : list num) :
  HoverJs.parseRgbInput value = Some c ->
  exists r g b : Z,
    (0 <= r <= 255)%Z /\ (0 <= g <= 255)%Z /\ (0 <= b <= 255)%Z
    /\ c = rgb01 [of_Z r; of_Z g; of_Z b].
Proof.
  rewrite parseRgbInput_eq. cbv zeta.
  set (piece := fun v => JSString.parseInt10 (JSString.trim v)).
  assert (I : forall v, piece v = NaN \/ exists z, piece v = of_Z z)
    by (intro v; apply parseInt10_integer).
  generalize (JSString.split "," value). intros l H.
  destruct l as [|x [|y [|z [|w l]]]]; try discriminate H.
  cbn [map List.length Nat.eqb andb forallb] in H.
  destruct (within 0 255 (piece x)) eqn:Wx; [|discriminate H].
  destruct (within 0 255 (piece y)) eqn:Wy; [|discriminate H].
  destruct (within 0 255 (piece z)) eqn:Wz; [|discriminate H].
  cbn [andb] in H. injection H as <-.
  destruct (I x) as [E|(r & Er)]; [rewrite E in Wx; discriminate|].
  destruct (I y) as [E|(g & Eg)]; [rewrite E in Wy; discriminate|].
  destruct (I z) as [E|(b & Eb)]; [rewrite E in Wz; discriminate|].
  rewrite Er in *. rewrite Eg in *. rewrite Eb in *.
  exists r, g, b.
  change 0%Q with (inject_Z 0) in Wx, Wy, Wz.
  change 255%Q with (inject_Z 255) in Wx, Wy, Wz.
  apply within_of_Z in Wx, Wy, Wz.
  repeat (split; [assumption|]). reflexivity.
Qed.

Lemma digit_plain (c : ascii) (d : Z) :
  JSString.digit c = Some d ->
  JSString.is_ws c = false /\ c <> "-"%char /\ c <> "+"%char
  /\ c <> "I"%char /\ (0 <= d <= 9)%Z.
Proof.
  destruct c as [[] [] [] [] [] [] [] []]; cbn; intro H;
    try discriminate H; injection H as <-;
    repeat split; try discriminate; lia.
Qed.

Lemma all_digits_digits (s : string) (acc : Z) (n : nat) :
  all_digits s = true ->
  JSString.digits JSString.digit 10 acc n s
  = (fst (fst (JSString.digits JSString.digit 10 acc n s)),
     (n + String.length s)%nat, EmptyString).
Proof.
  revert acc n. induction s as [|c r IH]; intros acc n H.
  - cbn. now rewrite Nat.add_0_r.
  - cbn [all_digits] in H. cbn [JSString.digits String.length].
    destruct (JSString.digit c) as [d|]; [|discriminate].
    rewrite (IH _ _ H) at 1. cbn [fst]. f_equal. f_equal. lia.
Qed.

Lemma digits_nonneg (s : string) (acc : Z) (n : nat) :
  (0 <= acc)%Z ->
  (0 <= fst (fst (JSString.digits JSString.digit 10 acc n s)))%Z.
Proof.
  revert acc n. induction s as [|c r IH]; intros acc n H; [exact H|].
  cbn [JSString.digits].
  destruct (JSString.digit c) as [d|] eqn:E; [|exact H].
  apply IH. destruct (digit_plain c d E) as (_ & _ & _ & _ & B). lia.
Qed.

Lemma decimal_value_nonneg (s : string) : (0 <= decimal_value s)%Z.
Proof. apply digits_nonneg. lia. Qed.

Lemma decimal_cons (s : string) :
  decimal s = true ->
  exists c r d, s = String c r /\ JSString.digit c = Some d
                /\ all_digits r = true.
Proof.
  unfold decimal. destruct s as [|c r]; [discriminate|].
  cbn [JSString.Boolean andb all_digits].
  destruct (JSString.digit c) as [d|] eqn:E; [|discriminate].
  intro H. now exists c, r, d.
Qed.

Lemma decimal_digits (s : string) :
  decimal s = true ->
  exists n, JSString.digits JSString.digit 10 0 0 s
            = (decimal_value s, S n, EmptyString).
Proof.
  intro H. destruct (decimal_cons s H) as (c & r & d & -> & _ & _).
  unfold decimal in H. apply andb_prop in H. destruct H as [_ H].
  rewrite (all_digits_digits _ 0 0 H). cbn [String.length Nat.add].
  exists (String.length r). reflexivity.
Qed.

Lemma parseInt10_decimal (s : string) :
  decimal s = true -> JSString.parseInt10 s = of_Z (decimal_value s).
Proof.
  intro H. destruct (decimal_digits s H) as (n & E).
  destruct (decimal_cons s H) as (c & r & d & -> & D & _).
  destruct (digit_plain c d D) as (W & M & P & _).
  unfold JSString.parseInt10. cbv zeta. cbn [JSString.trimStart].
  rewrite W, (no_sign c r M P), E. reflexivity.
Qed.

Lemma trimEnd_digits (s : string) :
  all_digits s = true -> JSString.trimEnd s = s.
Proof.
  induction s as [|c r IH]; [reflexivity|].
  cbn [all_digits JSString.trimEnd].
  destruct (JSString.digit c) as [d|] eqn:D; [|discriminate].
  intro H. rewrite (IH H).
  destruct r; [|reflexivity].
  now rewrite (proj1 (digit_plain c d D)).
Qed.

Lemma trim_decimal (s : string) : decimal s = true -> JSString.trim s = s.
Proof.
  intro H. destruct (decimal_cons s H) as (c & r & d & -> & D & _).
  unfold decimal in H. apply andb_prop in H. destruct H as [_ H].
  unfold JSString.trim. cbn [JSString.trimStart].
  rewrite (proj1 (digit_plain c d D)). now apply trimEnd_digits.
Qed.

(** A literal that starts with two digits, or is one digit, is read as a
    decimal literal. *)
Lemma Number_dispatch (c : ascii) (r : string) (d : Z) :
  JSString.digit c = Some d -> all_digits r = true ->
  JSString.Number (String c r) = JSString.StrUnsignedDecimalLiteral (String c r).
Proof.
  intros D H. unfold JSString.Number.
  rewrite (trim_decimal (String c r)).
  2:{ unfold decimal. cbn [JSString.Boolean andb all_digits]. now rewrite D. }
  destruct r as [|c2 r].
  - destruct c as [[] [] [] [] [] [] [] []]; try discriminate D; reflexivity.
  - cbn [all_digits] in H.
    destruct (JSString.digit c2) as [d2|] eqn:D2; [|discriminate].
    destruct c as [[] [] [] [] [] [] [] []]; try discriminate D;
      try reflexivity;
      destruct c2 as [[] [] [] [] [] [] [] []]; try discriminate D2;
      reflexivity.
Qed.

Lemma Number_decimal (s : string) :
  decimal s = true -> JSString.Number s = of_Z (decimal_value s).
Proof.
  intro H. destruct (decimal_digits s H) as (n & E).
  destruct (decimal_cons s H) as (c & r & d & -> & D & A).
  rewrite (Number_dispatch c r d D A).
  unfold JSString.StrUnsignedDecimalLiteral.
  destruct (digit_plain c d D) as (_ & _ & _ & I & _).
  assert (NI : String.eqb (String c r) "Infinity" = false).
  { cbn [String.eqb]. now rewrite (proj2 (Ascii.eqb_neq c "I") I). }
  rewrite NI, E. cbn [Nat.add Nat.eqb].
  apply fin_inject_Z.
  change (Qpower 10 (- Z.of_nat 0)) with 1%Q.
  rewrite Qmult_1_r. change (10 ^ Z.of_nat 0)%Z with 1%Z.
  now rewrite Z.mul_1_r, Z.add_0_r.
Qed.

(** [clamp255] on an integer that is not negative. *)
Lemma clamp255_of_Z (z : Z) :
  (0 <= z)%Z -> clamp255 (of_Z z) = of_Z (Z.min z 255).
Proof.
  intro H. unfold clamp255, of_Z. rewrite Math_min_Fin.
  assert (A : (inject_Z 0 <= inject_Z z)%Q) by (rewrite <- Zle_Qle; lia).
  change (inject_Z 0) with 0%Q in A.
  destruct (Qle_bool_spec 255 (inject_Z z)) as [L|L].
  - change 255%Q with (inject_Z 255) in L. rewrite <- Zle_Qle in L.
    rewrite Z.min_r by lia. reflexivity.
  - change 255%Q with (inject_Z 255) in L. rewrite <- Zlt_Qlt in L.
    rewrite Z.min_l by lia. rewrite Math_max_Fin.
    destruct (Qle_bool_spec (inject_Z z) 0) as [Z0|Z0].
    + assert (z = 0%Z).
      { change 0%Q with (inject_Z 0) in Z0. rewrite <- Zle_Qle in Z0. lia. }
      subst z. reflexivity.
    + cbn [Math_round]. unfold of_Z. f_equal. f_equal.
      now apply Qfloor_half.
Qed.

Lemma within_byte_of_Z (z : Z) :
  (0 <= z)%Z -> within 0 255 (of_Z z) = (z <=? 255)%Z.
Proof.
  intro H. change 0%Q with (inject_Z 0). change 255%Q with (inject_Z 255).
  destruct (Z.leb_spec z 255) as [L|L].
  - apply within_of_Z. lia.
  - destruct (within (inject_Z 0) (inject_Z 255) (of_Z z)) eqn:E;
      [|reflexivity].
    apply within_of_Z in E. lia.
Qed.

(** The two parsers on three tokens that are plain decimal integers,
    white space around them apart: [parseRGB] accepts and clamps,
    [parseRgbInput] accepts when no integer is above 255, and then
    returns the colour of [parseRGB] scaled by [rgb01]. *)
Lemma parsers_on_decimals (a b c : string) :
  comma_free a = true -> comma_free b = true -> comma_free c = true ->
  decimal (JSString.trim a) = true -> decimal (JSString.trim b) = true ->
  decimal (JSString.trim c) = true ->
  let va := decimal_value (JSString.trim a) in
  let vb := decimal_value (JSString.trim b) in
  let vc := decimal_value (JSString.trim c) in
  parseRGB (String.concat "," [a; b; c])
  = Some [of_Z (Z.min va 255); of_Z (Z.min vb 255); of_Z (Z.min vc 255)]
  /\ HoverJs.parseRgbInput (String.concat "," [a; b; c])
     = if ((va <=? 255) && (vb <=? 255) && (vc <=? 255))%Z
       then Some (rgb01 [of_Z va; of_Z vb; of_Z vc])
       else None.
Proof.
  intros Ca Cb Cc Da Db Dc va vb vc.
  assert (CF : forallb comma_free [a; b; c] = true)
    by (cbn [forallb]; now rewrite Ca, Cb, Cc).
  assert (Na := Number_decimal _ Da). assert (Nb := Number_decimal _ Db).
  assert (Nc := Number_decimal _ Dc). fold va in Na. fold vb in Nb.
  fold vc in Nc.
  assert (Pa := decimal_value_nonneg (JSString.trim a)).
  assert (Pb := decimal_value_nonneg (JSString.trim b)).
  assert (Pc := decimal_value_nonneg (JSString.trim c)).
  fold va in Pa. fold vb in Pb. fold vc in Pc.
  split.
  - rewrite (parseRGB_tokens [a; b; c] (JSString.trim a) (JSString.trim b)
               (JSString.trim c) CF).
    + rewrite Na, Nb, Nc, !clamp255_of_Z by assumption. reflexivity.
    + cbn [map filter].
      destruct (decimal_cons _ Da) as (x & r & d & -> & _).
      destruct (decimal_cons _ Db) as (x' & r' & d' & -> & _).
      destruct (decimal_cons _ Dc) as (x'' & r'' & d'' & -> & _).
      reflexivity.
    + unfold numeric. now rewrite Na.
    + unfold numeric. now rewrite Nb.
    + unfold numeric. now rewrite Nc.
  - rewrite parseRgbInput_eq. cbv zeta.
    rewrite (split_concat [a; b; c]) by (discriminate || exact CF).
    cbn [map List.length Nat.eqb andb forallb].
    rewrite !parseInt10_decimal by assumption.
    fold va vb vc.
    rewrite !within_byte_of_Z by assumption.
    rewrite andb_true_r, andb_assoc. reflexivity.
Qed.

(** ** Colours of CSS *)

Lemma ToString_integer (toString_approx : Q -> string) (z : Z) :
  (Z.abs z < 10 ^ 21)%Z -> ToString toString_approx (of_Z z) = dec z.
Proof.
  intro H. unfold ToString, of_Z, as_integer.
  rewrite Qfloor_Z, Qeq_bool_refl.
  now rewrite (proj2 (Z.ltb_lt _ _) H).
Qed.

Lemma byte_digits (z : Z) :
  (0 <= z <= 255)%Z ->
  comma_free (dec z) = true /\ decimal (dec z) = true
  /\ decimal_value (dec z) = z
  /\ JSString.trim (String " " (dec z)) = dec z.
Proof.
  intro H.
  assert (A : forallb byte_digits_ok (List.seq 0 256) = true)
    by (vm_compute; reflexivity).
  rewrite forallb_forall in A.
  specialize (A (Z.to_nat z)). rewrite in_seq in A.
  specialize (A ltac:(lia)). unfold byte_digits_ok in A.
  rewrite Z2Nat.id in A by lia. cbv zeta in A.
  apply andb_prop in A. destruct A as [A A4].
  apply andb_prop in A. destruct A as [A A3].
  apply andb_prop in A. destruct A as [A1 A2].
  apply Z.eqb_eq in A3. apply String.eqb_eq in A4. tauto.
Qed.

(** The bytes of a colour of the unit cube. *)
Lemma rgb255_unit_cube (c : list num) :
  unit_cube c ->
  exists r g b : Z,
    (0 <= r <= 255)%Z /\ (0 <= g <= 255)%Z /\ (0 <= b <= 255)%Z
    /\ rgb255 (map (fun v => v * 255) c) = [of_Z r; of_Z g; of_Z b]
    /\ Math_round (idx c 0 * 255) = of_Z r
    /\ Math_round (idx c 1 * 255) = of_Z g
    /\ Math_round (idx c 2 * 255) = of_Z b.
Proof.
  intro B.
  assert (K : forall x, within 0 1 x = true ->
            exists z, (0 <= z <= 255)%Z /\ clamp255 (x * 255) = of_Z z
                      /\ Math_round (x * 255) = of_Z z).
  { intros x Hx. apply within_Fin in Hx. destruct Hx as (q & -> & Hq).
    cbn [mul]. unfold fin.
    assert (E := Qred_correct (q * 255)).
    set (y := Qred (q * 255)) in *.
    exists (Qfloor (y + (1 # 2))).
    assert (L : (0 <= Qfloor (y + (1 # 2)) <= 255)%Z).
    { split.
      - change 0%Z with (Qfloor 0). apply Qfloor_resp_le. lra.
      - change 255%Z with (Qfloor (255 + (1 # 2))).
        apply Qfloor_resp_le. lra. }
    split; [exact L|]. split; [|reflexivity].
    unfold clamp255. rewrite Math_min_Fin.
    destruct (Qle_bool_spec 255 y) as [C|C].
    - assert (Fy : Qfloor (y + (1 # 2)) = 255%Z).
      { apply Qfloor_half. change (inject_Z 255) with 255%Q. lra. }
      rewrite Fy. reflexivity.
    - rewrite Math_max_Fin.
      destruct (Qle_bool_spec y 0) as [Z0|Z0]; [|reflexivity].
      assert (Fy : Qfloor (y + (1 # 2)) = 0%Z).
      { apply Qfloor_half. change (inject_Z 0) with 0%Q. lra. }
      rewrite Fy. reflexivity. }
  assert (L : (3 <= List.length c)%nat).
  { destruct (Nat.lt_ge_cases 2 (List.length c)) as [L|L]; [lia|].
    assert (W := B 2%nat ltac:(lia)). unfold idx in W.
    rewrite nth_overflow in W by lia. discriminate. }
  destruct c as [|x [|y [|z c]]]; cbn [List.length] in L; try lia.
  destruct (K x (B 0%nat ltac:(lia))) as (r & Hr & Er & Rr).
  destruct (K y (B 1%nat ltac:(lia))) as (g & Hg & Eg & Rg).
  destruct (K z (B 2%nat ltac:(lia))) as (b & Hb & Eb & Rb).
  exists r, g, b. repeat (split; [assumption|]).
  cbn [map]. unfold rgb255. cbv zeta. cbn [idx nth].
  rewrite Er, Eg, Eb. now repeat split.
Qed.

(** In binary64 too, rounding a byte scaled to the unit range and back
    gives the byte. *)
Lemma binary64_round_scaled_byte_nat (n : nat) :
  (n < 256)%nat ->
  Binary64.Math_round (Binary64.of_Z (Z.of_nat n) / 255 * 255)%float
  = Binary64.of_Z (Z.of_nat n).
Proof.
  intro Hn.
  do 256 (destruct n as [|n]; [vm_compute; reflexivity|]).
  lia.
Qed.

Lemma binary64_round_scaled_byte (z : Z) :
  (0 <= z <= 255)%Z ->
  Binary64.Math_round (Binary64.of_Z z / 255 * 255)%float = Binary64.of_Z z.
Proof.
  intro Hz. rewrite <- (Z2Nat.id z) by lia.
  apply binary64_round_scaled_byte_nat. lia.
Qed.

Lemma append_assoc (a b c : string) :
  ((a ++ b) ++ c = a ++ (b ++ c))%string.
Proof.
  induction a as [|x a IH]; [reflexivity|]. cbn. now rewrite IH.
Qed.

Lemma css_rgb_eq (sep : string) (r g b : Z) :
  css_rgb sep r g b
  = ("rgb(" ++ dec r ++ sep ++ dec g ++ sep ++ dec b ++ ")")%string.
Proof.
  unfold css_rgb. cbn [String.concat]. now rewrite !append_assoc.
Qed.

Section CssColours.

Variable toString_approx : Q -> string.

Local Open Scope string_scope.

Lemma rgbToCss_bytes (r g b : Z) :
  (0 <= r <= 255)%Z -> (0 <= g <= 255)%Z -> (0 <= b <= 255)%Z ->
  rgbToCss toString_approx [of_Z r; of_Z g; of_Z b] = css_rgb ", " r g b.
Proof.
  intros Hr Hg Hb. rewrite css_rgb_eq. unfold rgbToCss. cbv zeta.
  cbn [nth_error substitution].
  now rewrite !ToString_integer by lia.
Qed.

(** The colour of CSS that [setCssVars] writes for a colour of the unit
    cube is made of three bytes. *)
Lemma rgbToCss_unit_cube (c : list num) :
  unit_cube c ->
  exists r g b : Z,
    (0 <= r <= 255)%Z /\ (0 <= g <= 255)%Z /\ (0 <= b <= 255)%Z
    /\ rgbToCss toString_approx (rgb255 (map (fun v => v * 255) c))
       = css_rgb ", " r g b.
Proof.
  intro B.
  destruct (rgb255_unit_cube c B) as (r & g & b & Hr & Hg & Hb & -> & _).
  exists r, g, b. repeat (split; [assumption|]).
  now apply rgbToCss_bytes.
Qed.

Lemma cssRgb01_unit_cube (c : list num) :
  unit_cube c ->
  exists r g b : Z,
    (0 <= r <= 255)%Z /\ (0 <= g <= 255)%Z /\ (0 <= b <= 255)%Z
    /\ HoverJs.cssRgb01 toString_approx c = css_rgb " " r g b
    /\ HoverJs.rgb01ToCss toString_approx c = css_rgb " " r g b.
Proof.
  intro B.
  destruct (rgb255_unit_cube c B)
    as (r & g & b & Hr & Hg & Hb & _ & Er & Eg & Eb).
  exists r, g, b. repeat (split; [assumption|]).
  rewrite css_rgb_eq.
  unfold HoverJs.cssRgb01, HoverJs.rgb01ToCss. cbv zeta.
  rewrite Er, Eg, Eb.
  now rewrite !ToString_integer by lia.
Qed.

Lemma round_scaled_byte (z : Z) :
  (0 <= z <= 255)%Z -> Math_round (of_Z z / 255 * 255) = of_Z z.
Proof.
  intro H. unfold of_Z. cbn [div]. change (Qzero 255) with false. cbv iota.
  unfold fin. cbn [mul]. unfold fin. cbn [Math_round]. unfold of_Z.
  f_equal. f_equal. apply Qfloor_half. rewrite !Qred_correct. field.
Qed.

(** The colour of CSS of three bytes scaled to the unit cube shows the
    bytes. *)
Lemma cssRgb01_rgb01 (r g b : Z) :
  (0 <= r <= 255)%Z -> (0 <= g <= 255)%Z -> (0 <= b <= 255)%Z ->
  HoverJs.cssRgb01 toString_approx (rgb01 [of_Z r; of_Z g; of_Z b])
  = css_rgb " " r g b.
Proof.
  intros Hr Hg Hb. rewrite css_rgb_eq.
  unfold HoverJs.cssRgb01. cbn [rgb01 idx nth].
  rewrite !round_scaled_byte by assumption.
  now rewrite !ToString_integer by lia.
Qed.

End CssColours.

(** The digits of three bytes, joined as the usage hint of the form shows
    them, are read back as the bytes by both parsers. *)
Lemma parse_printed_bytes (r g b : Z) :
  (0 <= r <= 255)%Z -> (0 <= g <= 255)%Z -> (0 <= b <= 255)%Z ->
  parseRGB (String.concat ", " [dec r; dec g; dec b])
  = Some [of_Z r; of_Z g; of_Z b]
  /\ HoverJs.parseRgbInput (String.concat ", " [dec r; dec g; dec b])
     = Some (rgb01 [of_Z r; of_Z g; of_Z b]).
Proof.
  intros Hr Hg Hb.
  destruct (byte_digits r Hr) as (C1 & D1 & V1 & _).
  destruct (byte_digits g Hg) as (C2 & D2 & V2 & T2).
  destruct (byte_digits b Hb) as (C3 & D3 & V3 & T3).
  assert (E : String.concat ", " [dec r; dec g; dec b]
              = String.concat "," [dec r; String " " (dec g);
                                   String " " (dec b)])
    by reflexivity.
  rewrite E.
  destruct (parsers_on_decimals (dec r) (String " " (dec g))
              (String " " (dec b))) as [P1 P2];
    try assumption;
    try (cbn [comma_free Ascii.eqb Bool.eqb negb andb]; assumption);
    try (rewrite ?T2, ?T3; assumption).
  - rewrite trim_decimal by exact D1. exact D1.
  - cbv zeta in P1, P2.
    rewrite T2, T3, (trim_decimal _ D1), V1, V2, V3 in P1, P2.
    rewrite !Z.min_l in P1 by lia.
    split; [exact P1|]. rewrite P2.
    destruct (Z.leb_spec r 255); [|lia]. destruct (Z.leb_spec g 255); [|lia].
    destruct (Z.leb_spec b 255); [|lia]. reflexivity.
Qed.

(** ** Round trips at the precision of a byte, and the fixed policy *)

Lemma mul_strict_eq (x y : num) (c : Q) :
  (x === y) = true -> x * Fin c = y * Fin c.
Proof.
  destruct x as [| |x|], y as [| |y|]; cbn [strict_eq]; try discriminate;
    try reflexivity.
  intro E. apply Qeq_bool_iff in E. cbn [mul]. apply fin_eq. now rewrite E.
Qed.

Lemma idx_map_scaled (l : list num) (i : nat) :
  (i < List.length l)%nat ->
  idx (map (fun v => v * 255) l) i = idx l i * 255.
Proof.
  intro H. unfold idx.
  rewrite (nth_indep _ NaN (NaN * 255)) by now rewrite length_map.
  apply (map_nth (fun v => v * 255)).
Qed.

(** A function that gives back every channel of a colour made of bytes
    gives back the bytes, once scaled and rounded. *)
Lemma round_trip_bytes (f : list num -> list num) (r g b : Z) :
  (0 <= r <= 255)%Z -> (0 <= g <= 255)%Z -> (0 <= b <= 255)%Z ->
  (forall i, (i < 3)%nat ->
     List.length (f (rgb01 [of_Z r; of_Z g; of_Z b])) = 3%nat
     /\ (idx (f (rgb01 [of_Z r; of_Z g; of_Z b])) i
         === idx (rgb01 [of_Z r; of_Z g; of_Z b]) i) = true) ->
  rgb255 (map (fun v => v * 255) (f (rgb01 [of_Z r; of_Z g; of_Z b])))
  = [of_Z r; of_Z g; of_Z b].
Proof.
  intros Hr Hg Hb H.
  destruct (H 0%nat ltac:(lia)) as [L E0].
  destruct (H 1%nat ltac:(lia)) as [_ E1].
  destruct (H 2%nat ltac:(lia)) as [_ E2].
  unfold rgb255. cbv zeta.
  rewrite !idx_map_scaled by lia.
  rewrite (mul_strict_eq _ _ 255 E0), (mul_strict_eq _ _ 255 E1),
    (mul_strict_eq _ _ 255 E2).
  unfold rgb01. cbv zeta. cbn [idx nth].
  now rewrite !clamp255_scaled_byte by assumption.
Qed.

Lemma prior_finite :
  finite_upto 4 [Fin 0.18; Fin 0.82; Fin 0.86; Fin 0.92].
Proof.
  intros [|[|[|[|i]]]] Hi; [reflexivity | reflexivity | reflexivity
                            | reflexivity | lia].
Qed.

(** The fixed policy is the learned derivation at its prior; it keeps a
    colour in the unit cube and makes no channel lighter. *)
Lemma Simple_hoverFromBase_below (base01 : list num) :
  unit_cube base01 ->
  unit_cube (Simple.hoverFromBase base01)
  /\ forall i, (i < 3)%nat ->
       (idx (Simple.hoverFromBase base01) i <=? idx base01 i) = true.
Proof.
  intro B.
  change (Simple.hoverFromBase base01)
    with (hoverFromBase base01 [Fin 0.18; Fin 0.82; Fin 0.86; Fin 0.92]).
  split.
  - apply hoverFromBase_unit_cube; [exact B | exact prior_finite].
  - intros i Hi. apply hoverFromBase_between; [exact B | | exact Hi].
    intros j Hj. apply is_fin_not_nan. now apply prior_finite.
Qed.

(** The byte displayed for a channel that is at most a byte scaled to the
    unit range is at most the byte. *)
Lemma clamp255_below (q : Q) (z : Z) :
  (0 <= z <= 255)%Z -> (0 <= q)%Q -> (q * 255 <= inject_Z z)%Q ->
  exists k : Z, (0 <= k <= z)%Z /\ clamp255 (Fin q * 255) = of_Z k.
Proof.
  intros Hz H0 H1.
  assert (Z255 : (inject_Z z <= 255)%Q)
    by (change 255%Q with (inject_Z 255); rewrite <- Zle_Qle; lia).
  unfold clamp255. cbn [mul]. unfold fin.
  set (x := Qred (q * 255)).
  assert (Ex : (x == q * 255)%Q) by apply Qred_correct.
  assert (M : exists y, Math_max 0 (Math_min 255 (Fin x)) = Fin y
                        /\ (y == x)%Q).
  { unfold Math_min, Math_max. cbn [is_nan orb lt].
    destruct (Qle_bool 255 x) eqn:A; cbn [negb is_nan orb lt].
    - apply Qle_bool_iff in A.
      destruct (Qle_bool 255 0) eqn:B; cbn [negb].
      + apply Qle_bool_iff in B. lra.
      + exists 255%Q. split; [reflexivity | lra].
    - destruct (Qle_bool x 0) eqn:B; cbn [negb].
      + apply Qle_bool_iff in B. exists 0%Q. split; [reflexivity | lra].
      + exists x. split; reflexivity. }
  destruct M as (y & -> & Ey). cbn [Math_round].
  exists (Qfloor (y + (1 # 2))). split; [|reflexivity].
  pose proof (Qfloor_le (y + (1 # 2))) as Lo.
  pose proof (Qlt_floor (y + (1 # 2))) as Hi.
  rewrite inject_Z_plus in Hi. change (inject_Z 1) with 1%Q in Hi.
  split.
  - assert (P : (inject_Z (-1) < inject_Z (Qfloor (y + (1 # 2))))%Q)
      by (change (inject_Z (-1)) with (-1)%Q; lra).
    rewrite <- Zlt_Qlt in P. lia.
  - assert (P : (inject_Z (Qfloor (y + (1 # 2))) < inject_Z (z + 1))%Q)
      by (rewrite inject_Z_plus; change (inject_Z 1) with 1%Q; lra).
    rewrite <- Zlt_Qlt in P. lia.
Qed.

Lemma hoverFromBase_displayed (r g b : Z) (theta : list num) (i : nat) :
  (0 <= r <= 255)%Z -> (0 <= g <= 255)%Z -> (0 <= b <= 255)%Z ->
  (forall j, (j < 4)%nat -> is_nan (idx theta j) = false) ->
  (i < 3)%nat ->
  exists k : Z,
    idx (rgb255
           (map (fun v => v * 255)
              (hoverFromBase (rgb01 [of_Z r; of_Z g; of_Z b]) theta))) i
    = of_Z k
    /\ (0 <= k <= nth i [r; g; b] 0)%Z.
Proof.
  intros Hr Hg Hb T Hi.
  assert (L : List.length (hoverFromBase (rgb01 [of_Z r; of_Z g; of_Z b]) theta)
              = 3%nat) by reflexivity.
  assert (E : idx (rgb255
                     (map (fun v => v * 255)
                        (hoverFromBase (rgb01 [of_Z r; of_Z g; of_Z b]) theta)))
                i
              = clamp255
                  (idx (hoverFromBase (rgb01 [of_Z r; of_Z g; of_Z b]) theta) i
                   * 255)).
  { unfold rgb255. cbv zeta. rewrite !idx_map_scaled by (rewrite L; lia).
    destruct i as [|[|[|i]]]; try lia; reflexivity. }
  rewrite E. clear E L. rewrite hoverFromBase_idx by exact Hi.
  set (z := nth i [r; g; b] 0%Z).
  assert (Z : (0 <= z <= 255)%Z)
    by (subst z; destruct i as [|[|[|i]]]; try lia; cbn [nth]; assumption).
  assert (B : idx (rgb01 [of_Z r; of_Z g; of_Z b]) i
              = Fin (Qred (inject_Z z / 255)))
    by (subst z; destruct i as [|[|[|i]]]; try lia; reflexivity).
  rewrite B. clear B.
  assert (Ez : (Qred (inject_Z z / 255) == inject_Z z / 255)%Q)
    by apply Qred_correct.
  assert (Z0 : (0 <= inject_Z z)%Q)
    by (change 0%Q with (inject_Z 0); rewrite <- Zle_Qle; lia).
  assert (Z1 : (inject_Z z <= 255)%Q)
    by (change 255%Q with (inject_Z 255); rewrite <- Zle_Qle; lia).
  destruct (mix_channel_val (Qred (inject_Z z / 255)) (idx theta 0)
              (idx theta (S i)))
    as (t' & f' & g' & q & _ & _ & _ & -> & Ht & Hf & Hgq & Hq).
  - rewrite Ez. split; [apply Qle_shift_div_l; lra | apply Qle_shift_div_r; lra].
  - apply T. lia.
  - apply T. lia.
  - set (c := Qred (inject_Z z / 255)) in *.
    assert (C : (0 <= c /\ c * 255 <= inject_Z z)%Q).
    { rewrite Ez. split; [apply Qle_shift_div_l; lra|].
      assert (X : (inject_Z z / 255 * 255 == inject_Z z)%Q) by field. lra. }
    destruct C as [C0 C1].
    assert (P1 : (0 <= (1 - t') * c)%Q) by nra.
    assert (P2 : (0 <= c * f')%Q) by nra.
    assert (P3 : (0 <= t' * (c * f'))%Q) by nra.
    assert (P4 : (0 <= c * (1 - f'))%Q) by nra.
    assert (P5 : (0 <= t' * (c * (1 - f')))%Q) by nra.
    assert (Q0 : (0 <= q)%Q) by (rewrite Hq, Hgq; lra).
    assert (Q1 : (q <= c)%Q) by (rewrite Hq, Hgq; lra).
    destruct (clamp255_below q z Z) as (k & Hk & Ek); [exact Q0 | lra |].
    exists k. split; [exact Ek | exact Hk].
Qed.

Lemma binary64_displayed_at_cap (n : nat) :
  (n < 256)%nat -> Binary64.displayed_at_cap n = true.
Proof.
  intro Hn.
  do 256 (destruct n as [|n]; [vm_compute; reflexivity|]).
  lia.
Qed.

(** In binary64, byte by byte. *)
Lemma binary64_darkens (n : nat) :
  (n < 256)%nat -> Binary64.darkens n = true.
Proof.
  intro Hn.
  do 256 (destruct n as [|n]; [vm_compute; reflexivity|]).
  lia.
Qed.

(** ** The results on the colour model, the parsers and the optimizers *)

(** X1: the contrast ratio does not depend on the order of the two
    luminances, whatever numbers they are. *)
Theorem contrastRatio_symmetric (L1 L2 : num) :
  contrastRatio L1 L2 = contrastRatio L2 L1.
Proof. intros. eapply contrastRatio_sym; eassumption. Qed.

(** X2: the contrast ratio of two luminances within 0..1 is within 1..21,
    and it is 1 when the luminances are equal. *)
Theorem contrastRatio_bounds (L1 L2 : num) :
  within 0 1 L1 = true -> within 0 1 L2 = true ->
  within 1 21 (contrastRatio L1 L2) = true
  /\ ((L1 === L2) = true -> (contrastRatio L1 L2 === 1) = true).
Proof.
  intros H1 H2. destruct (contrastRatio_range L1 L2 H1 H2) as [R E].
  split; [exact R|]. intro Q. now rewrite E.
Qed.

(** X3: the relative luminance of a colour of the unit cube is within 0..1,
    in [hover2.js] and in [hover.js], whose two functions are one; the
    power function of the host is one that takes 0..1 into 0..1. *)
Theorem luminance_in_unit_range (pow_approx : num -> num -> num)
    (c : list num) :
  pow_host pow_approx -> unit_cube c ->
  within 0 1 (relLuminance pow_approx c) = true
  /\ HoverJs.luminance pow_approx c = relLuminance pow_approx c
  /\ forall i, (i < 3)%nat ->
       within 0 1 (srgbToLinear pow_approx (idx c i)) = true.
Proof.
  intros P B. split; [now apply relLuminance_within|].
  split; [reflexivity|].
  intros i Hi. apply srgbToLinear_within; [exact P | now apply B].
Qed.

(** X4: the text colour of three finite parameters is a colour of the unit
    cube: the logistic function keeps it there, whether the exponential of
    the host underflows to 0 or overflows to infinity. *)
Theorem text_colour_in_unit_cube (Math_exp : num -> num) (p : list num) :
  exp_host Math_exp -> finite_upto 3 p ->
  unit_cube (textColorFromParams Math_exp p).
Proof. intros. eapply textColorFromParams_unit_cube; eassumption. Qed.

(** X5: the text loss of a background and a text colour of the unit cube is
    a finite number that is not negative, and the target colour it reads
    has its three channels, in the unit cube. *)
Theorem text_loss_finite (pow_approx : num -> num -> num)
    (bg01 text01 : list num) :
  pow_host pow_approx -> unit_cube bg01 -> unit_cube text01 ->
  nonneg (lossForText pow_approx bg01 text01) = true
  /\ unit_cube
       (hsvToRgb [(idx (rgbToHsv bg01) 0 + 0.5) %% 1;
                  clamp01 (Math_max 0.55 (idx (rgbToHsv bg01) 1));
                  if relLuminance pow_approx bg01 >? 0.5
                  then Fin 0.15 else Fin 0.95]).
Proof.
  intros P B T. split; [now apply lossForText_nonneg|].
  now apply lossForText_target.
Qed.

(** X6: the byte displayed for a channel of the hover colour of a colour
    made of bytes is a byte that is not above the byte of the base,
    whatever the policy, no entry of which is NaN: the hover colour is
    not displayed lighter than the base.  In binary64, under the policy
    with the mix 0.45 and the three factors at 1, the byte displayed is
    the byte of the base for each of the 256 bytes, also where rounding
    takes the channel itself above the base, as for the byte 19. *)
Theorem hover_displays_no_lighter (r g b : Z) (theta : list num) (i : nat) :
  (0 <= r <= 255)%Z -> (0 <= g <= 255)%Z -> (0 <= b <= 255)%Z ->
  (forall j, (j < 4)%nat -> is_nan (idx theta j) = false) ->
  (i < 3)%nat ->
  (exists k : Z,
      idx (rgb255
             (map (fun v => v * 255)
                (hoverFromBase (rgb01 [of_Z r; of_Z g; of_Z b]) theta))) i
      = of_Z k
      /\ (0 <= k <= nth i [r; g; b] 0)%Z)
  /\ (forall n, (n < 256)%nat -> Binary64.displayed_at_cap n = true)
  /\ (let c := (Binary64.of_Z 19 / 255)%float in
      (c <? Binary64.idx
              (Binary64.hoverFromBase [c; c; c]
                 [Binary64.lit_0_45; 1; 1; 1]%float) 0)%float = true).
Proof.
  intros Hr Hg Hb T Hi. split; [now apply hoverFromBase_displayed|].
  split; [exact binary64_displayed_at_cap | vm_compute; reflexivity].
Qed.

(** X8: the fixed policy of the simple variant is the learned derivation
    at its prior policy; it keeps a colour of the unit cube in the unit
    cube and makes no channel lighter.  In binary64, for each of the 256
    bytes scaled to the unit range, every channel of the hover colour is at
    most the base channel, below it when the byte is not 0, and the byte
    displayed for it is not above the byte. *)
Theorem simple_hover_darkens (base01 : list num) :
  unit_cube base01 ->
  hoverFromBase base01 [Fin 0.18; Fin 0.82; Fin 0.86; Fin 0.92]
  = Simple.hoverFromBase base01
  /\ unit_cube (Simple.hoverFromBase base01)
  /\ (forall i, (i < 3)%nat ->
        (idx (Simple.hoverFromBase base01) i <=? idx base01 i) = true)
  /\ (forall n, (n < 256)%nat -> Binary64.darkens n = true).
Proof.
  intro B. split; [reflexivity|].
  destruct (Simple_hoverFromBase_below base01 B) as [U L].
  split; [exact U|]. split; [exact L | exact binary64_darkens].
Qed.

(** X9: the HSV triple of a colour of the unit cube: a hue, a saturation
    and a value within 0..1, the value being the greatest channel. *)
Theorem hsv_of_unit_cube (rgb : list num) :
  unit_cube rgb ->
  exists h s v,
    rgbToHsv rgb = [Fin h; Fin s; Fin v]
    /\ (0 <= h <= 1)%Q /\ (0 <= s <= 1)%Q /\ (0 <= v <= 1)%Q
    /\ Fin v = Math_max (Math_max (idx rgb 0) (idx rgb 1)) (idx rgb 2).
Proof.
  intro B. destruct (rgbToHsv_range rgb B) as (h & s & v & E & H & S & V & M).
  exists h, s, v. repeat split; try assumption; lra.
Qed.

(** X10: [hsvToRgb] of a hue within 0..1, 1 excluded, and of a saturation
    and a value within 0..1 has three channels, each within 0..1 and none
    above the value. *)
Theorem rgb_of_hsv_in_unit_cube (h s v : Q) (i : nat) :
  (0 <= h < 1)%Q -> (0 <= s <= 1)%Q -> (0 <= v <= 1)%Q -> (i < 3)%nat ->
  List.length (hsvToRgb [Fin h; Fin s; Fin v]) = 3%nat
  /\ within 0 1 (idx (hsvToRgb [Fin h; Fin s; Fin v]) i) = true
  /\ (idx (hsvToRgb [Fin h; Fin s; Fin v]) i <=? Fin v) = true.
Proof. intros. eapply hsvToRgb_range; eassumption. Qed.

(** X11: from RGB to HSV and back, a colour made of three bytes comes back
    as the same bytes: [rgb255] of the channels times 255, as [setCssVars]
    displays a colour. *)
Theorem hsv_round_trip (r g b : Z) :
  (0 <= r <= 255)%Z -> (0 <= g <= 255)%Z -> (0 <= b <= 255)%Z ->
  rgb255
    (map (fun v => v * 255)
       (hsvToRgb (rgbToHsv (rgb01 [of_Z r; of_Z g; of_Z b]))))
  = [of_Z r; of_Z g; of_Z b].
Proof.
  intros Hr Hg Hb.
  apply (round_trip_bytes (fun c => hsvToRgb (rgbToHsv c))); try assumption.
  intros i Hi.
  apply hsvToRgb_rgbToHsv; [now apply rgb01_unit_cube | exact Hi].
Qed.

(** X13: [optimizeText] on a background of the unit cube, from three
    finite parameters and with a learning rate within 0..1, whatever the
    number of turns, returns three finite parameters, a text colour of the
    unit cube, and a loss that is finite and not negative. *)
Theorem optimizeText_total (pow_approx : num -> num -> num)
    (Math_exp : num -> num) (bg01 : list num) (opts : TextOptions) :
  pow_host pow_approx -> exp_host Math_exp ->
  unit_cube bg01 ->
  text_state_ok (default (o_initParams opts) [Fin 0; Fin 0; Fin 0],
                 default (o_lr opts) (Fin 0.35)) ->
  within 0 1 (default (o_lr opts) (Fin 0.35)) = true ->
  let r := optimizeText pow_approx Math_exp bg01 opts in
  List.length (params r) = 3%nat /\ finite_upto 3 (params r)
  /\ unit_cube (color01 r) /\ nonneg (loss r) = true.
Proof. intros. eapply optimizeText_well_defined; eassumption. Qed.

(** X14: the loss of a hover policy on a base colour of the unit cube is a
    finite number that is not negative; the four entries of the policy
    are within 0..2, which holds of a policy of the box and of one moved
    by the step of the numerical gradient. *)
Theorem hover_loss_finite (pow_approx : num -> num -> num)
    (base01 theta : list num) :
  pow_host pow_approx -> unit_cube base01 ->
  (forall j, (j < 4)%nat -> within 0 2 (idx theta j) = true) ->
  nonneg (lossForHoverTheta pow_approx base01 theta) = true.
Proof.
  intros P B T. apply lossForHoverTheta_nonneg; [exact P | |].
  - now apply unit_cube_finite.
  - intros j Hj. exact (within_is_fin _ _ _ (T j Hj)).
Qed.

(** X15: on a colour that [parseRGB] accepted, every number of the palette
    of [hover2.js] is finite: the base, the hover background and the two
    text colours are colours of the unit cube, the page background is a
    tenth of the base, the policy is within its box, and the three losses
    are finite and not negative. *)
Theorem palette_well_defined (pow_approx : num -> num -> num)
    (Math_exp : num -> num) (text : string) (rgb : list num) :
  pow_host pow_approx -> exp_host Math_exp ->
  parseRGB text = Some rgb ->
  let r := applyChain pow_approx Math_exp rgb in
  unit_cube (base01 r) /\ unit_cube (hover01 r)
  /\ pageBg01 r = [idx (base01 r) 0 * 0.10; idx (base01 r) 1 * 0.10;
                   idx (base01 r) 2 * 0.10]
  /\ boxed (theta (hoverOpt r)) = true
  /\ nonneg (theta_loss (hoverOpt r)) = true
  /\ unit_cube (color01 (baseText r)) /\ nonneg (loss (baseText r)) = true
  /\ unit_cube (color01 (hoverText r)) /\ nonneg (loss (hoverText r)) = true.
Proof.
  intros P E H.
  destruct (applyChain_well_defined pow_approx Math_exp P E text rgb H)
    as (B & Hv & _ & Pg & Bx & Tl & C1 & L1 & C2 & L2).
  cbv zeta. repeat (split; [assumption|]). assumption.
Qed.

(** X16: the same for the palette of the simple variant, whose hover
    background is nowhere lighter than the base. *)
Theorem simple_palette_well_defined (pow_approx : num -> num -> num)
    (Math_exp : num -> num) (text : string) (rgb : list num) :
  pow_host pow_approx -> exp_host Math_exp ->
  parseRGB text = Some rgb ->
  let r := Simple.applyChain pow_approx Math_exp rgb in
  unit_cube (Simple.base01 r) /\ unit_cube (Simple.hover01 r)
  /\ (forall i, (i < 3)%nat ->
        (idx (Simple.hover01 r) i <=? idx (Simple.base01 r) i) = true)
  /\ Simple.pageBg01 r
     = [idx (Simple.base01 r) 0 * 0.10; idx (Simple.base01 r) 1 * 0.10;
        idx (Simple.base01 r) 2 * 0.10]
  /\ unit_cube (color01 (Simple.baseText r))
  /\ nonneg (loss (Simple.baseText r)) = true
  /\ unit_cube (color01 (Simple.hoverText r))
  /\ nonneg (loss (Simple.hoverText r)) = true.
Proof.
  intros P E H.
  destruct (Simple_applyChain_well_defined pow_approx Math_exp P E text rgb H)
    as (B & Hv & _ & Pg & C1 & L1 & C2 & L2).
  cbv zeta. split; [exact B|]. split; [exact Hv|].
  split; [|repeat (split; [assumption|]); assumption].
  unfold Simple.applyChain in B |- *. cbv zeta in B |- *.
  cbn [Simple.base01 Simple.hover01] in B |- *.
  exact (proj2 (Simple_hoverFromBase_below _ B)).
Qed.

(** X17: the colours of CSS that [setCssVars] computes from a palette,
    [rgbToCss (rgb255 (c.map(v => v * 255)))] for each of its five colours
    [c], are made of three bytes each, in both variants, and the one of
    the button shows the bytes that [parseRGB] read. *)
Theorem palette_css_colours (pow_approx : num -> num -> num)
    (Math_exp : num -> num) (toString_approx : Q -> string)
    (text : string) (rgb : list num) :
  pow_host pow_approx -> exp_host Math_exp ->
  parseRGB text = Some rgb ->
  let css c := rgbToCss toString_approx (rgb255 (map (fun v => v * 255) c)) in
  let r := applyChain pow_approx Math_exp rgb in
  let r' := Simple.applyChain pow_approx Math_exp rgb in
  css (base01 r) = rgbToCss toString_approx rgb
  /\ css (Simple.base01 r') = rgbToCss toString_approx rgb
  /\ Forall (fun c => is_css_rgb ", " (css c))
       [base01 r; color01 (baseText r); hover01 r; color01 (hoverText r);
        pageBg01 r;
        Simple.base01 r'; color01 (Simple.baseText r'); Simple.hover01 r';
        color01 (Simple.hoverText r'); Simple.pageBg01 r'].
Proof.
  intros P E H. cbv zeta.
  destruct (applyChain_well_defined pow_approx Math_exp P E text rgb H)
    as (B & Hv & _ & Pg & _ & _ & T1 & _ & T2 & _).
  destruct (Simple_applyChain_well_defined pow_approx Math_exp P E text rgb H)
    as (B' & Hv' & _ & Pg' & T1' & _ & T2' & _).
  assert (K : forall c, unit_cube c ->
            is_css_rgb ", "
              (rgbToCss toString_approx (rgb255 (map (fun v => v * 255) c))))
    by (intros c C; now apply rgbToCss_unit_cube).
  assert (T : forall c, unit_cube c ->
            unit_cube [idx c 0 * 0.10; idx c 1 * 0.10; idx c 2 * 0.10]).
  { intros c C [|[|[|i]]] Hi; try lia; cbn [idx nth];
      apply (within_weaken 0 0.1); try lra;
      apply clamp01_tenth; apply C; lia. }
  assert (R : rgb255 (map (fun v => v * 255) (rgb01 rgb)) = rgb).
  { destruct (parseRGB_total text) as [N|(r & g & b & Hr & Hg & Hb & Eq)];
      [congruence|].
    rewrite Eq in H. injection H as <-.
    unfold rgb01. cbv zeta. cbn [idx nth map]. unfold rgb255. cbv zeta.
    cbn [idx nth].
    now rewrite !clamp255_scaled_byte by assumption. }
  split; [|split].
  - unfold applyChain. cbv zeta. cbn [base01]. now rewrite R.
  - unfold Simple.applyChain. cbv zeta. cbn [Simple.base01]. now rewrite R.
  - repeat (apply Forall_cons; [apply K; try assumption|]);
      try apply Forall_nil.
    + rewrite Pg. apply T. exact B.
    + rewrite Pg'. apply T. exact B'.
Qed.

(** X18: the colour of CSS of three bytes is [rgb(] and [)] around their
    decimal digits joined by a comma and a space, the format of the usage
    hint of the form; both parsers read the joined digits back as the
    bytes. *)
Theorem printed_bytes_parse_back (toString_approx : Q -> string) (r g b : Z) :
  (0 <= r <= 255)%Z -> (0 <= g <= 255)%Z -> (0 <= b <= 255)%Z ->
  rgbToCss toString_approx [of_Z r; of_Z g; of_Z b]
  = ("rgb(" ++ String.concat ", " [dec r; dec g; dec b] ++ ")")%string
  /\ parseRGB (String.concat ", " [dec r; dec g; dec b])
     = Some [of_Z r; of_Z g; of_Z b]
  /\ HoverJs.parseRgbInput (String.concat ", " [dec r; dec g; dec b])
     = Some (rgb01 [of_Z r; of_Z g; of_Z b]).
Proof.
  intros Hr Hg Hb. split; [now apply rgbToCss_bytes|].
  now apply parse_printed_bytes.
Qed.

(** X19: [wrap01] of a finite number is a finite number within 0..1, 1
    excluded; of an integer it is 0, and of what is not finite it is
    NaN. *)
Theorem wrap01_in_unit_range (x : Q) (n : Z) :
  (exists q, HoverJs.wrap01 (Fin x) = Fin q /\ (0 <= q < 1)%Q)
  /\ HoverJs.wrap01 (of_Z n) = Fin 0
  /\ HoverJs.wrap01 PosInf = NaN /\ HoverJs.wrap01 NegInf = NaN
  /\ HoverJs.wrap01 NaN = NaN.
Proof.
  split; [|split; [|now repeat split]].
  - destruct (wrap01_val x) as (q & E & _ & B). now exists q.
  - unfold of_Z. rewrite wrap01_fin, Qfloor_Z.
    change (Fin 0) with (fin 0). apply fin_eq. ring.
Qed.

(** X20: the utilities that [hover.js] and [hover2.js] both have agree on
    every input: the two orders of clamping, the table and the chain of
    cases of [hsvToRgb], the transfer function and the luminance. *)
Theorem hover_js_utilities_agree :
  (forall x, HoverJs.clamp01 x = clamp01 x)
  /\ (forall hsv, HoverJs.hsvToRgb hsv = hsvToRgb hsv)
  /\ (forall pow_approx c,
        HoverJs.srgbToLinear pow_approx c = srgbToLinear pow_approx c)
  /\ (forall pow_approx rgb,
        HoverJs.luminance pow_approx rgb = relLuminance pow_approx rgb).
Proof.
  split; [exact HoverJs_clamp01_eq|]. split; [exact HoverJs_hsvToRgb_eq|].
  split; reflexivity.
Qed.

(** X21: from RGB to HSV and back with the two functions of [hover.js], a
    colour made of three bytes is printed by [rgb01ToCss] as the same bytes;
    and on a colour of finite channels its [rgbToHsv] returns the
    saturation and the value that the one of [hover2.js] returns. *)
Theorem hover_js_hsv_round_trip (toString_approx : Q -> string) (r g b : Z)
    (rgb : list num) :
  (0 <= r <= 255)%Z -> (0 <= g <= 255)%Z -> (0 <= b <= 255)%Z ->
  finite_upto 3 rgb ->
  HoverJs.rgb01ToCss toString_approx
    (HoverJs.hsvToRgb (HoverJs.rgbToHsv (rgb01 [of_Z r; of_Z g; of_Z b])))
  = css_rgb " " r g b
  /\ idx (HoverJs.rgbToHsv rgb) 1 = idx (rgbToHsv rgb) 1
  /\ idx (HoverJs.rgbToHsv rgb) 2 = idx (rgbToHsv rgb) 2.
Proof.
  intros Hr Hg Hb F. split; [|now rewrite HoverJs_rgbToHsv_eq].
  assert (U := rgb01_unit_cube r g b Hr Hg Hb).
  rewrite HoverJs_hsvToRgb_eq, HoverJs_rgbToHsv_eq
    by now apply unit_cube_finite.
  destruct (hsvToRgb_rgbToHsv _ 0%nat U ltac:(lia)) as [_ E0].
  destruct (hsvToRgb_rgbToHsv _ 1%nat U ltac:(lia)) as [_ E1].
  destruct (hsvToRgb_rgbToHsv _ 2%nat U ltac:(lia)) as [_ E2].
  unfold HoverJs.rgb01ToCss. cbv zeta.
  rewrite (mul_strict_eq _ _ 255 E0), (mul_strict_eq _ _ 255 E1),
    (mul_strict_eq _ _ 255 E2).
  now apply cssRgb01_rgb01.
Qed.

(** X22: [hexToRgb01] of a number sign and six digits of radix 16 is the
    colour of the three bytes that the pairs of digits denote, scaled to
    the unit cube; of a number sign and three digits, each digit stands
    for the byte of the digit written twice. *)
Theorem hexToRgb01_decodes (c1 c2 c3 c4 c5 c6 : ascii)
    (d1 d2 d3 d4 d5 d6 : Z) :
  JSString.hexdigit c1 = Some d1 -> JSString.hexdigit c2 = Some d2 ->
  JSString.hexdigit c3 = Some d3 -> JSString.hexdigit c4 = Some d4 ->
  JSString.hexdigit c5 = Some d5 -> JSString.hexdigit c6 = Some d6 ->
  HoverJs.hexToRgb01
    (String "#"
       (String c1 (String c2 (String c3 (String c4 (String c5 (String c6 "")))))))
  = rgb01 [of_Z (16 * d1 + d2); of_Z (16 * d3 + d4); of_Z (16 * d5 + d6)]
  /\ HoverJs.hexToRgb01 (String "#" (String c1 (String c3 (String c5 ""))))
     = rgb01 [of_Z (17 * d1); of_Z (17 * d3); of_Z (17 * d5)]
  /\ unit_cube
       (rgb01 [of_Z (16 * d1 + d2); of_Z (16 * d3 + d4); of_Z (16 * d5 + d6)]).
Proof.
  intros H1 H2 H3 H4 H5 H6.
  split; [now apply hexToRgb01_six|]. split; [now apply hexToRgb01_three|].
  destruct (hexdigit_plain c1 d1 H1) as (_ & _ & _ & _ & _ & _ & B1).
  destruct (hexdigit_plain c2 d2 H2) as (_ & _ & _ & _ & _ & _ & B2).
  destruct (hexdigit_plain c3 d3 H3) as (_ & _ & _ & _ & _ & _ & B3).
  destruct (hexdigit_plain c4 d4 H4) as (_ & _ & _ & _ & _ & _ & B4).
  destruct (hexdigit_plain c5 d5 H5) as (_ & _ & _ & _ & _ & _ & B5).
  destruct (hexdigit_plain c6 d6 H6) as (_ & _ & _ & _ & _ & _ & B6).
  apply rgb01_unit_cube; lia.
Qed.

(** X23: a colour that the parser of the form of [hover.js] accepts is
    three bytes scaled to the unit cube. *)
Theorem parseRgbInput_gives_bytes (value : string) (c : list num) :
  HoverJs.parseRgbInput value = Some c ->
  unit_cube c
  /\ exists r g b : Z,
       (0 <= r <= 255)%Z /\ (0 <= g <= 255)%Z /\ (0 <= b <= 255)%Z
       /\ c = rgb01 [of_Z r; of_Z g; of_Z b].
Proof.
  intro H.
  destruct (parseRgbInput_bytes value c H) as (r & g & b & Hr & Hg & Hb & ->).
  split; [now apply rgb01_unit_cube|]. now exists r, g, b.
Qed.

(** X24: the two parsers on three tokens that are plain decimal
    integers, white space around them apart: [parseRGB] accepts and
    clamps each to 255, [parseRgbInput] accepts when none is above 255 and
    rejects otherwise, and what it accepts is the colour of [parseRGB]
    scaled by [rgb01]. *)
Theorem parsers_agree_on_decimals (a b c : string) :
  comma_free a = true -> comma_free b = true -> comma_free c = true ->
  decimal (JSString.trim a) = true -> decimal (JSString.trim b) = true ->
  decimal (JSString.trim c) = true ->
  let va := decimal_value (JSString.trim a) in
  let vb := decimal_value (JSString.trim b) in
  let vc := decimal_value (JSString.trim c) in
  parseRGB (String.concat "," [a; b; c])
  = Some [of_Z (Z.min va 255); of_Z (Z.min vb 255); of_Z (Z.min vc 255)]
  /\ HoverJs.parseRgbInput (String.concat "," [a; b; c])
     = if ((va <=? 255) && (vb <=? 255) && (vc <=? 255))%Z
       then Some (rgb01 [of_Z va; of_Z vb; of_Z vc])
       else None.
Proof. intros. now apply parsers_on_decimals. Qed.

(** X25: the descent of [computeHoverColor]: the gradient of a turn is the
    central difference of the loss along each of the three axes, at the
    step 0.001; the turn takes each offset down the gradient by the
    learning rate, which it then multiplies by 0.985. *)
Theorem computeHoverColor_descent (pow_approx : num -> num -> num)
    (Math_exp Math_log1p : num -> num) (hsv0 : list num) (Ybg : num)
    (a b c lr : num) (i k : nat) :
  let f d :=
    HoverJs.loss pow_approx Math_exp Math_log1p hsv0 Ybg
      (idx d 0) (idx d 1) (idx d 2) in
  let gr j := central_difference f [a; b; c] 1e-3 j in
  HoverJs.grad pow_approx Math_exp Math_log1p hsv0 Ybg [a; b; c] 1e-3
  = [gr 0%nat; gr 1%nat; gr 2%nat]
  /\ HoverJs.computeHoverColor_step pow_approx Math_exp Math_log1p hsv0 Ybg
       ([a; b; c], lr) i
     = ([a - lr * gr 0%nat; b - lr * gr 1%nat; c - lr * gr 2%nat], lr * 0.985)
  /\ snd (HoverJs.computeHoverColor_loop pow_approx Math_exp Math_log1p
            hsv0 Ybg k ([a; b; c], lr))
     = fold_left (fun lr _ => lr * 0.985) (List.seq 0 k) lr.
Proof.
  cbv zeta. split; [reflexivity|]. split; [reflexivity|].
  apply computeHoverColor_loop_lr.
Qed.

(** X26: the hover colour that [computeHoverColor] returns for a colour
    and a background of the unit cube has its three channels, and is a
    colour of the unit cube. *)
Theorem computeHoverColor_in_unit_cube (pow_approx : num -> num -> num)
    (Math_exp Math_log1p : num -> num) (rgb0 rgbBg : list num) :
  pow_host pow_approx -> softplus_host Math_exp Math_log1p ->
  unit_cube rgb0 -> unit_cube rgbBg ->
  List.length
    (HoverJs.computeHoverColor pow_approx Math_exp Math_log1p rgb0 rgbBg)
  = 3%nat
  /\ unit_cube
       (HoverJs.computeHoverColor pow_approx Math_exp Math_log1p rgb0 rgbBg).
Proof. intros. eapply computeHoverColor_unit_cube; eassumption. Qed.

(** X27: the colours of CSS of [hover.js]: of a colour of the unit cube,
    [cssRgb01] and [rgb01ToCss] give the same three bytes, and of a colour
    that the parser of the form accepted, the bytes that were typed; in
    binary64 too the rounding of a byte scaled to the unit range and back
    gives the byte. *)
Theorem hover_js_css_colours (toString_approx : Q -> string)
    (value : string) (c : list num) :
  HoverJs.parseRgbInput value = Some c ->
  (exists r g b : Z,
      (0 <= r <= 255)%Z /\ (0 <= g <= 255)%Z /\ (0 <= b <= 255)%Z
      /\ c = rgb01 [of_Z r; of_Z g; of_Z b]
      /\ HoverJs.cssRgb01 toString_approx c = css_rgb " " r g b)
  /\ (forall c', unit_cube c' ->
        is_css_rgb " " (HoverJs.cssRgb01 toString_approx c')
        /\ HoverJs.rgb01ToCss toString_approx c'
           = HoverJs.cssRgb01 toString_approx c')
  /\ (forall z : Z, (0 <= z <= 255)%Z ->
        Binary64.Math_round (Binary64.of_Z z / 255 * 255)%float
        = Binary64.of_Z z).
Proof.
  intro H. split; [|split; [|exact binary64_round_scaled_byte]].
  - destruct (parseRgbInput_bytes value c H)
      as (r & g & b & Hr & Hg & Hb & ->).
    exists r, g, b. repeat (split; [assumption|]).
    split; [reflexivity|]. now apply cssRgb01_rgb01.
  - intros c' C.
    destruct (cssRgb01_unit_cube toString_approx c' C)
      as (r & g & b & Hr & Hg & Hb & E1 & E2).
    split; [exists r, g, b; now repeat split|].
    now rewrite E1, E2.
Qed.

Lemma boxed_within (theta : list num) (j : nat) :
  boxed theta = true -> (j < 4)%nat -> within 0.35 1 (idx theta j) = true.
Proof.
  unfold boxed. intros H Hj. apply andb_prop in H. destruct H as [L F].
  apply Nat.eqb_eq in L. rewrite forallb_forall in F.
  apply F. apply nth_In. lia.
Qed.

(** X28: under a policy within its box, every channel of the hover colour
    keeps at least 0.35 of the base channel; the base is a colour of the
    unit cube. *)
Theorem hover_floor_of_boxed_policy (base01 theta : list num) (i : nat) :
  unit_cube base01 -> boxed theta = true -> (i < 3)%nat ->
  (0.35 * idx base01 i <=? idx (hoverFromBase base01 theta) i) = true.
Proof.
  intros B T Hi. rewrite hoverFromBase_idx by assumption.
  destruct (proj1 (within_Fin _ _ _) (B i Hi)) as (r & -> & Hr).
  assert (T0 := boxed_within theta 0 T ltac:(lia)).
  assert (Tf := boxed_within theta (S i) T ltac:(lia)).
  destruct (proj1 (within_Fin _ _ _) Tf) as (f & Ef & Hf).
  destruct (mix_channel_val r (idx theta 0) (idx theta (S i)) Hr)
    as (t' & f' & g' & q & _ & E2 & _ & -> & Ht & Hf' & Hg & Hq).
  - apply is_fin_not_nan. exact (within_is_fin _ _ _ T0).
  - apply is_fin_not_nan. exact (within_is_fin _ _ _ Tf).
  - rewrite Ef in E2. destruct (clamp01_val f) as (f2 & E & _ & Id & _).
    rewrite E in E2. injection E2 as <-. specialize (Id ltac:(lra)).
    cbn [mul]. unfold fin. cbn [le]. apply Qle_bool_iff.
    rewrite Qred_correct.
    assert (P : (0 <= (1 - t') * (1 - f2))%Q) by nra.
    nra.
Qed.

(** ** Instances *)

Open Scope string_scope.

(** A policy with entries 2, -1 and infinity on a base colour of the unit
    cube. *)
Lemma hoverFromBase_in_unit_range_witness :
  within 0 1
    (idx (hoverFromBase [Fin 0.2; Fin 0.5; Fin 1]
                        [Fin 2; Fin (-1); PosInf; Fin 0.5]) 1) = true.
Proof.
  apply hoverFromBase_in_unit_range.
  - intros [|[|[|i]]] Hi; [reflexivity | reflexivity | reflexivity | lia].
  - intros [|[|[|[|i]]]] Hi;
      [reflexivity | reflexivity | reflexivity | reflexivity | lia].
  - lia.
Defined.

(** The colour 34, 139, 230. *)
Lemma byte_round_trip_witness :
  rgb255 (map (fun v => v * 255) (rgb01 [of_Z 34; of_Z 139; of_Z 230]))
  = [of_Z 34; of_Z 139; of_Z 230]
  /\ Binary64.rgb255
       (map (fun v => (v * 255)%float)
            (Binary64.rgb01
               [Binary64.of_Z 34; Binary64.of_Z 139; Binary64.of_Z 230]))
     = [Binary64.of_Z 34; Binary64.of_Z 139; Binary64.of_Z 230].
Proof. apply byte_round_trip; lia. Defined.

(** The policy returned for the base colour 0.2, 0.5, 1. *)
Lemma hover_policy_stays_in_box_witness :
  boxed (theta (optimizeHoverTheta pow_half [Fin 0.2; Fin 0.5; Fin 1]
                  {| h_steps := None; h_lr := None; h_initTheta := None |}))
  = true.
Proof.
  refine (proj1 (proj2 (hover_policy_stays_in_box pow_half _
                          [Fin 0.2; Fin 0.5; Fin 1] _))).
  - intros x y Hx. reflexivity.
  - intros [|[|[|i]]] Hi; [reflexivity | reflexivity | reflexivity | lia].
Defined.

(** Three numeric tokens, two of them out of range: clamped by [parseRGB],
    rejected by [parseRgbInput]. *)
Lemma parseRGB_clamps_numeric_tokens_witness :
  parseRGB "300, -5,1e1" = Some [of_Z 255; of_Z 0; of_Z 10]
  /\ HoverJs.parseRgbInput "300, -5,1e1" = None.
Proof.
  destruct (parseRGB_clamps_numeric_tokens "300" " -5" "1e1"
              eq_refl eq_refl eq_refl eq_refl eq_refl eq_refl
              eq_refl eq_refl eq_refl) as (P & _ & H).
  split; [exact P | exact H].
Defined.

(** An empty token in the middle, and one at the end. *)
Lemma parseRGB_discards_empty_tokens_witness :
  parseRGB "10,,20,30" = Some [of_Z 10; of_Z 20; of_Z 30]
  /\ parseRGB "10,20,30," = Some [of_Z 10; of_Z 20; of_Z 30].
Proof.
  split.
  - exact (proj1 (parseRGB_discards_empty_tokens ["10"; ""; "20"; "30"]
                    "10" "20" "30" eq_refl eq_refl eq_refl eq_refl eq_refl)).
  - exact (proj1 (parseRGB_discards_empty_tokens ["10"; "20"; "30"; ""]
                    "10" "20" "30" eq_refl eq_refl eq_refl eq_refl eq_refl)).
Defined.

(** The middle gray. *)
Lemma rgbToHsv_divides_safely_witness :
  idx (rgbToHsv [Fin 0.5; Fin 0.5; Fin 0.5]) 0 = Fin 0
  /\ idx (rgbToHsv [Fin 0.5; Fin 0.5; Fin 0.5]) 1 = Fin 0.
Proof.
  apply (proj2 (rgbToHsv_divides_safely [Fin 0.5; Fin 0.5; Fin 0.5])).
  - intros [|[|[|i]]] Hi; [reflexivity | reflexivity | reflexivity | lia].
  - reflexivity.
Defined.

(** The simple chain on the colour 34, 139, 230, under the step host: the
    base-text run ends at parameters that are not those it began with; the
    hover-text run, started there, ends there; started from 0.5, 0.5, 0.5
    it would end elsewhere. *)
Lemma hover_text_is_warm_started_witness :
  params (Simple.baseText
            (Simple.applyChain pow_half exp_step
               [of_Z 34; of_Z 139; of_Z 230]))
  = [Fin (3887 # 480); Fin (-11147 # 11040); Fin (-491443 # 55200)]
  /\ params (Simple.hoverText
               (Simple.applyChain pow_half exp_step
                  [of_Z 34; of_Z 139; of_Z 230]))
     = [Fin (3887 # 480); Fin (-11147 # 11040); Fin (-491443 # 55200)]
  /\ fst (optimizeText_loop pow_half exp_step
            (Simple.hoverFromBase (rgb01 [of_Z 34; of_Z 139; of_Z 230])) 160
            ([Fin 0.5; Fin 0.5; Fin 0.5], Fin 0.35))
     = [Fin (3887 # 480); Fin (-4524547 # 4857600);
        Fin (-21754307 # 2428800)]
  /\ Store.cell
       (snd (Store.Simple.applyChain pow_half exp_step 0%nat form_world))
       (Store.params
          (Store.Simple.baseText
             (fst (Store.Simple.applyChain pow_half exp_step 0%nat form_world))))
     = [Fin (3887 # 480); Fin (-11147 # 11040); Fin (-491443 # 55200)].
Proof.
  destruct (hover_text_is_warm_started pow_half exp_step
              [of_Z 34; of_Z 139; of_Z 230])
    as (_ & (_ & S & Hv & _ & P & _) & St).
  destruct (St form_world 0%nat eq_refl) as (_ & C & _).
  cbv zeta in S, Hv, P, C. rewrite C, P, S, Hv.
  assert (E : fst (optimizeText_loop pow_half exp_step
                     (rgb01 [of_Z 34; of_Z 139; of_Z 230]) 160
                     ([Fin 0.5; Fin 0.5; Fin 0.5], Fin 0.35))
              = [Fin (3887 # 480); Fin (-11147 # 11040);
                 Fin (-491443 # 55200)])
    by (vm_compute; reflexivity).
  rewrite E.
  split; [reflexivity|]. split; [vm_compute; reflexivity|].
  split; [vm_compute; reflexivity | reflexivity].
Defined.

(** Two runs on the array of the form, the second under the host written
    otherwise. *)
Lemma applyChain_deterministic_witness :
  palette_in
    (snd (Store.applyChain pow_half' exp_step' 0%nat
            (snd (Store.applyChain pow_half exp_step 0%nat form_world))))
    (fst (Store.applyChain pow_half' exp_step' 0%nat
            (snd (Store.applyChain pow_half exp_step 0%nat form_world))))
  = applyChain pow_half exp_step [of_Z 34; of_Z 139; of_Z 230]
  /\ Store.draws
       (snd (Store.applyChain pow_half' exp_step' 0%nat
               (snd (Store.applyChain pow_half exp_step 0%nat form_world))))
     = 7%nat.
Proof.
  destruct (applyChain_deterministic pow_half pow_half' exp_step exp_step'
              (fun b e => match b with NaN => eq_refl | _ => eq_refl end)
              (fun x => match x with NaN => eq_refl | _ => eq_refl end)
              form_world 0%nat 0%nat [of_Z 34; of_Z 139; of_Z 230]
              eq_refl eq_refl)
    as ((_ & E & _ & _ & _ & _ & _ & D) & _).
  split; [exact E | exact D].
Defined.

(** Two tokens only, and three that are not numeric. *)
Lemma parseRGB_invalid_iff_witness :
  parseRGB "1,2" = None /\ parseRGB "a,b,c" = None.
Proof.
  destruct parseRGB_invalid_iff as (_ & H & _). split.
  - apply (proj2 (H ["1"; "2"] eq_refl)).
    intros (a & b & c & E & _). discriminate E.
  - apply (proj2 (H ["a"; "b"; "c"] eq_refl)).
    intros (a & b & c & E & Na & _).
    injection E as <- <- <-. discriminate Na.
Defined.

(** *** Instances of the results on the colour model *)

Open Scope num_scope.

(** The hosts of the instances are hosts of the kind the results ask
    for. *)
Ltac host_half :=
  first [ intros ? ? ?; split; [reflexivity | intros; reflexivity]
        | intros ? ?; reflexivity
        | intros ?; reflexivity ].

Ltac host_step :=
  let x := fresh "x" in
  intro x; unfold exp_step; destruct (Qle_bool (- (1 # 2)) x); reflexivity.

Ltac three_channels :=
  let i := fresh "i" in
  intros [|[|[|i]]] ?; [reflexivity | reflexivity | reflexivity | lia].

Ltac four_entries :=
  let i := fresh "i" in
  intros [|[|[|[|i]]]] ?;
  [reflexivity | reflexivity | reflexivity | reflexivity | lia].

(** The luminance 0.7, twice. *)
Lemma contrastRatio_bounds_witness :
  within 1 21 (contrastRatio (Fin 0.7) (Fin 0.7)) = true
  /\ (contrastRatio (Fin 0.7) (Fin 0.7) === 1) = true.
Proof.
  destruct (contrastRatio_bounds (Fin 0.7) (Fin 0.7) eq_refl eq_refl)
    as [R E].
  split; [exact R | exact (E eq_refl)].
Defined.

(** The colour 0.2, 0.5, 1. *)
Lemma luminance_in_unit_range_witness :
  within 0 1 (relLuminance pow_half [Fin 0.2; Fin 0.5; Fin 1]) = true.
Proof.
  refine (proj1 (luminance_in_unit_range pow_half
                   [Fin 0.2; Fin 0.5; Fin 1] _ _));
    [host_half | three_channels].
Defined.

(** The parameters 0.5, -3 and 40. *)
Lemma text_colour_in_unit_cube_witness :
  unit_cube (textColorFromParams exp_half [Fin 0.5; Fin (-3); Fin 40]).
Proof.
  apply text_colour_in_unit_cube; [host_half | three_channels].
Defined.

(** A blue background and a gray text. *)
Lemma text_loss_finite_witness :
  nonneg (lossForText pow_half [Fin 0.2; Fin 0.5; Fin 1]
            [Fin 0.5; Fin 0.5; Fin 0.5]) = true.
Proof.
  refine (proj1 (text_loss_finite pow_half [Fin 0.2; Fin 0.5; Fin 1]
                   [Fin 0.5; Fin 0.5; Fin 0.5] _ _ _));
    [host_half | three_channels | three_channels].
Defined.

(** The green channel of the colour 34, 139, 230 under a policy with an
    infinite entry. *)
Lemma hover_displays_no_lighter_witness :
  exists k : Z,
    idx (rgb255
           (map (fun v => v * 255)
              (hoverFromBase (rgb01 [of_Z 34; of_Z 139; of_Z 230])
                 [Fin 0.5; PosInf; Fin 0.5; Fin (-1)]))) 1
    = of_Z k
    /\ (0 <= k <= nth 1 [34; 139; 230] 0)%Z.
Proof.
  refine (proj1 (hover_displays_no_lighter 34 139 230
                   [Fin 0.5; PosInf; Fin 0.5; Fin (-1)] 1 _ _ _ _ _));
    [lia | lia | lia | four_entries | lia].
Defined.

(** A mix fraction of -2: the green channel is that of the base. *)
Lemma hover_mix_extremes_witness :
  (idx (hoverFromBase [Fin 0.2; Fin 0.5; Fin 1]
          [Fin (-2); Fin 0.5; Fin 0.5; Fin 0.5]) 1
   === idx [Fin 0.2; Fin 0.5; Fin 1] 1) = true.
Proof.
  refine (proj1 (hover_mix_extremes [Fin 0.2; Fin 0.5; Fin 1]
                   [Fin (-2); Fin 0.5; Fin 0.5; Fin 0.5] 1 _ _ _) _);
    [three_channels | four_entries | lia | reflexivity].
Defined.

(** The colour 0.2, 0.5, 1 under the fixed policy. *)
Lemma simple_hover_darkens_witness :
  unit_cube (Simple.hoverFromBase [Fin 0.2; Fin 0.5; Fin 1])
  /\ (idx (Simple.hoverFromBase [Fin 0.2; Fin 0.5; Fin 1]) 1
      <=? idx [Fin 0.2; Fin 0.5; Fin 1] 1) = true.
Proof.
  destruct (simple_hover_darkens [Fin 0.2; Fin 0.5; Fin 1])
    as (_ & U & L & _); [three_channels|].
  split; [exact U | apply L; lia].
Defined.

Lemma hsv_of_unit_cube_witness :
  exists h s v,
    rgbToHsv [Fin 0.2; Fin 0.5; Fin 1] = [Fin h; Fin s; Fin v]
    /\ (0 <= h <= 1)%Q /\ (0 <= s <= 1)%Q /\ (0 <= v <= 1)%Q
    /\ Fin v
       = Math_max (Math_max (idx [Fin 0.2; Fin 0.5; Fin 1] 0)
                            (idx [Fin 0.2; Fin 0.5; Fin 1] 1))
                  (idx [Fin 0.2; Fin 0.5; Fin 1] 2).
Proof. apply hsv_of_unit_cube; three_channels. Defined.

(** The hue 0.6, in the fourth sector. *)
Lemma rgb_of_hsv_in_unit_cube_witness :
  List.length (hsvToRgb [Fin 0.6; Fin 0.8; Fin 1]) = 3%nat
  /\ within 0 1 (idx (hsvToRgb [Fin 0.6; Fin 0.8; Fin 1]) 0) = true
  /\ (idx (hsvToRgb [Fin 0.6; Fin 0.8; Fin 1]) 0 <=? Fin 1) = true.
Proof. apply rgb_of_hsv_in_unit_cube; (lra || lia). Defined.

(** The colour 34, 139, 230. *)
Lemma hsv_round_trip_witness :
  rgb255
    (map (fun v => v * 255)
       (hsvToRgb (rgbToHsv (rgb01 [of_Z 34; of_Z 139; of_Z 230]))))
  = [of_Z 34; of_Z 139; of_Z 230].
Proof. apply hsv_round_trip; lia. Defined.

(** Forty turns from the parameters 0.5 on a blue background, under the
    step host. *)
Lemma optimizeText_total_witness :
  finite_upto 3
    (params (optimizeText pow_half exp_step [Fin 0.2; Fin 0.5; Fin 1]
               {| o_steps := Some 40%nat; o_lr := None;
                  o_initParams := Some [Fin 0.5; Fin 0.5; Fin 0.5] |}))
  /\ nonneg (loss (optimizeText pow_half exp_step [Fin 0.2; Fin 0.5; Fin 1]
                     {| o_steps := Some 40%nat; o_lr := None;
                        o_initParams := Some [Fin 0.5; Fin 0.5; Fin 0.5] |}))
     = true.
Proof.
  destruct (optimizeText_total pow_half exp_step [Fin 0.2; Fin 0.5; Fin 1]
              {| o_steps := Some 40%nat; o_lr := None;
                 o_initParams := Some [Fin 0.5; Fin 0.5; Fin 0.5] |})
    as (_ & F & _ & N);
    [host_half | host_step | three_channels
    | split; [reflexivity | split; [three_channels | reflexivity]]
    | reflexivity |].
  split; [exact F | exact N].
Defined.

(** A policy on the edge of the box, moved by the step of the gradient, on
    the colour 0.2, 0.5, 1. *)
Lemma hover_loss_finite_witness :
  nonneg (lossForHoverTheta pow_half [Fin 0.2; Fin 0.5; Fin 1]
            [Fin 0.35; Fin 1.001; Fin 0.86; Fin 1]) = true.
Proof.
  apply hover_loss_finite; [host_half | three_channels | four_entries].
Defined.

(** The palette of the colour 34, 139, 230, under the step host. *)
Lemma palette_well_defined_witness :
  unit_cube
    (hover01 (applyChain pow_half exp_step [of_Z 34; of_Z 139; of_Z 230]))
  /\ nonneg
       (loss (hoverText
                (applyChain pow_half exp_step [of_Z 34; of_Z 139; of_Z 230])))
     = true.
Proof.
  destruct (palette_well_defined pow_half exp_step "34, 139, 230"
              [of_Z 34; of_Z 139; of_Z 230])
    as (_ & H & _ & _ & _ & _ & _ & _ & N);
    [host_half | host_step | reflexivity |].
  split; [exact H | exact N].
Defined.

Lemma simple_palette_well_defined_witness :
  unit_cube
    (Simple.hover01
       (Simple.applyChain pow_half exp_step [of_Z 34; of_Z 139; of_Z 230]))
  /\ nonneg
       (loss (Simple.hoverText
                (Simple.applyChain pow_half exp_step
                   [of_Z 34; of_Z 139; of_Z 230])))
     = true.
Proof.
  destruct (simple_palette_well_defined pow_half exp_step "34, 139, 230"
              [of_Z 34; of_Z 139; of_Z 230])
    as (_ & H & _ & _ & _ & _ & _ & N);
    [host_half | host_step | reflexivity |].
  split; [exact H | exact N].
Defined.

(** The colour of the button for the input 34, 139, 230. *)
Lemma palette_css_colours_witness :
  rgbToCss toString_mark
    (rgb255
       (map (fun v => v * 255)
          (base01
             (applyChain pow_half exp_half [of_Z 34; of_Z 139; of_Z 230]))))
  = rgbToCss toString_mark [of_Z 34; of_Z 139; of_Z 230].
Proof.
  refine (proj1 (palette_css_colours pow_half exp_half toString_mark
                   "34, 139, 230" [of_Z 34; of_Z 139; of_Z 230] _ _ _));
    [host_half | host_half | reflexivity].
Defined.

Lemma printed_bytes_parse_back_witness :
  parseRGB (String.concat ", " [dec 34; dec 139; dec 230])
  = Some [of_Z 34; of_Z 139; of_Z 230].
Proof.
  refine (proj1 (proj2 (printed_bytes_parse_back toString_mark 34 139 230
                          _ _ _))); lia.
Defined.

(** The colour 34, 139, 230 again. *)
Lemma hover_js_hsv_round_trip_witness :
  HoverJs.rgb01ToCss toString_mark
    (HoverJs.hsvToRgb
       (HoverJs.rgbToHsv (rgb01 [of_Z 34; of_Z 139; of_Z 230])))
  = css_rgb " " 34 139 230.
Proof.
  refine (proj1 (hover_js_hsv_round_trip toString_mark 34 139 230
                   [Fin 0.2; Fin 0.5; Fin 1] _ _ _ _));
    [lia | lia | lia | three_channels].
Defined.

(** The blue [#228be6]. *)
Lemma hexToRgb01_decodes_witness :
  HoverJs.hexToRgb01 "#228be6"
  = rgb01 [of_Z (16 * 2 + 2); of_Z (16 * 8 + 11); of_Z (16 * 14 + 6)].
Proof.
  exact (proj1 (hexToRgb01_decodes "2" "2" "8" "b" "e" "6" 2 2 8 11 14 6
                  eq_refl eq_refl eq_refl eq_refl eq_refl eq_refl)).
Defined.

Lemma parseRgbInput_gives_bytes_witness :
  unit_cube (rgb01 [of_Z 34; of_Z 139; of_Z 230]).
Proof.
  exact (proj1 (parseRgbInput_gives_bytes "34, 139, 230"
                  (rgb01 [of_Z 34; of_Z 139; of_Z 230]) eq_refl)).
Defined.

(** Three integers, one of them above 255. *)
Lemma parsers_agree_on_decimals_witness :
  parseRGB "34, 300 ,230" = Some [of_Z 34; of_Z 255; of_Z 230]
  /\ HoverJs.parseRgbInput "34, 300 ,230" = None.
Proof.
  exact (parsers_agree_on_decimals "34" " 300 " "230"
           eq_refl eq_refl eq_refl eq_refl eq_refl eq_refl).
Defined.

(** A blue on a white background. *)
Lemma computeHoverColor_in_unit_cube_witness :
  unit_cube
    (HoverJs.computeHoverColor pow_half exp_half log1p_half
       [Fin 0.2; Fin 0.5; Fin 1] [Fin 1; Fin 1; Fin 1]).
Proof.
  refine (proj2 (computeHoverColor_in_unit_cube pow_half exp_half log1p_half
                   [Fin 0.2; Fin 0.5; Fin 1] [Fin 1; Fin 1; Fin 1] _ _ _ _));
    [host_half | host_half | three_channels | three_channels].
Defined.

Lemma hover_js_css_colours_witness :
  exists r g b : Z,
    (0 <= r <= 255)%Z /\ (0 <= g <= 255)%Z /\ (0 <= b <= 255)%Z
    /\ rgb01 [of_Z 34; of_Z 139; of_Z 230] = rgb01 [of_Z r; of_Z g; of_Z b]
    /\ HoverJs.cssRgb01 toString_mark (rgb01 [of_Z 34; of_Z 139; of_Z 230])
       = css_rgb " " r g b.
Proof.
  exact (proj1 (hover_js_css_colours toString_mark "34, 139, 230"
                  (rgb01 [of_Z 34; of_Z 139; of_Z 230]) eq_refl)).
Defined.

(** The blue channel under a policy on the edge of its box. *)
Lemma hover_floor_of_boxed_policy_witness :
  (0.35 * idx [Fin 0.2; Fin 0.5; Fin 1] 2
   <=? idx (hoverFromBase [Fin 0.2; Fin 0.5; Fin 1]
              [Fin 0.35; Fin 1; Fin 0.5; Fin 0.35]) 2) = true.
Proof.
  apply hover_floor_of_boxed_policy; [three_channels | reflexivity | lia].
Defined.

